(** * The apicase request engine (src/lib/apicase.js)

    A shallow embedding of [composeHooks] and [apicase]: the three hook
    chains (before / done / fail), the adapter call, cancellation, the
    event bus log and the promises the engine builds, with the microtask
    queue that orders deferred work.

    JavaScript closures supplied by the caller (hooks, the adapter callback,
    the cancellation callback) are modelled by what they do to the engine:
    the capability calls they make, in order, and how they return.  Calls
    made later (from a timer, say) enter as inputs of the environment. *)

From Stdlib Require Import ZArith Lia.
From stdpp Require Import base tactics option strings numbers list.

Set Default Proof Using "Type".
Open Scope nat_scope.

(** ** Values *)

(** JavaScript values as far as the engine looks at them.  [VRef l] is a
    reference to an object built by [pickState], stored at [l] in the heap;
    payloads, results and errors are opaque to the engine. *)
#[local] Unset Elimination Schemes.
Inductive value : Type :=
  | VUndefined
  | VNull
  | VBool (b : bool)
  | VNum (n : Z)
  | VStr (s : string)
  | VObj (fields : list (string * value))
  | VRef (l : nat).
#[local] Set Elimination Schemes.

(** The six public fields of the handle [res], which are also the fields
    [pickState] copies. *)
Record State : Type := mkState {
  success : bool;
  pending : bool;
  cancelled : bool;
  payload : value;
  result : value;
  meta : value
}.

(** An object literal holding some of the six fields, such as the
    [{ success: false, pending: false, cancelled: true }] of [cancel]. *)
Record Diff : Type := mkDiff {
  d_success : option bool;
  d_pending : option bool;
  d_cancelled : option bool;
  d_payload : option value;
  d_result : option value;
  d_meta : option value
}.

(** [Object.assign(target, diff)] on the six fields: the fields present in
    [diff] overwrite those of [target]. *)
Definition assign (target : State) (diff : Diff) : State :=
  {| success := default (success target) (d_success diff);
     pending := default (pending target) (d_pending diff);
     cancelled := default (cancelled target) (d_cancelled diff);
     payload := default (payload target) (d_payload diff);
     result := default (result target) (d_result diff);
     meta := default (meta target) (d_meta diff) |}.

Inductive chain : Type := Before | Done | Fail.

Global Instance chain_eq_dec : EqDecision chain.
Proof. solve_decision. Defined.

(** ** What the bus carries *)

(** One constructor per [bus.emit] of the engine; [prev], [next] and the
    snapshots of [change:state], [done], [fail], [finish] and [cancel] are
    object references.  [EvCustom] is an emission made by the adapter through
    the [emit] it is handed. *)
Inductive event : Type :=
  | ChangeState (prev next : nat) (diff : Diff)
  | ChangePayload (prev next : value)
  | ChangeResult (prev next : value)
  | EvDone (result : value) (snapshot : nat)
  | EvFail (result : value) (snapshot : nat)
  | EvFinish (result : value) (snapshot : nat)
  | EvCancel (snapshot : nat)
  | EvError (error : value)
  | EvCustom (name : string) (arg : value).

(** ** Caller-supplied code *)

(** The context object a hook receives from [createContext]. *)
Record Ctx : Type := mkCtx {
  ctx_meta : value;
  ctx_payload : value;
  ctx_result : value
}.

(** The flow-control capabilities of a context: [next], and the redirects
    [done], [fail] and [retry] built by [changeFlow]. *)
Inductive capability : Type := cap_next | cap_done | cap_fail | cap_retry.

(** What one invocation of a hook does: the capability calls it makes
    before returning, then a normal return or a throw. *)
Record HookBody : Type := mkHookBody {
  calls : list (capability * value);
  throws : option value
}.

(** A hook: its behaviour may depend on how often it ran before (a closure
    with a counter) and on the context. *)
Definition Hook : Type := nat -> Ctx -> HookBody.

(** How the function registered with [setCancelCallback] ends. *)
Inductive CancelOutcome : Type :=
  | CbReturns
  | CbThrows (e : value)
  | CbRejects (e : value)
  | CbNeverSettles.

(** The calls an adapter makes on the object [doRequest] hands it.  The
    function it passes to [setCancelCallback] is adapter code as well, in
    whose scope that object is: [Acting name does outcome] makes the calls
    [does] on it when [cancel] runs it, and then ends as [outcome] says.
    [NoCallback] is the initial [() => {}]. *)
#[local] Unset Elimination Schemes.
Inductive AdapterCall : Type :=
  | AResolve (result : value)
  | AReject (result : value)
  | ASetCancelCallback (cb : CancelCb)
  | AEmit (name : string) (arg : value)
with CancelCb : Type :=
  | NoCallback
  | Acting (name : string) (does : list AdapterCall) (outcome : CancelOutcome).
#[local] Set Elimination Schemes.

(** A cancellation callback that calls nothing of the engine. *)
Definition Callback (name : string) (outcome : CancelOutcome) : CancelCb :=
  Acting name [] outcome.

Definition outcome_of (cb : CancelCb) : CancelOutcome :=
  match cb with
  | NoCallback => CbReturns
  | Acting _ _ o => o
  end.

Definition does_of (cb : CancelCb) : list AdapterCall :=
  match cb with
  | NoCallback => []
  | Acting _ cs _ => cs
  end.

(** How [adapter.callback] returns: a value without [then], a throw, a
    thenable with a [catch] method, which rejects with [e] when
    [rejects = Some e], or a thenable without one, on which
    [cb.catch(reject)] is a [TypeError]. *)
Inductive AdapterReturn : Type :=
  | RetPlain
  | RetThrow (e : value)
  | RetThenable (rejects : option value)
  | RetThenableNoCatch.

(** How a function of the caller ends that the engine calls for its
    value. *)
Inductive Returned : Type :=
  | Returns (v : value)
  | Throws (e : value).

Record AdapterBody : Type := mkAdapterBody {
  acalls : list AdapterCall;
  aret : AdapterReturn
}.

(** [callback n payload result]: [n] counts the earlier calls. *)
Record Adapter : Type := adapterOf {
  callback : nat -> value -> value -> AdapterBody;
  convert : option (value -> Returned);
  createState : option value
}.

(** An adapter whose [convert], if it has one, returns. *)
Definition mkAdapter (callback : nat -> value -> value -> AdapterBody)
    (convert : option (value -> value)) (createState : option value) : Adapter :=
  adapterOf callback (option_map (fun f v => Returns (f v)) convert) createState.

(** A normalized request ([req._isNormalized]); [req_options] says whether
    the deprecated [options] key is present. *)
Record Request : Type := mkRequest {
  req_meta : value;
  req_payload : value;
  hooks_before : list Hook;
  hooks_done : list Hook;
  hooks_fail : list Hook;
  req_options : bool
}.

(** ** Promises and microtasks *)

Inductive outcome : Type :=
  | Fulfilled (v : value)
  | Rejected (e : value).

(** A reaction registered on a pending promise:
    - [RSettle p]: the pair of resolving functions of [p], registered when
      [p] was resolved with this promise;
    - [RCatchError d]: [.catch(throwError)], with derived promise [d]. *)
Inductive reaction : Type :=
  | RSettle (p : nat)
  | RCatchError (d : nat).

Inductive pstate : Type :=
  | Pending (reactions : list reaction)
  | Settled (o : outcome).

(** Which expression of the source built the promise. *)
Inductive kind : Type :=
  | KStep (c : chain)     (* new Promise(resolve => ...) in withPayload *)
  | KFinal (c : chain)    (* Promise.resolve().then(() => options.final(payload)) *)
  | KRequest              (* new Promise(function request ...) in doRequest *)
  | KCaught               (* .catch(throwError) *)
  | KCancel.              (* the promise cancel() returns *)

(** [alreadyResolved] is the promise's own flag (its resolving functions
    act once); [isResolved] is the variable of that name in [withPayload]. *)
Record Cell : Type := mkCell {
  ckind : kind;
  pst : pstate;
  alreadyResolved : bool;
  isResolved : bool
}.

Inductive job : Type :=
  | JFinal (c : chain) (payload : value) (d : nat)
  | JThenable (p q : nat)
  | JReact (r : reaction) (o : outcome)
  | JCancelThen (d : nat) (o : outcome)
  | JAdapterCatch (p : nat) (e : value).

Inductive diagnostic : Type :=
  | DeprecatedOptions
  | ResolveTwice (c : chain) (idx : nat).

(** Calls into caller-supplied code, recorded in order. *)
Inductive call : Type :=
  | HookCall (c : chain) (i : nat) (ctx : Ctx)
  | AdapterCallback (payload result : value) (body : AdapterBody)
  | CancelCall (cb : CancelCb)
  | ConvertThrow (payload error : value).

(** ** The state of one request *)

Record Machine : Type := mkMachine {
  res : State;                  (* the public fields of the handle *)
  idx_before : nat;             (* the [idx] of each composeHooks closure *)
  idx_done : nat;
  idx_fail : nat;
  cancelCallback : CancelCb;
  cancelOwner : nat;            (* the [doRequest] promise whose context registered it *)
  bus : list event;             (* emissions, oldest first *)
  heap : list State;            (* objects built by pickState *)
  promises : list Cell;
  microtasks : list job;        (* oldest first *)
  console : list diagnostic;
  trace : list call
}.

Definition set_res (r : State) (m : Machine) : Machine :=
  mkMachine r (idx_before m) (idx_done m) (idx_fail m) (cancelCallback m) (cancelOwner m)
    (bus m) (heap m) (promises m) (microtasks m) (console m) (trace m).

Definition set_cancelCallback (cb : CancelCb) (m : Machine) : Machine :=
  mkMachine (res m) (idx_before m) (idx_done m) (idx_fail m) cb (cancelOwner m)
    (bus m) (heap m) (promises m) (microtasks m) (console m) (trace m).

Definition set_cancelOwner (p : nat) (m : Machine) : Machine :=
  mkMachine (res m) (idx_before m) (idx_done m) (idx_fail m) (cancelCallback m) p
    (bus m) (heap m) (promises m) (microtasks m) (console m) (trace m).

Definition set_heap (h : list State) (m : Machine) : Machine :=
  mkMachine (res m) (idx_before m) (idx_done m) (idx_fail m) (cancelCallback m) (cancelOwner m)
    (bus m) h (promises m) (microtasks m) (console m) (trace m).

Definition set_promises (ps : list Cell) (m : Machine) : Machine :=
  mkMachine (res m) (idx_before m) (idx_done m) (idx_fail m) (cancelCallback m) (cancelOwner m)
    (bus m) (heap m) ps (microtasks m) (console m) (trace m).

Definition set_microtasks (q : list job) (m : Machine) : Machine :=
  mkMachine (res m) (idx_before m) (idx_done m) (idx_fail m) (cancelCallback m) (cancelOwner m)
    (bus m) (heap m) (promises m) q (console m) (trace m).

Definition idx (c : chain) (m : Machine) : nat :=
  match c with
  | Before => idx_before m
  | Done => idx_done m
  | Fail => idx_fail m
  end.

(** [idx++] in the closure of chain [c]. *)
Definition bump (c : chain) (m : Machine) : Machine :=
  match c with
  | Before =>
      mkMachine (res m) (S (idx_before m)) (idx_done m) (idx_fail m) (cancelCallback m) (cancelOwner m)
        (bus m) (heap m) (promises m) (microtasks m) (console m) (trace m)
  | Done =>
      mkMachine (res m) (idx_before m) (S (idx_done m)) (idx_fail m) (cancelCallback m) (cancelOwner m)
        (bus m) (heap m) (promises m) (microtasks m) (console m) (trace m)
  | Fail =>
      mkMachine (res m) (idx_before m) (idx_done m) (S (idx_fail m)) (cancelCallback m) (cancelOwner m)
        (bus m) (heap m) (promises m) (microtasks m) (console m) (trace m)
  end.

(** [bus.emit]. *)
Definition emit (e : event) (m : Machine) : Machine :=
  mkMachine (res m) (idx_before m) (idx_done m) (idx_fail m) (cancelCallback m) (cancelOwner m)
    (bus m ++ [e]) (heap m) (promises m) (microtasks m) (console m) (trace m).

(** [console.error] / [console.warn]. *)
Definition report (d : diagnostic) (m : Machine) : Machine :=
  mkMachine (res m) (idx_before m) (idx_done m) (idx_fail m) (cancelCallback m) (cancelOwner m)
    (bus m) (heap m) (promises m) (microtasks m) (console m ++ [d]) (trace m).

Definition record (c : call) (m : Machine) : Machine :=
  mkMachine (res m) (idx_before m) (idx_done m) (idx_fail m) (cancelCallback m) (cancelOwner m)
    (bus m) (heap m) (promises m) (microtasks m) (console m) (trace m ++ [c]).

Definition enqueue (j : job) (m : Machine) : Machine :=
  set_microtasks (microtasks m ++ [j]) m.

(** [pickState(res)]: a fresh object holding the six fields. *)
Definition pickState (m : Machine) : nat * Machine :=
  (length (heap m), set_heap (heap m ++ [res m]) m).

(** ** Promise primitives *)

Definition newCell (k : kind) (m : Machine) : nat * Machine :=
  (length (promises m),
   set_promises (promises m ++ [mkCell k (Pending []) false false]) m).

Definition cell_at (p : nat) (m : Machine) : Cell :=
  default (mkCell KCancel (Pending []) false false) (promises m !! p).

Definition set_cell (p : nat) (c : Cell) (m : Machine) : Machine :=
  set_promises (<[p := c]> (promises m)) m.

(** Settle a pending promise and queue one job per registered reaction. *)
Definition settle (p : nat) (o : outcome) (m : Machine) : Machine :=
  let c := cell_at p m in
  match pst c with
  | Pending rs =>
      let m := set_cell p (mkCell (ckind c) (Settled o) true (isResolved c)) m in
      set_microtasks (microtasks m ++ map (fun r => JReact r o) rs) m
  | Settled _ => m
  end.

(** [q.then(...)] with reaction [r]. *)
Definition subscribe (q : nat) (r : reaction) (m : Machine) : Machine :=
  let c := cell_at q m in
  match pst c with
  | Pending rs =>
      set_cell q (mkCell (ckind c) (Pending (rs ++ [r])) (alreadyResolved c) (isResolved c)) m
  | Settled o => enqueue (JReact r o) m
  end.

(** The [resolve] function of promise [p] called with the promise [q]:
    only the first call of [resolve] or [reject] acts; it locks [p] onto
    [q] through a job that subscribes to [q]. *)
Definition resolveWith (p q : nat) (m : Machine) : Machine :=
  let c := cell_at p m in
  if alreadyResolved c then m
  else
    let m := set_cell p (mkCell (ckind c) (pst c) true (isResolved c)) m in
    enqueue (JThenable p q) m.

(** The [reject] function of promise [p]. *)
Definition rejectWith (p : nat) (e : value) (m : Machine) : Machine :=
  if alreadyResolved (cell_at p m) then m else settle p (Rejected e) m.

(** ** The engine *)

(** The error of calling a capability the context does not hold
    ([ctx.retry] in a before-hook, say): [undefined] is not a function. *)
Definition TypeError : value := VStr "TypeError: not a function".

(** The capabilities of the context each chain builds; [next] is added to
    every context by [withPayload]. *)
Definition available (c : chain) (cap : capability) : bool :=
  match c, cap with
  | _, cap_next => true
  | Before, cap_done | Before, cap_fail => true
  | Done, cap_fail => true
  | Fail, cap_done | Fail, cap_retry => true
  | _, _ => false
  end.

(** The chain a capability continues in: [done: changeFlow(done)],
    [fail: changeFlow(fail)], [retry: changeFlow(before)]. *)
Definition target (c : chain) (cap : capability) : chain :=
  match cap with
  | cap_next => c
  | cap_done => Done
  | cap_fail => Fail
  | cap_retry => Before
  end.

Fixpoint hookRuns (c : chain) (i : nat) (tr : list call) : nat :=
  match tr with
  | [] => 0
  | HookCall c' i' _ :: tr =>
      (if bool_decide (c = c' ∧ i = i') then 1 else 0) + hookRuns c i tr
  | _ :: tr => hookRuns c i tr
  end.

Fixpoint adapterRuns (tr : list call) : nat :=
  match tr with
  | [] => 0
  | AdapterCallback _ _ _ :: tr => S (adapterRuns tr)
  | _ :: tr => adapterRuns tr
  end.

Definition deref (l : nat) (m : Machine) : State :=
  default (res m) (heap m !! l).

(** [req.adapter.convert ? req.adapter.convert(payload) : payload]: how
    its evaluation ends, and the payload the adapter sees when it
    returns. *)
Definition convert_result (adapter : Adapter) (v : value) : Returned :=
  match convert adapter with Some f => f v | None => Returns v end.

Definition converted (adapter : Adapter) (v : value) : value :=
  match convert_result adapter v with Returns w => w | Throws _ => v end.

Section Engine.

(** [process.env.NODE_ENV === 'production'] *)
Variable production : bool.
Variable adapter : Adapter.
Variable req : Request.

Definition hooks (c : chain) : list Hook :=
  match c with
  | Before => hooks_before req
  | Done => hooks_done req
  | Fail => hooks_fail req
  end.

(** The [update] option of each chain: emit the change event with the
    old and the new value, then write the public fields. *)
Definition update (c : chain) (v : value) (m : Machine) : Machine :=
  match c with
  | Before =>
      let prev := payload (res m) in
      let m := emit (ChangePayload prev v) m in
      set_res (mkState (success (res m)) (pending (res m)) (cancelled (res m))
                 v (result (res m)) (meta (res m))) m
  | Done =>
      let prev := result (res m) in
      let m := emit (ChangeResult prev v) m in
      set_res (mkState true false (cancelled (res m))
                 (payload (res m)) v (meta (res m))) m
  | Fail =>
      let prev := result (res m) in
      let m := emit (ChangeResult prev v) m in
      set_res (mkState false false (cancelled (res m))
                 (payload (res m)) v (meta (res m))) m
  end.

(** The [createContext] option of each chain, without the capabilities. *)
Definition createContext (c : chain) (v : value) (m : Machine) : Ctx :=
  match c with
  | Before => mkCtx (req_meta req) v VUndefined
  | Done | Fail => mkCtx (req_meta req) (payload (res m)) v
  end.

(** [setState]: [prev] is a fresh [pickState(res)]; [Object.assign(prev,
    diff)] writes [diff] into that same object and returns it, so [next]
    is the reference [prev]. *)
Definition setState (diff : Diff) (m : Machine) : Machine :=
  let '(prev, m) := pickState m in
  let m := set_heap (<[prev := assign (deref prev m) diff]> (heap m)) m in
  let next := prev in
  let m := emit (ChangeState prev next diff) m in
  set_res (deref next m) m.

(** [tryResolve] of the step whose promise is [p], called with the
    promise [q]. *)
Definition tryResolve (c : chain) (p q : nat) (m : Machine) : Machine :=
  if negb production && isResolved (cell_at p m) then
    report (ResolveTwice c (idx c m)) m
  else
    let cl := cell_at p m in
    let m := set_cell p (mkCell (ckind cl) (pst cl) (alreadyResolved cl) true) m in
    resolveWith p q m.

(** The branch of [withPayload] taken when no hook is left at [idx]:
    [options.update(payload)], then
    [Promise.resolve().then(() => options.final(payload))]. *)
Definition terminal (c : chain) (v : value) (m : Machine) : nat * Machine :=
  let m := update c v m in
  let '(d, m) := newCell (KFinal c) m in
  (d, enqueue (JFinal c v d) m).

Section Steps.

(** The three chains as they are reachable from a capability: [before],
    [done] and [fail] refer to each other through the contexts. *)
Variable run : chain -> value -> Machine -> option (nat * Machine).

(** One capability call made by the hook of chain [c] whose step
    promise is [p].  [next]: [idx++], [update], then [tryResolve
    (withPayload(payload))]; a redirect: [tryResolve(newFlow(payload))].
    The argument of [tryResolve] is evaluated before [tryResolve] runs. *)
Definition invoke (c : chain) (p : nat) (cv : capability * value)
    (m : Machine) : option (option value * Machine) :=
  let '(cap, v) := cv in
  if available c cap then
    let m := match cap with
             | cap_next => update c v (bump c m)
             | _ => m
             end in
    match run (target c cap) v m with
    | None => None
    | Some (q, m) => Some (None, tryResolve c p q m)
    end
  else Some (Some TypeError, m).

Fixpoint runCalls (c : chain) (p : nat) (cs : list (capability * value))
    (m : Machine) : option (option value * Machine) :=
  match cs with
  | [] => Some (None, m)
  | cv :: cs =>
      match invoke c p cv m with
      | None => None
      | Some (Some e, m) => Some (Some e, m)
      | Some (None, m) => runCalls c p cs m
      end
  end.

(** One call on the object handed to [adapter.callback], [inner] being
    the promise of [doRequest]. *)
Definition adapterCall (inner : nat) (a : AdapterCall) (m : Machine)
    : option Machine :=
  match a with
  | AResolve r =>
      match run Done r m with
      | None => None
      | Some (q, m) => Some (resolveWith inner q m)
      end
  | AReject r =>
      match run Fail r m with
      | None => None
      | Some (q, m) => Some (resolveWith inner q m)
      end
  | ASetCancelCallback cb => Some (set_cancelCallback cb (set_cancelOwner inner m))
  | AEmit name arg => Some (emit (EvCustom name arg) m)
  end.

Fixpoint adapterCalls (inner : nat) (cs : list AdapterCall) (m : Machine)
    : option Machine :=
  match cs with
  | [] => Some m
  | a :: cs =>
      match adapterCall inner a m with
      | None => None
      | Some m => adapterCalls inner cs m
      end
  end.

(** What [doRequest] does once the [try] block is left: a throw of
    [adapter.callback] or of [cb.catch] lands in [catch (err) {
    reject(err) }]; a thenable that rejects calls the [reject] it was
    given, in a microtask of its own. *)
Definition afterCallback (inner : nat) (r : AdapterReturn) (m : Machine) : Machine :=
  match r with
  | RetPlain => m
  | RetThrow e => rejectWith inner e m
  | RetThenable None => m
  | RetThenable (Some e) => enqueue (JAdapterCatch inner e) m
  | RetThenableNoCatch => rejectWith inner TypeError m
  end.

(** [doRequest]: the promise [inner] around the adapter call, then
    [.catch(throwError)].  The argument object is built before
    [adapter.callback] is called, so a [convert] that throws leaves the
    [try] block before the call. *)
Definition doRequest (v : value) (m : Machine) : option (nat * Machine) :=
  let '(inner, m) := newCell KRequest m in
  match convert_result adapter v with
  | Throws e =>
      let m := record (ConvertThrow v e) m in
      let m := rejectWith inner e m in
      let '(outer, m) := newCell KCaught m in
      Some (outer, subscribe inner (RCatchError outer) m)
  | Returns arg =>
      let body := callback adapter (adapterRuns (trace m)) arg (result (res m)) in
      let m := record (AdapterCallback arg (result (res m)) body) m in
      match adapterCalls inner (acalls body) m with
      | None => None
      | Some m =>
          let m := afterCallback inner (aret body) m in
          let '(outer, m) := newCell KCaught m in
          Some (outer, subscribe inner (RCatchError outer) m)
      end
  end.

End Steps.

(** [withPayload] of the chain [c].  [fuel] bounds the nesting of calls. *)
Fixpoint withPayload (fuel : nat) (c : chain) (v : value) (m : Machine)
    {struct fuel} : option (nat * Machine) :=
  match fuel with
  | 0 => None
  | S fuel =>
      match hooks c !! idx c m with
      | None => Some (terminal c v m)
      | Some hook =>
          let '(p, m) := newCell (KStep c) m in
          let ctx := createContext c v m in
          let body := hook (hookRuns c (idx c m) (trace m)) ctx in
          let m := record (HookCall c (idx c m) ctx) m in
          match runCalls (withPayload fuel) c p (calls body) m with
          | None => None
          | Some (thrown, m) =>
              match from_option Some (throws body) thrown with
              | Some e => Some (p, rejectWith p e m)
              | None => Some (p, m)
              end
          end
      end
  end.

(** [throwError]: emit, then rethrow (the caller rejects with [error]). *)
Definition throwError (error : value) (m : Machine) : Machine :=
  emit (EvError error) m.

(** The [final] option of the done- and fail-chain. *)
Definition final (c : chain) (v : value) (m : Machine) : value * Machine :=
  let '(s1, m) := pickState m in
  let m := emit (match c with Fail => EvFail v s1 | _ => EvDone v s1 end) m in
  let '(s2, m) := pickState m in
  let m := emit (EvFinish v s2) m in
  let '(s3, m) := pickState m in
  (VRef s3, m).

Definition cancelDiff : Diff :=
  mkDiff (Some false) (Some false) (Some true) None None None.

(** One microtask. *)
Definition runJob (fuel : nat) (j : job) (m : Machine) : option Machine :=
  match j with
  | JFinal Before v d =>
      match doRequest (withPayload fuel) v m with
      | None => None
      | Some (q, m) => Some (resolveWith d q m)
      end
  | JFinal c v d =>
      let '(s, m) := final c v m in
      Some (settle d (Fulfilled s) m)
  | JThenable p q => Some (subscribe q (RSettle p) m)
  | JReact (RSettle p) o => Some (settle p o m)
  | JReact (RCatchError d) (Fulfilled v) => Some (settle d (Fulfilled v) m)
  | JReact (RCatchError d) (Rejected e) =>
      Some (settle d (Rejected e) (throwError e m))
  | JCancelThen d (Fulfilled _) =>
      let m := setState cancelDiff m in
      let '(s, m) := pickState m in
      let m := emit (EvCancel s) m in
      Some (settle d (Fulfilled VUndefined) m)
  | JCancelThen d (Rejected e) => Some (settle d (Rejected e) m)
  | JAdapterCatch inner e => Some (rejectWith inner e m)
  end.

(** What [Promise.resolve(x).then(...)] leaves behind, [x] being what
    the cancellation callback came to: nothing when it threw (the
    expression is not reached), else the promise [cancel] returns and,
    once [x] is settled, the job of the [then]. *)
Definition afterCancelCallback (o : CancelOutcome) (m : Machine) : Machine :=
  match o with
  | CbThrows _ => m
  | CbReturns =>
      let '(d, m) := newCell KCancel m in
      enqueue (JCancelThen d (Fulfilled VUndefined)) m
  | CbRejects e =>
      let '(d, m) := newCell KCancel m in
      enqueue (JCancelThen d (Rejected e)) m
  | CbNeverSettles => snd (newCell KCancel m)
  end.

(** [res.cancel]: [Promise.resolve(cancelCallback()).then(...)].  The
    callback runs first, with whatever it calls on the adapter's
    object. *)
Definition cancel (fuel : nat) (m : Machine) : option Machine :=
  let cb := cancelCallback m in
  let m := record (CancelCall cb) m in
  match adapterCalls (withPayload fuel) (cancelOwner m) (does_of cb) m with
  | None => None
  | Some m => Some (afterCancelCallback (outcome_of cb) m)
  end.

(** The handle as [apicase] builds it, before [res.promise] is set. *)
Definition init : Machine :=
  {| res := {| success := false; pending := true; cancelled := false;
               payload := VObj [];
               result := default VNull (createState adapter);
               meta := req_meta req |};
     idx_before := 0; idx_done := 0; idx_fail := 0;
     cancelCallback := NoCallback; cancelOwner := 0;
     bus := []; heap := []; promises := []; microtasks := [];
     console := if req_options req then [DeprecatedOptions] else [];
     trace := [] |}.

(** [apicase(adapter)(req)] up to its [return res]: the promise is
    [res.promise = before(req.payload)]. *)
Definition apicase (fuel : nat) : option (nat * Machine) :=
  withPayload fuel Before (req_payload req) init.

(** What happens to a request after [apicase] returned: the next
    microtask runs, the caller cancels, or caller-supplied code that kept
    a capability uses it. *)
Inductive input : Type :=
  | ITick
  | ICancel
  | ILateHook (c : chain) (p : nat) (cap : capability) (v : value)
  | ILateAdapter (inner : nat) (a : AdapterCall)
  | ILateThenable (inner : nat) (e : value).

Definition perform (fuel : nat) (i : input) (m : Machine) : option Machine :=
  match i with
  | ITick =>
      match microtasks m with
      | [] => Some m
      | j :: q => runJob fuel j (set_microtasks q m)
      end
  | ICancel => cancel fuel m
  | ILateHook c p cap v =>
      match ckind (cell_at p m), promises m !! p with
      | KStep c', Some _ =>
          if bool_decide (c = c') then
            match invoke (withPayload fuel) c p (cap, v) m with
            | None => None
            | Some (_, m) => Some m
            end
          else None
      | _, _ => None
      end
  | ILateAdapter inner a =>
      match ckind (cell_at inner m), promises m !! inner with
      | KRequest, Some _ => adapterCall (withPayload fuel) inner a m
      | _, _ => None
      end
  | ILateThenable inner e =>
      match ckind (cell_at inner m), promises m !! inner with
      | KRequest, Some _ => Some (enqueue (JAdapterCatch inner e) m)
      | _, _ => None
      end
  end.

(** Run microtasks until the queue is empty. *)
Fixpoint drain (fuel : nat) (m : Machine) : option Machine :=
  match fuel with
  | 0 => None
  | S fuel =>
      match microtasks m with
      | [] => Some m
      | j :: q =>
          match runJob fuel j (set_microtasks q m) with
          | None => None
          | Some m => drain fuel m
          end
      end
  end.

Fixpoint performAll (fuel : nat) (inputs : list input) (m : Machine)
    : option Machine :=
  match inputs with
  | [] => Some m
  | i :: inputs =>
      match perform fuel i m with
      | None => None
      | Some m => performAll fuel inputs m
      end
  end.

(** How the promise [p] stands. *)
Definition settled (p : nat) (m : Machine) : option outcome :=
  match pst (cell_at p m) with
  | Pending _ => None
  | Settled o => Some o
  end.

End Engine.

Arguments hooks req c : simpl never.
Arguments invoke : simpl never.
Arguments adapterCall : simpl never.
Arguments doRequest : simpl never.
Arguments terminal : simpl never.
Arguments final : simpl never.
Arguments setState : simpl never.
Arguments tryResolve : simpl never.
Arguments settle : simpl never.
Arguments subscribe : simpl never.
Arguments resolveWith : simpl never.
Arguments rejectWith : simpl never.
Arguments cancel : simpl never.
Arguments update : simpl never.

(** ** Scenarios *)

Definition resolves (r : value) : Adapter :=
  mkAdapter (fun _ _ _ => mkAdapterBody [AResolve r] RetPlain) None None.

Definition rejects (r : value) : Adapter :=
  mkAdapter (fun _ _ _ => mkAdapterBody [AReject r] RetPlain) None None.

(** An adapter whose callback returns without calling anything: it will
    settle later, if at all. *)
Definition waits : Adapter :=
  mkAdapter (fun _ _ _ => mkAdapterBody [] RetPlain) None None.

Definition plain (meta payload : value) : Request :=
  mkRequest meta payload [] [] [] false.

Definition a1 : value := VObj [("a"%string, VNum 1)].

(** A run of [apicase] followed by inputs of the environment; the result
    is the completion promise [res.promise] and the final state. *)
Definition session (production : bool) (adapter : Adapter) (req : Request)
    (fuel : nat) (inputs : list input) : option (nat * Machine) :=
  match apicase production adapter req fuel with
  | None => None
  | Some (p, m) =>
      match performAll production adapter req fuel inputs m with
      | None => None
      | Some m => Some (p, m)
      end
  end.

(** The machines a request can be in: what [apicase] returns, and what
    any input makes of a reachable machine. *)
Inductive reachable (production : bool) (adapter : Adapter) (req : Request)
    : Machine -> Prop :=
  | reach_apicase fuel p m :
      apicase production adapter req fuel = Some (p, m) ->
      reachable production adapter req m
  | reach_perform fuel i m m' :
      reachable production adapter req m ->
      perform production adapter req fuel i m = Some m' ->
      reachable production adapter req m'.

(** The events of the terminal actions: the [final] of the done- and the
    fail-chain, and the cancellation. *)
Definition terminal_event (e : event) : bool :=
  match e with
  | EvDone _ _ | EvFail _ _ | EvFinish _ _ | EvCancel _ => true
  | _ => false
  end.

(** A [change:result] was emitted after a [cancel] event: an update of the
    done- or fail-chain ran after a cancellation. *)
Definition result_after_cancel (b : list event) : Prop :=
  exists l1 s l2 p n l3, b = l1 ++ EvCancel s :: l2 ++ ChangeResult p n :: l3.

(** What holds of the state record at every point of a request. *)
Definition lifecycle (m : Machine) : Prop :=
  (pending (res m) = true ->
     success (res m) = false /\ cancelled (res m) = false
     /\ (forall e, e ∈ bus m -> terminal_event e = false)
     /\ (forall c v d, JFinal c v d ∈ microtasks m -> c = Before))
  /\ (cancelled (res m) = true -> exists l1 s l2, bus m = l1 ++ EvCancel s :: l2)
  /\ (success (res m) = true -> cancelled (res m) = true ->
       result_after_cancel (bus m)).

(** The second clause of the state invariant as the specification words
    it: once [pending] is false, at most one of [success] and [cancelled]
    is true. *)
Definition at_most_one_outcome (m : Machine) : Prop :=
  pending (res m) = false ->
  ~ (success (res m) = true /\ cancelled (res m) = true).

(** [plumbing m m']: the public fields, the cursors, the cancellation
    callback, the bus and the heap are those of [m]; the queue of [m'] is
    that of [m] with jobs added, none of them the [final] of a chain. *)
Definition deferred (j : job) : Prop :=
  match j with
  | JFinal _ _ _ => False
  | _ => True
  end.

Definition plumbing (m m' : Machine) : Prop :=
  res m' = res m /\ idx_before m' = idx_before m /\ idx_done m' = idx_done m
  /\ idx_fail m' = idx_fail m /\ cancelCallback m' = cancelCallback m
  /\ bus m' = bus m /\ heap m' = heap m
  /\ (exists js, microtasks m' = microtasks m ++ js /\ Forall deferred js)
  /\ (exists cs, trace m' = trace m ++ cs).

(** Along a request the cursors never go back, and the bus and the record
    of calls only get longer. *)
Definition grows (m m' : Machine) : Prop :=
  (forall c, idx c m <= idx c m')
  /\ (exists l, bus m' = bus m ++ l)
  /\ (exists cs, trace m' = trace m ++ cs).

(** The callback in force after the adapter made the calls [cs]: the last
    one passed to [setCancelCallback], or the one in force before. *)
Definition registered (cs : list AdapterCall) (cb0 : CancelCb) : CancelCb :=
  foldl (fun cb a => match a with ASetCancelCallback cb' => cb' | _ => cb end)
    cb0 cs.

(** An adapter that registers a cancellation callback and settles later. *)
Definition registers (cb : CancelCb) : Adapter :=
  mkAdapter (fun _ _ _ => mkAdapterBody [ASetCancelCallback cb] RetPlain) None None.

(** A hook that calls [next] at once with the payload (or result) it was
    given. *)
Definition passes : Hook :=
  fun _ ctx => mkHookBody [(cap_next, ctx_payload ctx)] None.

(** A before-hook that calls [next] at once with [f] of its payload. *)
Definition continues (f : value -> value) : Hook :=
  fun _ ctx => mkHookBody [(cap_next, f (ctx_payload ctx))] None.

(** A fail-hook that retries with [v] the first time it runs and lets the
    failure through afterwards. *)
Definition retries_once (v : value) : Hook :=
  fun n ctx =>
    mkHookBody [match n with
                | 0 => (cap_retry, v)
                | _ => (cap_next, ctx_result ctx)
                end] None.

(** An adapter that rejects its first call and resolves the later ones. *)
Definition flaky : Adapter :=
  mkAdapter (fun n _ _ =>
               mkAdapterBody [match n with
                              | 0 => AReject (VStr "bad")
                              | _ => AResolve (VStr "ok")
                              end] RetPlain) None None.

(** The terminal state triples as the specification lists them. *)
Definition resolved_state (s : State) : Prop :=
  pending s = false /\ success s = true /\ cancelled s = false.

Definition cancelled_state (s : State) : Prop :=
  success s = false /\ pending s = false /\ cancelled s = true.

(** [apart n m m']: from [m] to [m'] the promises below [n] are left as
    they are, promises are only added, no queued job locks a promise below
    [n] onto another, and the console only gets longer. *)
Definition locks_below (n : nat) (j : job) : Prop :=
  match j with
  | JThenable p _ => p < n
  | _ => False
  end.

Definition apart (n : nat) (m m' : Machine) : Prop :=
  length (promises m) <= length (promises m')
  /\ (forall i, i < n -> promises m' !! i = promises m !! i)
  /\ (exists js, microtasks m' = microtasks m ++ js
                 /\ Forall (fun j => ~ locks_below n j) js)
  /\ (exists ds, console m' = console m ++ ds).

(** A before-hook that calls [next] once, and one that calls it twice. *)
Definition calls_next (v : value) : Hook :=
  fun _ _ => mkHookBody [(cap_next, v)] None.

Definition calls_next_twice (v1 v2 : value) : Hook :=
  fun _ _ => mkHookBody [(cap_next, v1); (cap_next, v2)] None.

(** Two runs left the same public state, cursors and bus. *)
Definition same_effects (m1 m2 : Machine) : Prop :=
  res m2 = res m1 /\ bus m2 = bus m1
  /\ forall c, idx c m2 = idx c m1.

(** An adapter that settles at once: [resolve(r)] or [reject(r)]. *)
Definition settles (ok : bool) (r : value) : Adapter :=
  if ok then resolves r else rejects r.

Definition is_change_payload (e : event) : bool :=
  match e with
  | ChangePayload _ _ => true
  | _ => false
  end.

(** Jobs that only pass a fulfilment on, and the [final] of the done- or
    fail-chain. *)
Definition settling (j : job) : Prop :=
  match j with
  | JThenable _ _ | JReact _ (Fulfilled _) => True
  | _ => False
  end.

Definition calm_job (j : job) : Prop :=
  match j with
  | JFinal c _ _ => c <> Before
  | _ => settling j
  end.

Definition calm_cell (c : Cell) : Prop :=
  forall e, pst c <> Settled (Rejected e).

(** No rejection is under way: no promise is rejected, and the queue holds
    only calm jobs. *)
Definition calm (m : Machine) : Prop :=
  Forall calm_job (microtasks m) /\ Forall calm_cell (promises m).

Fixpoint total {A : Type} (w : A -> nat) (l : list A) : nat :=
  match l with
  | [] => 0
  | x :: l => w x + total w l
  end.

Definition job_weight (j : job) : nat :=
  match j with
  | JThenable _ _ => 3
  | _ => 1
  end.

Definition cell_weight (c : Cell) : nat :=
  match pst c with
  | Pending rs => 2 * length rs
  | Settled _ => 0
  end.

(** A bound on the microtasks a calm machine still has to run. *)
Definition potential (m : Machine) : nat :=
  total job_weight (microtasks m) + total cell_weight (promises m).

(** The events the [final] jobs of a queue emit when the heap holds [h]
    objects: each builds three snapshots. *)
Fixpoint queue_events (h : nat) (q : list job) : list event :=
  match q with
  | [] => []
  | JFinal Done v _ :: q => EvDone v h :: EvFinish v (S h) :: queue_events (3 + h) q
  | JFinal Fail v _ :: q => EvFail v h :: EvFinish v (S h) :: queue_events (3 + h) q
  | _ :: q => queue_events h q
  end.

(** What a step that only moves promises does to a calm machine: the
    public fields stay, the queue gets settling jobs, and the potential
    added by the jobs is paid for by the reactions removed, up to [k]. *)
Definition settles_within (k : nat) (m m' : Machine) : Prop :=
  res m' = res m /\ bus m' = bus m /\ heap m' = heap m
  /\ Forall calm_cell (promises m')
  /\ exists js, microtasks m' = microtasks m ++ js /\ Forall settling js
       /\ total job_weight js + total cell_weight (promises m')
          <= total cell_weight (promises m) + k.

(** The payload after the hooks [fs] have each passed it on. *)
Definition through (fs : list (value -> value)) (v : value) : value :=
  foldl (fun v f => f v) v fs.

(** The request of [N] before-hooks that each call [next] at once. *)
Definition continuing (meta payload : value) (fs : list (value -> value)) : Request :=
  mkRequest meta payload (map continues fs) [] [] false.

Definition with_payload (v : value) (s : State) : State :=
  mkState (success s) (pending s) (cancelled s) v (result s) (meta s).

Definition with_result (ok : bool) (r : value) (s : State) : State :=
  mkState ok false (cancelled s) (payload s) r (meta s).

(** A before-hook that does not change the payload: it calls [next] with
    the payload it was given, and nothing else. *)
Definition passes_on (h : Hook) : Prop :=
  forall n ctx, calls (h n ctx) = [(cap_next, ctx_payload ctx)].

(** A fail-hook whose retries, if any, carry [p]. *)
Definition retries_with (p : value) (h : Hook) : Prop :=
  forall n ctx v, (cap_retry, v) ∈ calls (h n ctx) -> v = p.

(** A recorded call of a before-hook was made with payload [p]. *)
Definition carries (p : value) (c : call) : Prop :=
  match c with
  | HookCall Before _ ctx => ctx_payload ctx = p
  | _ => True
  end.

(** From [m] to [m'] every before-hook ran with payload [p] and every
    snapshot built holds payload [p]. *)
Definition since (p : value) (m m' : Machine) : Prop :=
  exists cs snaps,
    trace m' = trace m ++ cs /\ Forall (carries p) cs
    /\ heap m' = heap m ++ snaps /\ Forall (fun s => payload s = p) snaps.

(** The calls a hook of chain [c] may make without breaking the round
    trip: whatever continues in the before-chain carries [p]. *)
Definition admissible (p : value) (c : chain) (cs : list (capability * value)) : Prop :=
  forall cap v, (cap, v) ∈ cs -> available c cap = true ->
                target c cap = Before -> v = p.

(** The inputs that do not break the round trip: a capability used from
    a later task continues in the before-chain only with [p]. *)
Definition allowed (p : value) (i : input) : Prop :=
  match i with
  | ILateHook c _ cap v => available c cap = true -> target c cap = Before -> v = p
  | _ => True
  end.

(** The snapshot a terminal event carries. *)
Definition snapshot_of (e : event) : option nat :=
  match e with
  | EvDone _ l | EvFail _ l | EvFinish _ l | EvCancel l => Some l
  | _ => None
  end.

(** From [m] to [m'] the heap only grew, the bus only grew, and every
    terminal event emitted carries a snapshot built in between. *)
Definition fresh (m m' : Machine) : Prop :=
  length (heap m) <= length (heap m')
  /\ exists es, bus m' = bus m ++ es
       /\ Forall (fun e => forall l, snapshot_of e = Some l ->
                             length (heap m) <= l < length (heap m')) es.

(** A before-hook that leaves the payload alone and redirects to the
    fail-chain: [ctx => ctx.fail(r)]. *)
Definition diverts (r : value) : Hook :=
  fun _ _ => mkHookBody [(cap_fail, r)] None.

(** A hook that calls nothing at once: it will use a capability later,
    if at all. *)
Definition stalls : Hook :=
  fun _ _ => mkHookBody [] None.

(** ** Rejections and their origin *)

(** Promises that nothing is ever resolved with: the promise of
    [doRequest] before its [.catch], and the promise [cancel] returns. *)
Definition exempt (k : kind) : bool :=
  match k with
  | KRequest | KCancel => true
  | _ => false
  end.

(** How a return of [adapter.callback] makes [doRequest] call its
    [reject] with [e]: the callback threw [e], it returned a thenable that
    rejects with [e], or it returned a thenable without [catch] and [e] is
    the [TypeError] of calling it. *)
Definition faults_with (e : value) (r : AdapterReturn) : Prop :=
  r = RetThrow e \/ r = RetThenable (Some e)
  \/ (r = RetThenableNoCatch /\ e = TypeError).

(** The adapter faulted with [e]: a recorded call of [adapter.callback]
    ended in one of these ways, or [adapter.convert] threw [e], or a
    thenable the callback returned earlier rejected with [e]
    afterwards. *)
Definition faulted (e : value) (tr : list call) (seen : list input) : Prop :=
  (exists a r body, AdapterCallback a r body ∈ tr /\ faults_with e (aret body))
  \/ (exists v, ConvertThrow v e ∈ tr)
  \/ (exists inner, ILateThenable inner e ∈ seen).

(** What must hold of a rejection [e] held by a promise of kind [k]. *)
Definition rejection_ok (seen : list input) (m : Machine) (k : kind) (e : value)
    : Prop :=
  match k with
  | KCancel => True
  | KRequest => faulted e (trace m) seen
  | _ => EvError e ∈ bus m /\ faulted e (trace m) seen
  end.

(** Which reactions a promise of kind [k] may carry. *)
Definition reaction_ok (k : kind) (r : reaction) : Prop :=
  match r with
  | RSettle _ => exempt k = false
  | RCatchError _ => k = KRequest
  end.

Definition cell_ok (seen : list input) (m : Machine) (c : Cell) : Prop :=
  match pst c with
  | Pending rs => Forall (reaction_ok (ckind c)) rs
  | Settled (Rejected e) => rejection_ok seen m (ckind c) e
  | Settled (Fulfilled _) => True
  end.

(** [q] is a promise a chain returned: a step, a terminal step, or the
    caught promise of [doRequest]. *)
Definition chain_cell (q : nat) (m : Machine) : Prop :=
  exists c, promises m !! q = Some c /\ exempt (ckind c) = false.

Definition job_ok (seen : list input) (m : Machine) (j : job) : Prop :=
  match j with
  | JThenable _ q => chain_cell q m
  | JReact (RSettle _) (Rejected e) =>
      EvError e ∈ bus m /\ faulted e (trace m) seen
  | JReact (RCatchError _) (Rejected e) => faulted e (trace m) seen
  | JCancelThen d (Rejected _) =>
      exists c, promises m !! d = Some c /\ ckind c = KCancel
  | JAdapterCatch inner e =>
      (exists c, promises m !! inner = Some c /\ ckind c = KRequest)
      /\ faulted e (trace m) seen
  | _ => True
  end.

(** Every rejection in the store and in the queue is accounted for by a
    fault of the adapter, and outside [doRequest] by an [error] event. *)
Definition accounted (seen : list input) (m : Machine) : Prop :=
  Forall (cell_ok seen m) (promises m) /\ Forall (job_ok seen m) (microtasks m).

(** The bus and the record of calls only grew, and every promise kept
    its kind. *)
Definition extends (m m' : Machine) : Prop :=
  (exists es, bus m' = bus m ++ es)
  /\ (exists cs, trace m' = trace m ++ cs)
  /\ forall p c, promises m !! p = Some c ->
       exists c', promises m' !! p = Some c' /\ ckind c' = ckind c.

(** No hook throws, and no hook calls a capability its context lacks. *)
Definition well_behaved (req : Request) : Prop :=
  forall c h n ctx, h ∈ hooks req c ->
    throws (h n ctx) = None
    /\ forall cap v, (cap, v) ∈ calls (h n ctx) -> available c cap = true.

(** An adapter whose callback throws [e] at once. *)
Definition faulty (e : value) : Adapter :=
  mkAdapter (fun _ _ _ => mkAdapterBody [] (RetThrow e)) None None.

(** A hook that throws [e] without using a capability. *)
Definition throwing (e : value) : Hook :=
  fun _ _ => mkHookBody [] (Some e).

(** ** What an observer of the bus sees *)

(** The payload and the result an observer ends with when it keeps the
    [next] of every [change:payload] and [change:result] it receives. *)
Definition observed_payload (start : value) (b : list event) : value :=
  foldl (fun v e => match e with ChangePayload _ n => n | _ => v end) start b.

Definition observed_result (start : value) (b : list event) : value :=
  foldl (fun v e => match e with ChangeResult _ n => n | _ => v end) start b.

(** Every change event names as [prev] the value the one before it left. *)
Fixpoint chained (p r : value) (b : list event) : Prop :=
  match b with
  | [] => True
  | ChangePayload prev next :: b => prev = p /\ chained next r b
  | ChangeResult prev next :: b => prev = r /\ chained p next b
  | _ :: b => chained p r b
  end.

Definition is_change_result (e : event) : bool :=
  match e with
  | ChangeResult _ _ => true
  | _ => false
  end.

Definition is_change_state (e : event) : bool :=
  match e with
  | ChangeState _ _ _ => true
  | _ => false
  end.

(** Which events announce a change of which field: [es] are the events
    emitted from [m] to [m']. *)
Definition announced (m m' : Machine) : Prop :=
  exists es, bus m' = bus m ++ es
    /\ (Forall (fun e => is_change_payload e = false) es ->
        payload (res m') = payload (res m))
    /\ (Forall (fun e => is_change_result e = false) es ->
        result (res m') = result (res m))
    /\ (Forall (fun e => is_change_result e = false /\ is_change_state e = false) es ->
        success (res m') = success (res m) /\ pending (res m') = pending (res m))
    /\ (Forall (fun e => is_change_state e = false) es ->
        cancelled (res m') = cancelled (res m))
    /\ meta (res m') = meta (res m).

(** The heap only grew: the objects it held are as they were. *)
Definition keeps_snapshots (m m' : Machine) : Prop :=
  exists snaps, heap m' = heap m ++ snaps.

(** Every [done] and every [fail] on the bus is directly followed by a
    [finish] with the same result, and the snapshots of the two are
    separate objects with the same fields, [pending] being false. *)
Inductive paired (h : list State) : list event -> Prop :=
  | paired_nil : paired h []
  | paired_done r l s b :
      h !! l = Some s -> h !! S l = Some s -> pending s = false ->
      paired h b -> paired h (EvDone r l :: EvFinish r (S l) :: b)
  | paired_fail r l s b :
      h !! l = Some s -> h !! S l = Some s -> pending s = false ->
      paired h b -> paired h (EvFail r l :: EvFinish r (S l) :: b)
  | paired_other e b :
      match e with EvDone _ _ | EvFail _ _ | EvFinish _ _ => False | _ => True end ->
      paired h b -> paired h (e :: b).

Definition finishes (m : Machine) : Prop :=
  lifecycle m /\ paired (heap m) (bus m).

(** ** The adapter and the before-chain *)

(** The before-hooks below [k] have been called. *)
Definition called_below (req : Request) (k : nat) (m : Machine) : Prop :=
  forall i, i < length (hooks req Before) -> i < k ->
    exists ctx, HookCall Before i ctx ∈ trace m.

(** The adapter call is queued, or has been made, only with the cursor of
    the before-chain past its last hook. *)
Definition gated (req : Request) (k : nat) (m : Machine) : Prop :=
  called_below req k m
  /\ (forall v d, JFinal Before v d ∈ microtasks m ->
        length (hooks req Before) <= idx_before m)
  /\ (adapterRuns (trace m) <> 0 -> length (hooks req Before) <= idx_before m).

(** An adapter whose callback settles with [resolve(r)] or [reject(r)]
    and then throws [e]. *)
Definition settles_then_throws (ok : bool) (r e : value) : Adapter :=
  mkAdapter (fun _ _ _ =>
               mkAdapterBody [if ok then AResolve r else AReject r] (RetThrow e))
    None None.

(** The call [a] is one of the two settling functions. *)
Definition settling_call (a : AdapterCall) : bool :=
  match a with
  | AResolve _ | AReject _ => true
  | _ => false
  end.

(** ** The order of hook calls *)

(** The positions of the hooks of chain [c] called so far, oldest first. *)
Fixpoint positions (c : chain) (tr : list call) : list nat :=
  match tr with
  | [] => []
  | HookCall c' i _ :: tr =>
      if bool_decide (c = c') then i :: positions c tr else positions c tr
  | _ :: tr => positions c tr
  end.

Fixpoint nondecreasing (l : list nat) : Prop :=
  match l with
  | [] => True
  | x :: l => Forall (le x) l /\ nondecreasing l
  end.

(** The hooks of every chain were called in list order, each at a
    position the chain has, none beyond the cursor. *)
Definition in_order (req : Request) (m : Machine) : Prop :=
  forall c,
    nondecreasing (positions c (trace m))
    /\ Forall (fun i => i <= idx c m /\ i < length (hooks req c))
         (positions c (trace m)).

(** ** What the completion promise fulfils with *)

(** [v] is the snapshot a [final] returned: a reference to the object
    built right after the one its [finish] event carried, with the same
    fields, [pending] being false. *)
Definition delivered (m : Machine) (v : value) : Prop :=
  exists l s r,
    v = VRef (S l) /\ heap m !! l = Some s /\ heap m !! S l = Some s
    /\ pending s = false /\ EvFinish r l ∈ bus m.

(** What must hold of the outcome of a promise of kind [k]. *)
Definition outcome_ok (m : Machine) (k : kind) (o : outcome) : Prop :=
  match o with
  | Fulfilled v => k = KCancel \/ delivered m v
  | Rejected _ => True
  end.

Definition cell_sound (m : Machine) (c : Cell) : Prop :=
  match pst c with
  | Pending rs => Forall (reaction_ok (ckind c)) rs
  | Settled o => outcome_ok m (ckind c) o
  end.

Definition job_sound (m : Machine) (j : job) : Prop :=
  match j with
  | JThenable _ q => chain_cell q m
  | JReact _ (Fulfilled v) => delivered m v
  | JCancelThen d _ => exists c, promises m !! d = Some c /\ ckind c = KCancel
  | _ => True
  end.

(** Every fulfilment in the store and in the queue, that of a [cancel]
    promise apart, is a snapshot a [final] returned. *)
Definition sound (m : Machine) : Prop :=
  Forall (cell_sound m) (promises m) /\ Forall (job_sound m) (microtasks m).

Definition persists (m m' : Machine) : Prop :=
  extends m m' /\ keeps_snapshots m m'.

(** An adapter whose callback settles twice before it returns. *)
Definition settles_twice (ok1 : bool) (r1 : value) (ok2 : bool) (r2 : value) : Adapter :=
  mkAdapter (fun _ _ _ =>
               mkAdapterBody [if ok1 then AResolve r1 else AReject r1;
                              if ok2 then AResolve r2 else AReject r2] RetPlain)
    None None.

(** The hooks of chain [c] use no capability but [next]. *)
Definition only_next (req : Request) (c : chain) : Prop :=
  forall h n ctx cap v,
    h ∈ hooks req c -> (cap, v) ∈ calls (h n ctx) -> cap = cap_next.

(** ** The console *)

Definition is_report (d : diagnostic) : Prop :=
  match d with
  | ResolveTwice _ _ => True
  | DeprecatedOptions => False
  end.

(** From [m] to [m'] the console gained only resolve-twice reports, and
    none in production mode. *)
Definition reports (production : bool) (m m' : Machine) : Prop :=
  exists ds, console m' = console m ++ ds
    /\ (production = true -> ds = []) /\ Forall is_report ds.

(** A hook that redirects at once: [ctx => ctx.done(x)], [ctx => ctx.fail(x)]. *)
Definition redirects (cap : capability) (x : value) : Hook :=
  fun _ _ => mkHookBody [(cap, x)] None.

(** ** Events by name *)

(** The name an emission goes out under: what a subscriber of that name
    receives, whoever emitted it. *)
Definition event_name (e : event) : string :=
  match e with
  | ChangeState _ _ _ => "change:state"
  | ChangePayload _ _ => "change:payload"
  | ChangeResult _ _ => "change:result"
  | EvDone _ _ => "done"
  | EvFail _ _ => "fail"
  | EvFinish _ _ => "finish"
  | EvCancel _ => "cancel"
  | EvError _ => "error"
  | EvCustom name _ => name
  end.

(** An emission the adapter made itself, through the [emit] of the object
    [doRequest] hands it, which is the [emit] of the bus. *)
Definition by_adapter (e : event) : Prop :=
  match e with
  | EvCustom _ _ => True
  | _ => False
  end.

(** The names of the events of the terminal actions. *)
Definition terminal_names : list string := ["done"; "fail"; "finish"; "cancel"].

(** The adapter emits nothing under the name [name]. *)
Definition unused_by_adapter (name : string) (es : list event) : Prop :=
  forall e, e ∈ es -> by_adapter e -> event_name e <> name.

(** An adapter that sends an event under the name [name] through the
    [emit] it is handed, and settles later, if at all. *)
Definition announces (name : string) (arg : value) : Adapter :=
  mkAdapter (fun _ _ _ => mkAdapterBody [AEmit name arg] RetPlain) None None.

(** ** A subscriber of the change events *)

(** The field [next] of the argument of an emission. *)
Definition next_of (e : event) : value :=
  match e with
  | ChangePayload _ n | ChangeResult _ n => n
  | ChangeState _ n _ => VRef n
  | EvCustom _ (VObj fields) =>
      default VUndefined (snd <$> find (fun kv => String.eqb (fst kv) "next") fields)
  | _ => VUndefined
  end.

(** A handler subscribed under [name] that keeps the [next] of what it
    receives, starting from [start], after the emissions [es]. *)
Definition subscriber (name : string) (start : value) (es : list event) : value :=
  foldl (fun v e => if String.eqb (event_name e) name then next_of e else v) start es.

(** From [m] to [m'] the engine's change events tell the payload and the
    result of the handle: each names as [prev] the value the one before
    left, and the last [next] is the value the handle holds. *)
Definition tracks (m m' : Machine) : Prop :=
  exists es, bus m' = bus m ++ es
    /\ chained (payload (res m)) (result (res m)) es
    /\ observed_payload (payload (res m)) es = payload (res m')
    /\ observed_result (result (res m)) es = result (res m').

(** From [m] to [m'] no cursor went back, and every hook called was at or
    beyond the position the cursor of its chain had at [m]. *)
Definition later (m m' : Machine) : Prop :=
  (forall c, idx c m <= idx c m')
  /\ exists cs, trace m' = trace m ++ cs
       /\ forall c j ctx, HookCall c j ctx ∈ cs -> idx c m <= j.

(** What the cancellation callback in force leaves behind when [cancel]
    runs it: the call is recorded, then the callback makes its calls on
    the object of the adapter call that registered it. *)
Definition callbackRun (production : bool) (req : Request) (fuel : nat)
    (m : Machine) : option Machine :=
  adapterCalls (withPayload production req fuel) (cancelOwner m)
    (does_of (cancelCallback m)) (record (CancelCall (cancelCallback m)) m).

(** A pending promise nothing has subscribed to. *)
Definition fresh_cell (k : kind) : Cell := mkCell k (Pending []) false false.

(** The done- and the fail-hooks use no capability but [next] and
    [retry]: once the before-chain has run through its hooks, every run of
    these chains comes to an end. *)
Definition winds_down (req : Request) : Prop :=
  forall c h n ctx cap v,
    c <> Before -> h ∈ hooks req c -> (cap, v) ∈ calls (h n ctx) ->
    cap = cap_next \/ cap = cap_retry.

(** ** The change events of the before-chain *)

(** A hook that calls [next] at once: once, and nothing else before it
    returns. *)
Definition continues_at_once (h : Hook) : Prop :=
  forall n ctx, exists v, calls (h n ctx) = [(cap_next, v)].

(** No fail-hook calls [retry] before it returns. *)
Definition never_retries (req : Request) : Prop :=
  forall h n ctx v, h ∈ hooks req Fail -> (cap_retry, v) ∉ calls (h n ctx).

(** An input that does not enter the before-chain: no capability used
    from a later task continues there. *)
Definition stays_out (i : input) : Prop :=
  match i with
  | ILateHook c _ cap _ => available c cap = true -> target c cap <> Before
  | _ => True
  end.

(** From [m] to [m'] the engine emitted no [change:payload]. *)
Definition payload_kept (m m' : Machine) : Prop :=
  exists es, bus m' = bus m ++ es /\ Forall (fun e => is_change_payload e = false) es.

(** ** A fault of the adapter on its way to the completion promise *)

(** Jobs that only move settlements between promises. *)
Definition moving (j : job) : Prop :=
  match j with
  | JFinal _ _ _ | JCancelThen _ _ => False
  | _ => True
  end.

(** The adapter faults with [e] at its first call, before it has settled:
    whatever the payload, [convert] throws [e], or it returns and the
    callback, without calling [resolve] or [reject], throws [e], returns
    a thenable that rejects with [e], or returns a thenable without
    [catch], [e] being the [TypeError]. *)
Definition faults_at_once (e : value) (adapter : Adapter) : Prop :=
  forall v r,
    convert_result adapter v = Throws e
    \/ exists w,
         convert_result adapter v = Returns w
         /\ Forall (fun a => settling_call a = false) (acalls (callback adapter 0 w r))
         /\ faults_with e (aret (callback adapter 0 w r)).

(** At its first call the adapter returns a thenable, without having
    called [resolve] or [reject]: the thenable is still pending. *)
Definition returns_thenable (adapter : Adapter) : Prop :=
  forall v r,
    exists w,
      convert_result adapter v = Returns w
      /\ Forall (fun a => settling_call a = false) (acalls (callback adapter 0 w r))
      /\ aret (callback adapter 0 w r) = RetThenable None.

Section Rejecting.

(** A before-chain of [N] hooks that have each called [next] once: the
    promises [0 .. N - 1] of its steps, the promise [N] of its terminal
    step, then the promise [N + 1] of [doRequest] and the promise [N + 2]
    of its [.catch(throwError)].  Each of [0 .. N] was resolved with the
    next one of the chain. *)
Variable N : nat.
Variable e : value.

Definition next_of_chain (i : nat) : nat :=
  if decide (i < N) then S i else S (S N).

Definition rejecting_job (j : job) : Prop :=
  match j with
  | JThenable i q => i <= N /\ q = next_of_chain i
  | JReact (RSettle i) o => i <= N /\ o = Rejected e
  | JReact (RCatchError d) o => d = S (S N) /\ o = Rejected e
  | JAdapterCatch p x => p = S N /\ x = e
  | _ => False
  end.

Definition rejecting_reaction (x : nat) (r : reaction) : Prop :=
  match r with
  | RSettle i => i <= N /\ x = next_of_chain i
  | RCatchError d => d = S (S N) /\ x = S N
  end.

(** The promise [i] of the chain has taken the rejection, or is still to
    take it from the next one: through the job that subscribes to it,
    through the reaction registered on it, or through the job that
    reaction has become. *)
Definition link (i : nat) (m : Machine) : Prop :=
  pst (cell_at i m) = Settled (Rejected e)
  \/ JThenable i (next_of_chain i) ∈ microtasks m
  \/ (exists rs, pst (cell_at (next_of_chain i) m) = Pending rs /\ RSettle i ∈ rs)
  \/ JReact (RSettle i) (Rejected e) ∈ microtasks m.

(** The rejection has reached the caught promise, with the [error] event
    emitted, or is on its way there; or the promise of [doRequest] is
    pending and unresolved with the [catch] of [doRequest] registered on
    it, the thenable of the adapter having rejected ([armed]) or not
    yet. *)
Definition source (armed : bool) (m : Machine) : Prop :=
  (pst (cell_at (S (S N)) m) = Settled (Rejected e) /\ EvError e ∈ bus m)
  \/ JReact (RCatchError (S (S N))) (Rejected e) ∈ microtasks m
  \/ (exists rs, pst (cell_at (S N) m) = Pending rs
         /\ RCatchError (S (S N)) ∈ rs
         /\ alreadyResolved (cell_at (S N) m) = false
         /\ (armed = true -> JAdapterCatch (S N) e ∈ microtasks m)).

Definition rejecting (armed : bool) (m : Machine) : Prop :=
  length (promises m) = S (S (S N))
  /\ Forall rejecting_job (microtasks m)
  /\ (forall x rs, pst (cell_at x m) = Pending rs -> Forall (rejecting_reaction x) rs)
  /\ (forall x o, pst (cell_at x m) = Settled o -> o = Rejected e)
  /\ (forall i, i <= N -> link i m)
  /\ ckind (cell_at (S N) m) = KRequest
  /\ source armed m.

(** What [apicase] leaves of such a chain: the steps resolved, each with
    the next promise, the terminal step's promise fresh and its job
    first in the queue. *)
Definition ready (w : value) (m : Machine) : Prop :=
  length (promises m) = S N
  /\ (forall i, i < N ->
        pst (cell_at i m) = Pending [] /\ alreadyResolved (cell_at i m) = true)
  /\ cell_at N m = fresh_cell (KFinal Before)
  /\ exists js, microtasks m = JFinal Before w N :: js
       /\ (forall j, j ∈ js -> exists i, i < N /\ j = JThenable i (S i))
       /\ (forall i, i < N -> JThenable i (S i) ∈ js).

End Rejecting.

(** The terminal step's promise once it is resolved with the promise of
    [doRequest]. *)
Definition final_locked : Cell := mkCell (KFinal Before) (Pending []) true false.

(** An adapter whose callback returns a thenable and settles nothing. *)
Definition promises_later : Adapter :=
  mkAdapter (fun _ _ _ => mkAdapterBody [] (RetThenable None)) None None.

(* ================================================================== *)
(** * Properties *)

(** ** Scenario A *)

(** C8. With the adapter [ctx => ctx.resolve('ok')], payload [{a:1}] and
    no hooks, the adapter is called once, with the payload unchanged, and
    once the microtasks have run the completion promise is fulfilled with a
    snapshot [{success:true, pending:false, cancelled:false, payload:{a:1},
    result:'ok'}]. *)
Theorem scenario_A_completion (production : bool) (meta : value) :
  exists p m m' s body,
    apicase production (resolves (VStr "ok")) (plain meta a1) 1 = Some (p, m)
    /\ drain production (resolves (VStr "ok")) (plain meta a1) 8 m = Some m'
    /\ microtasks m' = []
    /\ trace m' = [AdapterCallback a1 VNull body]
    /\ settled p m' = Some (Fulfilled (VRef s))
    /\ heap m' !! s = Some {| success := true; pending := false; cancelled := false;
                             payload := a1; result := VStr "ok"; meta := meta |}.
Proof.
  do 5 eexists. split; [vm_compute; reflexivity|].
  split; [vm_compute; reflexivity|].
  vm_compute. repeat split; reflexivity.
Qed.

(** ** Change events *)

(** Whatever the state and the diff, the [change:state] event of
    [setState] carries one object under both [prev] and [next], and that
    object already holds the values after the diff. *)
Lemma setState_event (diff : Diff) (m : Machine) :
  let l := length (heap m) in
  bus (setState diff m) = bus m ++ [ChangeState l l diff]
  /\ heap (setState diff m) !! l = Some (assign (res m) diff)
  /\ res (setState diff m) = assign (res m) diff.
Proof.
  unfold setState, pickState, deref; simpl.
  assert (length (heap m) < length (heap m ++ [res m])) as Hlt
    by (rewrite length_app; simpl; lia).
  rewrite !(list_lookup_insert_eq _ _ _ Hlt).
  rewrite (list_lookup_middle (heap m) [] (res m)) by done.
  auto.
Qed.

Lemma setState_heap (diff : Diff) (m : Machine) :
  heap (setState diff m) = heap m ++ [assign (res m) diff]
  /\ trace (setState diff m) = trace m.
Proof.
  unfold setState, pickState, deref. simpl. split; [|done].
  rewrite (list_lookup_middle (heap m) [] (res m)) by done. simpl.
  rewrite insert_app_r_alt by done. by rewrite Nat.sub_diag.
Qed.

(** C1 (the code departs from it). A pending request is cancelled: the
    handle has [pending: true] when [cancel] runs, yet the object the
    [change:state] event carries as [prev] is the one it carries as [next]
    and reads [pending: false], [cancelled: true]. *)
Theorem change_state_prev_aliases_next (production : bool) :
  exists p m0 m1,
    session production waits (plain VNull a1) 2 [ITick; ITick; ICancel] = Some (p, m0)
    /\ pending (res m0) = true /\ cancelled (res m0) = false
    /\ microtasks m0 = [JCancelThen 3 (Fulfilled VUndefined)]
    /\ perform production waits (plain VNull a1) 2 ITick m0 = Some m1
    /\ bus m1 = bus m0 ++ [ChangeState 0 0 cancelDiff; EvCancel 1]
    /\ (pending <$> heap m1 !! 0) = Some false
    /\ (cancelled <$> heap m1 !! 0) = Some true.
Proof.
  do 3 eexists. split; [vm_compute; reflexivity|].
  do 3 (split; [vm_compute; reflexivity|]).
  split; [vm_compute; reflexivity|].
  vm_compute. repeat split; reflexivity.
Qed.

(** On a [next] or at the last step, [update] emits the old and the new
    value before the field is written. *)
Lemma update_event (c : chain) (v : value) (m : Machine) :
  bus (update c v m) =
    bus m ++ [match c with
              | Before => ChangePayload (payload (res m)) v
              | _ => ChangeResult (result (res m)) v
              end].
Proof. destruct c; reflexivity. Qed.

(** ** Steps that only move promises *)

Lemma plumbing_refl m : plumbing m m.
Proof.
  repeat split; exists []; rewrite app_nil_r; auto.
Qed.

Lemma plumbing_trans a b c : plumbing a b -> plumbing b c -> plumbing a c.
Proof.
  intros (?&?&?&?&?&?&?&(js1&E1&F1)&(cs1&T1)) (?&?&?&?&?&?&?&(js2&E2&F2)&(cs2&T2)).
  repeat split; try congruence.
  - exists (js1 ++ js2). rewrite E2, E1, app_assoc. split; [done|].
    apply Forall_app; auto.
  - exists (cs1 ++ cs2). by rewrite T2, T1, app_assoc.
Qed.

Lemma plumbing_same m m' :
  res m' = res m -> idx_before m' = idx_before m -> idx_done m' = idx_done m ->
  idx_fail m' = idx_fail m -> cancelCallback m' = cancelCallback m ->
  bus m' = bus m -> heap m' = heap m -> microtasks m' = microtasks m ->
  trace m' = trace m ->
  plumbing m m'.
Proof.
  intros. repeat split; auto; exists []; rewrite app_nil_r; auto.
Qed.

Lemma plumbing_set_cell p c m : plumbing m (set_cell p c m).
Proof. by apply plumbing_same. Qed.

Lemma plumbing_newCell k m : plumbing m (snd (newCell k m)).
Proof. by apply plumbing_same. Qed.

Lemma plumbing_record c m : plumbing m (record c m).
Proof.
  repeat split; [exists []|exists [c]]; rewrite ?app_nil_r; auto.
Qed.

Lemma plumbing_report d m : plumbing m (report d m).
Proof. by apply plumbing_same. Qed.

Lemma plumbing_enqueue j m : deferred j -> plumbing m (enqueue j m).
Proof.
  intros. repeat split; [exists [j]|exists []]; rewrite ?app_nil_r; auto.
Qed.

Lemma plumbing_settle p o m : plumbing m (settle p o m).
Proof.
  unfold settle. destruct (pst (cell_at p m)); [|apply plumbing_refl].
  repeat split; [|exists []; by rewrite app_nil_r].
  eexists. split; [reflexivity|].
  apply Forall_map, Forall_true. intros; exact I.
Qed.

Lemma plumbing_subscribe q r m : plumbing m (subscribe q r m).
Proof.
  unfold subscribe. destruct (pst (cell_at q m)).
  - apply plumbing_set_cell.
  - by apply plumbing_enqueue.
Qed.

Lemma plumbing_resolveWith p q m : plumbing m (resolveWith p q m).
Proof.
  unfold resolveWith. destruct (alreadyResolved (cell_at p m)); [apply plumbing_refl|].
  eapply plumbing_trans; [apply plumbing_set_cell|]. by apply plumbing_enqueue.
Qed.

Lemma plumbing_rejectWith p e m : plumbing m (rejectWith p e m).
Proof.
  unfold rejectWith. destruct (alreadyResolved (cell_at p m));
    [apply plumbing_refl|apply plumbing_settle].
Qed.

Lemma plumbing_tryResolve production c p q m :
  plumbing m (tryResolve production c p q m).
Proof.
  unfold tryResolve. destruct (negb production && isResolved (cell_at p m)).
  - apply plumbing_report.
  - eapply plumbing_trans; [apply plumbing_set_cell|apply plumbing_resolveWith].
Qed.

Lemma plumbing_intro js cs m m' :
  res m' = res m -> idx_before m' = idx_before m -> idx_done m' = idx_done m ->
  idx_fail m' = idx_fail m -> cancelCallback m' = cancelCallback m ->
  bus m' = bus m -> heap m' = heap m ->
  microtasks m' = microtasks m ++ js -> Forall deferred js ->
  trace m' = trace m ++ cs ->
  plumbing m m'.
Proof. intros. repeat split; eauto. Qed.

Lemma plumbing_afterCancelCallback o m : plumbing m (afterCancelCallback o m).
Proof.
  destruct o; simpl.
  - apply (plumbing_intro [JCancelThen (length (promises m)) (Fulfilled VUndefined)] []);
      simpl; rewrite ?app_nil_r; auto; by repeat constructor.
  - apply plumbing_refl.
  - apply (plumbing_intro [JCancelThen (length (promises m)) (Rejected e)] []);
      simpl; rewrite ?app_nil_r; auto; by repeat constructor.
  - by apply plumbing_same.
Qed.

Lemma plumbing_set_cancelOwner p m : plumbing m (set_cancelOwner p m).
Proof. by apply plumbing_same. Qed.

Lemma plumbing_afterCallback inner r m : plumbing m (afterCallback inner r m).
Proof.
  destruct r as [|e|[e|]|]; simpl.
  - apply plumbing_refl.
  - apply plumbing_rejectWith.
  - by apply plumbing_enqueue.
  - apply plumbing_refl.
  - apply plumbing_rejectWith.
Qed.

Lemma afterCallback_trace inner r m : trace (afterCallback inner r m) = trace m.
Proof.
  destruct r as [|e|[e|]|]; simpl; try done;
    unfold rejectWith, settle; destruct (alreadyResolved _); try done;
    by destruct (pst _).
Qed.

Lemma afterCancelCallback_trace o m : trace (afterCancelCallback o m) = trace m.
Proof. by destruct o. Qed.

Create HintDb plumb.

#[local] Hint Resolve plumbing_refl plumbing_set_cell plumbing_newCell
  plumbing_record plumbing_report plumbing_settle plumbing_subscribe
  plumbing_resolveWith plumbing_rejectWith plumbing_tryResolve
  plumbing_afterCancelCallback plumbing_set_cancelOwner
  plumbing_afterCallback : plumb.

(** ** A relation kept by every step *)

(** A reflexive and transitive relation that holds across the few steps
    that touch public state holds across every run of a chain, every
    adapter call, every microtask and every input. *)
Section Kept.

Variable production : bool.
Variable adapter : Adapter.
Variable req : Request.
Variable R : Machine -> Machine -> Prop.

Hypothesis R_refl : forall m, R m m.
Hypothesis R_trans : forall a b c, R a b -> R b c -> R a c.
Hypothesis R_plumbing : forall m m', plumbing m m' -> R m m'.
Hypothesis R_next : forall c v m, R m (update c v (bump c m)).
Hypothesis R_terminal : forall c v m, R m (snd (terminal c v m)).

Section Open.

Variable run : chain -> value -> Machine -> option (nat * Machine).
Hypothesis run_R : forall c v m q m', run c v m = Some (q, m') -> R m m'.

Lemma invoke_kept c p cv m r m' :
  invoke production run c p cv m = Some (r, m') -> R m m'.
Proof using R_refl R_trans R_plumbing R_next run_R.
  destruct cv as [cap v]. unfold invoke.
  destruct (available c cap); [|intros [= _ <-]; apply R_refl].
  destruct (run _ _ _) as [[q m1]|] eqn:E; [|done].
  intros [= _ <-]. apply run_R in E.
  eapply R_trans; [|apply R_plumbing, plumbing_tryResolve].
  destruct cap; try exact E; eapply R_trans; [apply R_next|exact E].
Qed.

Lemma runCalls_kept c p cs m r m' :
  runCalls production run c p cs m = Some (r, m') -> R m m'.
Proof using R_refl R_trans R_plumbing R_next run_R.
  revert m. induction cs as [|cv cs IH]; simpl; intros m.
  - intros [= _ <-]. apply R_refl.
  - destruct (invoke _ _ _ _ _ _) as [[[e|] m1]|] eqn:E; [| |done].
    + intros [= _ <-]. eapply invoke_kept, E.
    + intros H. eapply R_trans; [eapply invoke_kept, E|eapply IH, H].
Qed.

Hypothesis R_setCancelCallback : forall cb m, R m (set_cancelCallback cb m).
Hypothesis R_emit_custom : forall n a m, R m (emit (EvCustom n a) m).

Lemma adapterCall_kept inner a m m' :
  adapterCall run inner a m = Some m' -> R m m'.
Proof using R_refl R_trans R_plumbing run_R R_setCancelCallback R_emit_custom.
  destruct a; unfold adapterCall.
  - destruct (run _ _ _) as [[q m1]|] eqn:E; [|done]. intros [= <-].
    eapply R_trans; [eapply run_R, E|apply R_plumbing, plumbing_resolveWith].
  - destruct (run _ _ _) as [[q m1]|] eqn:E; [|done]. intros [= <-].
    eapply R_trans; [eapply run_R, E|apply R_plumbing, plumbing_resolveWith].
  - intros [= <-].
    eapply R_trans; [apply R_plumbing, plumbing_set_cancelOwner|apply R_setCancelCallback].
  - intros [= <-]. apply R_emit_custom.
Qed.

Lemma adapterCalls_kept inner cs m m' :
  adapterCalls run inner cs m = Some m' -> R m m'.
Proof using R_refl R_trans R_plumbing run_R R_setCancelCallback R_emit_custom.
  revert m. induction cs as [|a cs IH]; simpl; intros m.
  - intros [= <-]. apply R_refl.
  - destruct (adapterCall _ _ _ _) as [m1|] eqn:E; [|done].
    intros H. eapply R_trans; [eapply adapterCall_kept, E|eapply IH, H].
Qed.

Lemma doRequest_kept v m q m' :
  doRequest adapter run v m = Some (q, m') -> R m m'.
Proof using R_refl R_trans R_plumbing run_R R_setCancelCallback R_emit_custom.
  unfold doRequest. simpl.
  destruct (convert_result adapter v) as [arg|e0].
  - destruct (adapterCalls _ _ _ _) as [m1|] eqn:E; [|done].
    intros [= _ <-]. apply adapterCalls_kept in E.
    eapply R_trans; [apply R_plumbing|].
    { eapply plumbing_trans; [apply plumbing_newCell with (k := KRequest)|].
      apply plumbing_record. }
    eapply R_trans; [exact E|]. apply R_plumbing.
    eapply plumbing_trans; [apply plumbing_afterCallback|].
    eapply plumbing_trans;
      [apply plumbing_newCell with (k := KCaught)|apply plumbing_subscribe].
  - intros [= _ <-]. apply R_plumbing.
    eapply plumbing_trans; [apply plumbing_newCell with (k := KRequest)|].
    eapply plumbing_trans; [apply plumbing_record|].
    eapply plumbing_trans; [apply plumbing_rejectWith|].
    eapply plumbing_trans;
      [apply plumbing_newCell with (k := KCaught)|apply plumbing_subscribe].
Qed.

End Open.

Lemma withPayload_kept fuel c v m q m' :
  withPayload production req fuel c v m = Some (q, m') -> R m m'.
Proof using R_refl R_trans R_plumbing R_next R_terminal.
  revert c v m q m'. induction fuel as [|fuel IH]; [done|]. simpl.
  intros c v m q m'. destruct (hooks req c !! idx c m) as [hook|].
  - destruct (runCalls _ _ _ _ _ _) as [[thrown m1]|] eqn:E; [|done].
    apply (runCalls_kept _ IH) in E.
    assert (R m m1) as Hm1.
    { eapply R_trans; [|exact E]. apply R_plumbing.
      eapply plumbing_trans; [apply plumbing_newCell with (k := KStep c)|].
      apply plumbing_record. }
    destruct (from_option _ _ _); intros [= _ <-]; [|done].
    eapply R_trans; [exact Hm1|apply R_plumbing, plumbing_rejectWith].
  - intros [= _ <-]. exact (R_terminal c v m).
Qed.

Hypothesis R_setCancelCallback : forall cb m, R m (set_cancelCallback cb m).
Hypothesis R_emit_custom : forall n a m, R m (emit (EvCustom n a) m).
Hypothesis R_pop : forall j q m, microtasks m = j :: q -> R m (set_microtasks q m).
Hypothesis R_final : forall c v d q m,
  c <> Before -> microtasks m = JFinal c v d :: q ->
  R m (snd (final c v (set_microtasks q m))).
Hypothesis R_throwError : forall e m, R m (throwError e m).
Hypothesis R_cancelled : forall d v q m,
  microtasks m = JCancelThen d (Fulfilled v) :: q ->
  R m (let m := setState cancelDiff (set_microtasks q m) in
       emit (EvCancel (fst (pickState m))) (snd (pickState m))).

Lemma cancel_kept fuel m m' :
  cancel production req fuel m = Some m' -> R m m'.
Proof using R_refl R_trans R_plumbing R_next R_terminal R_setCancelCallback
  R_emit_custom.
  unfold cancel. destruct (adapterCalls _ _ _ _) as [m1|] eqn:E; [|done].
  intros [= <-].
  eapply R_trans; [apply R_plumbing, plumbing_record|].
  eapply R_trans; [|apply R_plumbing, plumbing_afterCancelCallback].
  eapply adapterCalls_kept, E; eauto using withPayload_kept.
Qed.

Lemma perform_kept fuel i m m' :
  perform production adapter req fuel i m = Some m' -> R m m'.
Proof using All.
  destruct i as [| |c p cap v|inner a|inner e]; simpl.
  - destruct (microtasks m) as [|j q] eqn:Q; [intros [= <-]; apply R_refl|].
    pose proof (R_pop _ _ _ Q) as Hpop.
    destruct j as [c v d|p q'|r o|d o|p e]; simpl.
    + destruct c.
      * destruct (doRequest _ _ _ _) as [[q' m1]|] eqn:E; [|done].
        intros [= <-]. eapply R_trans; [exact Hpop|].
        eapply R_trans; [|apply R_plumbing, plumbing_resolveWith].
        eapply doRequest_kept, E; eauto using withPayload_kept.
      * intros [= <-]. eapply R_trans; [eapply (R_final Done); [done|exact Q]|].
        apply R_plumbing, plumbing_settle.
      * intros [= <-]. eapply R_trans; [eapply (R_final Fail); [done|exact Q]|].
        apply R_plumbing, plumbing_settle.
    + intros [= <-]. eapply R_trans; [exact Hpop|]. auto with plumb.
    + destruct r as [p|d]; [|destruct o as [v|e]]; intros [= <-].
      * eapply R_trans; [exact Hpop|]. auto with plumb.
      * eapply R_trans; [exact Hpop|]. auto with plumb.
      * eapply R_trans; [exact Hpop|]. eapply R_trans; [apply R_throwError|].
        auto with plumb.
    + destruct o as [v|e]; intros [= <-].
      * eapply R_trans; [eapply R_cancelled, Q|]. auto with plumb.
      * eapply R_trans; [exact Hpop|]. auto with plumb.
    + intros [= <-]. eapply R_trans; [exact Hpop|]. auto with plumb.
  - apply cancel_kept.
  - destruct (ckind _); try done. destruct (promises m !! p); [|done].
    case_bool_decide; [|done].
    destruct (invoke _ _ _ _ _ _) as [[r m1]|] eqn:E; [|done].
    intros [= <-]. eapply invoke_kept, E. eauto using withPayload_kept.
  - destruct (ckind _); try done. destruct (promises m !! inner); [|done].
    intros E. eapply adapterCall_kept, E; eauto using withPayload_kept.
  - destruct (ckind _); try done. destruct (promises m !! inner); [|done].
    intros [= <-]. by apply R_plumbing, plumbing_enqueue.
Qed.

End Kept.

(** ** The state record along a request *)

Ltac reassoc := repeat (progress (rewrite <- ?app_assoc; simpl)).

Lemma session_reachable production adapter req fuel inputs p m :
  session production adapter req fuel inputs = Some (p, m) ->
  reachable production adapter req m.
Proof.
  unfold session. destruct (apicase _ _ _ _) as [[p0 m0]|] eqn:E; [|done].
  apply reach_apicase in E. revert m0 E.
  induction inputs as [|i inputs IH]; simpl; intros m0 E.
  - by intros [= _ <-].
  - destruct (perform _ _ _ _ _ _) as [m1|] eqn:P; [|done].
    apply IH. eapply reach_perform; eauto.
Qed.

Section Lifecycle.

Variable production : bool.
Variable adapter : Adapter.
Variable req : Request.

Lemma result_after_cancel_app b l :
  result_after_cancel b -> result_after_cancel (b ++ l).
Proof.
  intros (l1&s&l2&p&n&l3&->). exists l1, s, l2, p, n, (l3 ++ l).
  by reassoc.
Qed.

Lemma lifecycle_emit e m :
  terminal_event e = false -> lifecycle m -> lifecycle (emit e m).
Proof.
  intros He (H1&H2&H3). repeat split; simpl in *.
  - by apply H1.
  - by apply H1.
  - intros e' [?| ->%list_elem_of_singleton]%elem_of_app; [|done].
    by apply H1.
  - by apply H1.
  - intros Hc. destruct (H2 Hc) as (l1&s&l2&->).
    exists l1, s, (l2 ++ [e]). by reassoc.
  - intros. by apply result_after_cancel_app, H3.
Qed.

Lemma lifecycle_plumbing m m' : plumbing m m' -> lifecycle m -> lifecycle m'.
Proof.
  intros (Hr&_&_&_&_&Hb&_&(js&Hq&Hjs)&_) (H1&H2&H3). unfold lifecycle.
  rewrite Hr, Hb, Hq. repeat split; try (intros; by apply H1); auto.
  intros c v d [?|Hin]%elem_of_app; [by eapply H1|].
  rewrite Forall_forall in Hjs. by apply Hjs in Hin.
Qed.

Lemma lifecycle_update c v m :
  lifecycle m -> lifecycle (update c v m).
Proof.
  destruct c.
  - intros (H1&H2&H3). repeat split; simpl in *.
    + by apply H1.
    + by apply H1.
    + intros e' [?| ->%list_elem_of_singleton]%elem_of_app; [|done].
      by apply H1.
    + by apply H1.
    + intros Hc. destruct (H2 Hc) as (l1&s&l2&->).
      eexists l1, s, _. by reassoc.
    + intros. by apply result_after_cancel_app, H3.
  - intros (H1&H2&H3). repeat split; simpl in *; try done.
    + intros Hc. destruct (H2 Hc) as (l1&s&l2&->).
      eexists l1, s, _. by reassoc.
    + intros _ Hc. destruct (H2 Hc) as (l1&s&l2&->).
      exists l1, s, l2, (result (res m)), v, []. by reassoc.
  - intros (H1&H2&H3). repeat split; simpl in *; try done.
    intros Hc. destruct (H2 Hc) as (l1&s&l2&->).
    eexists l1, s, _. by reassoc.
Qed.

Lemma lifecycle_bump c m : lifecycle m -> lifecycle (bump c m).
Proof. by destruct c. Qed.

Lemma lifecycle_terminal c v m :
  lifecycle m -> lifecycle (snd (terminal c v m)).
Proof.
  intros H%(lifecycle_update c v). unfold terminal. simpl.
  destruct H as (H1&H2&H3). repeat split; simpl in *; try (by apply H1); auto.
  intros c' v' d' [?|[= -> _ _]%list_elem_of_singleton]%elem_of_app.
  - by eapply H1.
  - by destruct c.
Qed.

Lemma lifecycle_pop j q m :
  microtasks m = j :: q -> lifecycle m -> lifecycle (set_microtasks q m).
Proof.
  intros Q (H1&H2&H3). split; [|split]; simpl; auto.
  intros Hp. destruct (H1 Hp) as (A&B&C&D). repeat split; auto.
  intros c v d Hin. eapply D. rewrite Q. by right.
Qed.

Lemma lifecycle_final c v d q m :
  c <> Before -> microtasks m = JFinal c v d :: q ->
  lifecycle m -> lifecycle (snd (final c v (set_microtasks q m))).
Proof.
  intros Hc Q (H1&H2&H3).
  assert (pending (res m) = false) as Hp.
  { destruct (pending (res m)) eqn:E; [|done]. destruct Hc.
    eapply H1; [done|]. rewrite Q. by left. }
  unfold final. split; [|split]; simpl; try congruence.
  - intros Hx. destruct (H2 Hx) as (l1&s&l2&->).
    eexists l1, s, _. by reassoc.
  - intros. rewrite <- app_assoc. by apply result_after_cancel_app, H3.
Qed.

Lemma lifecycle_cancelled q m :
  lifecycle (let m := setState cancelDiff (set_microtasks q m) in
             emit (EvCancel (fst (pickState m))) (snd (pickState m))).
Proof.
  cbv zeta.
  destruct (setState_event cancelDiff (set_microtasks q m)) as (Hb&_&Hr).
  set (m1 := setState cancelDiff (set_microtasks q m)) in *.
  split; [|split].
  - intros Hp. change (pending (res m1) = true) in Hp. by rewrite Hr in Hp.
  - intros _. exists (bus m1), (length (heap m1)), []. reflexivity.
  - intros Hs. change (success (res m1) = true) in Hs. by rewrite Hr in Hs.
Qed.

Lemma perform_lifecycle fuel i m m' :
  perform production adapter req fuel i m = Some m' ->
  lifecycle m -> lifecycle m'.
Proof.
  apply (perform_kept production adapter req (fun a b => lifecycle a -> lifecycle b)).
  - auto.
  - auto.
  - apply lifecycle_plumbing.
  - intros. by apply lifecycle_update, lifecycle_bump.
  - apply lifecycle_terminal.
  - by intros cb m0 H.
  - intros. by apply lifecycle_emit.
  - apply lifecycle_pop.
  - apply lifecycle_final.
  - intros. by apply lifecycle_emit.
  - intros. apply lifecycle_cancelled.
Qed.

Lemma apicase_lifecycle fuel p m :
  apicase production adapter req fuel = Some (p, m) -> lifecycle m.
Proof.
  intros H. cut (lifecycle (init adapter req)).
  2:{ split; [|split]; simpl; try done. intros _. repeat split.
      - intros e He. by apply elem_of_nil in He.
      - intros c v d He. by apply elem_of_nil in He. }
  revert H. unfold apicase.
  apply (withPayload_kept production req (fun a b => lifecycle a -> lifecycle b)).
  - auto.
  - auto.
  - apply lifecycle_plumbing.
  - intros. by apply lifecycle_update, lifecycle_bump.
  - apply lifecycle_terminal.
Qed.

Lemma reachable_lifecycle m :
  reachable production adapter req m -> lifecycle m.
Proof.
  induction 1; eauto using apicase_lifecycle, perform_lifecycle.
Qed.

Lemma perform_pending fuel i m m' :
  perform production adapter req fuel i m = Some m' ->
  pending (res m) = false -> pending (res m') = false.
Proof.
  apply (perform_kept production adapter req
           (fun a b => pending (res a) = false -> pending (res b) = false)).
  - auto.
  - auto.
  - intros m0 m1 (Hr&_). by rewrite Hr.
  - by intros [] v m0.
  - by intros [] v m0.
  - auto.
  - auto.
  - auto.
  - auto.
  - auto.
  - intros d v q m0 _ _. cbv zeta.
    destruct (setState_event cancelDiff (set_microtasks q m0)) as (_&_&Hr).
    change (pending (res (setState cancelDiff (set_microtasks q m0))) = false).
    by rewrite Hr.
Qed.

End Lifecycle.

(** The events the engine emits under the name of a terminal event are
    those of the terminal actions. *)
Lemma terminal_event_name e :
  terminal_event e = false -> event_name e ∈ terminal_names -> by_adapter e.
Proof.
  destruct e; simpl; try done; intros _ H;
    repeat (apply elem_of_cons in H as [H|H]; [discriminate H|]);
    by apply elem_of_nil in H.
Qed.

(** C4 (as the code has it). At every reachable point of every request:
    while [pending] is true, [success] and [cancelled] are false and the
    engine has emitted no terminal event: an event named [done], [fail],
    [finish] or [cancel] is on the bus only if the adapter sent it itself
    through the [emit] it is handed.  [success] and [cancelled] are both
    true only when a [change:result] was emitted after a [cancel] event;
    and no input turns [pending] back to true. *)
Theorem state_invariant production adapter req m :
  reachable production adapter req m ->
  (pending (res m) = true ->
     success (res m) = false /\ cancelled (res m) = false
     /\ forall e, e ∈ bus m -> event_name e ∈ terminal_names -> by_adapter e)
  /\ (success (res m) = true -> cancelled (res m) = true ->
      result_after_cancel (bus m))
  /\ (forall fuel i m',
        perform production adapter req fuel i m = Some m' ->
        pending (res m) = false -> pending (res m') = false).
Proof.
  intros (H1&H2&H3)%reachable_lifecycle. split; [|split].
  - intros Hp. destruct (H1 Hp) as (?&?&Ht&?). split; [done|]. split; [done|].
    intros e Hin. by apply terminal_event_name, Ht.
  - exact H3.
  - intros fuel i m'. apply perform_pending.
Qed.

(** The invariant while a request is pending whose adapter has sent an
    event named [done] itself. *)
Lemma state_invariant_witness :
  exists m,
    session false (announces "done" (VStr "early")) (plain VNull a1) 1 [ITick]
      = Some (0, m)
    /\ pending (res m) = true
    /\ bus m = [ChangePayload (VObj []) a1; EvCustom "done" (VStr "early")]
    /\ success (res m) = false /\ cancelled (res m) = false
    /\ forall e, e ∈ bus m -> event_name e ∈ terminal_names -> by_adapter e.
Proof.
  destruct (session false (announces "done" (VStr "early")) (plain VNull a1) 1 [ITick])
    as [[p m]|] eqn:E0; [|vm_compute in E0; discriminate E0].
  pose proof (session_reachable _ _ _ _ _ _ _ E0) as R.
  destruct (state_invariant _ _ _ _ R) as (H & _).
  assert (p = 0 /\ pending (res m) = true
          /\ bus m = [ChangePayload (VObj []) a1; EvCustom "done" (VStr "early")])
    as (->&Hp&Hb).
  { clear -E0. vm_compute in E0. injection E0 as <- <-. by repeat split. }
  destruct (H Hp) as (Hs&Hc&Hn).
  exists m. split; [reflexivity|]. split; [exact Hp|]. split; [exact Hb|].
  split; [exact Hs|]. split; [exact Hc|exact Hn].
Defined.

(** C4, refuted as written: the caller cancels a pending request, the
    microtasks run, and only then does the adapter call [resolve]; the state
    ends with [pending] false and both [success] and [cancelled] true. *)
Lemma cancel_then_resolve_breaks_invariant :
  exists m,
    reachable false waits (plain VNull a1) m
    /\ microtasks m = []
    /\ ~ at_most_one_outcome m.
Proof.
  destruct (session false waits (plain VNull a1) 2
              [ITick; ITick; ICancel; ITick;
               ILateAdapter 1 (AResolve (VStr "ok")); ITick; ITick; ITick; ITick; ITick])
    as [[p m]|] eqn:E; [|vm_compute in E; discriminate E].
  exists m. split; [eapply session_reachable, E|].
  vm_compute in E. injection E as _ <-.
  split; [reflexivity|]. intros H. by apply H.
Qed.

(** ** Cursors, bus and calls only grow *)

Section Growth.

Variable production : bool.
Variable adapter : Adapter.
Variable req : Request.

Lemma grows_refl m : grows m m.
Proof. repeat split; auto; exists []; by rewrite app_nil_r. Qed.

Lemma grows_trans a b c : grows a b -> grows b c -> grows a c.
Proof.
  intros (I1&(l1&B1)&(c1&T1)) (I2&(l2&B2)&(c2&T2)). repeat split.
  - intros ch. specialize (I1 ch). specialize (I2 ch). lia.
  - exists (l1 ++ l2). by rewrite B2, B1, app_assoc.
  - exists (c1 ++ c2). by rewrite T2, T1, app_assoc.
Qed.

Lemma grows_plumbing m m' : plumbing m m' -> grows m m'.
Proof.
  intros (_&Hb&Hd&Hf&_&Hbus&_&_&Ht). repeat split; auto.
  - intros []; simpl; lia.
  - exists []. by rewrite app_nil_r.
Qed.

Lemma grows_emit e m : grows m (emit e m).
Proof. repeat split; auto; [by exists [e]|exists []; by rewrite app_nil_r]. Qed.

Lemma grows_next c v m : grows m (update c v (bump c m)).
Proof.
  repeat split.
  - intros c'. destruct c, c'; simpl; lia.
  - rewrite update_event. destruct c; by eexists.
  - exists []. destruct c; by rewrite app_nil_r.
Qed.

Lemma grows_update c v m : grows m (update c v m).
Proof.
  repeat split.
  - intros c'. destruct c, c'; simpl; lia.
  - rewrite update_event. by eexists.
  - exists []. destruct c; by rewrite app_nil_r.
Qed.

Lemma grows_terminal c v m : grows m (snd (terminal c v m)).
Proof.
  eapply grows_trans; [apply (grows_update c v)|]. unfold terminal. simpl.
  repeat split; auto; exists []; by rewrite app_nil_r.
Qed.

Lemma grows_queue q m : grows m (set_microtasks q m).
Proof. repeat split; auto; exists []; by rewrite app_nil_r. Qed.

Lemma grows_final c v m : grows m (snd (final c v m)).
Proof.
  repeat split; auto; simpl.
  - rewrite <- app_assoc. by eexists.
  - exists []; by rewrite app_nil_r.
Qed.

Lemma grows_setState diff m : grows m (setState diff m).
Proof.
  destruct (setState_event diff m) as (Hb&_&_).
  repeat split; auto.
  - by eexists.
  - exists []; by rewrite app_nil_r.
Qed.

Lemma withPayload_grows fuel c v m q m' :
  withPayload production req fuel c v m = Some (q, m') -> grows m m'.
Proof.
  apply (withPayload_kept production req grows).
  - apply grows_refl.
  - apply grows_trans.
  - apply grows_plumbing.
  - apply grows_next.
  - apply grows_terminal.
Qed.

Lemma perform_grows fuel i m m' :
  perform production adapter req fuel i m = Some m' -> grows m m'.
Proof.
  apply (perform_kept production adapter req grows).
  - apply grows_refl.
  - apply grows_trans.
  - apply grows_plumbing.
  - apply grows_next.
  - apply grows_terminal.
  - intros. repeat split; auto; exists []; by rewrite app_nil_r.
  - intros. apply grows_emit.
  - intros. apply grows_queue.
  - intros. eapply grows_trans; [apply grows_queue|apply grows_final].
  - intros. apply grows_emit.
  - intros d v q m0 _. cbv zeta.
    eapply grows_trans; [apply (grows_queue q)|].
    eapply grows_trans; [apply (grows_setState cancelDiff)|].
    repeat split; auto; [by eexists|exists []; by rewrite app_nil_r].
Qed.

(** No run of a chain registers a cancellation callback: only the adapter
    does. *)
Lemma withPayload_cancelCallback fuel c v m q m' :
  withPayload production req fuel c v m = Some (q, m') ->
  cancelCallback m' = cancelCallback m.
Proof.
  apply (withPayload_kept production req
           (fun a b => cancelCallback b = cancelCallback a)).
  - auto.
  - intros; congruence.
  - by intros a b (_&_&_&_&H&_).
  - by intros [] v0 m0.
  - by intros [] v0 m0.
Qed.

Lemma adapterCalls_registered fuel inner cs m m' :
  adapterCalls (withPayload production req fuel) inner cs m = Some m' ->
  cancelCallback m' = registered cs (cancelCallback m).
Proof.
  revert m. induction cs as [|a cs IH]; simpl; intros m.
  - by intros [= <-].
  - destruct (adapterCall _ _ _ _) as [m1|] eqn:E; [|done].
    intros H%IH. rewrite H. f_equal. clear H IH.
    destruct a; unfold adapterCall in E.
    + destruct (withPayload _ _ _ _ _ _) as [[q m2]|] eqn:W; [|done].
      injection E as <-. apply withPayload_cancelCallback in W. rewrite <- W.
      unfold resolveWith. by destruct (alreadyResolved _).
    + destruct (withPayload _ _ _ _ _ _) as [[q m2]|] eqn:W; [|done].
      injection E as <-. apply withPayload_cancelCallback in W. rewrite <- W.
      unfold resolveWith. by destruct (alreadyResolved _).
    + by injection E as <-.
    + by injection E as <-.
Qed.

End Growth.


(** ** Terminal states *)

Section Terminal.

Variable production : bool.
Variable adapter : Adapter.
Variable req : Request.

(** The last step of a chain, taken when no hook is left at the cursor. *)
Lemma withPayload_terminal fuel c v m :
  hooks req c !! idx c m = None ->
  withPayload production req (S fuel) c v m = Some (terminal c v m).
Proof.
  intros H. simpl.
  destruct (hooks req c !! idx c m) eqn:E; [|done].
  congruence.
Qed.

Lemma terminal_state c v m :
  c <> Before ->
  let m' := snd (terminal c v m) in
  microtasks m' = microtasks m ++ [JFinal c v (fst (terminal c v m))]
  /\ pending (res m') = false
  /\ success (res m') = bool_decide (c = Done)
  /\ cancelled (res m') = cancelled (res m).
Proof. by destruct c. Qed.

(** The job queued by [cancel], once it runs. *)
Lemma cancelled_job fuel d v q m :
  microtasks m = JCancelThen d (Fulfilled v) :: q ->
  exists m' l s,
    perform production adapter req fuel ITick m = Some m'
    /\ res m' = assign (res m) cancelDiff
    /\ bus m' = bus m ++ [ChangeState l l cancelDiff; EvCancel s]
    /\ heap m' !! s = Some (res m').
Proof.
  intros Q. unfold perform. rewrite Q. unfold runJob.
  destruct (setState_event cancelDiff (set_microtasks q m)) as (Hb&Hh&Hr).
  remember (setState cancelDiff (set_microtasks q m)) as m1 eqn:Em1.
  simpl in Hb, Hr. unfold pickState.
  remember (emit (EvCancel (length (heap m1))) (set_heap (heap m1 ++ [res m1]) m1))
    as m2 eqn:Em2.
  exists (settle d (Fulfilled VUndefined) m2), (length (heap m)), (length (heap m1)).
  split; [reflexivity|].
  destruct (plumbing_settle d (Fulfilled VUndefined) m2) as (Er&_&_&_&_&Eb&Eh&_).
  rewrite Er, Eb, Eh, Em2. simpl. rewrite Hr, Hb. reassoc.
  repeat split. by apply list_lookup_middle.
Qed.

End Terminal.

Lemma final_job production adapter req fuel c r d q m :
  c <> Before -> microtasks m = JFinal c r d :: q ->
  exists m',
    perform production adapter req fuel ITick m = Some m' /\ res m' = res m.
Proof.
  intros Hc Q. unfold perform. rewrite Q.
  exists (settle d (Fulfilled (fst (final c r (set_microtasks q m))))
            (snd (final c r (set_microtasks q m)))).
  split; [destruct c; [done|reflexivity|reflexivity]|].
  by destruct (plumbing_settle d (Fulfilled (fst (final c r (set_microtasks q m))))
                 (snd (final c r (set_microtasks q m)))) as (->&_).
Qed.

(** C2 (as the code has it). At every reachable point: the terminal step
    of the done-chain leaves [pending] false and [success] true, that of the
    fail-chain leaves [pending] false and [success] false, and both leave
    [cancelled] as it was; the [final] that follows does not touch the
    state; the job of a cancellation leaves [{success:false, pending:false,
    cancelled:true}]; and [cancelled] is true only after a [cancel] event. *)
Theorem terminal_state_per_route production adapter req m :
  reachable production adapter req m ->
  (forall fuel r, hooks req Done !! idx Done m = None ->
     exists d m',
       withPayload production req (S fuel) Done r m = Some (d, m')
       /\ microtasks m' = microtasks m ++ [JFinal Done r d]
       /\ pending (res m') = false /\ success (res m') = true
       /\ cancelled (res m') = cancelled (res m))
  /\ (forall fuel r, hooks req Fail !! idx Fail m = None ->
     exists d m',
       withPayload production req (S fuel) Fail r m = Some (d, m')
       /\ microtasks m' = microtasks m ++ [JFinal Fail r d]
       /\ pending (res m') = false /\ success (res m') = false
       /\ cancelled (res m') = cancelled (res m))
  /\ (forall fuel c r d q, c <> Before -> microtasks m = JFinal c r d :: q ->
     exists m',
       perform production adapter req fuel ITick m = Some m' /\ res m' = res m)
  /\ (forall fuel d v q, microtasks m = JCancelThen d (Fulfilled v) :: q ->
     exists m',
       perform production adapter req fuel ITick m = Some m'
       /\ cancelled_state (res m'))
  /\ (cancelled (res m) = true -> exists l1 s l2, bus m = l1 ++ EvCancel s :: l2).
Proof.
  intros (_&H2&_)%reachable_lifecycle. repeat apply conj.
  - intros fuel r H. rewrite (withPayload_terminal _ _ _ _ _ _ H).
    by exists (fst (terminal Done r m)), (snd (terminal Done r m)).
  - intros fuel r H. rewrite (withPayload_terminal _ _ _ _ _ _ H).
    by exists (fst (terminal Fail r m)), (snd (terminal Fail r m)).
  - intros. by eapply final_job.
  - intros fuel d v q Q.
    destruct (cancelled_job production adapter req fuel d v q m Q)
      as (m'&l&s&E&Hr&_).
    exists m'. split; [done|]. by rewrite Hr.
  - exact H2.
Qed.


(** The resolve route with no cancellation: Scenario A after the adapter
    call, the done-chain being at its terminal step. *)
Lemma terminal_state_per_route_witness :
  exists m0 d m',
    apicase false (resolves (VStr "ok")) (plain VNull a1) 1 = Some (0, m0)
    /\ withPayload false (plain VNull a1) 1 Done (VStr "ok") m0 = Some (d, m')
    /\ resolved_state (res m').
Proof.
  destruct (apicase false (resolves (VStr "ok")) (plain VNull a1) 1)
    as [[p m0]|] eqn:E0; [|vm_compute in E0; discriminate E0].
  pose proof (reach_apicase _ _ _ _ _ _ E0) as R.
  destruct (terminal_state_per_route _ _ _ _ R) as (H & _).
  vm_compute in E0. injection E0 as <- <-.
  destruct (H 0 (VStr "ok") eq_refl) as (d&m'&E&_&P&S&C).
  eexists _, d, m'. split; [reflexivity|]. split; [exact E|].
  repeat split; auto.
Defined.

(** C2, refuted as written: the adapter resolves after a cancellation has
    run; the done-chain reaches its terminal step and emits [done], and the
    state then reads [cancelled: true] beside [success: true]. *)
Lemma resolve_after_cancel_state :
  exists p m,
    session false waits (plain VNull a1) 2
      [ITick; ITick; ICancel; ITick; ILateAdapter 1 (AResolve (VStr "ok"));
       ITick; ITick; ITick; ITick; ITick] = Some (p, m)
    /\ microtasks m = []
    /\ bus m = [ChangePayload (VObj []) a1; ChangeState 0 0 cancelDiff; EvCancel 1;
                ChangeResult VNull (VStr "ok"); EvDone (VStr "ok") 2;
                EvFinish (VStr "ok") 3]
    /\ ~ resolved_state (res m).
Proof.
  do 2 eexists. split; [vm_compute; reflexivity|].
  split; [reflexivity|]. split; [reflexivity|].
  intros (_&_&H). discriminate H.
Qed.

(** ** Cancellation *)

Lemma callbackRun_trace production req fuel m m1 :
  callbackRun production req fuel m = Some m1 ->
  exists cs, trace m1 = trace m ++ CancelCall (cancelCallback m) :: cs.
Proof.
  unfold callbackRun. intros H.
  apply (adapterCalls_kept grows) in H.
  - destruct H as (_&_&(cs&T)). exists cs. rewrite T. simpl. by rewrite <- app_assoc.
  - apply grows_refl.
  - apply grows_trans.
  - apply grows_plumbing.
  - intros. eapply withPayload_grows; eauto.
  - intros. repeat split; auto; exists []; by rewrite app_nil_r.
  - intros. apply grows_emit.
Qed.

Lemma cancel_unfold production req fuel m :
  cancel production req fuel m =
    match callbackRun production req fuel m with
    | None => None
    | Some m1 => Some (afterCancelCallback (outcome_of (cancelCallback m)) m1)
    end.
Proof. reflexivity. Qed.


(** ** Retry *)

Lemma tryResolve_frame production c p q m :
  let m' := tryResolve production c p q m in
  res m' = res m /\ bus m' = bus m /\ trace m' = trace m
  /\ (forall c', idx c' m' = idx c' m)
  /\ exists js, microtasks m' = microtasks m ++ js.
Proof.
  unfold tryResolve, resolveWith.
  destruct (negb production && isResolved (cell_at p m)); simpl.
  { do 3 (split; [done|]). split; [by intros []|].
    exists []. by rewrite app_nil_r. }
  destruct (alreadyResolved _); simpl.
  - do 3 (split; [done|]). split; [by intros []|].
    exists []. by rewrite app_nil_r.
  - do 3 (split; [done|]). split; [by intros []|]. by eexists.
Qed.

(** The adapter call is the first thing [doRequest] does once [convert]
    has returned: with the converted payload and the current
    [res.result]. *)
Lemma doRequest_trace production adapter req fuel v w m q m' :
  convert_result adapter v = Returns w ->
  doRequest adapter (withPayload production req fuel) v m = Some (q, m') ->
  exists body cs,
    body = callback adapter (adapterRuns (trace m)) w (result (res m))
    /\ trace m' = trace m ++ AdapterCallback w (result (res m)) body :: cs.
Proof.
  unfold doRequest. simpl. intros ->.
  destruct (adapterCalls _ _ _ _) as [m1|] eqn:E; [|done].
  intros [= _ <-].
  apply (adapterCalls_kept grows) in E.
  - destruct E as (_&_&(cs1&T1)).
    match goal with
    | |- context [subscribe ?a ?b ?x] =>
        destruct (plumbing_subscribe a b x) as (_&_&_&_&_&_&_&_&(cs3&T3)); rewrite T3
    end. simpl.
    match goal with
    | |- context [afterCallback ?a ?b ?x] =>
        destruct (plumbing_afterCallback a b x) as (_&_&_&_&_&_&_&_&(cs2&T2)); rewrite T2
    end.
    rewrite T1. simpl. eexists _, (cs1 ++ cs2 ++ cs3). split; [reflexivity|]. by reassoc.
  - apply grows_refl.
  - apply grows_trans.
  - apply grows_plumbing.
  - intros. eapply withPayload_grows; eauto.
  - intros. repeat split; auto; exists []; by rewrite app_nil_r.
  - intros. apply grows_emit.
Qed.

(** ** Settling a step twice *)

Section Apart.

Variable production : bool.
Variable req : Request.

Lemma apart_refl n m : apart n m m.
Proof.
  split; [done|]. split; [done|].
  split; exists []; rewrite app_nil_r; auto.
Qed.

Lemma apart_trans n a b c : apart n a b -> apart n b c -> apart n a c.
Proof.
  intros (L1&K1&(js1&Q1&F1)&(ds1&C1)) (L2&K2&(js2&Q2&F2)&(ds2&C2)).
  split; [lia|]. split; [intros i Hi; by rewrite K2, K1|]. split.
  - exists (js1 ++ js2). rewrite Q2, Q1, app_assoc. split; [done|].
    by apply Forall_app.
  - exists (ds1 ++ ds2). by rewrite C2, C1, app_assoc.
Qed.

(** Steps that leave promises, queue and console alone. *)
Lemma apart_same n m m' :
  promises m' = promises m -> microtasks m' = microtasks m ->
  console m' = console m -> apart n m m'.
Proof.
  intros E0 E1 E2. unfold apart. rewrite E0, E1, E2.
  split; [done|]. split; [done|].
  split; exists []; rewrite app_nil_r; auto.
Qed.

Lemma apart_newCell n k m :
  n <= length (promises m) -> apart n m (snd (newCell k m)).
Proof.
  intros Hn. split; [simpl; rewrite length_app; lia|]. split.
  - intros i Hi. simpl. apply lookup_app_l. lia.
  - split; exists []; rewrite app_nil_r; auto.
Qed.

Lemma apart_set_cell n p c m : n <= p -> apart n m (set_cell p c m).
Proof.
  intros Hn. split; [simpl; by rewrite length_insert|]. split.
  - intros i Hi. simpl. apply list_lookup_insert_ne. lia.
  - split; exists []; rewrite app_nil_r; auto.
Qed.

Lemma apart_enqueue n j m : ~ locks_below n j -> apart n m (enqueue j m).
Proof.
  intros Hj. split; [done|]. split; [done|]. split.
  - exists [j]. split; [done|]. by constructor.
  - exists []. by rewrite app_nil_r.
Qed.

Lemma apart_report n d m : apart n m (report d m).
Proof.
  split; [done|]. split; [done|]. split.
  - exists []. by rewrite app_nil_r.
  - by exists [d].
Qed.

Lemma apart_settle n p o m : n <= p -> apart n m (settle p o m).
Proof.
  intros Hn. unfold settle. destruct (pst (cell_at p m)); [|apply apart_refl].
  split; [simpl; by rewrite length_insert|]. split.
  - intros i Hi. simpl. apply list_lookup_insert_ne. lia.
  - split; [|exists []; by rewrite app_nil_r].
    eexists. split; [reflexivity|]. apply Forall_map, Forall_true.
    by intros r [].
Qed.

Lemma apart_resolveWith n p q m : n <= p -> apart n m (resolveWith p q m).
Proof.
  intros Hn. unfold resolveWith. destruct (alreadyResolved _); [apply apart_refl|].
  eapply apart_trans; [by apply apart_set_cell|].
  apply apart_enqueue. simpl. lia.
Qed.

Lemma apart_tryResolve n c p q m :
  n <= p -> apart n m (tryResolve production c p q m).
Proof.
  intros Hn. unfold tryResolve. destruct (negb production && _).
  - apply apart_report.
  - eapply apart_trans; [by apply apart_set_cell|by apply apart_resolveWith].
Qed.

Lemma apart_length n m m' : apart n m m' -> length (promises m) <= length (promises m').
Proof. by intros (?&_). Qed.

Section Open.

Variable run : chain -> value -> Machine -> option (nat * Machine).
Hypothesis run_apart : forall n c v m q m',
  n <= length (promises m) -> run c v m = Some (q, m') -> apart n m m'.

Lemma invoke_apart n c p cv m r m' :
  n <= p -> n <= length (promises m) ->
  invoke production run c p cv m = Some (r, m') -> apart n m m'.
Proof using run_apart.
  intros Hp Hn. destruct cv as [cap v]. unfold invoke.
  destruct (available c cap); [|intros [= _ <-]; apply apart_refl].
  destruct (run _ _ _) as [[q m1]|] eqn:E; [|done].
  intros [= _ <-]. apply (run_apart n) in E.
  - eapply apart_trans; [|by apply apart_tryResolve].
    eapply apart_trans; [|exact E].
    destruct cap; try apply apart_refl.
    destruct c; apply apart_same; reflexivity.
  - destruct cap; try exact Hn. destruct c; exact Hn.
Qed.

Lemma runCalls_apart n c p cs m r m' :
  n <= p -> n <= length (promises m) ->
  runCalls production run c p cs m = Some (r, m') -> apart n m m'.
Proof using run_apart.
  intros Hp. revert m. induction cs as [|cv cs IH]; simpl; intros m Hn.
  - intros [= _ <-]. apply apart_refl.
  - destruct (invoke _ _ _ _ _ _) as [[[e|] m1]|] eqn:E; [| |done].
    + intros [= _ <-]. eapply invoke_apart; [exact Hp|exact Hn|exact E].
    + intros H. pose proof (invoke_apart n _ _ _ _ _ _ Hp Hn E) as A.
      eapply apart_trans; [exact A|]. eapply IH; [|exact H].
      apply apart_length in A. lia.
Qed.

End Open.

Lemma withPayload_apart fuel n c v m q m' :
  n <= length (promises m) ->
  withPayload production req fuel c v m = Some (q, m') -> apart n m m'.
Proof.
  revert n c v m q m'. induction fuel as [|fuel IH]; [done|]. simpl.
  intros n c v m q m' Hn. destruct (hooks req c !! idx c m) as [hook|].
  - destruct (runCalls _ _ _ _ _ _) as [[thrown m1]|] eqn:E; [|done].
    apply (runCalls_apart _ IH n) in E; [|done|simpl; rewrite length_app; lia].
    assert (apart n m m1) as A.
    { eapply apart_trans; [|exact E].
      eapply apart_trans; [apply (apart_newCell n (KStep c)); lia|].
      by apply apart_same. }
    destruct (from_option _ _ _); intros [= _ <-]; [|done].
    eapply apart_trans; [exact A|]. unfold rejectWith.
    destruct (alreadyResolved _); [apply apart_refl|by apply apart_settle].
  - intros [= _ <-]. unfold terminal.
    eapply apart_trans;
      [apply (apart_same n m (update c v m)); destruct c; reflexivity|].
    eapply apart_trans;
      [apply (apart_newCell n (KFinal c)); destruct c; exact Hn|].
    apply apart_enqueue. intros [].
Qed.

End Apart.

Lemma set_cell_id p c m : promises m !! p = Some c -> set_cell p c m = m.
Proof.
  intros H. destruct m. unfold set_cell, set_promises. simpl in *.
  by rewrite list_insert_id.
Qed.

(** [tryResolve] on a step that is settled already: a report outside
    production mode, nothing at all in production mode. *)
Lemma tryResolve_settled production c p q m :
  p < length (promises m) ->
  isResolved (cell_at p m) = true ->
  alreadyResolved (cell_at p m) = true ->
  tryResolve production c p q m =
    if production then m else report (ResolveTwice c (idx c m)) m.
Proof.
  intros Hp Hi Ha. unfold tryResolve. rewrite Hi.
  destruct production; simpl; [|done].
  assert (promises m !! p = Some (cell_at p m)) as Hl.
  { unfold cell_at. destruct (promises m !! p) eqn:El; [done|].
    apply lookup_ge_None in El. lia. }
  rewrite set_cell_id.
  - unfold resolveWith. by rewrite Ha.
  - rewrite Hl. f_equal. destruct (cell_at p m). simpl in *. by subst.
Qed.

(** The adapter's [resolve] and [reject] on a promise that is resolved
    already: [done(result)] or [fail(result)] is evaluated first, so the
    chain runs once more, and the call of the promise's [resolve] that
    follows does nothing. *)
Lemma second_settle_runs_chain production req fuel inner a m m' :
  inner < length (promises m) ->
  alreadyResolved (cell_at inner m) = true ->
  settling_call a = true ->
  adapterCall (withPayload production req fuel) inner a m = Some m' ->
  apart (length (promises m)) m m'
  /\ exists r q,
       (a = AResolve r /\ withPayload production req fuel Done r m = Some (q, m'))
       \/ (a = AReject r /\ withPayload production req fuel Fail r m = Some (q, m')).
Proof.
  intros Hin Ha Hs H. unfold adapterCall in H.
  assert (forall c r q m2,
            withPayload production req fuel c r m = Some (q, m2) ->
            apart (length (promises m)) m m2 /\ resolveWith inner q m2 = m2) as Hrun.
  { intros c r q m2 E.
    pose proof (withPayload_apart production req fuel (length (promises m))
                  c r m q m2 (le_n _) E) as A.
    split; [done|]. destruct A as (_&K&_).
    unfold resolveWith, cell_at. rewrite (K inner Hin).
    unfold cell_at in Ha. by rewrite Ha. }
  destruct a as [r|r| |]; try done.
  - destruct (withPayload _ _ _ _ _ _) as [[q m2]|] eqn:E; [|done].
    destruct (Hrun _ _ _ _ E) as (A&Hr). rewrite Hr in H. injection H as <-.
    split; [done|]. exists r, q. by left.
  - destruct (withPayload _ _ _ _ _ _) as [[q m2]|] eqn:E; [|done].
    destruct (Hrun _ _ _ _ E) as (A&Hr). rewrite Hr in H. injection H as <-.
    split; [done|]. exists r, q. by right.
Qed.

(** C6 (as the code has it). A capability called on a step that is
    already settled does not settle it again: the step's promise stays as
    it is and no job locks it onto another promise, so the first settlement
    stands; the call is not fatal and, outside production mode, is reported
    on the console.  Everything else the capability does happens again,
    because it precedes [tryResolve]: a second [next] advances the cursor
    and emits its change event, and every capability runs its chain once
    more, which leaves the machine as it is but for the report.  The same
    holds of the adapter's [resolve] and [reject] on a promise that is
    resolved already: the done- or the fail-chain runs once more, the
    promise of [doRequest] stays as it is, and here nothing is reported at
    all: the machine is exactly what the chain left. *)
Theorem second_call_keeps_first_settlement production req fuel :
  (forall c p cap v m r m',
     p < length (promises m) ->
     isResolved (cell_at p m) = true ->
     alreadyResolved (cell_at p m) = true ->
     available c cap = true ->
     invoke production (withPayload production req fuel) c p (cap, v) m = Some (r, m') ->
     r = None
     /\ promises m' !! p = promises m !! p
     /\ (exists js, microtasks m' = microtasks m ++ js
                    /\ forall q, JThenable p q ∉ js)
     /\ (production = false ->
         exists ds i, console m' = console m ++ ds ++ [ResolveTwice c i])
     /\ (cap = cap_next ->
         S (idx c m) <= idx c m'
         /\ exists l, bus m' = bus m ++ match c with
                                       | Before => ChangePayload (payload (res m)) v
                                       | _ => ChangeResult (result (res m)) v
                                       end :: l)
     /\ exists q m2,
          withPayload production req fuel (target c cap) v
            (match cap with cap_next => update c v (bump c m) | _ => m end)
          = Some (q, m2)
          /\ m' = if production then m2 else report (ResolveTwice c (idx c m2)) m2)
  /\ (forall inner a m m',
        inner < length (promises m) ->
        alreadyResolved (cell_at inner m) = true ->
        settling_call a = true ->
        adapterCall (withPayload production req fuel) inner a m = Some m' ->
        promises m' !! inner = promises m !! inner
        /\ (exists js, microtasks m' = microtasks m ++ js
                       /\ forall q, JThenable inner q ∉ js)
        /\ exists r q,
             (a = AResolve r
              /\ withPayload production req fuel Done r m = Some (q, m'))
             \/ (a = AReject r
                 /\ withPayload production req fuel Fail r m = Some (q, m'))).
Proof.
  split.
  - intros c p cap v m r m' Hp Hi Ha Hav. unfold invoke. rewrite Hav.
    set (m1 := match cap with cap_next => update c v (bump c m) | _ => m end).
    destruct (withPayload _ _ _ _ _ _) as [[q m2]|] eqn:E; [|done].
    intros [= <- <-]. split; [done|].
    assert (promises m1 = promises m /\ microtasks m1 = microtasks m
            /\ console m1 = console m) as (P1&Q1&C1)
      by (subst m1; destruct cap; try done; by destruct c).
    pose proof (withPayload_grows _ _ _ _ _ _ _ _ E) as (G1&(l&G2)&_).
    pose proof E as E'.
    apply (withPayload_apart _ _ _ (length (promises m))) in E; [|by rewrite P1].
    destruct E as (L2&K2&(js&Q2&F2)&(ds&C2)).
    assert (cell_at p m2 = cell_at p m) as Hc.
    { unfold cell_at. by rewrite (K2 p Hp), P1. }
    assert (tryResolve production c p q m2
            = if production then m2 else report (ResolveTwice c (idx c m2)) m2) as Ht.
    { rewrite P1 in L2. apply tryResolve_settled; rewrite ?Hc; auto; lia. }
    assert (promises (tryResolve production c p q m2) = promises m2
            /\ microtasks (tryResolve production c p q m2) = microtasks m2
            /\ console (tryResolve production c p q m2) =
                 console m2 ++ (if production then [] else [ResolveTwice c (idx c m2)]))
      as (P3&Q3&C3).
    { rewrite Ht. destruct production; simpl; by rewrite ?app_nil_r. }
    rewrite P3, Q3, C3, (K2 p Hp), P1, Q2, Q1, C2, C1.
    split; [done|]. split; [|split; [|split]].
    + exists js. split; [done|]. intros q' Hin.
      rewrite Forall_forall in F2. apply (F2 _ Hin). simpl. lia.
    + intros ->. exists ds, (idx c m2). by reassoc.
    + intros ->. subst m1.
      destruct (tryResolve_frame production c p q m2) as (_&Hb&_&Hix&_). split.
      * specialize (G1 c). rewrite Hix.
        assert (idx c (update c v (bump c m)) = S (idx c m)) by (by destruct c).
        lia.
      * rewrite Hb, G2, update_event. exists l. destruct c; by reassoc.
    + exists q, m2. split; [reflexivity|exact Ht].
  - intros inner a m m' Hin Ha Hs H.
    destruct (second_settle_runs_chain production req fuel inner a m m' Hin Ha Hs H)
      as ((L&K&(js&Q&F)&_)&Hrun).
    split; [by apply K|]. split; [|exact Hrun].
    exists js. split; [done|]. intros q Hq.
    rewrite Forall_forall in F. apply (F _ Hq). simpl. lia.
Qed.

(** The hook of a one-hook before-chain has called [next]; it calls
    [next] once more.  And an adapter calls [resolve] a second time. *)
Lemma second_call_keeps_first_settlement_witness :
  exists m0 m' m1 m1' q,
    apicase false (resolves (VStr "ok"))
      (mkRequest VNull a1 [calls_next (VNum 1)] [] [] false) 2 = Some (0, m0)
    /\ invoke false
         (withPayload false (mkRequest VNull a1 [calls_next (VNum 1)] [] [] false) 1)
         Before 0 (cap_next, VNum 2) m0 = Some (None, m')
    /\ promises m' !! 0 = promises m0 !! 0
    /\ (exists ds i, console m' = console m0 ++ ds ++ [ResolveTwice Before i])
    /\ session false (resolves (VStr "ok")) (plain VNull a1) 1 [ITick] = Some (0, m1)
    /\ adapterCall (withPayload false (plain VNull a1) 1) 1 (AResolve (VStr "again")) m1
       = Some m1'
    /\ withPayload false (plain VNull a1) 1 Done (VStr "again") m1 = Some (q, m1')
    /\ promises m1' !! 1 = promises m1 !! 1.
Proof.
  destruct (apicase false (resolves (VStr "ok"))
              (mkRequest VNull a1 [calls_next (VNum 1)] [] [] false) 2)
    as [[p m0]|] eqn:E0; [|vm_compute in E0; discriminate E0].
  destruct (invoke false
              (withPayload false
                 (mkRequest VNull a1 [calls_next (VNum 1)] [] [] false) 1)
              Before 0 (cap_next, VNum 2) m0) as [[r m']|] eqn:E1;
    [|vm_compute in E0; injection E0 as <- <-; vm_compute in E1; discriminate E1].
  destruct (session false (resolves (VStr "ok")) (plain VNull a1) 1 [ITick])
    as [[p1 m1]|] eqn:E2; [|vm_compute in E2; discriminate E2].
  destruct (adapterCall (withPayload false (plain VNull a1) 1) 1
              (AResolve (VStr "again")) m1) as [m1'|] eqn:E3;
    [|vm_compute in E2; injection E2 as <- <-; vm_compute in E3; discriminate E3].
  destruct (second_call_keeps_first_settlement false
              (mkRequest VNull a1 [calls_next (VNum 1)] [] [] false) 1) as (H&_).
  destruct (second_call_keeps_first_settlement false (plain VNull a1) 1) as (_&H').
  assert (p = 0 /\ p1 = 0) as (->&->).
  { clear -E0 E2. vm_compute in E0. injection E0 as <- _.
    vm_compute in E2. injection E2 as <- _. by split. }
  destruct (H Before 0 cap_next (VNum 2) m0 r m') as (-> & P & _ & C & _);
    [clear -E0; vm_compute in E0; injection E0 as <-; vm_compute; lia
    |clear -E0; vm_compute in E0; by injection E0 as <-
    |clear -E0; vm_compute in E0; by injection E0 as <-
    |reflexivity|exact E1|].
  destruct (H' 1 (AResolve (VStr "again")) m1 m1') as (P' & _ & r' & q & [(Hr&W)|(Hr&_)]);
    [clear -E2; vm_compute in E2; injection E2 as <-; vm_compute; lia
    |clear -E2; vm_compute in E2; by injection E2 as <-
    |reflexivity|exact E3| |discriminate Hr].
  injection Hr as <-.
  exists m0, m', m1, m1', q. split; [reflexivity|]. split; [exact E1|].
  split; [exact P|]. split; [by apply C|]. split; [reflexivity|].
  split; [exact E3|]. split; [exact W|exact P'].
Defined.

(** C6, refuted as written: the same request with a hook that calls
    [next] once and with a hook that calls it a second time.  The second
    call moves the cursor, changes the payload of the state and emits two
    more [change:payload] events; it also queues a second adapter call. *)
Lemma second_next_has_effects :
  exists p1 m1 p2 m2,
    apicase false (resolves (VStr "ok"))
      (mkRequest VNull a1 [calls_next (VNum 1)] [] [] false) 3 = Some (p1, m1)
    /\ apicase false (resolves (VStr "ok"))
      (mkRequest VNull a1 [calls_next_twice (VNum 1) (VNum 2)] [] [] false) 3
      = Some (p2, m2)
    /\ idx Before m1 = 1 /\ idx Before m2 = 2
    /\ bus m1 = [ChangePayload (VObj []) (VNum 1); ChangePayload (VNum 1) (VNum 1)]
    /\ bus m2 = [ChangePayload (VObj []) (VNum 1); ChangePayload (VNum 1) (VNum 1);
                 ChangePayload (VNum 1) (VNum 2); ChangePayload (VNum 2) (VNum 2)]
    /\ microtasks m2 = microtasks m1 ++ [JFinal Before (VNum 2) 2]
    /\ console m2 = [ResolveTwice Before 2]
    /\ ~ same_effects m1 m2.
Proof.
  do 4 eexists. split; [vm_compute; reflexivity|].
  split; [vm_compute; reflexivity|].
  do 6 (split; [reflexivity|]).
  intros (_&H&_). discriminate H.
Qed.

(** ** Draining a calm queue *)

Lemma total_app {A} (w : A -> nat) l1 l2 :
  total w (l1 ++ l2) = total w l1 + total w l2.
Proof. induction l1; simpl; lia. Qed.

Lemma total_insert {A} (w : A -> nat) (l : list A) i x y :
  l !! i = Some x -> total w (<[i:=y]> l) + w x = total w l + w y.
Proof.
  revert i. induction l as [|a l IH]; intros [|i]; simpl; try done.
  - intros [= ->]. lia.
  - intros H. specialize (IH _ H). lia.
Qed.

Lemma total_reactions o rs :
  total job_weight (map (fun r => JReact r o) rs) = length rs.
Proof. induction rs; simpl; lia. Qed.

Lemma queue_events_settling h q js :
  Forall settling js -> queue_events h (q ++ js) = queue_events h q.
Proof.
  intros Hjs. revert h. induction q as [|j q IH]; simpl; intros h.
  - induction Hjs as [|j js Hj _ IH]; [done|]. destruct j; try done.
  - destruct j as [[] ? ?| | | |]; by rewrite ?IH.
Qed.

Lemma settle_fulfilled p v m :
  Forall calm_cell (promises m) -> settles_within 0 m (settle p (Fulfilled v) m).
Proof.
  intros Hc. unfold settle, cell_at.
  destruct (promises m !! p) as [c|] eqn:E; simpl.
  - destruct (pst c) as [rs|o] eqn:Ep.
    + do 3 (split; [done|]). split.
      { simpl. apply Forall_insert; [done|]. by intros e. }
      eexists. split; [reflexivity|]. split.
      { apply Forall_map, Forall_true. by intros []. }
      simpl. rewrite total_reactions.
      pose proof (total_insert cell_weight (promises m) p c
                    (mkCell (ckind c) (Settled (Fulfilled v)) true (isResolved c)) E) as T.
      assert (cell_weight c = 2 * length rs) as W
        by (unfold cell_weight; by rewrite Ep).
      rewrite W in T. change (cell_weight (mkCell _ _ _ _)) with 0 in T. lia.
    + do 3 (split; [done|]). split; [done|]. exists [].
      rewrite app_nil_r. repeat split; [constructor|simpl; lia].
  - do 3 (split; [done|]). split.
    { simpl. by rewrite list_insert_ge by (by apply lookup_ge_None). }
    exists []. simpl. rewrite app_nil_r.
    rewrite list_insert_ge by (by apply lookup_ge_None).
    repeat split; [constructor|lia].
Qed.

Lemma subscribe_calm q r m :
  Forall calm_cell (promises m) -> settles_within 2 m (subscribe q r m).
Proof.
  intros Hc. unfold subscribe, cell_at.
  destruct (promises m !! q) as [c|] eqn:E; simpl.
  - destruct (pst c) as [rs|[v|e]] eqn:Ep.
    + do 3 (split; [done|]). split.
      { simpl. apply Forall_insert; [done|]. by intros e. }
      exists []. simpl. rewrite app_nil_r. repeat split; [constructor|].
      pose proof (total_insert cell_weight (promises m) q c
                    (mkCell (ckind c) (Pending (rs ++ [r])) (alreadyResolved c)
                       (isResolved c)) E) as T.
      assert (cell_weight c = 2 * length rs) as W
        by (unfold cell_weight; by rewrite Ep).
      rewrite W in T.
      change (cell_weight (mkCell _ _ _ _)) with (2 * length (rs ++ [r])) in T.
      rewrite length_app in T. simpl in T. lia.
    + do 3 (split; [done|]). split; [done|].
      exists [JReact r (Fulfilled v)]. repeat split; [by constructor|simpl; lia].
    + rewrite Forall_forall in Hc. exfalso.
      apply (Hc c (list_elem_of_lookup_2 _ _ _ E) e). exact Ep.
  - do 3 (split; [done|]). split.
    { simpl. by rewrite list_insert_ge by (by apply lookup_ge_None). }
    exists []. simpl. rewrite app_nil_r.
    rewrite list_insert_ge by (by apply lookup_ge_None).
    repeat split; [constructor|lia].
Qed.

(** [final] emits [done] (or [fail]) and [finish], each with a snapshot of
    its own, and returns a third snapshot. *)
Lemma final_effect c v m :
  final c v m =
    (VRef (2 + length (heap m)),
     mkMachine (res m) (idx_before m) (idx_done m) (idx_fail m) (cancelCallback m) (cancelOwner m)
       (bus m ++ [match c with
                  | Fail => EvFail v (length (heap m))
                  | _ => EvDone v (length (heap m))
                  end; EvFinish v (S (length (heap m)))])
       (heap m ++ [res m; res m; res m]) (promises m) (microtasks m)
       (console m) (trace m)).
Proof.
  unfold final, pickState. simpl. rewrite !length_app. simpl.
  rewrite !Nat.add_1_r. unfold set_heap, emit. simpl. by reassoc.
Qed.


Lemma settling_calm j : settling j -> calm_job j.
Proof. by destruct j. Qed.

(** One microtask of a calm machine: it runs, the machine stays calm, the
    potential drops, the state is untouched, and the bus together with the
    events still due stays the same. *)
Lemma calm_tick production adapter req fuel j q m :
  microtasks m = j :: q -> calm m ->
  exists m1,
    runJob production adapter req fuel j (set_microtasks q m) = Some m1
    /\ calm m1 /\ potential m1 < potential m
    /\ res m1 = res m
    /\ bus m1 ++ queue_events (length (heap m1)) (microtasks m1)
       = bus m ++ queue_events (length (heap m)) (microtasks m).
Proof.
  intros Q (Hj&Hc). rewrite Q in Hj. apply Forall_cons in Hj as (Hj&Hq).
  assert (forall k m0 m1,
            res m0 = res m -> promises m0 = promises m -> microtasks m0 = q ->
            settles_within k m0 m1 -> k < job_weight j ->
            calm m1 /\ potential m1 < potential m /\ res m1 = res m
            /\ bus m1 ++ queue_events (length (heap m1)) (microtasks m1)
               = bus m0 ++ queue_events (length (heap m0)) q) as Step.
  { intros k m0 m1 Er Ep Eq (Hr&Hb&Hh&Hcs&js&Hjs&Fjs&Hw) Hk.
    rewrite Hr, Hb, Hh, Hjs, Eq, Er. split; [|split; [|split; [done|]]].
    - split; [|done]. rewrite Hjs, Eq. apply Forall_app. split; [done|].
      eapply Forall_impl; [exact Fjs|apply settling_calm].
    - unfold potential. rewrite Hjs, Eq, Q, total_app. rewrite Ep in Hw.
      simpl. lia.
    - by rewrite queue_events_settling. }
  destruct j as [c v d|p q'|r [v|e]|d o|p e]; simpl in Hj; try done.
  - pose proof (final_effect c v (set_microtasks q m)) as Ef. simpl in Ef.
    assert (runJob production adapter req fuel (JFinal c v d) (set_microtasks q m)
            = Some (settle d (Fulfilled (fst (final c v (set_microtasks q m))))
                      (snd (final c v (set_microtasks q m))))) as ->
      by (by destruct c).
    rewrite Ef. simpl. eexists. split; [reflexivity|].
    match goal with
    | |- calm (settle _ _ ?m0) /\ _ =>
        destruct (Step 0 m0 (settle d (Fulfilled (VRef (S (S (length (heap m)))))) m0))
          as (A&B&C&D); try done; [by apply settle_fulfilled|simpl; lia|]
    end.
    split; [exact A|]. split; [exact B|]. split; [exact C|].
    etransitivity; [exact D|]. rewrite Q. simpl.
    rewrite !length_app. simpl.
    replace (length (heap m) + 3) with (S (S (S (length (heap m))))) by lia.
    destruct c; [done| |]; by reassoc.
  - exists (subscribe q' (RSettle p) (set_microtasks q m)). split; [done|].
    destruct (Step 2 (set_microtasks q m) (subscribe q' (RSettle p) (set_microtasks q m)))
      as (A&B&C&D); try done; [by apply subscribe_calm|simpl; lia|].
    split; [exact A|]. split; [exact B|]. split; [exact C|].
    etransitivity; [exact D|]. by rewrite Q.
  - assert (exists x, runJob production adapter req fuel (JReact r (Fulfilled v))
                        (set_microtasks q m)
                      = Some (settle x (Fulfilled v) (set_microtasks q m))) as (x&->)
      by (destruct r; by eexists).
    eexists. split; [done|].
    destruct (Step 0 (set_microtasks q m) (settle x (Fulfilled v) (set_microtasks q m)))
      as (A&B&C&D); try done; [by apply settle_fulfilled|simpl; lia|].
    split; [exact A|]. split; [exact B|]. split; [exact C|].
    etransitivity; [exact D|]. by rewrite Q.
Qed.

(** A calm machine drains: with fuel beyond its potential the queue
    empties, the state is as before and the bus has gained the events of
    the queued [final] jobs, in order. *)
Lemma calm_drain production adapter req n x m :
  calm m -> potential m <= n ->
  exists m',
    drain production adapter req (S n + x) m = Some m'
    /\ microtasks m' = [] /\ res m' = res m
    /\ bus m' = bus m ++ queue_events (length (heap m)) (microtasks m).
Proof.
  revert m. induction n as [|n IH]; intros m Hc Hn.
  - destruct (microtasks m) as [|j q] eqn:Q.
    + exists m. simpl. rewrite Q. simpl. by rewrite app_nil_r.
    + destruct (calm_tick production adapter req x j q m Q Hc) as (m1&_&_&Hp&_). lia.
  - destruct (microtasks m) as [|j q] eqn:Q.
    + exists m. simpl. rewrite Q. simpl. by rewrite app_nil_r.
    + destruct (calm_tick production adapter req (S n + x) j q m Q Hc)
        as (m1&E&Hc1&Hp&Hr&Hb).
      destruct (IH m1 Hc1) as (m'&D&Hq&Hr'&Hb'); [lia|].
      exists m'. change (S (S n) + x) with (S (S n + x)).
      simpl. rewrite Q. simpl in E. rewrite E.
      split; [exact D|]. split; [done|]. split; [congruence|].
      by rewrite Hb', Hb, Q.
Qed.

(** ** A before-chain of hooks that continue at once *)

Lemma settles_within_trans k1 k2 a b c :
  settles_within k1 a b -> settles_within k2 b c -> settles_within (k1 + k2) a c.
Proof.
  intros (R1&B1&H1&C1&js1&Q1&F1&W1) (R2&B2&H2&C2&js2&Q2&F2&W2).
  split; [congruence|]. split; [congruence|]. split; [congruence|].
  split; [done|]. exists (js1 ++ js2). split; [by rewrite Q2, Q1, app_assoc|].
  split; [by apply Forall_app|]. rewrite total_app. lia.
Qed.

Lemma settles_within_same m m' :
  Forall calm_cell (promises m) ->
  res m' = res m -> bus m' = bus m -> heap m' = heap m ->
  promises m' = promises m -> microtasks m' = microtasks m ->
  settles_within 0 m m'.
Proof.
  intros Hc Er Eb Eh Ep Eq. do 3 (split; [done|]). rewrite Ep, Eq.
  split; [done|]. exists []. rewrite app_nil_r. repeat split; [constructor|simpl; lia].
Qed.

Lemma cell_at_calm p m : Forall calm_cell (promises m) -> calm_cell (cell_at p m).
Proof.
  intros Hc. unfold cell_at. destruct (promises m !! p) as [c|] eqn:E; simpl.
  - rewrite Forall_forall in Hc. apply Hc. by eapply list_elem_of_lookup_2.
  - by intros e.
Qed.

(** Rewriting a promise without touching its state. *)
Lemma set_cell_calm p k a i m :
  Forall calm_cell (promises m) ->
  settles_within 0 m (set_cell p (mkCell k (pst (cell_at p m)) a i) m).
Proof.
  intros Hc. do 3 (split; [done|]). split.
  { simpl. apply Forall_insert; [done|]. apply (cell_at_calm p m Hc). }
  exists []. rewrite app_nil_r. repeat split; [constructor|]. simpl.
  unfold cell_at. destruct (promises m !! p) as [c|] eqn:E; simpl.
  - pose proof (total_insert cell_weight (promises m) p c
                   (mkCell k (pst c) a i) E) as T.
    change (cell_weight (mkCell k (pst c) a i)) with (cell_weight c) in T. lia.
  - rewrite list_insert_ge by (by apply lookup_ge_None). lia.
Qed.

Lemma newCell_calm k m :
  Forall calm_cell (promises m) -> settles_within 0 m (snd (newCell k m)).
Proof.
  intros Hc. do 3 (split; [done|]). split.
  { simpl. apply Forall_app. split; [done|]. constructor; [by intros e|constructor]. }
  exists []. rewrite app_nil_r. repeat split; [constructor|]. simpl.
  rewrite total_app. simpl. lia.
Qed.

Lemma resolveWith_calm p q m :
  Forall calm_cell (promises m) -> settles_within 3 m (resolveWith p q m).
Proof.
  intros Hc. unfold resolveWith. destruct (alreadyResolved _).
  - do 3 (split; [done|]). split; [done|]. exists []. rewrite app_nil_r.
    repeat split; [constructor|simpl; lia].
  - destruct (set_cell_calm p (ckind (cell_at p m)) true (isResolved (cell_at p m)) m Hc)
      as (R1&B1&H1&C1&js1&Q1&F1&W1).
    do 3 (split; [done|]). split; [exact C1|]. exists [JThenable p q].
    split; [done|]. split; [by repeat constructor|]. simpl in *. lia.
Qed.

Lemma tryResolve_calm production c p q m :
  Forall calm_cell (promises m) ->
  settles_within 3 m (tryResolve production c p q m).
Proof.
  intros Hc. unfold tryResolve. destruct (negb production && _).
  - do 3 (split; [done|]). split; [done|]. exists []. rewrite app_nil_r.
    repeat split; [constructor|simpl; lia].
  - pose proof (set_cell_calm p (ckind (cell_at p m)) (alreadyResolved (cell_at p m))
                  true m Hc) as S1.
    apply (settles_within_trans 0 3 _ _ _ S1).
    apply resolveWith_calm. by destruct S1 as (_&_&_&?&_).
Qed.

Section Continuing.

Variable production : bool.
Variable adapter : Adapter.
Variable meta0 payload0 : value.
Variable fs : list (value -> value).

#[local] Abbreviation req := (continuing meta0 payload0 fs).

(** One step of the before-chain at a hook that continues at once. *)
Lemma withPayload_continues fuel g v m :
  hooks req Before !! idx Before m = Some (continues g) ->
  withPayload production req (S fuel) Before v m =
    match withPayload production req fuel Before (g v)
            (update Before (g v)
               (bump Before
                  (record (HookCall Before (idx Before m) (mkCtx meta0 v VUndefined))
                     (snd (newCell (KStep Before) m))))) with
    | None => None
    | Some (q, m2) =>
        Some (length (promises m),
              tryResolve production Before (length (promises m)) q m2)
    end.
Proof.
  intros H. simpl in *.
  destruct (hooks req Before !! idx_before m) as [hook|]; [|done].
  injection H as ->. unfold continues. simpl. unfold invoke. simpl.
  by destruct (withPayload _ _ _ _ _ _) as [[q m2]|].
Qed.

(** The before-chain from its cursor on: one [change:payload] per
    remaining hook and one more at the terminal step, then the adapter call
    is queued with the payload as the hooks left it. *)
Lemma continues_run gs pre x v m :
  fs = pre ++ gs -> idx Before m = length pre ->
  Forall calm_cell (promises m) ->
  exists q m',
    withPayload production req (S (length gs) + x) Before v m = Some (q, m')
    /\ res m' = with_payload (through gs v) (res m)
    /\ heap m' = heap m
    /\ Forall calm_cell (promises m')
    /\ (exists cps, bus m' = bus m ++ cps /\ length cps = S (length gs)
                    /\ Forall (fun e => is_change_payload e = true) cps)
    /\ (exists d js, microtasks m' = microtasks m ++ JFinal Before (through gs v) d :: js
                     /\ Forall settling js).
Proof.
  revert pre v m. induction gs as [|g gs IH]; intros pre v m Hfs Hidx Hc.
  - rewrite app_nil_r in Hfs. subst pre.
    assert (hooks req Before !! idx Before m = None) as Hn.
    { apply lookup_ge_None. unfold hooks. simpl in *. rewrite length_map. lia. }
    change (S (length (@nil (value -> value))) + x) with (S x).
    rewrite (withPayload_terminal production req x Before v m Hn).
    eexists _, _. split; [reflexivity|]. unfold terminal. simpl.
    split; [done|]. split; [done|]. split.
    { apply Forall_app. split; [done|]. constructor; [by intros e|constructor]. }
    split.
    + eexists. split; [reflexivity|]. split; [done|]. by repeat constructor.
    + eexists _, []. split; [reflexivity|]. constructor.
  - assert (hooks req Before !! idx Before m = Some (continues g)) as Hh.
    { unfold hooks. simpl in *. rewrite Hfs, Hidx, map_app. simpl.
      apply list_lookup_middle. by rewrite length_map. }
    change (S (length (g :: gs)) + x) with (S (S (length gs) + x)).
    rewrite (withPayload_continues _ _ _ _ Hh).
    set (m1 := update Before (g v) (bump Before
                 (record (HookCall Before (idx Before m) (mkCtx meta0 v VUndefined))
                    (snd (newCell (KStep Before) m))))).
    destruct (IH (pre ++ [g]) (g v) m1) as (q&m2&E&Hr&Hh2&Hc2&(cps&Hb&Hl&Hf)&(d&js&Hq&Hjs)).
    { by rewrite <- app_assoc. }
    { subst m1. rewrite length_app. unfold update. simpl in *. lia. }
    { subst m1. unfold update. simpl. apply Forall_app. split; [done|].
      constructor; [by intros e|constructor]. }
    rewrite E.
    destruct (tryResolve_calm production Before (length (promises m)) q m2 Hc2)
      as (R3&B3&H3&C3&js3&Q3&F3&_).
    eexists _, _. split; [reflexivity|].
    rewrite R3, B3, H3, Q3, Hr, Hh2, Hb, Hq. subst m1.
    split; [done|]. split; [done|]. split; [done|]. split.
    + exists (ChangePayload (payload (res m)) (g v) :: cps).
      split; [by reassoc|]. split; [simpl; lia|]. by constructor.
    + exists d, (js ++ js3). split; [by reassoc|]. by apply Forall_app.
Qed.

End Continuing.

Lemma queue_events_skip h js q :
  Forall settling js -> queue_events h (js ++ q) = queue_events h q.
Proof.
  intros Hjs. induction Hjs as [|j js Hj _ IH]; [done|].
  simpl. by destruct j as [| |? []| |].
Qed.

Lemma record_calm c m :
  Forall calm_cell (promises m) -> settles_within 0 m (record c m).
Proof. intros Hc. by apply settles_within_same. Qed.

(** The adapter call of a request without done- and fail-hooks whose
    adapter settles at once: the state takes the result, [change:result] is
    emitted, and the queue holds the [final] of the chain besides settling
    jobs. *)
Lemma settled_request production ok r req v d m :
  hooks req Done = [] -> hooks req Fail = [] ->
  Forall calm_cell (promises m) -> Forall settling (microtasks m) ->
  exists m1,
    (forall x,
       runJob production (settles ok r) req (S x) (JFinal Before v d) m = Some m1)
    /\ calm m1
    /\ res m1 = with_result ok r (res m)
    /\ heap m1 = heap m
    /\ bus m1 = bus m ++ [ChangeResult (result (res m)) r]
    /\ forall h, queue_events h (microtasks m1) =
         [if ok then EvDone r h else EvFail r h; EvFinish r (S h)].
Proof.
  intros Hd Hf Hc Hq.
  set (c := if ok then Done else Fail).
  set (body := mkAdapterBody [if ok then AResolve r else AReject r] RetPlain).
  set (ma := record (AdapterCallback (converted (settles ok r) v) (result (res m)) body)
               (snd (newCell KRequest m))).
  assert (settles_within 0 m ma) as Sa.
  { apply (settles_within_trans 0 0 _ _ _ (newCell_calm KRequest m Hc)).
    apply record_calm. by destruct (newCell_calm KRequest m Hc) as (_&_&_&?&_). }
  set (mb := snd (terminal c r ma)).
  set (mc := resolveWith (length (promises m)) (length (promises ma)) mb).
  set (md := snd (newCell KCaught mc)).
  set (me := subscribe (length (promises m)) (RCatchError (length (promises mc))) md).
  assert (forall x,
            runJob production (settles ok r) req (S x) (JFinal Before v d) m
            = Some (resolveWith d (length (promises mc)) me)) as Hrun.
  { intros x. subst me md mc mb ma body c. unfold runJob, doRequest.
    destruct ok; cbn -[withPayload resolveWith subscribe terminal];
      unfold adapterCall;
      rewrite withPayload_terminal by (by rewrite ?Hd, ?Hf);
      reflexivity. }
  destruct Sa as (Ra&Ba&Ha&Ca&jsa&Qa&Fa&_).
  assert (Forall calm_cell (promises mb)) as Cb.
  { subst mb. unfold terminal. simpl. apply Forall_app. split.
    - by destruct c.
    - constructor; [by intros e|constructor]. }
  pose proof (resolveWith_calm (length (promises m)) (length (promises ma)) mb Cb) as Sc.
  fold mc in Sc.
  assert (Forall calm_cell (promises mc)) as Cc by (by destruct Sc as (_&_&_&?&_)).
  pose proof (newCell_calm KCaught mc Cc) as Sd. fold md in Sd.
  assert (Forall calm_cell (promises md)) as Cd by (by destruct Sd as (_&_&_&?&_)).
  pose proof (subscribe_calm (length (promises m)) (RCatchError (length (promises mc)))
                md Cd) as Se. fold me in Se.
  assert (Forall calm_cell (promises me)) as Ce by (by destruct Se as (_&_&_&?&_)).
  pose proof (resolveWith_calm d (length (promises mc)) me Ce) as S1.
  pose proof (settles_within_trans _ _ _ _ _
                (settles_within_trans _ _ _ _ _
                   (settles_within_trans _ _ _ _ _ Sc Sd) Se) S1)
    as (R1&B1&H1&C1&js1&Q1&F1&_).
  assert (res mb = with_result ok r (res ma)
          /\ bus mb = bus ma ++ [ChangeResult (result (res ma)) r]
          /\ heap mb = heap ma
          /\ microtasks mb = microtasks ma ++ [JFinal c r (length (promises ma))])
    as (Rb&Bb&Hb&Qb) by (subst mb c; by destruct ok).
  eexists. split; [exact Hrun|].
  rewrite R1, B1, H1, Q1, Rb, Bb, Hb, Qb, Ra, Ba, Ha, Qa.
  split; [|split; [done|split; [done|split; [done|]]]].
  - split; [|done]. rewrite Q1, Qb, Qa. repeat (apply Forall_app; split).
    + eapply Forall_impl; [exact Hq|apply settling_calm].
    + eapply Forall_impl; [exact Fa|apply settling_calm].
    + constructor; [subst c; by destruct ok|constructor].
    + eapply Forall_impl; [exact F1|apply settling_calm].
  - intros h. rewrite queue_events_settling by done.
    rewrite (queue_events_skip h (microtasks m ++ jsa)) by (apply Forall_app; by split).
    subst c. by destruct ok.
Qed.

(** The whole run when the adapter settles at once and there are no
    done- and fail-hooks: with [N] before-hooks that each call [next] at
    once, the request runs to the end and the bus then holds [N + 1]
    [change:payload] events followed by [change:result], [done] (or
    [fail]) and [finish]. *)
Lemma settled_at_once_bus production ok r meta0 payload0 fs :
  exists fuel p m0 m cps,
    apicase production (settles ok r) (continuing meta0 payload0 fs)
      (S (length fs)) = Some (p, m0)
    /\ drain production (settles ok r) (continuing meta0 payload0 fs) fuel m0
       = Some m
    /\ microtasks m = []
    /\ bus m = cps ++ [ChangeResult VNull r;
                       if ok then EvDone r 0 else EvFail r 0; EvFinish r 1]
    /\ length cps = S (length fs)
    /\ Forall (fun e => is_change_payload e = true) cps
    /\ payload (res m) = through fs payload0.
Proof.
  destruct (continues_run production meta0 payload0 fs fs [] 0 payload0
              (init (settles ok r) (continuing meta0 payload0 fs)))
    as (p&m0&E&Hr&Hh&Hc&(cps&Hb&Hl&Hf)&(d&js&Hq&Hjs)); try done.
  rewrite Nat.add_0_r in E. simpl in Hq.
  destruct (settled_request production ok r (continuing meta0 payload0 fs)
              (through fs payload0) d (set_microtasks js m0))
    as (m1&Hrun&Hc1&Hr1&Hh1&Hb1&He1); try done.
  destruct (calm_drain production (settles ok r) (continuing meta0 payload0 fs)
              (potential m1) 0 m1 Hc1) as (m&D&Hq2&Hr2&Hb2); [done|].
  exists (S (S (potential m1) + 0)), p, m0, m, cps.
  split; [exact E|]. split.
  { change (drain ?a ?b ?c (S ?f) ?x) with
      (match microtasks x with
       | [] => Some x
       | j :: q => match runJob a b c f j (set_microtasks q x) with
                   | None => None
                   | Some m => drain a b c f m
                   end
       end).
    rewrite Hq. change (S (potential m1) + 0) with (S (potential m1 + 0)).
    by rewrite Hrun. }
  split; [done|]. rewrite Hb2, He1, Hh1, Hb1, Hr2, Hr1. simpl.
  rewrite Hb, Hh, Hr. simpl.
  split; [|done]. assert (createState (settles ok r) = None) as -> by (by destruct ok).
  by reassoc.
Qed.

(** C5, refuted as written, at [N = 1]: one before-hook that passes the
    payload on at once; the request runs to the end and the bus holds two
    [change:payload] events before [done], not one. *)
Lemma one_hook_two_payload_changes :
  exists p m,
    session false (resolves (VStr "ok"))
      (mkRequest VNull a1 [passes] [] [] false) 3 (repeat ITick 12) = Some (p, m)
    /\ microtasks m = []
    /\ bus m = [ChangePayload (VObj []) a1; ChangePayload a1 a1;
                ChangeResult VNull (VStr "ok"); EvDone (VStr "ok") 0;
                EvFinish (VStr "ok") 1]
    /\ length (List.filter is_change_payload (bus m)) <> 1.
Proof.
  do 2 eexists. split; [vm_compute; reflexivity|].
  split; [reflexivity|]. split; [reflexivity|]. vm_compute. lia.
Qed.

(** ** Retry round trip *)

Section RoundTrip.

Variable production : bool.
Variable adapter : Adapter.
Variable req : Request.
Variable p : value.

Hypothesis before_passes : Forall passes_on (hooks req Before).
Hypothesis fail_retries : Forall (retries_with p) (hooks req Fail).

Lemma since_refl m : since p m m.
Proof. exists [], []. by rewrite !app_nil_r. Qed.

Lemma since_trans a b c : since p a b -> since p b c -> since p a c.
Proof.
  intros (c1&s1&T1&F1&H1&G1) (c2&s2&T2&F2&H2&G2).
  exists (c1 ++ c2), (s1 ++ s2). rewrite T2, T1, H2, H1, !app_assoc.
  repeat split; by apply Forall_app.
Qed.

Lemma since_same m m' : trace m' = trace m -> heap m' = heap m -> since p m m'.
Proof.
  intros Ht Hh. exists [], []. rewrite !app_nil_r. repeat split; auto.
Qed.

(** Steps that leave the state, the heap and the record of calls alone. *)
Lemma plumbing_since m m' :
  plumbing m m' -> trace m' = trace m ->
  payload (res m') = payload (res m) /\ since p m m'.
Proof.
  intros (Hr&_&_&_&_&_&Hh&_) Ht. split; [by rewrite Hr|by apply since_same].
Qed.

Lemma plumbing_trip m m' :
  plumbing m m' -> trace m' = trace m -> payload (res m) = p ->
  payload (res m') = p /\ since p m m'.
Proof.
  intros Hpl Ht Hp. destruct (plumbing_since m m' Hpl Ht) as (P&S).
  split; [congruence|done].
Qed.

Lemma tryResolve_since c s q m :
  payload (res (tryResolve production c s q m)) = payload (res m)
  /\ since p m (tryResolve production c s q m).
Proof.
  destruct (tryResolve_frame production c s q m) as (Hr&_&Ht&_).
  apply plumbing_since; [apply plumbing_tryResolve|done].
Qed.

Lemma settle_trace s o m : trace (settle s o m) = trace m.
Proof. unfold settle. by destruct (pst _). Qed.

Lemma rejectWith_since s e m :
  payload (res (rejectWith s e m)) = payload (res m) /\ since p m (rejectWith s e m).
Proof.
  apply plumbing_since; [apply plumbing_rejectWith|].
  unfold rejectWith. destruct (alreadyResolved _); [done|apply settle_trace].
Qed.

Lemma resolveWith_since s q m :
  payload (res (resolveWith s q m)) = payload (res m) /\ since p m (resolveWith s q m).
Proof.
  apply plumbing_since; [apply plumbing_resolveWith|].
  unfold resolveWith. by destruct (alreadyResolved _).
Qed.

Section Open.

Variable run : chain -> value -> Machine -> option (nat * Machine).
Hypothesis run_trip : forall c v m q m',
  run c v m = Some (q, m') ->
  (c = Before -> v = p) -> (c <> Before -> payload (res m) = p) ->
  payload (res m') = p /\ since p m m'.

Lemma invoke_trip c s cap v m r m' :
  invoke production run c s (cap, v) m = Some (r, m') ->
  (available c cap = true -> target c cap = Before -> v = p) ->
  payload (res m) = p ->
  payload (res m') = p /\ since p m m'.
Proof using run_trip.
  unfold invoke. intros H Hv Hp.
  destruct (available c cap) eqn:Ha; [|injection H as _ <-; split; [done|apply since_refl]].
  set (m1 := match cap with cap_next => update c v (bump c m) | _ => m end) in *.
  assert ((target c cap <> Before -> payload (res m1) = p) /\ since p m m1) as (P1&S1).
  { subst m1. destruct cap; try (split; [done|apply since_refl]).
    split; [by destruct c|]. apply since_same; by destruct c. }
  destruct (run _ _ _) as [[q m2]|] eqn:E; [|done]. injection H as _ <-.
  apply run_trip in E as (P2&S2); [|by apply Hv|done].
  destruct (tryResolve_since c s q m2) as (P3&S3).
  split; [congruence|]. eauto using since_trans.
Qed.

Lemma runCalls_trip c s cs m r m' :
  runCalls production run c s cs m = Some (r, m') ->
  admissible p c cs -> payload (res m) = p ->
  payload (res m') = p /\ since p m m'.
Proof using run_trip.
  revert m. induction cs as [|[cap v] cs IH]; simpl; intros m H Hadm Hp.
  - injection H as _ <-. split; [done|apply since_refl].
  - destruct (invoke _ _ _ _ _ _) as [[[e|] m1]|] eqn:E; [| |done].
    + injection H as _ <-. eapply invoke_trip; [exact E| |done].
      apply Hadm. by left.
    + apply invoke_trip in E as (P1&S1); [| |done].
      * apply IH in H as (P2&S2); [| |done].
        -- split; [done|]. eauto using since_trans.
        -- intros cap' v' Hin. apply Hadm. by right.
      * apply Hadm. by left.
Qed.

End Open.

Lemma hook_admissible c h n ctx :
  hooks req c !! n = Some h ->
  (c = Before -> ctx_payload ctx = p) ->
  forall k, admissible p c (calls (h k ctx)).
Proof using before_passes fail_retries.
  intros Hh Hctx k cap v Hin Ha Ht. destruct c.
  - rewrite Forall_forall in before_passes.
    rewrite (before_passes h (list_elem_of_lookup_2 _ _ _ Hh) k ctx) in Hin.
    apply list_elem_of_singleton in Hin as [= _ ->]. by apply Hctx.
  - by destruct cap.
  - destruct cap; try done. rewrite Forall_forall in fail_retries.
    by apply (fail_retries h (list_elem_of_lookup_2 _ _ _ Hh) k ctx).
Qed.

Lemma withPayload_trip fuel c v m q m' :
  withPayload production req fuel c v m = Some (q, m') ->
  (c = Before -> v = p) -> (c <> Before -> payload (res m) = p) ->
  payload (res m') = p /\ since p m m'.
Proof using before_passes fail_retries.
  revert c v m q m'. induction fuel as [|fuel IH]; [done|].
  intros c v m q m' H Hv Hp. simpl in H.
  destruct (hooks req c !! idx c m) as [hook|] eqn:Hh.
  - destruct (runCalls _ _ _ _ _ _) as [[thrown m1]|] eqn:E; [|done].
    destruct c.
    + (* a before-hook: its one call is [next] with the payload [p] *)
      rewrite Forall_forall in before_passes.
      pose proof (before_passes hook (list_elem_of_lookup_2 _ _ _ Hh)) as Hpass.
      rewrite Hpass in E. simpl in E. unfold invoke in E. simpl in E.
      destruct (withPayload _ _ _ _ _ _) as [[q2 m2]|] eqn:E2; [|done].
      injection E as <- Em1. rewrite (Hv eq_refl) in *.
      apply IH in E2 as (P2&S2); [|done|done].
      destruct (tryResolve_since Before (length (promises m)) q2 m2) as (P3&S3).
      assert (payload (res m1) = p /\ since p m m1) as (P4&S4).
      { rewrite <- Em1. split; [congruence|].
        eapply since_trans; [|eapply since_trans; [exact S2|exact S3]].
        exists [HookCall Before (idx_before m) (mkCtx (req_meta req) p VUndefined)], [].
        unfold update. simpl. rewrite app_nil_r. repeat split; by repeat constructor. }
      destruct (from_option _ _ _); injection H as _ <-; [|done].
      destruct (rejectWith_since (length (promises m)) v0 m1) as (P5&S5).
      split; [congruence|]. eauto using since_trans.
    + apply (runCalls_trip _ IH) in E as (P1&S1);
        [|eapply (hook_admissible Done); [exact Hh|done]|by apply Hp].
      assert (since p m m1) as S0.
      { eapply since_trans; [|exact S1]. eexists [_], []. simpl.
        rewrite app_nil_r. repeat split; by repeat constructor. }
      destruct (from_option _ _ _); injection H as _ <-; [|done].
      destruct (rejectWith_since (length (promises m)) v0 m1) as (P5&S5).
      split; [congruence|]. eauto using since_trans.
    + apply (runCalls_trip _ IH) in E as (P1&S1);
        [|eapply (hook_admissible Fail); [exact Hh|done]|by apply Hp].
      assert (since p m m1) as S0.
      { eapply since_trans; [|exact S1]. eexists [_], []. simpl.
        rewrite app_nil_r. repeat split; by repeat constructor. }
      destruct (from_option _ _ _); injection H as _ <-; [|done].
      destruct (rejectWith_since (length (promises m)) v0 m1) as (P5&S5).
      split; [congruence|]. eauto using since_trans.
  - injection H as _ <-. unfold terminal. split.
    + destruct c; simpl; [by apply Hv| |]; by apply Hp.
    + apply since_same; by destruct c.
Qed.

Lemma adapterCalls_trip fuel inner cs m m' :
  adapterCalls (withPayload production req fuel) inner cs m = Some m' ->
  payload (res m) = p ->
  payload (res m') = p /\ since p m m'.
Proof using before_passes fail_retries.
  revert m. induction cs as [|a cs IH]; simpl; intros m H Hp.
  - injection H as <-. split; [done|apply since_refl].
  - destruct (adapterCall _ _ _ _) as [m1|] eqn:E; [|done].
    assert (payload (res m1) = p /\ since p m m1) as (P1&S1).
    { destruct a; unfold adapterCall in E.
      - destruct (withPayload _ _ _ _ _ _) as [[q m2]|] eqn:W; [|done].
        injection E as <-. apply withPayload_trip in W as (P2&S2); [|done|done].
        destruct (resolveWith_since inner q m2) as (P3&S3).
        split; [congruence|]. eauto using since_trans.
      - destruct (withPayload _ _ _ _ _ _) as [[q m2]|] eqn:W; [|done].
        injection E as <-. apply withPayload_trip in W as (P2&S2); [|done|done].
        destruct (resolveWith_since inner q m2) as (P3&S3).
        split; [congruence|]. eauto using since_trans.
      - injection E as <-. split; [done|by apply since_same].
      - injection E as <-. split; [done|by apply since_same]. }
    apply IH in H as (P2&S2); [|done].
    split; [done|]. eauto using since_trans.
Qed.

Lemma doRequest_trip fuel v m q m' :
  doRequest adapter (withPayload production req fuel) v m = Some (q, m') ->
  payload (res m) = p ->
  payload (res m') = p /\ since p m m'.
Proof using before_passes fail_retries.
  unfold doRequest. simpl. intros H Hp.
  destruct (convert_result adapter v) as [arg|e0].
  - destruct (adapterCalls _ _ _ _) as [m1|] eqn:E; [|done].
    injection H as _ <-. apply adapterCalls_trip in E as (P1&S1); [|done].
    match goal with
    | |- context [subscribe ?a ?b ?x] =>
        destruct (plumbing_since x (subscribe a b x)) as (P3&S3);
          [apply plumbing_subscribe|unfold subscribe; by destruct (pst _)|]
    end.
    rewrite P3. simpl.
    match goal with
    | |- context [afterCallback ?a ?b ?x] =>
        destruct (plumbing_trip x (afterCallback a b x)) as (P2&S2);
          [apply plumbing_afterCallback|apply afterCallback_trace|done|]
    end.
    split; [done|].
    eapply since_trans; [|eapply since_trans; [exact S1|]].
    + eexists [_], []. simpl. rewrite app_nil_r. repeat split; by repeat constructor.
    + eapply since_trans; [exact S2|]. eapply since_trans; [|exact S3].
      by apply since_same.
  - injection H as _ <-.
    match goal with
    | |- context [subscribe ?a ?b ?x] =>
        destruct (plumbing_since x (subscribe a b x)) as (P3&S3);
          [apply plumbing_subscribe|unfold subscribe; by destruct (pst _)|]
    end.
    rewrite P3. simpl.
    match goal with
    | |- context [rejectWith ?a ?b ?x] =>
        destruct (rejectWith_since a b x) as (P2&S2)
    end.
    split; [by rewrite P2|].
    eapply since_trans; [|eapply since_trans; [exact S2|]].
    + eexists [_], []. simpl. rewrite app_nil_r. repeat split; by repeat constructor.
    + eapply since_trans; [|exact S3]. by apply since_same.
Qed.

(** One microtask, whatever it is, keeps the payload and builds only
    snapshots that hold it. *)
Lemma runJob_trip fuel j m m' :
  runJob production adapter req fuel j m = Some m' ->
  payload (res m) = p ->
  payload (res m') = p /\ since p m m'.
Proof using before_passes fail_retries.
  intros H Hp. destruct j as [c v d|s q|r o|d o|s e]; unfold runJob in H.
  - destruct c.
    + destruct (doRequest _ _ _ _) as [[q m1]|] eqn:E; [|done].
      injection H as <-. apply doRequest_trip in E as (P1&S1); [|done].
      destruct (resolveWith_since d q m1) as (P2&S2).
      split; [congruence|]. eauto using since_trans.
    + rewrite final_effect in H. injection H as <-.
      match goal with
      | |- context [settle ?a ?b ?x] =>
          destruct (plumbing_since x (settle a b x)) as (P3&S3);
            [apply plumbing_settle|apply settle_trace|]
      end.
      split; [by rewrite P3|]. eapply since_trans; [|exact S3].
      exists [], [res m; res m; res m]. simpl. rewrite app_nil_r.
      repeat split; by repeat constructor.
    + rewrite final_effect in H. injection H as <-.
      match goal with
      | |- context [settle ?a ?b ?x] =>
          destruct (plumbing_since x (settle a b x)) as (P3&S3);
            [apply plumbing_settle|apply settle_trace|]
      end.
      split; [by rewrite P3|]. eapply since_trans; [|exact S3].
      exists [], [res m; res m; res m]. simpl. rewrite app_nil_r.
      repeat split; by repeat constructor.
  - injection H as <-. apply plumbing_trip; [apply plumbing_subscribe| |done].
    unfold subscribe; by destruct (pst _).
  - assert (exists x y, m' = settle x y
              (match r, o with RCatchError _, Rejected e => throwError e m | _, _ => m end))
      as (x&y&->) by (destruct r, o; injection H as <-; by eexists _, _).
    match goal with
    | |- context [settle ?a ?b ?x] =>
        destruct (plumbing_since x (settle a b x)) as (P3&S3);
          [apply plumbing_settle|apply settle_trace|]
    end.
    rewrite P3. split.
    + by destruct r, o.
    + eapply since_trans; [|exact S3]. destruct r, o; by apply since_same.
  - destruct o as [v|e].
    + destruct (setState_event cancelDiff m) as (_&_&Hr).
      destruct (setState_heap cancelDiff m) as (Hh1&Ht1).
      remember (setState cancelDiff m) as m1 eqn:Em1. unfold pickState in H.
      remember (emit (EvCancel (length (heap m1))) (set_heap (heap m1 ++ [res m1]) m1))
        as m2 eqn:Em2.
      injection H as <-.
      destruct (plumbing_since m2 (settle d (Fulfilled VUndefined) m2)) as (P3&S3);
        [apply plumbing_settle|apply settle_trace|].
      assert (res m2 = res m1 /\ heap m2 = heap m1 ++ [res m1] /\ trace m2 = trace m1)
        as (R2&H2&T2) by (by rewrite Em2).
      split; [by rewrite P3, R2, Hr|].
      eapply since_trans; [|exact S3].
      exists [], [assign (res m) cancelDiff; res m1].
      rewrite H2, T2, Hh1, Ht1, app_nil_r, Hr, <- app_assoc. simpl.
      repeat split; by repeat constructor.
    + injection H as <-. apply plumbing_trip; [apply plumbing_settle| |done].
      apply settle_trace.
  - injection H as <-. destruct (rejectWith_since s e m) as (P5&S5).
    split; [congruence|done].
Qed.

(** [cancel]: the callback may settle the adapter's promise, which runs
    a chain. *)
Lemma cancel_trip fuel m m' :
  cancel production req fuel m = Some m' ->
  payload (res m) = p ->
  payload (res m') = p /\ since p m m'.
Proof using before_passes fail_retries.
  unfold cancel. intros H Hp.
  destruct (adapterCalls _ _ _ _) as [m1|] eqn:E; [|done]. injection H as <-.
  apply adapterCalls_trip in E as (P1&S1); [|done].
  destruct (plumbing_trip m1 (afterCancelCallback (outcome_of (cancelCallback m)) m1))
    as (P2&S2); [apply plumbing_afterCancelCallback|apply afterCancelCallback_trace|done|].
  split; [done|].
  eapply since_trans; [|eapply since_trans; [exact S1|exact S2]].
  eexists [_], []. simpl. rewrite app_nil_r. repeat split; by repeat constructor.
Qed.

(** Every input keeps the payload, as long as a capability used late
    continues in the before-chain only with [p]. *)
Lemma perform_trip fuel i m m' :
  perform production adapter req fuel i m = Some m' ->
  allowed p i -> payload (res m) = p ->
  payload (res m') = p /\ since p m m'.
Proof using before_passes fail_retries.
  intros H Ha Hp. destruct i as [| |c s cap v|inner a|inner e]; simpl in H.
  - destruct (microtasks m) as [|j q] eqn:Q.
    + injection H as <-. split; [done|apply since_refl].
    + apply runJob_trip in H as (P1&S1); [|done].
      split; [done|]. eapply since_trans; [|exact S1]. by apply since_same.
  - by apply cancel_trip in H.
  - destruct (ckind _); try done. destruct (promises m !! s); [|done].
    case_bool_decide; [|done].
    destruct (invoke _ _ _ _ _ _) as [[r m1]|] eqn:E; [|done]. injection H as <-.
    eapply invoke_trip; [|exact E|exact Ha|done].
    intros. by eapply withPayload_trip.
  - destruct (ckind _); try done. destruct (promises m !! inner); [|done].
    assert (adapterCalls (withPayload production req fuel) inner [a] m = Some m') as H'
      by (simpl; by rewrite H).
    by apply adapterCalls_trip in H'.
  - destruct (ckind _); try done. destruct (promises m !! inner); [|done].
    injection H as <-. split; [done|by apply since_same].
Qed.

Lemma performAll_trip fuel inputs m m' :
  performAll production adapter req fuel inputs m = Some m' ->
  Forall (allowed p) inputs -> payload (res m) = p ->
  payload (res m') = p /\ since p m m'.
Proof using before_passes fail_retries.
  revert m. induction inputs as [|i inputs IH]; simpl; intros m H Ha Hp.
  - injection H as <-. split; [done|apply since_refl].
  - destruct (perform _ _ _ _ _ _) as [m1|] eqn:E; [|done].
    apply Forall_cons in Ha as (Hi&Ha).
    apply perform_trip in E as (P1&S1); [|done|done].
    apply IH in H as (P2&S2); [|done|done].
    split; [done|]. eapply since_trans; [exact S1|exact S2].
Qed.

End RoundTrip.

(** Terminal events carry snapshots built since. *)
Section Fresh.

Variable production : bool.
Variable adapter : Adapter.
Variable req : Request.

Lemma fresh_refl m : fresh m m.
Proof. split; [done|]. exists []. by rewrite app_nil_r. Qed.

Lemma fresh_trans a b c : fresh a b -> fresh b c -> fresh a c.
Proof.
  intros (L1&e1&B1&F1) (L2&e2&B2&F2). split; [lia|].
  exists (e1 ++ e2). rewrite B2, B1, app_assoc. split; [done|].
  apply Forall_app. split.
  - eapply Forall_impl; [exact F1|]. intros e H l Hl. specialize (H l Hl). lia.
  - eapply Forall_impl; [exact F2|]. intros e H l Hl. specialize (H l Hl). lia.
Qed.

Lemma fresh_same m m' : heap m' = heap m -> bus m' = bus m -> fresh m m'.
Proof.
  intros Hh Hb. split; [by rewrite Hh|]. exists []. by rewrite app_nil_r.
Qed.

Lemma fresh_event e m m' :
  heap m' = heap m -> bus m' = bus m ++ [e] -> snapshot_of e = None -> fresh m m'.
Proof.
  intros Hh Hb He. split; [by rewrite Hh|]. exists [e]. split; [done|].
  constructor; [|done]. intros l Hl. congruence.
Qed.

Lemma fresh_plumbing m m' : plumbing m m' -> fresh m m'.
Proof. intros (_&_&_&_&_&Hb&Hh&_). by apply fresh_same. Qed.

Lemma fresh_next c v m : fresh m (update c v (bump c m)).
Proof. destruct c; by eapply fresh_event. Qed.

Lemma fresh_terminal c v m : fresh m (snd (terminal c v m)).
Proof. unfold terminal. destruct c; by eapply fresh_event. Qed.

Lemma fresh_final c v m : fresh m (snd (final c v m)).
Proof.
  rewrite final_effect. unfold fresh. simpl. rewrite length_app. simpl.
  split; [lia|]. eexists. split; [done|].
  constructor; [|constructor; [|constructor]];
    destruct c; simpl; intros l [= <-]; lia.
Qed.

Lemma fresh_cancelled m :
  fresh m (let m := setState cancelDiff m in
           emit (EvCancel (fst (pickState m))) (snd (pickState m))).
Proof.
  cbv zeta. destruct (setState_event cancelDiff m) as (Hb&_&_).
  destruct (setState_heap cancelDiff m) as (Hh&_).
  remember (setState cancelDiff m) as m1 eqn:Em1. unfold pickState, fresh. simpl.
  rewrite Hh, Hb, !length_app. simpl.
  split; [lia|]. eexists. rewrite <- app_assoc. split; [done|].
  constructor; [|constructor; [|constructor]]; simpl; intros l; [done|].
  intros [= <-]; lia.
Qed.

Lemma perform_fresh fuel i m m' :
  perform production adapter req fuel i m = Some m' -> fresh m m'.
Proof.
  apply (perform_kept production adapter req fresh).
  - apply fresh_refl.
  - apply fresh_trans.
  - apply fresh_plumbing.
  - apply fresh_next.
  - apply fresh_terminal.
  - intros. by apply fresh_same.
  - intros. by eapply fresh_event.
  - intros. by apply fresh_same.
  - intros. eapply fresh_trans; [|apply fresh_final]. by apply fresh_same.
  - intros. by eapply fresh_event.
  - intros d v q m0 _.
    eapply fresh_trans; [|apply fresh_cancelled]. by apply fresh_same.
Qed.

Lemma performAll_fresh fuel inputs m m' :
  performAll production adapter req fuel inputs m = Some m' -> fresh m m'.
Proof.
  revert m. induction inputs as [|i inputs IH]; simpl; intros m H.
  - injection H as <-. apply fresh_refl.
  - destruct (perform _ _ _ _ _ _) as [m1|] eqn:E; [|done].
    eapply fresh_trans; [eapply perform_fresh, E|by apply IH].
Qed.

Lemma invoke_fresh fuel c s cv m r m' :
  invoke production (withPayload production req fuel) c s cv m = Some (r, m') ->
  fresh m m'.
Proof.
  apply (invoke_kept production fresh).
  - apply fresh_refl.
  - apply fresh_trans.
  - apply fresh_plumbing.
  - apply fresh_next.
  - intros c0 v0 m0 q0 m0'. apply (withPayload_kept production req fresh).
    + apply fresh_refl.
    + apply fresh_trans.
    + apply fresh_plumbing.
    + apply fresh_next.
    + apply fresh_terminal.
Qed.

(** What [since] and [fresh] give together: the snapshot of every
    terminal event emitted in between holds the payload. *)
Lemma since_fresh p m m' :
  since p m m' -> fresh m m' ->
  exists es, bus m' = bus m ++ es
    /\ forall e l, e ∈ es -> snapshot_of e = Some l ->
         exists st, heap m' !! l = Some st /\ payload st = p.
Proof.
  intros (cs&snaps&_&_&Hh&Hs) (_&es&Hb&He). exists es. split; [done|].
  intros e l Hin Hl. rewrite Forall_forall in He. specialize (He e Hin l Hl).
  destruct (lookup_lt_is_Some_2 (heap m') l) as [st Hst]; [lia|].
  exists st. split; [done|]. rewrite Hh in Hst.
  rewrite lookup_app_r in Hst by lia.
  rewrite Forall_forall in Hs. apply Hs. eapply list_elem_of_lookup_2, Hst.
Qed.

End Fresh.




(** ** Rejections of the completion promise *)

Lemma faulted_app e tr cs seen more :
  faulted e tr seen -> faulted e (tr ++ cs) (seen ++ more).
Proof.
  intros [(a&r&b&H&Hb)|[(v&H)|(i&H)]]; [left|right; left|right; right].
  - exists a, r, b. split; [|done]. apply elem_of_app. by left.
  - exists v. apply elem_of_app. by left.
  - exists i. apply elem_of_app. by left.
Qed.

Lemma extends_refl m : extends m m.
Proof.
  split; [exists []; by rewrite app_nil_r|].
  split; [exists []; by rewrite app_nil_r|]. intros p c H. by exists c.
Qed.

Lemma extends_trans a b c : extends a b -> extends b c -> extends a c.
Proof.
  intros ((e1&B1)&(c1&T1)&K1) ((e2&B2)&(c2&T2)&K2).
  split; [exists (e1 ++ e2); by rewrite B2, B1, app_assoc|].
  split; [exists (c1 ++ c2); by rewrite T2, T1, app_assoc|].
  intros p x H. destruct (K1 p x H) as (y&Hy&Ky).
  destruct (K2 p y Hy) as (z&Hz&Kz). exists z. split; [done|congruence].
Qed.

Lemma extends_frame m m' :
  promises m' = promises m ->
  (exists es, bus m' = bus m ++ es) -> (exists cs, trace m' = trace m ++ cs) ->
  extends m m'.
Proof.
  intros Hp Hb Ht. split; [done|]. split; [done|].
  intros p c H. exists c. by rewrite Hp.
Qed.

Lemma rejection_ok_more seen more m m' k e :
  extends m m' -> rejection_ok seen m k e -> rejection_ok (seen ++ more) m' k e.
Proof.
  intros ((es&Hb)&(cs&Ht)&_). unfold rejection_ok. rewrite Hb, Ht.
  destruct k; try done; try (by apply faulted_app);
    intros [H1 H2]; (split; [apply elem_of_app; by left|by apply faulted_app]).
Qed.

Lemma rejection_ok_any seen m k e :
  EvError e ∈ bus m -> faulted e (trace m) seen -> rejection_ok seen m k e.
Proof. by destruct k. Qed.

Lemma chain_cell_ext q m m' : extends m m' -> chain_cell q m -> chain_cell q m'.
Proof.
  intros (_&_&K) (c&H&Hk). destruct (K q c H) as (c'&H'&Hk').
  exists c'. split; [done|congruence].
Qed.

Lemma cell_ok_more seen more m m' c :
  extends m m' -> cell_ok seen m c -> cell_ok (seen ++ more) m' c.
Proof.
  intros E. unfold cell_ok. destruct (pst c) as [rs|[v|e]]; try done.
  by apply rejection_ok_more.
Qed.

Lemma job_ok_more seen more m m' j :
  extends m m' -> job_ok seen m j -> job_ok (seen ++ more) m' j.
Proof.
  intros E. pose proof E as ((es&Hb)&(cs&Ht)&K).
  destruct j as [c v d|p q|[p|d] [v|e]|d [v|e]|p e]; simpl; try done.
  - by apply chain_cell_ext.
  - rewrite Hb, Ht. intros [H1 H2].
    split; [apply elem_of_app; by left|by apply faulted_app].
  - rewrite Ht. by apply faulted_app.
  - intros (c&H&Hk). destruct (K d c H) as (c'&H'&Hk').
    exists c'. split; [done|congruence].
  - rewrite Ht. intros ((c&H&Hk)&F). split; [|by apply faulted_app].
    destruct (K p c H) as (c'&H'&Hk'). exists c'. split; [done|congruence].
Qed.

Lemma accounted_more seen more m m' :
  extends m m' -> promises m' = promises m -> microtasks m' = microtasks m ->
  accounted seen m -> accounted (seen ++ more) m'.
Proof.
  intros E Hp Hq (Hc&Hj). split.
  - rewrite Hp. eapply Forall_impl; [exact Hc|]. intros c. by apply cell_ok_more.
  - rewrite Hq. eapply Forall_impl; [exact Hj|]. intros j. by apply job_ok_more.
Qed.

Section Faults.

Variable production : bool.
Variable adapter : Adapter.
Variable req : Request.
Variable seen : list input.

Lemma cell_ok_ext m m' c : extends m m' -> cell_ok seen m c -> cell_ok seen m' c.
Proof. intros E H. rewrite <- (app_nil_r seen). by eapply cell_ok_more. Qed.

Lemma job_ok_ext m m' j : extends m m' -> job_ok seen m j -> job_ok seen m' j.
Proof. intros E H. rewrite <- (app_nil_r seen). by eapply job_ok_more. Qed.

Lemma rejection_ok_ext m m' k e :
  extends m m' -> rejection_ok seen m k e -> rejection_ok seen m' k e.
Proof. intros E H. rewrite <- (app_nil_r seen). by eapply rejection_ok_more. Qed.

(** Steps that touch neither the promises nor the queue. *)
Lemma accounted_frame m m' :
  promises m' = promises m -> microtasks m' = microtasks m ->
  (exists es, bus m' = bus m ++ es) -> (exists cs, trace m' = trace m ++ cs) ->
  accounted seen m -> accounted seen m' /\ extends m m'.
Proof.
  intros Hp Hq Hb Ht A. pose proof (extends_frame m m' Hp Hb Ht) as E.
  split; [|done]. rewrite <- (app_nil_r seen). by eapply accounted_more.
Qed.

Lemma cell_at_ok p m : accounted seen m -> cell_ok seen m (cell_at p m).
Proof.
  intros (Hc&_). unfold cell_at. destruct (promises m !! p) as [c|] eqn:E; simpl.
  - by eapply Forall_lookup_1.
  - constructor.
Qed.

Lemma cell_at_lookup p c m : promises m !! p = Some c -> cell_at p m = c.
Proof. intros H. unfold cell_at. by rewrite H. Qed.

Lemma newCell_accounted k m :
  accounted seen m ->
  accounted seen (snd (newCell k m)) /\ extends m (snd (newCell k m))
  /\ promises (snd (newCell k m)) !! length (promises m)
       = Some (mkCell k (Pending []) false false).
Proof.
  intros (Hc&Hj).
  assert (extends m (snd (newCell k m))) as E.
  { split; [exists []; by rewrite app_nil_r|].
    split; [exists []; by rewrite app_nil_r|].
    intros p c H. exists c. split; [|done]. simpl. by apply lookup_app_l_Some. }
  split; [|split; [done|]].
  - split; simpl.
    + apply Forall_app. split.
      * eapply Forall_impl; [exact Hc|]. intros c. by apply cell_ok_ext.
      * constructor; [|done]. constructor.
    + eapply Forall_impl; [exact Hj|]. intros j. by apply job_ok_ext.
  - simpl. rewrite lookup_app_r by done. by rewrite Nat.sub_diag.
Qed.

Lemma enqueue_accounted j m :
  accounted seen m -> job_ok seen m j ->
  accounted seen (enqueue j m) /\ extends m (enqueue j m).
Proof.
  intros (Hc&Hj) H.
  assert (extends m (enqueue j m)) as E.
  { apply extends_frame; [done|exists []; by rewrite app_nil_r..]. }
  split; [|done]. split; simpl.
  - eapply Forall_impl; [exact Hc|]. intros c. by apply cell_ok_ext.
  - apply Forall_app. split.
    + eapply Forall_impl; [exact Hj|]. intros j'. by apply job_ok_ext.
    + constructor; [|done]. by eapply job_ok_ext.
Qed.

(** Rewriting a promise that keeps its kind. *)
Lemma set_cell_accounted p c m :
  accounted seen m ->
  ckind c = ckind (cell_at p m) -> cell_ok seen m c ->
  accounted seen (set_cell p c m) /\ extends m (set_cell p c m).
Proof.
  intros (Hc&Hj) Hk Hok.
  assert (extends m (set_cell p c m)) as E.
  { split; [exists []; by rewrite app_nil_r|].
    split; [exists []; by rewrite app_nil_r|].
    intros i c1 Hi. simpl. destruct (decide (p = i)) as [->|Hne].
    - exists c. rewrite list_lookup_insert_eq by (by eapply lookup_lt_Some).
      split; [done|]. by rewrite Hk, (cell_at_lookup i c1 m Hi).
    - exists c1. by rewrite list_lookup_insert_ne. }
  split; [|done]. split; simpl.
  - apply Forall_insert; [|by eapply cell_ok_ext].
    eapply Forall_impl; [exact Hc|]. intros c0. by apply cell_ok_ext.
  - eapply Forall_impl; [exact Hj|]. intros j. by apply job_ok_ext.
Qed.

(** The job a reaction becomes when its promise rejects. *)
Lemma react_ok k r e m :
  reaction_ok k r -> rejection_ok seen m k e -> job_ok seen m (JReact r (Rejected e)).
Proof.
  destruct r as [p|d]; simpl.
  - by destruct k.
  - by intros ->.
Qed.

Lemma settle_accounted p o m :
  accounted seen m ->
  (forall e, o = Rejected e -> rejection_ok seen m (ckind (cell_at p m)) e) ->
  accounted seen (settle p o m) /\ extends m (settle p o m).
Proof.
  intros A H. pose proof (cell_at_ok p m A) as Hok. unfold settle.
  unfold cell_ok in Hok.
  destruct (pst (cell_at p m)) as [rs|o'] eqn:Ep; [|split; [done|apply extends_refl]].
  destruct (set_cell_accounted p
              (mkCell (ckind (cell_at p m)) (Settled o) true (isResolved (cell_at p m)))
              m A) as ((Hc1&Hj1)&E1); [done| |].
  { unfold cell_ok. simpl. destruct o as [v|e]; [done|]. by apply H. }
  remember (set_cell p (mkCell (ckind (cell_at p m)) (Settled o) true
                          (isResolved (cell_at p m))) m) as m1 eqn:Em1.
  assert (extends m1 (set_microtasks (microtasks m1 ++ map (fun r => JReact r o) rs) m1))
    as E2.
  { apply extends_frame; [done|exists []; by rewrite app_nil_r..]. }
  split; [|by eapply extends_trans].
  split; simpl.
  - eapply Forall_impl; [exact Hc1|]. intros c. by apply cell_ok_ext.
  - apply Forall_app. split.
    + eapply Forall_impl; [exact Hj1|]. intros j. by apply job_ok_ext.
    + apply Forall_map. eapply Forall_impl; [exact Hok|].
      intros r Hr. destruct o as [v|e]; [by destruct r|].
      apply (job_ok_ext m _ (JReact r (Rejected e)));
        [eapply extends_trans; [exact E1|exact E2]|].
      eapply react_ok; [exact Hr|by apply H].
Qed.

Lemma subscribe_accounted q r m :
  accounted seen m -> reaction_ok (ckind (cell_at q m)) r ->
  accounted seen (subscribe q r m) /\ extends m (subscribe q r m).
Proof.
  intros A Hr. pose proof (cell_at_ok q m A) as Hok. unfold subscribe.
  unfold cell_ok in Hok. destruct (pst (cell_at q m)) as [rs|o] eqn:Ep.
  - apply set_cell_accounted; [done|done|]. unfold cell_ok. simpl.
    apply Forall_app. split; [done|]. by constructor.
  - apply enqueue_accounted; [done|]. destruct o as [v|e]; [by destruct r|].
    by eapply react_ok.
Qed.

Lemma resolveWith_accounted p q m :
  accounted seen m -> chain_cell q m ->
  accounted seen (resolveWith p q m) /\ extends m (resolveWith p q m).
Proof.
  intros A Hq. unfold resolveWith.
  destruct (alreadyResolved (cell_at p m)); [split; [done|apply extends_refl]|].
  destruct (set_cell_accounted p
              (mkCell (ckind (cell_at p m)) (pst (cell_at p m)) true
                 (isResolved (cell_at p m))) m A) as (A1&E1); [done| |].
  { apply (cell_at_ok p m A). }
  match goal with
  | |- context [enqueue ?j ?x] =>
      destruct (enqueue_accounted j x A1) as (A2&E2);
        [by eapply chain_cell_ext|]
  end.
  split; [done|by eapply extends_trans].
Qed.

Lemma rejectWith_accounted p e m :
  accounted seen m -> rejection_ok seen m (ckind (cell_at p m)) e ->
  accounted seen (rejectWith p e m) /\ extends m (rejectWith p e m).
Proof.
  intros A H. unfold rejectWith.
  destruct (alreadyResolved (cell_at p m)); [split; [done|apply extends_refl]|].
  apply settle_accounted; [done|]. by intros e' [= <-].
Qed.

Lemma tryResolve_accounted c p q m :
  accounted seen m -> chain_cell q m ->
  accounted seen (tryResolve production c p q m)
  /\ extends m (tryResolve production c p q m).
Proof.
  intros A Hq. unfold tryResolve.
  destruct (negb production && isResolved (cell_at p m)).
  - apply accounted_frame; [done|done|exists []; by rewrite app_nil_r..|done].
  - destruct (set_cell_accounted p
                (mkCell (ckind (cell_at p m)) (pst (cell_at p m))
                   (alreadyResolved (cell_at p m)) true) m A) as (A1&E1); [done| |].
    { apply (cell_at_ok p m A). }
    match goal with
    | |- context [resolveWith p q ?x] =>
        destruct (resolveWith_accounted p q x A1) as (A2&E2);
          [by eapply chain_cell_ext|]
    end.
    split; [done|by eapply extends_trans].
Qed.

Lemma update_accounted c v m :
  accounted seen m -> accounted seen (update c v m) /\ extends m (update c v m).
Proof.
  apply accounted_frame; [by destruct c|by destruct c| |exists []; destruct c; by rewrite app_nil_r].
  destruct c; by eexists.
Qed.

Lemma bump_accounted c m :
  accounted seen m -> accounted seen (bump c m) /\ extends m (bump c m).
Proof.
  apply accounted_frame; [by destruct c|by destruct c|..];
    exists []; destruct c; by rewrite app_nil_r.
Qed.

Lemma record_accounted c m :
  accounted seen m -> accounted seen (record c m) /\ extends m (record c m).
Proof.
  apply accounted_frame; [done|done|exists []; by rewrite app_nil_r|by eexists].
Qed.

Lemma emit_accounted e m :
  accounted seen m -> accounted seen (emit e m) /\ extends m (emit e m).
Proof.
  apply accounted_frame; [done|done|by eexists|exists []; by rewrite app_nil_r].
Qed.

Lemma terminal_unfold c v m :
  terminal c v m =
    (length (promises (update c v m)),
     enqueue (JFinal c v (length (promises (update c v m))))
       (snd (newCell (KFinal c) (update c v m)))).
Proof. reflexivity. Qed.

Lemma terminal_accounted c v m :
  accounted seen m ->
  accounted seen (snd (terminal c v m)) /\ extends m (snd (terminal c v m))
  /\ chain_cell (fst (terminal c v m)) (snd (terminal c v m)).
Proof.
  intros A. rewrite terminal_unfold.
  destruct (update_accounted c v m A) as (A1&E1).
  destruct (newCell_accounted (KFinal c) (update c v m) A1) as (A2&E2&L2).
  match goal with
  | |- context [enqueue ?j ?x] =>
      destruct (enqueue_accounted j x A2) as (A3&E3); [done|]
  end.
  simpl in *. split; [done|]. split; [eauto using extends_trans|].
  eapply chain_cell_ext; [exact E3|]. eexists. split; [exact L2|done].
Qed.

Section Open.

Variable run : chain -> value -> Machine -> option (nat * Machine).
Hypothesis run_accounted : forall c v m q m',
  run c v m = Some (q, m') -> accounted seen m ->
  accounted seen m' /\ extends m m' /\ chain_cell q m'.

Lemma invoke_accounted c s cap v m r m' :
  invoke production run c s (cap, v) m = Some (r, m') -> accounted seen m ->
  accounted seen m' /\ extends m m' /\ (available c cap = true -> r = None).
Proof using run_accounted.
  unfold invoke. intros H A.
  destruct (available c cap);
    [|injection H as <- <-; split; [done|split; [apply extends_refl|done]]].
  remember (match cap with cap_next => update c v (bump c m) | _ => m end) as m1 eqn:Em1.
  assert (accounted seen m1 /\ extends m m1) as (A1&E1).
  { subst m1. destruct cap; try (split; [done|apply extends_refl]).
    destruct (bump_accounted c m A) as (A0&E0).
    destruct (update_accounted c v (bump c m) A0) as (A1&E1).
    split; [done|by eapply extends_trans]. }
  destruct (run _ _ _) as [[q m2]|] eqn:E; [|done]. injection H as <- <-.
  apply run_accounted in E as (A2&E2&C2); [|done].
  destruct (tryResolve_accounted c s q m2 A2 C2) as (A3&E3).
  split; [done|]. split; [eauto using extends_trans|done].
Qed.

Lemma runCalls_accounted c s cs m r m' :
  runCalls production run c s cs m = Some (r, m') -> accounted seen m ->
  accounted seen m' /\ extends m m'
  /\ ((forall cap v, (cap, v) ∈ cs -> available c cap = true) -> r = None).
Proof using run_accounted.
  revert m. induction cs as [|[cap v] cs IH]; simpl; intros m H A.
  - injection H as <- <-. split; [done|]. split; [apply extends_refl|done].
  - destruct (invoke _ _ _ _ _ _) as [[[e|] m1]|] eqn:E; [| |done].
    + injection H as <- <-. apply invoke_accounted in E as (A1&E1&N1); [|done].
      split; [done|]. split; [done|]. intros Hav.
      apply N1, (Hav cap v). by left.
    + apply invoke_accounted in E as (A1&E1&_); [|done].
      apply IH in H as (A2&E2&N2); [|done].
      split; [done|]. split; [by eapply extends_trans|].
      intros Hav. apply N2. intros cap' v' Hin. apply (Hav cap' v'). by right.
Qed.

Lemma adapterCall_accounted inner a m m' :
  adapterCall run inner a m = Some m' -> accounted seen m ->
  accounted seen m' /\ extends m m'.
Proof using run_accounted.
  unfold adapterCall. intros H A. destruct a.
  - destruct (run _ _ _) as [[q m1]|] eqn:E; [|done]. injection H as <-.
    apply run_accounted in E as (A1&E1&C1); [|done].
    destruct (resolveWith_accounted inner q m1 A1 C1) as (A2&E2).
    split; [done|by eapply extends_trans].
  - destruct (run _ _ _) as [[q m1]|] eqn:E; [|done]. injection H as <-.
    apply run_accounted in E as (A1&E1&C1); [|done].
    destruct (resolveWith_accounted inner q m1 A1 C1) as (A2&E2).
    split; [done|by eapply extends_trans].
  - injection H as <-.
    apply accounted_frame; [done|done|exists []; by rewrite app_nil_r..|done].
  - injection H as <-. by apply emit_accounted.
Qed.

Lemma adapterCalls_accounted inner cs m m' :
  adapterCalls run inner cs m = Some m' -> accounted seen m ->
  accounted seen m' /\ extends m m'.
Proof using run_accounted.
  revert m. induction cs as [|a cs IH]; simpl; intros m H A.
  - injection H as <-. split; [done|apply extends_refl].
  - destruct (adapterCall _ _ _ _) as [m1|] eqn:E; [|done].
    apply adapterCall_accounted in E as (A1&E1); [|done].
    apply IH in H as (A2&E2); [|done]. split; [done|by eapply extends_trans].
Qed.

Lemma doRequest_unfold v m :
  doRequest adapter run v m =
    let inner := length (promises m) in
    match convert_result adapter v with
    | Throws e =>
        let m2 := rejectWith inner e
                    (record (ConvertThrow v e) (snd (newCell KRequest m))) in
        Some (length (promises m2),
              subscribe inner (RCatchError (length (promises m2)))
                (snd (newCell KCaught m2)))
    | Returns arg =>
        let body := callback adapter (adapterRuns (trace m)) arg (result (res m)) in
        match adapterCalls run inner (acalls body)
                (record (AdapterCallback arg (result (res m)) body)
                   (snd (newCell KRequest m))) with
        | None => None
        | Some m1 =>
            let m2 := afterCallback inner (aret body) m1 in
            Some (length (promises m2),
                  subscribe inner (RCatchError (length (promises m2)))
                    (snd (newCell KCaught m2)))
        end
    end.
Proof. unfold doRequest. simpl. by destruct (convert_result adapter v). Qed.

Lemma afterCallback_accounted inner r m :
  accounted seen m ->
  (exists c, promises m !! inner = Some c /\ ckind c = KRequest) ->
  (forall e, faults_with e r -> faulted e (trace m) seen) ->
  accounted seen (afterCallback inner r m) /\ extends m (afterCallback inner r m).
Proof.
  intros A (c1&Hc1&Hk1) Hf.
  destruct r as [|e|[e|]|]; simpl; try (split; [done|apply extends_refl]).
  - apply rejectWith_accounted; [done|].
    rewrite (cell_at_lookup _ _ _ Hc1), Hk1. simpl. apply Hf. by left.
  - apply enqueue_accounted; [done|]. simpl. split; [by exists c1|].
    apply Hf. right. by left.
  - apply rejectWith_accounted; [done|].
    rewrite (cell_at_lookup _ _ _ Hc1), Hk1. simpl. apply Hf. right. by right.
Qed.

(** [.catch(throwError)] on the promise of [doRequest]. *)
Lemma caught_accounted inner m :
  accounted seen m ->
  (exists c, promises m !! inner = Some c /\ ckind c = KRequest) ->
  accounted seen (subscribe inner (RCatchError (length (promises m)))
                    (snd (newCell KCaught m)))
  /\ extends m (subscribe inner (RCatchError (length (promises m)))
                  (snd (newCell KCaught m)))
  /\ chain_cell (length (promises m))
       (subscribe inner (RCatchError (length (promises m))) (snd (newCell KCaught m))).
Proof.
  intros A (c1&Hc1&Hk1).
  destruct (newCell_accounted KCaught m A) as (A4&E4&L4).
  assert (exists c, promises (snd (newCell KCaught m)) !! inner = Some c
                    /\ ckind c = KRequest) as (c4&Hc4&Hk4).
  { destruct E4 as (_&_&K). destruct (K _ _ Hc1) as (c'&Hc'&Hk').
    exists c'. split; [done|congruence]. }
  destruct (subscribe_accounted inner (RCatchError (length (promises m)))
              (snd (newCell KCaught m)) A4) as (A5&E5).
  { rewrite (cell_at_lookup _ _ _ Hc4). exact Hk4. }
  split; [done|]. split; [by eapply extends_trans|].
  eapply chain_cell_ext; [exact E5|]. eexists. split; [exact L4|done].
Qed.

Lemma doRequest_accounted v m q m' :
  doRequest adapter run v m = Some (q, m') -> accounted seen m ->
  accounted seen m' /\ extends m m' /\ chain_cell q m'.
Proof using run_accounted.
  rewrite doRequest_unfold. cbv zeta. intros H A.
  destruct (newCell_accounted KRequest m A) as (A0&E0&L0).
  destruct (convert_result adapter v) as [arg|e0].
  - remember (callback adapter (adapterRuns (trace m)) arg (result (res m)))
      as body eqn:Eb.
    destruct (record_accounted (AdapterCallback arg (result (res m)) body)
                (snd (newCell KRequest m)) A0) as (A1&E1).
    remember (record (AdapterCallback arg (result (res m)) body)
                (snd (newCell KRequest m))) as m0 eqn:Em0.
    assert (forall e, faults_with e (aret body) -> faulted e (trace m0) seen) as Hf.
    { intros e He. left. exists arg, (result (res m)), body.
      split; [|done]. rewrite Em0. simpl. apply elem_of_app. right. by left. }
    assert (exists c, promises m0 !! length (promises m) = Some c /\ ckind c = KRequest)
      as Hin.
    { destruct E1 as (_&_&K). destruct (K _ _ L0) as (c&Hc&Hk). by exists c. }
    destruct (adapterCalls _ _ _ _) as [m1|] eqn:E; [|done].
    apply adapterCalls_accounted in E as (A2&E2); [|done].
    assert (exists c, promises m1 !! length (promises m) = Some c /\ ckind c = KRequest)
      as (c1&Hc1&Hk1).
    { destruct Hin as (c&Hc&Hk). destruct E2 as (_&_&K).
      destruct (K _ _ Hc) as (c'&Hc'&Hk'). exists c'. split; [done|congruence]. }
    assert (forall e, faulted e (trace m0) seen -> faulted e (trace m1) seen) as Hf1.
    { intros e F. destruct E2 as (_&(cs&->)&_). rewrite <- (app_nil_r seen).
      by apply faulted_app. }
    destruct (afterCallback_accounted (length (promises m)) (aret body) m1 A2)
      as (A3&E3); [by exists c1|intros e He; by apply Hf1, Hf|].
    injection H as <- <-.
    destruct (caught_accounted (length (promises m))
                (afterCallback (length (promises m)) (aret body) m1) A3)
      as (A5&E5&C5).
    { destruct E3 as (_&_&K). destruct (K _ _ Hc1) as (c'&Hc'&Hk').
      exists c'. split; [done|congruence]. }
    split; [done|]. split; [eauto 10 using extends_trans|done].
  - destruct (record_accounted (ConvertThrow v e0) (snd (newCell KRequest m)) A0)
      as (A1&E1).
    remember (record (ConvertThrow v e0) (snd (newCell KRequest m))) as m0 eqn:Em0.
    assert (exists c, promises m0 !! length (promises m) = Some c /\ ckind c = KRequest)
      as (c0&Hc0&Hk0).
    { destruct E1 as (_&_&K). destruct (K _ _ L0) as (c&Hc&Hk). by exists c. }
    destruct (rejectWith_accounted (length (promises m)) e0 m0 A1) as (A2&E2).
    { rewrite (cell_at_lookup _ _ _ Hc0), Hk0. simpl. right. left. exists v.
      rewrite Em0. simpl. apply elem_of_app. right. by left. }
    injection H as <- <-.
    destruct (caught_accounted (length (promises m))
                (rejectWith (length (promises m)) e0 m0) A2) as (A5&E5&C5).
    { destruct E2 as (_&_&K). destruct (K _ _ Hc0) as (c'&Hc'&Hk').
      exists c'. split; [done|congruence]. }
    split; [done|]. split; [eauto 10 using extends_trans|done].
Qed.

End Open.

Hypothesis hooks_behave : well_behaved req.

Lemma withPayload_unfold fuel c v m :
  withPayload production req (S fuel) c v m =
    match hooks req c !! idx c m with
    | None => Some (terminal c v m)
    | Some hook =>
        let p := length (promises m) in
        let ctx := createContext req c v m in
        let body := hook (hookRuns c (idx c m) (trace m)) ctx in
        match runCalls production (withPayload production req fuel) c p (calls body)
                (record (HookCall c (idx c m) ctx) (snd (newCell (KStep c) m))) with
        | None => None
        | Some (thrown, m1) =>
            match from_option Some (throws body) thrown with
            | Some e => Some (p, rejectWith p e m1)
            | None => Some (p, m1)
            end
        end
    end.
Proof. reflexivity. Qed.

Lemma withPayload_accounted fuel c v m q m' :
  withPayload production req fuel c v m = Some (q, m') -> accounted seen m ->
  accounted seen m' /\ extends m m' /\ chain_cell q m'.
Proof using hooks_behave.
  revert c v m q m'. induction fuel as [|fuel IH]; [done|].
  intros c v m q m' H A. rewrite withPayload_unfold in H.
  destruct (hooks req c !! idx c m) as [hook|] eqn:Hh.
  - cbv zeta in H.
    destruct (hooks_behave c hook (hookRuns c (idx c m) (trace m))
                (createContext req c v m) (list_elem_of_lookup_2 _ _ _ Hh))
      as (Hthrows&Hav).
    destruct (newCell_accounted (KStep c) m A) as (A0&E0&L0).
    destruct (record_accounted (HookCall c (idx c m) (createContext req c v m))
                (snd (newCell (KStep c) m)) A0) as (A1&E1).
    destruct (runCalls _ _ _ _ _ _) as [[thrown m1]|] eqn:E; [|done].
    apply (runCalls_accounted _ IH) in E as (A2&E2&N2); [|done].
    rewrite (N2 Hav), Hthrows in H. simpl in H. injection H as <- <-.
    split; [done|]. split; [eauto using extends_trans|].
    eapply chain_cell_ext; [eapply extends_trans; [exact E1|exact E2]|].
    eexists. split; [exact L0|done].
  - assert (terminal c v m = (q, m')) as Ht by congruence.
    destruct (terminal_accounted c v m A) as (A1&E1&C1).
    rewrite Ht in A1, E1, C1. by simpl in *.
Qed.

Lemma pop_accounted j q m :
  microtasks m = j :: q -> accounted seen m ->
  accounted seen (set_microtasks q m) /\ extends m (set_microtasks q m)
  /\ job_ok seen (set_microtasks q m) j.
Proof.
  intros Q (Hc&Hj). rewrite Q in Hj. apply Forall_cons in Hj as (Hj1&Hj2).
  assert (extends m (set_microtasks q m)) as E.
  { apply extends_frame; [done|exists []; by rewrite app_nil_r..]. }
  split; [|split; [done|by eapply job_ok_ext]]. split; simpl.
  - eapply Forall_impl; [exact Hc|]. intros c. by apply cell_ok_ext.
  - eapply Forall_impl; [exact Hj2|]. intros j'. by apply job_ok_ext.
Qed.

Lemma setState_accounted diff m :
  accounted seen m -> accounted seen (setState diff m) /\ extends m (setState diff m).
Proof.
  apply accounted_frame; [done|done|by eexists|exists []; by rewrite app_nil_r].
Qed.

Lemma runJob_accounted fuel j m m' :
  runJob production adapter req fuel j m = Some m' ->
  accounted seen m -> job_ok seen m j ->
  accounted seen m' /\ extends m m'.
Proof using hooks_behave.
  intros H A J. destruct j as [c v d|p q|r o|d o|p e]; unfold runJob in H.
  - destruct c.
    + destruct (doRequest _ _ _ _) as [[q m1]|] eqn:E; [|done]. injection H as <-.
      apply (doRequest_accounted _ (withPayload_accounted fuel)) in E
        as (A1&E1&C1); [|done].
      destruct (resolveWith_accounted d q m1 A1 C1) as (A2&E2).
      split; [done|by eapply extends_trans].
    + rewrite final_effect in H. injection H as <-.
      match goal with
      | |- context [settle ?a ?b ?x] =>
          assert (accounted seen x /\ extends m x) as (A1&E1)
      end.
      { apply accounted_frame; [done|done|by eexists|exists []; by rewrite app_nil_r|done]. }
      match goal with
      | |- context [settle ?a ?b ?x] =>
          destruct (settle_accounted a b x A1) as (A2&E2); [done|]
      end.
      split; [done|by eapply extends_trans].
    + rewrite final_effect in H. injection H as <-.
      match goal with
      | |- context [settle ?a ?b ?x] =>
          assert (accounted seen x /\ extends m x) as (A1&E1)
      end.
      { apply accounted_frame; [done|done|by eexists|exists []; by rewrite app_nil_r|done]. }
      match goal with
      | |- context [settle ?a ?b ?x] =>
          destruct (settle_accounted a b x A1) as (A2&E2); [done|]
      end.
      split; [done|by eapply extends_trans].
  - injection H as <-. apply subscribe_accounted; [done|]. simpl in J.
    destruct J as (c&Hc&Hk). by rewrite (cell_at_lookup _ _ _ Hc).
  - destruct r as [p|d]; [|destruct o as [v|e]]; injection H as <-.
    + apply settle_accounted; [done|]. intros e ->. simpl in J.
      destruct J. by apply rejection_ok_any.
    + by apply settle_accounted.
    + destruct (emit_accounted (EvError e) m A) as (A1&E1).
      destruct (settle_accounted d (Rejected e) (throwError e m) A1) as (A2&E2).
      { intros e' [= <-]. apply rejection_ok_any.
        - simpl. apply elem_of_app. right. by left.
        - exact J. }
      split; [done|by eapply extends_trans].
  - destruct o as [v|e].
    + destruct (setState_accounted cancelDiff m A) as (A1&E1).
      remember (setState cancelDiff m) as m1 eqn:Em1. unfold pickState in H.
      injection H as <-.
      match goal with
      | |- context [settle ?a ?b ?x] =>
          assert (accounted seen x /\ extends m1 x) as (A2&E2)
      end.
      { apply accounted_frame; [done|done|by eexists|exists []; by rewrite app_nil_r|done]. }
      match goal with
      | |- context [settle ?a ?b ?x] =>
          destruct (settle_accounted a b x A2) as (A3&E3); [done|]
      end.
      split; [done|eauto using extends_trans].
    + injection H as <-. apply settle_accounted; [done|]. intros e' [= <-].
      simpl in J. destruct J as (c&Hc&Hk).
      by rewrite (cell_at_lookup _ _ _ Hc), Hk.
  - injection H as <-. simpl in J. destruct J as ((c&Hc&Hk)&F).
    apply rejectWith_accounted; [done|].
    by rewrite (cell_at_lookup _ _ _ Hc), Hk.
Qed.

Lemma afterCancelCallback_accounted o m :
  accounted seen m ->
  accounted seen (afterCancelCallback o m) /\ extends m (afterCancelCallback o m).
Proof.
  intros A. destruct (newCell_accounted KCancel m A) as (A2&E2&L2).
  destruct o as [|e|e|]; simpl.
  - match goal with
    | |- context [enqueue ?j ?x] =>
        destruct (enqueue_accounted j x A2) as (A3&E3); [done|]
    end.
    split; [done|eauto using extends_trans].
  - split; [done|apply extends_refl].
  - match goal with
    | |- context [enqueue ?j ?x] =>
        destruct (enqueue_accounted j x A2) as (A3&E3)
    end.
    { simpl. eexists. split; [exact L2|done]. }
    split; [done|eauto using extends_trans].
  - done.
Qed.

Lemma cancel_accounted fuel m m' :
  cancel production req fuel m = Some m' ->
  accounted seen m -> accounted seen m' /\ extends m m'.
Proof using hooks_behave.
  unfold cancel. intros H A.
  destruct (record_accounted (CancelCall (cancelCallback m)) m A) as (A1&E1).
  destruct (adapterCalls _ _ _ _) as [m1|] eqn:E; [|done]. injection H as <-.
  apply (adapterCalls_accounted _ (withPayload_accounted fuel)) in E as (A2&E2);
    [|done].
  destruct (afterCancelCallback_accounted (outcome_of (cancelCallback m)) m1 A2)
    as (A3&E3).
  split; [done|eauto using extends_trans].
Qed.

End Faults.

Lemma perform_accounted production adapter req seen fuel i m m' :
  well_behaved req ->
  perform production adapter req fuel i m = Some m' ->
  accounted seen m -> accounted (seen ++ [i]) m' /\ extends m m'.
Proof.
  intros W H A.
  assert (forall m1, accounted seen m1 /\ extends m m1 ->
                     accounted (seen ++ [i]) m1 /\ extends m m1) as Hmore.
  { intros m1 (A1&E1). split; [|done].
    eapply accounted_more; [apply extends_refl|done|done|done]. }
  destruct i as [| |c p cap v|inner a|inner e]; simpl in H.
  - apply Hmore. destruct (microtasks m) as [|j q] eqn:Q.
    + injection H as <-. split; [done|apply extends_refl].
    + destruct (pop_accounted seen j q m Q A) as (A1&E1&J1).
      apply (runJob_accounted production adapter req seen W) in H as (A2&E2);
        [|done|done].
      split; [done|by eapply extends_trans].
  - apply Hmore. by apply (cancel_accounted production req seen W) in H.
  - apply Hmore. destruct (ckind (cell_at p m)); try done.
    destruct (promises m !! p); [|done]. case_bool_decide; [|done].
    destruct (invoke _ _ _ _ _ _) as [[r m1]|] eqn:E; [|done]. injection H as <-.
    apply (invoke_accounted production seen _
             (withPayload_accounted production req seen W fuel)) in E
      as (A1&E1&_); [|done].
    done.
  - apply Hmore. destruct (ckind (cell_at inner m)); try done.
    destruct (promises m !! inner); [|done].
    by apply (adapterCall_accounted seen _
                (withPayload_accounted production req seen W fuel)) in H.
  - destruct (ckind (cell_at inner m)) eqn:Ek; try done.
    destruct (promises m !! inner) as [c|] eqn:El; [|done]. injection H as <-.
    assert (accounted (seen ++ [ILateThenable inner e]) m) as A'.
    { eapply accounted_more; [apply extends_refl|done..]. }
    apply enqueue_accounted; [done|]. simpl. split.
    + exists c. split; [done|]. by rewrite <- (cell_at_lookup _ _ _ El).
    + right. right. exists inner. apply elem_of_app. right. by left.
Qed.

Lemma performAll_accounted production adapter req fuel inputs seen m m' :
  well_behaved req ->
  performAll production adapter req fuel inputs m = Some m' ->
  accounted seen m -> accounted (seen ++ inputs) m' /\ extends m m'.
Proof.
  intros W. revert seen m. induction inputs as [|i inputs IH]; simpl; intros seen m H A.
  - injection H as <-. rewrite app_nil_r. split; [done|apply extends_refl].
  - destruct (perform _ _ _ _ _ _) as [m1|] eqn:E; [|done].
    apply (perform_accounted _ _ _ seen) in E as (A1&E1); [|done|done].
    apply (IH (seen ++ [i])) in H as (A2&E2); [|done]. rewrite <- app_assoc in A2.
    split; [done|by eapply extends_trans].
Qed.

(** The 'only if' half: with hooks that do not throw and call only the
    capabilities their context holds, a rejection [e] of the completion
    promise was emitted as an [error] event and stems from a fault of the
    adapter. *)
Lemma rejection_accounted production adapter req fuel inputs p m e :
  well_behaved req ->
  session production adapter req fuel inputs = Some (p, m) ->
  settled p m = Some (Rejected e) ->
  EvError e ∈ bus m /\ faulted e (trace m) inputs.
Proof.
  intros W H S. unfold session in H.
  destruct (apicase _ _ _ _) as [[p0 m0]|] eqn:E0; [|done].
  destruct (performAll _ _ _ _ _ _) as [m1|] eqn:E1; [|done].
  injection H as -> ->.
  apply (withPayload_accounted production req [] W) in E0 as (A0&_&C0);
    [|split; constructor].
  apply (performAll_accounted _ _ _ _ _ []) in E1 as (A1&X1); [|done|done].
  destruct (chain_cell_ext p m0 m X1 C0) as (c&Hc&Hk).
  destruct A1 as (Hcells&_). pose proof (Forall_lookup_1 _ _ _ _ Hcells Hc) as Hok.
  unfold settled in S. rewrite (cell_at_lookup _ _ _ Hc) in S.
  unfold cell_ok in Hok. destruct (pst c) as [rs|o]; [done|].
  injection S as ->. by destruct (ckind c).
Qed.


(** ** Invariants of a request *)

Section Invariant.

Variable production : bool.
Variable adapter : Adapter.
Variable req : Request.
Variable P : Machine -> Prop.

Hypothesis P_init : P (init adapter req).
Hypothesis P_plumbing : forall m m', plumbing m m' -> P m -> P m'.
Hypothesis P_next : forall c v m, P m -> P (update c v (bump c m)).
Hypothesis P_terminal : forall c v m, P m -> P (snd (terminal c v m)).
Hypothesis P_setCancelCallback : forall cb m, P m -> P (set_cancelCallback cb m).
Hypothesis P_emit_custom : forall n a m, P m -> P (emit (EvCustom n a) m).
Hypothesis P_pop : forall j q m, microtasks m = j :: q -> P m -> P (set_microtasks q m).
Hypothesis P_final : forall c v d q m,
  c <> Before -> microtasks m = JFinal c v d :: q -> P m ->
  P (snd (final c v (set_microtasks q m))).
Hypothesis P_throwError : forall e m, P m -> P (throwError e m).
Hypothesis P_cancelled : forall d v q m,
  microtasks m = JCancelThen d (Fulfilled v) :: q -> P m ->
  P (let m := setState cancelDiff (set_microtasks q m) in
     emit (EvCancel (fst (pickState m))) (snd (pickState m))).

Lemma perform_invariant fuel i m m' :
  perform production adapter req fuel i m = Some m' -> P m -> P m'.
Proof using P_plumbing P_next P_terminal P_setCancelCallback P_emit_custom P_pop
  P_final P_throwError P_cancelled.
  apply (perform_kept production adapter req (fun a b => P a -> P b)); auto.
Qed.

Lemma apicase_invariant fuel p m :
  apicase production adapter req fuel = Some (p, m) -> P m.
Proof using P_init P_plumbing P_next P_terminal.
  unfold apicase. intros H.
  apply (withPayload_kept production req (fun a b => P a -> P b)) in H; auto.
Qed.

Lemma reachable_invariant m : reachable production adapter req m -> P m.
Proof using All.
  induction 1; eauto using apicase_invariant, perform_invariant.
Qed.

End Invariant.

(** ** The change events and the state *)

Lemma observed_payload_app p b1 b2 :
  observed_payload p (b1 ++ b2) = observed_payload (observed_payload p b1) b2.
Proof. apply foldl_app. Qed.

Lemma observed_result_app r b1 b2 :
  observed_result r (b1 ++ b2) = observed_result (observed_result r b1) b2.
Proof. apply foldl_app. Qed.

Lemma chained_app p r b1 b2 :
  chained p r (b1 ++ b2) <->
  chained p r b1 /\ chained (observed_payload p b1) (observed_result r b1) b2.
Proof.
  revert p r. induction b1 as [|e b1 IH]; intros p r; simpl; [tauto|].
  destruct e; simpl; rewrite ?IH; tauto.
Qed.

Lemma tracks_refl m : tracks m m.
Proof. exists []. by rewrite app_nil_r. Qed.

Lemma tracks_trans a b c : tracks a b -> tracks b c -> tracks a c.
Proof.
  intros (e1&B1&C1&P1&R1) (e2&B2&C2&P2&R2). exists (e1 ++ e2).
  rewrite B2, B1, app_assoc. split; [done|].
  rewrite chained_app, observed_payload_app, observed_result_app, P1, R1.
  auto.
Qed.

(** Events other than the engine's two change events, with the payload
    and the result left alone. *)
Lemma tracks_quiet es m m' :
  bus m' = bus m ++ es ->
  Forall (fun e => is_change_payload e = false /\ is_change_result e = false) es ->
  payload (res m') = payload (res m) -> result (res m') = result (res m) ->
  tracks m m'.
Proof.
  intros Hb Hes Hp Hr. exists es. split; [done|]. rewrite Hp, Hr. clear Hb Hp Hr.
  generalize (payload (res m)) (result (res m)).
  induction Hes as [|e es (H1&H2) Hes IH]; intros p r; [done|].
  destruct e; try done; simpl in *; apply IH.
Qed.

Lemma tracks_update c v m : tracks m (update c v m).
Proof.
  eexists. split; [apply update_event|]. by destruct c.
Qed.

Lemma perform_tracks production adapter req fuel i m m' :
  perform production adapter req fuel i m = Some m' -> tracks m m'.
Proof.
  apply (perform_kept production adapter req tracks).
  - apply tracks_refl.
  - apply tracks_trans.
  - intros m0 m1 (Hr&_&_&_&_&Hb&_). apply (tracks_quiet []); try done.
    + by rewrite app_nil_r.
    + by rewrite Hr.
    + by rewrite Hr.
  - intros c v m0. eapply tracks_trans; [|apply tracks_update].
    apply (tracks_quiet []); try done; by destruct c; rewrite ?app_nil_r.
  - intros c v m0. rewrite terminal_unfold. simpl.
    eapply tracks_trans; [apply tracks_update|].
    apply (tracks_quiet []); try done. by rewrite app_nil_r.
  - intros cb m0. apply (tracks_quiet []); try done. by rewrite app_nil_r.
  - intros n a m0. apply (tracks_quiet [EvCustom n a]); try done.
    by repeat constructor.
  - intros j q m0 _. apply (tracks_quiet []); try done. by rewrite app_nil_r.
  - intros c v d q m0 _ _. rewrite final_effect. simpl.
    apply (tracks_quiet
             [match c with Fail => EvFail v (length (heap m0))
                         | _ => EvDone v (length (heap m0)) end;
              EvFinish v (S (length (heap m0)))]); try done.
    destruct c; by repeat constructor.
  - intros e m0. apply (tracks_quiet [EvError e]); try done.
    by repeat constructor.
  - intros d v q m0 _. cbv zeta.
    destruct (setState_event cancelDiff (set_microtasks q m0)) as (Hb&_&Hr).
    remember (setState cancelDiff (set_microtasks q m0)) as m1 eqn:Em1.
    apply (tracks_quiet
             [ChangeState (length (heap m0)) (length (heap m0)) cancelDiff;
              EvCancel (length (heap m1))] m0); try done.
    + simpl. rewrite Hb. simpl. by rewrite <- app_assoc.
    + by repeat constructor.
    + simpl. by rewrite Hr.
    + simpl. by rewrite Hr.
Qed.

Lemma performAll_tracks production adapter req fuel inputs m m' :
  performAll production adapter req fuel inputs m = Some m' -> tracks m m'.
Proof.
  revert m. induction inputs as [|i inputs IH]; simpl; intros m H.
  - injection H as <-. apply tracks_refl.
  - destruct (perform _ _ _ _ _ _) as [m1|] eqn:E; [|done].
    eapply tracks_trans; [eapply perform_tracks, E|by apply IH].
Qed.

(** What a subscriber of a change event holds when the adapter sends
    nothing under that name: the [next] of the engine's last event. *)
Lemma subscriber_payload start es :
  unused_by_adapter "change:payload" es ->
  subscriber "change:payload" start es = observed_payload start es.
Proof.
  unfold subscriber, observed_payload. revert start.
  induction es as [|e es IH]; intros start Hu; [done|]. simpl.
  rewrite <- IH by (intros x Hx; apply Hu; by right).
  destruct e as [| | | | | | | |n a]; try done. simpl.
  destruct (String.eqb n "change:payload") eqn:En; [|done].
  apply String.eqb_eq in En. destruct (Hu (EvCustom n a)); [by left|done|done].
Qed.

Lemma subscriber_result start es :
  unused_by_adapter "change:result" es ->
  subscriber "change:result" start es = observed_result start es.
Proof.
  unfold subscriber, observed_result. revert start.
  induction es as [|e es IH]; intros start Hu; [done|]. simpl.
  rewrite <- IH by (intros x Hx; apply Hu; by right).
  destruct e as [| | | | | | | |n a]; try done. simpl.
  destruct (String.eqb n "change:result") eqn:En; [|done].
  apply String.eqb_eq in En. destruct (Hu (EvCustom n a)); [by left|done|done].
Qed.

(** X1. A subscriber of the handle.  From any point at which the handle
    exists, whatever happens next: if the adapter sends nothing itself
    under the names [change:payload] and [change:result], a handler
    subscribed to [change:payload] that starts from the [payload] the
    handle has and keeps the [next] of every event it receives holds the
    [payload] of the handle at every later point, and likewise for
    [change:result] and [result]; and each of the engine's change events
    names as [prev] what the one before it left.  (The [change:payload] of
    the first run of the before-chain is emitted inside [apicase], before
    the handle is returned: no subscriber of the handle receives it.) *)
Theorem change_events_mirror_state production adapter req fuel inputs m m' :
  performAll production adapter req fuel inputs m = Some m' ->
  exists es,
    bus m' = bus m ++ es
    /\ chained (payload (res m)) (result (res m)) es
    /\ (unused_by_adapter "change:payload" es ->
        subscriber "change:payload" (payload (res m)) es = payload (res m'))
    /\ (unused_by_adapter "change:result" es ->
        subscriber "change:result" (result (res m)) es = result (res m')).
Proof.
  intros (es&Hb&Hc&Hp&Hr)%performAll_tracks. exists es.
  split; [done|]. split; [done|]. split; intros Hu.
  - by rewrite subscriber_payload.
  - by rewrite subscriber_result.
Qed.

(** A request that is retried once, from [apicase]'s return on. *)
Lemma change_events_mirror_state_witness :
  exists m0 m es,
    apicase false flaky
      (mkRequest VNull a1 [passes] [] [retries_once (VNum 2)] false) 6 = Some (0, m0)
    /\ performAll false flaky
         (mkRequest VNull a1 [passes] [] [retries_once (VNum 2)] false) 6
         (repeat ITick 30) m0 = Some m
    /\ bus m = bus m0 ++ es
    /\ payload (res m0) = a1 /\ payload (res m) = VNum 2
    /\ result (res m) = VStr "ok"
    /\ subscriber "change:payload" a1 es = VNum 2
    /\ subscriber "change:result" VNull es = VStr "ok".
Proof.
  destruct (apicase false flaky
              (mkRequest VNull a1 [passes] [] [retries_once (VNum 2)] false) 6)
    as [[p m0]|] eqn:E0; [|vm_compute in E0; discriminate E0].
  destruct (performAll false flaky
              (mkRequest VNull a1 [passes] [] [retries_once (VNum 2)] false) 6
              (repeat ITick 30) m0) as [m|] eqn:E1;
    [|vm_compute in E0; injection E0 as <- <-; vm_compute in E1; discriminate E1].
  destruct (change_events_mirror_state _ _ _ _ _ _ _ E1) as (es&Hb&_&Hp&Hr).
  assert (p = 0 /\ payload (res m0) = a1 /\ result (res m0) = VNull
          /\ payload (res m) = VNum 2 /\ result (res m) = VStr "ok"
          /\ forall es', bus m = bus m0 ++ es' -> Forall (fun e => ~ by_adapter e) es')
    as (->&P0&R0&Pm&Rm&Hn).
  { clear -E0 E1. vm_compute in E0. injection E0 as <- <-.
    vm_compute in E1. injection E1 as <-. do 5 (split; [reflexivity|]).
    intros es' H. simpl in H. injection H as <-.
    repeat constructor; by intros []. }
  pose proof (Hn es Hb) as Hes. rewrite Forall_forall in Hes.
  exists m0, m, es. split; [reflexivity|]. split; [exact E1|]. split; [exact Hb|].
  split; [exact P0|]. split; [exact Pm|]. split; [exact Rm|].
  rewrite <- P0, <- R0. split.
  - rewrite Hp; [exact Pm|]. intros e He Ha. by destruct (Hes e He).
  - rewrite Hr; [exact Rm|]. intros e He Ha. by destruct (Hes e He).
Defined.

(** ** Which events announce which change *)

Lemma announced_refl m : announced m m.
Proof. exists []. by rewrite app_nil_r. Qed.

Lemma announced_trans a b c : announced a b -> announced b c -> announced a c.
Proof.
  intros (e1&B1&P1&R1&S1&C1&M1) (e2&B2&P2&R2&S2&C2&M2).
  exists (e1 ++ e2). rewrite B2, B1, app_assoc. split; [done|].
  split; [|split; [|split; [|split]]].
  - intros [F1 F2]%Forall_app. by rewrite P2, P1.
  - intros [F1 F2]%Forall_app. by rewrite R2, R1.
  - intros [F1 F2]%Forall_app. destruct (S1 F1) as (<-&<-). by apply S2.
  - intros [F1 F2]%Forall_app. by rewrite C2, C1.
  - by rewrite M2.
Qed.

Lemma announced_same m m' : bus m' = bus m -> res m' = res m -> announced m m'.
Proof. intros Hb Hr. exists []. rewrite Hb, Hr, app_nil_r. by repeat split. Qed.

Lemma announced_event e m m' :
  bus m' = bus m ++ [e] -> res m' = res m -> announced m m'.
Proof. intros Hb Hr. exists [e]. rewrite Hr. by repeat split. Qed.

Lemma announced_quiet es m m' :
  bus m' = bus m ++ es -> res m' = res m -> announced m m'.
Proof. intros Hb Hr. exists es. rewrite Hr. by repeat split. Qed.

Lemma announced_update c v m : announced m (update c v m).
Proof.
  eexists. split; [apply update_event|].
  destruct c; simpl; (split; [|split; [|split; [|split]]]); try done;
    intros H; apply Forall_cons in H as (H0&_); simpl in H0;
      try discriminate H0; by destruct H0.
Qed.

Lemma announced_cancelDiff m : announced m (setState cancelDiff m).
Proof.
  destruct (setState_event cancelDiff m) as (Hb&_&Hr).
  eexists. split; [exact Hb|]. rewrite Hr.
  split; [reflexivity|]. split; [reflexivity|].
  split; [|split; [|reflexivity]];
    intros H; apply Forall_cons in H as (H0&_); simpl in H0;
      try discriminate H0; by destruct H0.
Qed.

Lemma perform_announced production adapter req fuel i m m' :
  perform production adapter req fuel i m = Some m' -> announced m m'.
Proof.
  apply (perform_kept production adapter req announced).
  - apply announced_refl.
  - apply announced_trans.
  - intros m0 m1 (Hr&_&_&_&_&Hb&_). by apply announced_same.
  - intros c v m0. eapply announced_trans; [|apply announced_update].
    apply announced_same; by destruct c.
  - intros c v m0. rewrite terminal_unfold. simpl.
    eapply announced_trans; [apply announced_update|]. by apply announced_same.
  - intros. by apply announced_same.
  - intros. by eapply announced_event.
  - intros. by apply announced_same.
  - intros c v d q m0 _ _. rewrite final_effect. simpl.
    by eapply announced_quiet.
  - intros. by eapply announced_event.
  - intros d v q m0 _. cbv zeta.
    eapply announced_trans; [apply (announced_same m0 (set_microtasks q m0)); done|].
    eapply announced_trans; [apply announced_cancelDiff|].
    by eapply announced_event.
Qed.

Lemma performAll_announced production adapter req fuel inputs m m' :
  performAll production adapter req fuel inputs m = Some m' -> announced m m'.
Proof.
  revert m. induction inputs as [|i inputs IH]; simpl; intros m H.
  - injection H as <-. apply announced_refl.
  - destruct (perform _ _ _ _ _ _) as [m1|] eqn:E; [|done].
    eapply announced_trans; [eapply perform_announced, E|by apply IH].
Qed.

(** X2. No field of the handle changes silently.  Over any inputs, in
    any state: if [payload] changed, a [change:payload] was emitted in
    between; if [result] changed, a [change:result]; if [success] or
    [pending] changed, a [change:result] or a [change:state]; if
    [cancelled] changed, a [change:state]; and [meta] never changes. *)
Theorem state_changes_are_announced production adapter req fuel inputs m m' :
  performAll production adapter req fuel inputs m = Some m' ->
  exists es, bus m' = bus m ++ es
    /\ (payload (res m') <> payload (res m) ->
        exists e, e ∈ es /\ is_change_payload e = true)
    /\ (result (res m') <> result (res m) ->
        exists e, e ∈ es /\ is_change_result e = true)
    /\ (success (res m') <> success (res m) \/ pending (res m') <> pending (res m) ->
        exists e, e ∈ es /\ (is_change_result e = true \/ is_change_state e = true))
    /\ (cancelled (res m') <> cancelled (res m) ->
        exists e, e ∈ es /\ is_change_state e = true)
    /\ meta (res m') = meta (res m).
Proof.
  intros H. apply performAll_announced in H as (es&Hb&Hp&Hr&Hs&Hc&Hm).
  exists es. split; [done|].
  assert (forall f : event -> bool,
            ~ Forall (fun e => f e = false) es -> exists e, e ∈ es /\ f e = true) as Hex.
  { intros f Hn. apply not_Forall_Exists in Hn; [|intros e; apply _].
    apply Exists_exists in Hn as (e&Hin&He). exists e. split; [done|].
    unfold compose in He. destruct (f e); [reflexivity|]. by destruct He. }
  split; [|split; [|split; [|split]]]; try done.
  - intros Hne. apply (Hex is_change_payload). intros F. by apply Hne, Hp.
  - intros Hne. apply (Hex is_change_result). intros F. by apply Hne, Hr.
  - intros Hne.
    destruct (Hex (fun e => is_change_result e || is_change_state e)) as (e&Hin&He).
    + intros F. assert (success (res m') = success (res m)
                        /\ pending (res m') = pending (res m)) as (H1&H2).
      { apply Hs. eapply Forall_impl; [exact F|]. intros e He. simpl in He.
        by apply orb_false_iff in He. }
      by destruct Hne.
    + exists e. split; [done|]. by apply orb_true_iff in He.
  - intros Hne. apply (Hex is_change_state). intros F. by apply Hne, Hc.
Qed.

Lemma state_changes_are_announced_witness :
  exists m m',
    apicase false (resolves (VStr "ok")) (plain VNull a1) 1 = Some (0, m)
    /\ performAll false (resolves (VStr "ok")) (plain VNull a1) 1
         (ICancel :: repeat ITick 10) m = Some m'
    /\ cancelled (res m) = false /\ cancelled (res m') = true
    /\ exists es, bus m' = bus m ++ es
         /\ exists e, e ∈ es /\ is_change_state e = true.
Proof.
  destruct (apicase false (resolves (VStr "ok")) (plain VNull a1) 1)
    as [[p m]|] eqn:E0; [|vm_compute in E0; discriminate E0].
  destruct (performAll false (resolves (VStr "ok")) (plain VNull a1) 1
              (ICancel :: repeat ITick 10) m) as [m'|] eqn:E1;
    [|vm_compute in E0; injection E0 as <- <-; vm_compute in E1; discriminate E1].
  destruct (state_changes_are_announced _ _ _ _ _ _ _ E1) as (es&Hb&_&_&_&Hc&_).
  assert (p = 0 /\ cancelled (res m) = false /\ cancelled (res m') = true)
    as (->&C0&C1).
  { clear -E0 E1. vm_compute in E0. injection E0 as <- <-.
    vm_compute in E1. injection E1 as <-. by repeat split. }
  exists m, m'. split; [reflexivity|]. split; [exact E1|].
  split; [exact C0|]. split; [exact C1|].
  exists es. split; [exact Hb|]. apply Hc. rewrite C0, C1. discriminate.
Defined.

(** ** Snapshots *)

Lemma perform_keeps_snapshots production adapter req fuel i m m' :
  perform production adapter req fuel i m = Some m' -> keeps_snapshots m m'.
Proof.
  assert (forall a b, heap b = heap a -> keeps_snapshots a b) as Hsame.
  { intros a b H. exists []. by rewrite app_nil_r. }
  apply (perform_kept production adapter req keeps_snapshots).
  - intros m0. by apply Hsame.
  - intros a b c (s1&H1) (s2&H2). exists (s1 ++ s2). by rewrite H2, H1, app_assoc.
  - intros m0 m1 (_&_&_&_&_&_&Hh&_). by apply Hsame.
  - intros c v m0. apply Hsame. by destruct c.
  - intros c v m0. apply Hsame. rewrite terminal_unfold. by destruct c.
  - intros. by apply Hsame.
  - intros. by apply Hsame.
  - intros. by apply Hsame.
  - intros c v d q m0 _ _. rewrite final_effect. by eexists.
  - intros. by apply Hsame.
  - intros d v q m0 _. cbv zeta.
    destruct (setState_heap cancelDiff (set_microtasks q m0)) as (Hh&_).
    exists [assign (res m0) cancelDiff; res (setState cancelDiff (set_microtasks q m0))].
    simpl in *. rewrite Hh. by rewrite <- app_assoc.
Qed.

(** X3. A snapshot, once built, is never written again: whatever the
    inputs, the object a [done], [fail], [finish], [cancel] or
    [change:state] event carried still has the fields it had.  (The one
    write into a [pickState] object is that of [setState] into the object
    it has just built.) *)
Theorem snapshots_are_never_rewritten production adapter req fuel inputs m m' l s :
  performAll production adapter req fuel inputs m = Some m' ->
  heap m !! l = Some s -> heap m' !! l = Some s.
Proof.
  revert m. induction inputs as [|i inputs IH]; simpl; intros m H Hl.
  - by injection H as <-.
  - destruct (perform _ _ _ _ _ _) as [m1|] eqn:E; [|done].
    apply perform_keeps_snapshots in E as (snaps&Hh).
    apply (IH m1); [done|]. rewrite Hh. by apply lookup_app_l_Some.
Qed.

Lemma snapshots_are_never_rewritten_witness :
  exists m m',
    session false (resolves (VStr "ok")) (plain VNull a1) 1 (repeat ITick 8)
      = Some (0, m)
    /\ performAll false (resolves (VStr "ok")) (plain VNull a1) 1
         [ICancel; ITick; ITick] m = Some m'
    /\ heap m !! 0 = Some (mkState true false false a1 (VStr "ok") VNull)
    /\ res m' = mkState false false true a1 (VStr "ok") VNull
    /\ heap m' !! 0 = Some (mkState true false false a1 (VStr "ok") VNull).
Proof.
  destruct (session false (resolves (VStr "ok")) (plain VNull a1) 1 (repeat ITick 8))
    as [[p m]|] eqn:E0; [|vm_compute in E0; discriminate E0].
  destruct (performAll false (resolves (VStr "ok")) (plain VNull a1) 1
              [ICancel; ITick; ITick] m) as [m'|] eqn:E1;
    [|vm_compute in E0; injection E0 as <- <-; vm_compute in E1; discriminate E1].
  assert (p = 0 /\ heap m !! 0 = Some (mkState true false false a1 (VStr "ok") VNull)
          /\ res m' = mkState false false true a1 (VStr "ok") VNull) as (->&H0&R1).
  { clear -E0 E1. vm_compute in E0. injection E0 as <- <-.
    vm_compute in E1. injection E1 as <-. by repeat split. }
  exists m, m'. split; [reflexivity|]. split; [exact E1|].
  split; [exact H0|]. split; [exact R1|].
  exact (snapshots_are_never_rewritten _ _ _ _ _ _ _ _ _ E1 H0).
Defined.

(** ** [finish] after [done] and [fail] *)

Lemma paired_heap h snaps b : paired h b -> paired (h ++ snaps) b.
Proof.
  induction 1.
  - constructor.
  - eapply paired_done; eauto using lookup_app_l_Some.
  - eapply paired_fail; eauto using lookup_app_l_Some.
  - by constructor.
Qed.

Lemma paired_app h b1 b2 : paired h b1 -> paired h b2 -> paired h (b1 ++ b2).
Proof.
  induction 1; intros Hb2; simpl; auto.
  - eapply paired_done; eauto.
  - eapply paired_fail; eauto.
  - constructor; auto.
Qed.

Lemma finishes_quiet es m m' :
  bus m' = bus m ++ es -> (exists snaps, heap m' = heap m ++ snaps) ->
  Forall (fun e => match e with EvDone _ _ | EvFail _ _ | EvFinish _ _ => False
                           | _ => True end) es ->
  paired (heap m) (bus m) -> paired (heap m') (bus m').
Proof.
  intros Hb (snaps&Hh) Hes H. rewrite Hb, Hh. apply paired_app.
  - by apply paired_heap.
  - clear Hb. induction Hes; constructor; auto.
Qed.

Lemma finishes_reachable production adapter req m :
  reachable production adapter req m -> finishes m.
Proof.
  assert (forall a b : Machine, heap b = heap a ->
            exists snaps, heap b = heap a ++ snaps) as Hsame.
  { intros a b H. exists []. by rewrite app_nil_r. }
  apply reachable_invariant.
  - split; [|constructor]. split; [|split]; simpl; try done.
    intros _. repeat split.
    + intros e He. by apply elem_of_nil in He.
    + intros c v d He. by apply elem_of_nil in He.
  - intros m0 m1 Hpl (L&Hp). split; [by eapply lifecycle_plumbing|].
    destruct Hpl as (_&_&_&_&_&Hb&Hh&_).
    apply (finishes_quiet [] m0); [by rewrite app_nil_r|by apply Hsame|done|done].
  - intros c v m0 (L&Hp). split; [by apply lifecycle_update, lifecycle_bump|].
    apply (finishes_quiet
             [match c with
              | Before => ChangePayload (payload (res m0)) v
              | _ => ChangeResult (result (res m0)) v
              end] m0); [by destruct c|apply Hsame; by destruct c| |done].
    destruct c; by repeat constructor.
  - intros c v m0 (L&Hp). split; [by apply lifecycle_terminal|].
    rewrite terminal_unfold. simpl.
    eapply (finishes_quiet _ m0); [|apply Hsame; by destruct c| |done].
    + apply update_event.
    + destruct c; by repeat constructor.
  - by intros cb m0 H.
  - intros n a m0 (L&Hp). split; [by apply lifecycle_emit|].
    apply (finishes_quiet [EvCustom n a] m0); [done|by apply Hsame| |done].
    by repeat constructor.
  - intros j q m0 Q (L&Hp). split; [by eapply lifecycle_pop|done].
  - intros c v d q m0 Hc Q (L&Hp). split; [by eapply lifecycle_final|].
    assert (pending (res m0) = false) as Hpend.
    { destruct (pending (res m0)) eqn:E; [|done]. destruct L as (L1&_).
      destruct (L1 E) as (_&_&_&L4). destruct Hc. apply (L4 c v d).
      rewrite Q. by left. }
    rewrite final_effect. simpl. apply paired_app; [by apply paired_heap|].
    assert ((heap m0 ++ [res m0; res m0; res m0]) !! length (heap m0) = Some (res m0))
      as H0 by (by rewrite lookup_app_r, Nat.sub_diag by done).
    assert ((heap m0 ++ [res m0; res m0; res m0]) !! S (length (heap m0))
            = Some (res m0)) as H1.
    { rewrite lookup_app_r by lia. by replace (S (length (heap m0)) - length (heap m0)) with 1 by lia. }
    destruct c; [done| |].
    + eapply paired_done; eauto. constructor.
    + eapply paired_fail; eauto. constructor.
  - intros e m0 (L&Hp). split; [by apply lifecycle_emit|].
    apply (finishes_quiet [EvError e] m0); [done|by apply Hsame| |done].
    by repeat constructor.
  - intros d v q m0 Q (L&Hp). split; [apply lifecycle_cancelled|]. cbv zeta.
    destruct (setState_event cancelDiff (set_microtasks q m0)) as (Hb&_&_).
    destruct (setState_heap cancelDiff (set_microtasks q m0)) as (Hh&_).
    remember (setState cancelDiff (set_microtasks q m0)) as m1 eqn:Em1.
    eapply (finishes_quiet _ m0); [| | |done].
    + simpl. rewrite Hb. simpl. by rewrite <- app_assoc.
    + simpl. rewrite Hh. simpl. rewrite <- app_assoc. by eexists.
    + by repeat constructor.
Qed.

(** What [paired] says of one [done] or [fail] on the bus. *)
Lemma paired_elem h b1 e b2 :
  paired h (b1 ++ e :: b2) ->
  forall r l, e = EvDone r l \/ e = EvFail r l ->
  exists s b3, b2 = EvFinish r (S l) :: b3
    /\ h !! l = Some s /\ h !! S l = Some s /\ pending s = false.
Proof.
  revert b1. 
  assert (forall b, paired h b -> forall b1, b = b1 ++ e :: b2 ->
            forall r l, e = EvDone r l \/ e = EvFail r l ->
            exists s b3, b2 = EvFinish r (S l) :: b3
              /\ h !! l = Some s /\ h !! S l = Some s /\ pending s = false) as H.
  { induction 1 as [|r0 l0 s0 b Ha Hb Hc Hp IH|r0 l0 s0 b Ha Hb Hc Hp IH|e0 b He Hp IH];
      intros b1 Eq r l Hcase.
    - by destruct b1.
    - destruct b1 as [|x [|y b1]]; simpl in Eq.
      + injection Eq as <- <-. destruct Hcase as [[= <- <-]|[=]]. eauto 10.
      + injection Eq as _ <- _. by destruct Hcase.
      + injection Eq as _ _ Eq. eapply IH; eauto.
    - destruct b1 as [|x [|y b1]]; simpl in Eq.
      + injection Eq as <- <-. destruct Hcase as [[=]|[= <- <-]]. eauto 10.
      + injection Eq as _ <- _. by destruct Hcase.
      + injection Eq as _ _ Eq. eapply IH; eauto.
    - destruct b1 as [|x b1]; simpl in Eq.
      + injection Eq as <- _. by destruct Hcase as [->| ->].
      + injection Eq as _ Eq. eapply IH; eauto. }
  intros b1 Hp. by eapply H.
Qed.

(** X4. At every point of every request, each event named [done] or
    [fail] on the bus, unless the adapter sent it itself through the
    [emit] it is handed, is the engine's and is directly followed by the
    engine's [finish] with the same result; the two events carry separate
    snapshots with the same fields, and in them [pending] is false. *)
Theorem finish_follows_done_and_fail production adapter req fuel inputs p m b1 e b2 :
  session production adapter req fuel inputs = Some (p, m) ->
  bus m = b1 ++ e :: b2 ->
  event_name e = "done"%string \/ event_name e = "fail"%string ->
  by_adapter e
  \/ exists r l s b3,
        (e = EvDone r l \/ e = EvFail r l)
        /\ b2 = EvFinish r (S l) :: b3
        /\ heap m !! l = Some s /\ heap m !! S l = Some s /\ pending s = false.
Proof.
  intros H Hb He. apply session_reachable, finishes_reachable in H as (_&Hp).
  rewrite Hb in Hp.
  destruct e as [| | |r l|r l| | | |n a]; simpl in He;
    try (by destruct He as [He|He]; discriminate He).
  - right. destruct (paired_elem _ _ _ _ Hp r l (or_introl eq_refl))
      as (s&b3&Eq&H0&H1&H2).
    exists r, l, s, b3. auto.
  - right. destruct (paired_elem _ _ _ _ Hp r l (or_intror eq_refl))
      as (s&b3&Eq&H0&H1&H2).
    exists r, l, s, b3. auto.
  - by left.
Qed.

(** The adapter rejects at once, having sent an event named [fail]
    itself: the engine's [fail] is followed by [finish]. *)
Lemma finish_follows_done_and_fail_witness :
  exists m s,
    session false
      (mkAdapter (fun _ _ _ =>
                    mkAdapterBody [AEmit "fail" (VStr "mine"); AReject (VStr "no")]
                      RetPlain) None None)
      (plain VNull a1) 1 (repeat ITick 8) = Some (0, m)
    /\ bus m = [ChangePayload (VObj []) a1; EvCustom "fail" (VStr "mine");
                ChangeResult VNull (VStr "no")]
               ++ EvFail (VStr "no") 0 :: [EvFinish (VStr "no") 1]
    /\ heap m !! 0 = Some s /\ heap m !! 1 = Some s /\ pending s = false.
Proof.
  destruct (session false
              (mkAdapter (fun _ _ _ =>
                            mkAdapterBody [AEmit "fail" (VStr "mine"); AReject (VStr "no")]
                              RetPlain) None None)
              (plain VNull a1) 1 (repeat ITick 8))
    as [[p m]|] eqn:E0; [|vm_compute in E0; discriminate E0].
  assert (p = 0
          /\ bus m = [ChangePayload (VObj []) a1; EvCustom "fail" (VStr "mine");
                      ChangeResult VNull (VStr "no")]
                     ++ EvFail (VStr "no") 0 :: [EvFinish (VStr "no") 1])
    as (->&Hb).
  { clear -E0. vm_compute in E0. injection E0 as <- <-. by split. }
  destruct (finish_follows_done_and_fail _ _ _ _ _ _ _ _ _ _ E0 Hb)
    as [Hc|(r&l&s&b3&He&Eq&H0&H1&Hp)]; [by right|destruct Hc|].
  assert (l = 0) as -> by (by destruct He as [[=]|[= _ <-]]).
  exists m, s. split; [reflexivity|]. split; [exact Hb|].
  split; [exact H0|]. split; [exact H1|exact Hp].
Defined.

(** ** The adapter waits for the before-chain *)

Lemma adapterRuns_app t1 t2 : adapterRuns (t1 ++ t2) = adapterRuns t1 + adapterRuns t2.
Proof. induction t1 as [|[] t1 IH]; simpl; auto. Qed.

Lemma adapterRuns_elem a r body tr : AdapterCallback a r body ∈ tr -> adapterRuns tr <> 0.
Proof.
  intros (t1&t2&->)%list_elem_of_split. rewrite adapterRuns_app. simpl. lia.
Qed.

Section BeforeFirst.

Variable production : bool.
Variable adapter : Adapter.
Variable req : Request.

Lemma gated_frame k k' m m' :
  idx_before m <= idx_before m' ->
  (exists cs, trace m' = trace m ++ cs /\ adapterRuns cs = 0) ->
  (forall v d, JFinal Before v d ∈ microtasks m' -> JFinal Before v d ∈ microtasks m) ->
  (called_below req k m -> called_below req k' m') ->
  gated req k m -> gated req k' m'.
Proof.
  intros Hi (cs&Ht&Hcs) Hq Hc (C&Q&T). split; [by apply Hc|]. split.
  - intros v d Hin. specialize (Q v d (Hq v d Hin)). lia.
  - rewrite Ht, adapterRuns_app, Hcs, Nat.add_0_r. intros H. specialize (T H). lia.
Qed.

Lemma called_below_ext k m m' :
  (exists cs, trace m' = trace m ++ cs) ->
  called_below req k m -> called_below req k m'.
Proof.
  intros (cs&Ht) C i Hi Hk. destruct (C i Hi Hk) as (ctx&Hin). exists ctx.
  rewrite Ht. apply elem_of_app. by left.
Qed.

Lemma gated_plumbing k m m' :
  plumbing m m' -> trace m' = trace m -> gated req k m -> gated req k m'.
Proof.
  intros (_&Hi&_&_&_&_&_&(js&Hq&Hjs)&_) Ht. apply gated_frame.
  - by rewrite Hi.
  - exists []. by rewrite app_nil_r.
  - intros v d. rewrite Hq. intros [H|H]%elem_of_app; [done|].
    rewrite Forall_forall in Hjs. by destruct (Hjs _ H).
  - apply called_below_ext. exists []. by rewrite app_nil_r.
Qed.

Lemma gated_step m m' :
  plumbing m m' -> trace m' = trace m ->
  gated req (S (idx_before m)) m -> gated req (S (idx_before m')) m'.
Proof.
  intros Hpl Ht. pose proof Hpl as (_&->&_). by apply gated_plumbing.
Qed.

Lemma resolveWith_trace p q m : trace (resolveWith p q m) = trace m.
Proof. unfold resolveWith. by destruct (alreadyResolved _). Qed.

Lemma rejectWith_trace p e m : trace (rejectWith p e m) = trace m.
Proof. unfold rejectWith. destruct (alreadyResolved _); [done|apply settle_trace]. Qed.

Lemma subscribe_trace q r m : trace (subscribe q r m) = trace m.
Proof. unfold subscribe. by destruct (pst _). Qed.

Lemma tryResolve_gated c p q m :
  gated req (S (idx_before m)) m ->
  gated req (S (idx_before (tryResolve production c p q m)))
    (tryResolve production c p q m).
Proof.
  destruct (tryResolve_frame production c p q m) as (_&_&Ht&Hi&_).
  specialize (Hi Before). simpl in Hi. rewrite Hi.
  apply gated_plumbing; [apply plumbing_tryResolve|done].
Qed.

Lemma gated_weaken k k' m : k' <= k -> gated req k m -> gated req k' m.
Proof.
  intros Hk (C&Q&T). split; [|done]. intros i Hi Hlt. apply C; [done|lia].
Qed.

Lemma terminal_gated c v m :
  hooks req c !! idx c m = None ->
  gated req (match c with Before => idx_before m | _ => S (idx_before m) end) m ->
  gated req (S (idx_before (snd (terminal c v m)))) (snd (terminal c v m)).
Proof.
  intros Hh (C&Q&T). apply lookup_ge_None in Hh. rewrite terminal_unfold. simpl.
  assert (idx_before (update c v m) = idx_before m) as Hi by (by destruct c).
  assert (trace (update c v m) = trace m) as Ht by (by destruct c).
  assert (microtasks (update c v m) = microtasks m) as Hq by (by destruct c).
  split; [|split]; simpl; rewrite ?Hi, ?Ht, ?Hq.
  - destruct c; [|done..]. intros i Hl _. apply C; [done|]. simpl in Hh. lia.
  - intros v' d' [H|H]%elem_of_app; [by apply (Q v' d')|].
    apply list_elem_of_singleton in H. injection H as <- _ _. exact Hh.
  - done.
Qed.

Section Open.

Variable run : chain -> value -> Machine -> option (nat * Machine).
Hypothesis run_gated : forall c v m q m',
  run c v m = Some (q, m') ->
  gated req (match c with Before => idx_before m | _ => S (idx_before m) end) m ->
  gated req (S (idx_before m')) m'.

Lemma invoke_gated c s cap v m r m' :
  invoke production run c s (cap, v) m = Some (r, m') ->
  gated req (S (idx_before m)) m -> gated req (S (idx_before m')) m'.
Proof using run_gated.
  unfold invoke. intros H G. destruct (available c cap); [|by injection H as _ <-].
  remember (match cap with cap_next => update c v (bump c m) | _ => m end) as m1 eqn:Em1.
  assert (gated req (match target c cap with
                     | Before => idx_before m1
                     | _ => S (idx_before m1)
                     end) m1) as G1.
  { subst m1. destruct cap; simpl.
    - destruct c; simpl;
        (apply (gated_frame (S (idx_before m)) _ m);
         [simpl; lia|exists []; by rewrite app_nil_r|done|intros C; exact C|exact G]).
    - done.
    - done.
    - by apply (gated_weaken (S (idx_before m))); [lia|]. }
  destruct (run _ _ _) as [[q m2]|] eqn:E; [|done]. injection H as _ <-.
  apply run_gated in E; [|done]. by apply tryResolve_gated.
Qed.

Lemma runCalls_gated c s cs m r m' :
  runCalls production run c s cs m = Some (r, m') ->
  gated req (S (idx_before m)) m -> gated req (S (idx_before m')) m'.
Proof using run_gated.
  revert m. induction cs as [|[cap v] cs IH]; simpl; intros m H G.
  - by injection H as _ <-.
  - destruct (invoke _ _ _ _ _ _) as [[[e|] m1]|] eqn:E; [| |done].
    + injection H as _ <-. by eapply invoke_gated.
    + eapply IH; [exact H|]. by eapply invoke_gated.
Qed.

Lemma adapterCall_gated inner a m m' :
  adapterCall run inner a m = Some m' ->
  gated req (S (idx_before m)) m -> gated req (S (idx_before m')) m'.
Proof using run_gated.
  unfold adapterCall. intros H G. destruct a.
  - destruct (run _ _ _) as [[q m1]|] eqn:E; [|done]. injection H as <-.
    apply run_gated in E; [|done].
    apply (gated_step m1); [apply plumbing_resolveWith|apply resolveWith_trace|done].
  - destruct (run _ _ _) as [[q m1]|] eqn:E; [|done]. injection H as <-.
    apply run_gated in E; [|done].
    apply (gated_step m1); [apply plumbing_resolveWith|apply resolveWith_trace|done].
  - by injection H as <-.
  - by injection H as <-.
Qed.

Lemma adapterCalls_gated inner cs m m' :
  adapterCalls run inner cs m = Some m' ->
  gated req (S (idx_before m)) m -> gated req (S (idx_before m')) m'.
Proof using run_gated.
  revert m. induction cs as [|a cs IH]; simpl; intros m H G.
  - by injection H as <-.
  - destruct (adapterCall _ _ _ _) as [m1|] eqn:E; [|done].
    eapply IH; [exact H|]. by eapply adapterCall_gated.
Qed.

Lemma doRequest_gated v m q m' :
  doRequest adapter run v m = Some (q, m') ->
  length (hooks req Before) <= idx_before m ->
  gated req (S (idx_before m)) m -> gated req (S (idx_before m')) m'.
Proof using run_gated.
  rewrite doRequest_unfold. cbv zeta. intros H Hlen (C&Q&T).
  assert (forall m1 x, gated req (S (idx_before m1)) m1 ->
            plumbing m1 x -> trace x = trace m1 ->
            gated req (S (idx_before
                           (subscribe (length (promises m))
                              (RCatchError (length (promises x)))
                              (snd (newCell KCaught x)))))
              (subscribe (length (promises m)) (RCatchError (length (promises x)))
                 (snd (newCell KCaught x)))) as Hx.
  { intros m1 x G1 Hpl Ht. apply (gated_step m1); [| |done].
    - eapply plumbing_trans; [exact Hpl|].
      eapply plumbing_trans; [apply plumbing_newCell with (k := KCaught)|].
      apply plumbing_subscribe.
    - by rewrite subscribe_trace. }
  assert (forall c, gated req (S (idx_before m)) (record c (snd (newCell KRequest m))))
    as G0.
  { intros c. split; [|split]; simpl; try done.
    intros i Hi Hk. destruct (C i Hi Hk) as (ctx&Hin). exists ctx.
    apply elem_of_app. by left. }
  destruct (convert_result adapter v) as [arg|e0].
  - destruct (adapterCalls _ _ _ _) as [m1|] eqn:E; [|done]. injection H as _ <-.
    apply adapterCalls_gated in E; [|apply G0].
    apply (Hx m1); [done|apply plumbing_afterCallback|apply afterCallback_trace].
  - injection H as _ <-.
    apply (Hx (record (ConvertThrow v e0) (snd (newCell KRequest m))));
      [apply G0|apply plumbing_rejectWith|apply rejectWith_trace].
Qed.

End Open.

Lemma withPayload_gated fuel c v m q m' :
  withPayload production req fuel c v m = Some (q, m') ->
  gated req (match c with Before => idx_before m | _ => S (idx_before m) end) m ->
  gated req (S (idx_before m')) m'.
Proof.
  revert c v m q m'. induction fuel as [|fuel IH]; [done|].
  intros c v m q m' H G. rewrite withPayload_unfold in H.
  destruct (hooks req c !! idx c m) as [hook|] eqn:Hh.
  - cbv zeta in H.
    destruct (runCalls _ _ _ _ _ _) as [[thrown m1]|] eqn:E; [|done].
    apply (runCalls_gated _ IH) in E.
    + destruct (from_option _ _ _); injection H as _ <-; [|done].
      apply (gated_step m1); [apply plumbing_rejectWith|apply rejectWith_trace|done].
    + destruct G as (C&Q&T). split; [|split]; simpl.
      * intros i Hi Hk. destruct c.
        -- destruct (decide (i = idx_before m)) as [->|Hne].
           ++ eexists. apply elem_of_app. right. by left.
           ++ destruct (C i Hi) as (ctx&Hin); [lia|]. exists ctx.
              apply elem_of_app. by left.
        -- destruct (C i Hi Hk) as (ctx&Hin). exists ctx. apply elem_of_app. by left.
        -- destruct (C i Hi Hk) as (ctx&Hin). exists ctx. apply elem_of_app. by left.
      * done.
      * by rewrite adapterRuns_app, Nat.add_0_r.
  - assert (terminal c v m = (q, m')) as Ht by congruence.
    pose proof (terminal_gated c v m Hh G) as G'. by rewrite Ht in G'.
Qed.

Lemma perform_gated fuel i m m' :
  perform production adapter req fuel i m = Some m' ->
  gated req (S (idx_before m)) m -> gated req (S (idx_before m')) m'.
Proof.
  intros H G. destruct i as [| |c p cap v|inner a|inner e]; simpl in H.
  - destruct (microtasks m) as [|j q] eqn:Q; [by injection H as <-|].
    assert (gated req (S (idx_before m)) (set_microtasks q m)) as G0.
    { destruct G as (C&Qd&T). split; [done|]. split; [|done].
      intros v d Hin. apply (Qd v d). rewrite Q. by right. }
    assert (forall x, plumbing (set_microtasks q m) x ->
                      trace x = trace (set_microtasks q m) ->
                      gated req (S (idx_before x)) x) as Hx.
    { intros x Hpl Ht. by apply (gated_step (set_microtasks q m)). }
    destruct j as [c v d|p q'|r o|d o|p e]; unfold runJob in H.
    + destruct c.
      * destruct (doRequest _ _ _ _) as [[q' m1]|] eqn:E; [|done]. injection H as <-.
        apply (doRequest_gated _ (withPayload_gated fuel)) in E; [| |done].
        -- apply (gated_step m1);
             [apply plumbing_resolveWith|apply resolveWith_trace|done].
        -- destruct G as (_&Qd&_). apply (Qd v d). rewrite Q. by left.
      * rewrite final_effect in H. injection H as <-.
        match goal with
        | |- context [settle ?a ?b ?x] =>
            apply (gated_step x); [apply plumbing_settle|apply settle_trace|]
        end.
        apply (gated_frame (S (idx_before m)) _ (set_microtasks q m));
          [simpl; lia|exists []; by rewrite app_nil_r|done|intros C; exact C|exact G0].
      * rewrite final_effect in H. injection H as <-.
        match goal with
        | |- context [settle ?a ?b ?x] =>
            apply (gated_step x); [apply plumbing_settle|apply settle_trace|]
        end.
        apply (gated_frame (S (idx_before m)) _ (set_microtasks q m));
          [simpl; lia|exists []; by rewrite app_nil_r|done|intros C; exact C|exact G0].
    + injection H as <-. apply Hx; [apply plumbing_subscribe|apply subscribe_trace].
    + assert (exists x y, m' = settle x y
                (match r, o with
                 | RCatchError _, Rejected e => throwError e (set_microtasks q m)
                 | _, _ => set_microtasks q m
                 end)) as (x&y&->)
        by (destruct r, o; injection H as <-; by eexists _, _).
      match goal with
      | |- context [settle ?a ?b ?z] =>
          apply (gated_step z); [apply plumbing_settle|apply settle_trace|]
      end.
      by destruct r, o.
    + destruct o as [v|e].
      * destruct (setState_event cancelDiff (set_microtasks q m)) as (_&_&Hr).
        destruct (setState_heap cancelDiff (set_microtasks q m)) as (_&Ht).
        assert (idx_before (setState cancelDiff (set_microtasks q m)) = idx_before m
                /\ microtasks (setState cancelDiff (set_microtasks q m)) = q)
          as (Hi&Hq) by done.
        remember (setState cancelDiff (set_microtasks q m)) as m1 eqn:Em1.
        unfold pickState in H. injection H as <-.
        match goal with
        | |- context [settle ?a ?b ?x] =>
            apply (gated_step x); [apply plumbing_settle|apply settle_trace|]
        end.
        simpl. rewrite Hi.
        apply (gated_frame (S (idx_before m)) _ (set_microtasks q m));
          [|exists []; rewrite app_nil_r; simpl; by rewrite Ht
           |simpl; by rewrite Hq| |exact G0].
        -- simpl. lia.
        -- intros C i Hl Hk. simpl. rewrite Ht. by apply C.
      * injection H as <-. apply Hx; [apply plumbing_settle|apply settle_trace].
    + injection H as <-. apply Hx; [apply plumbing_rejectWith|apply rejectWith_trace].
  - unfold cancel in H.
    assert (gated req (S (idx_before m)) (record (CancelCall (cancelCallback m)) m))
      as G0.
    { apply (gated_frame (S (idx_before m)) _ m);
        [simpl; lia|by eexists|done| |exact G].
      apply called_below_ext. by eexists. }
    destruct (adapterCalls _ _ _ _) as [m1|] eqn:E; [|done]. injection H as <-.
    apply (adapterCalls_gated _ (withPayload_gated fuel)) in E; [|exact G0].
    apply (gated_step m1);
      [apply plumbing_afterCancelCallback|apply afterCancelCallback_trace|done].
  - destruct (ckind (cell_at p m)); try done. destruct (promises m !! p); [|done].
    case_bool_decide; [|done].
    destruct (invoke _ _ _ _ _ _) as [[r m1]|] eqn:E; [|done]. injection H as <-.
    eapply (invoke_gated _ (withPayload_gated fuel)); eauto.
  - destruct (ckind (cell_at inner m)); try done.
    destruct (promises m !! inner); [|done].
    eapply (adapterCall_gated _ (withPayload_gated fuel)); eauto.
  - destruct (ckind (cell_at inner m)); try done.
    destruct (promises m !! inner); [|done]. injection H as <-.
    apply (gated_step m); [by apply plumbing_enqueue|done|done].
Qed.

Lemma reachable_gated m :
  reachable production adapter req m -> gated req (S (idx_before m)) m.
Proof.
  induction 1 as [fuel p m H|fuel i m m' _ IH H].
  - unfold apicase in H. apply withPayload_gated in H; [done|].
    split; [|split]; simpl.
    + intros i _ Hi. lia.
    + intros v d Hin. by apply elem_of_nil in Hin.
    + done.
  - by eapply perform_gated.
Qed.

End BeforeFirst.

(** X5. The adapter is called only after the before-chain: at every
    point of every request, if [adapter.callback] has been called, the
    cursor of the before-chain is past its last hook and every before-hook
    has been called. *)
Theorem adapter_waits_for_before_hooks production adapter req fuel inputs p m a r body :
  session production adapter req fuel inputs = Some (p, m) ->
  AdapterCallback a r body ∈ trace m ->
  length (hooks req Before) <= idx Before m
  /\ forall i, i < length (hooks req Before) ->
       exists ctx, HookCall Before i ctx ∈ trace m.
Proof.
  intros H Hin. apply session_reachable in H.
  destruct (reachable_gated production adapter req m H) as (C&_&T).
  pose proof (T (adapterRuns_elem _ _ _ _ Hin)) as Hlen. split; [exact Hlen|].
  intros i Hi. apply (C i Hi). simpl in Hlen. lia.
Qed.

Lemma adapter_waits_for_before_hooks_witness :
  exists m ctx,
    session false (resolves (VStr "ok")) (mkRequest VNull a1 [passes] [] [] false)
      3 (repeat ITick 12) = Some (0, m)
    /\ AdapterCallback a1 VNull (mkAdapterBody [AResolve (VStr "ok")] RetPlain)
         ∈ trace m
    /\ 1 <= idx Before m
    /\ HookCall Before 0 ctx ∈ trace m.
Proof.
  destruct (session false (resolves (VStr "ok"))
              (mkRequest VNull a1 [passes] [] [] false) 3 (repeat ITick 12))
    as [[p m]|] eqn:E0; [|vm_compute in E0; discriminate E0].
  assert (p = 0
          /\ AdapterCallback a1 VNull (mkAdapterBody [AResolve (VStr "ok")] RetPlain)
               ∈ trace m) as (->&Hin).
  { clear -E0. vm_compute in E0. injection E0 as <- <-. split; [reflexivity|].
    simpl. right. left. }
  destruct (adapter_waits_for_before_hooks _ _ _ _ _ _ _ _ _ _ E0 Hin) as (Hlen&Hall).
  destruct (Hall 0) as (ctx&Hctx); [unfold hooks; simpl; lia|].
  exists m, ctx. split; [reflexivity|]. split; [exact Hin|]. split; [exact Hlen|exact Hctx].
Defined.

(** ** A throw after the adapter has settled *)

Section Swallowed.

Variable production : bool.
Variable req : Request.

Lemma cell_at_set_cell p c m :
  p < length (promises m) -> cell_at p (set_cell p c m) = c.
Proof. intros Hp. unfold cell_at. simpl. by rewrite list_lookup_insert_eq. Qed.

Lemma resolveWith_locks p q m :
  p < length (promises m) ->
  alreadyResolved (cell_at p (resolveWith p q m)) = true
  /\ pst (cell_at p (resolveWith p q m)) = pst (cell_at p m)
  /\ ckind (cell_at p (resolveWith p q m)) = ckind (cell_at p m)
  /\ length (promises (resolveWith p q m)) = length (promises m).
Proof.
  intros Hp. unfold resolveWith.
  destruct (alreadyResolved (cell_at p m)) eqn:Ha; [done|].
  match goal with
  | |- context [enqueue ?j (set_cell p ?c m)] =>
      change (cell_at p (enqueue j (set_cell p c m))) with (cell_at p (set_cell p c m));
      rewrite (cell_at_set_cell p c m Hp)
  end.
  simpl. by rewrite length_insert.
Qed.

Lemma adapterCall_locked fuel inner a m m' :
  adapterCall (withPayload production req fuel) inner a m = Some m' ->
  inner < length (promises m) ->
  inner < length (promises m')
  /\ pst (cell_at inner m') = pst (cell_at inner m)
  /\ ckind (cell_at inner m') = ckind (cell_at inner m)
  /\ (alreadyResolved (cell_at inner m) = true \/ settling_call a = true ->
      alreadyResolved (cell_at inner m') = true).
Proof.
  unfold adapterCall. intros H Hin.
  assert (forall c r m1 q, withPayload production req fuel c r m = Some (q, m1) ->
            inner < length (promises m1) /\ cell_at inner m1 = cell_at inner m) as Hrun.
  { intros c r m1 q E.
    apply (withPayload_apart production req fuel (length (promises m))) in E
      as (Hl&Hsame&_); [|done].
    split; [lia|]. unfold cell_at. by rewrite Hsame. }
  destruct a; simpl.
  - destruct (withPayload _ _ _ _ _ _) as [[q m1]|] eqn:E; [|done]. injection H as <-.
    destruct (Hrun _ _ _ _ E) as (Hl&Hc).
    destruct (resolveWith_locks inner q m1 Hl) as (Ha&Hp&Hk&Hlen).
    rewrite Hp, Hk, Hlen, Hc. auto.
  - destruct (withPayload _ _ _ _ _ _) as [[q m1]|] eqn:E; [|done]. injection H as <-.
    destruct (Hrun _ _ _ _ E) as (Hl&Hc).
    destruct (resolveWith_locks inner q m1 Hl) as (Ha&Hp&Hk&Hlen).
    rewrite Hp, Hk, Hlen, Hc. auto.
  - injection H as <-. repeat split; try done. by intros [?|?].
  - injection H as <-. repeat split; try done. by intros [?|?].
Qed.

Lemma adapterCalls_locked fuel inner cs m m' :
  adapterCalls (withPayload production req fuel) inner cs m = Some m' ->
  inner < length (promises m) ->
  inner < length (promises m')
  /\ pst (cell_at inner m') = pst (cell_at inner m)
  /\ ckind (cell_at inner m') = ckind (cell_at inner m)
  /\ (alreadyResolved (cell_at inner m) = true
      \/ (exists a, a ∈ cs /\ settling_call a = true) ->
      alreadyResolved (cell_at inner m') = true).
Proof.
  revert m. induction cs as [|a cs IH]; simpl; intros m H Hin.
  - injection H as <-. repeat split; try done.
    intros [?|(a&Ha&_)]; [done|]. by apply elem_of_nil in Ha.
  - destruct (adapterCall _ _ _ _) as [m1|] eqn:E; [|done].
    apply adapterCall_locked in E as (L1&P1&K1&A1); [|done].
    apply IH in H as (L2&P2&K2&A2); [|done].
    split; [done|]. split; [congruence|]. split; [congruence|].
    intros [Ha|(a'&[->|Hin']%elem_of_cons&Hs)]; apply A2; auto.
    right. by exists a'.
Qed.

End Swallowed.

Lemma subscribe_pending q r m c rs :
  promises m !! q = Some c -> pst c = Pending rs ->
  promises (subscribe q r m) !! q
  = Some (mkCell (ckind c) (Pending (rs ++ [r])) (alreadyResolved c) (isResolved c)).
Proof.
  intros Hc Hp. unfold subscribe. rewrite (cell_at_lookup _ _ _ Hc), Hp. simpl.
  apply list_lookup_insert_eq. by eapply lookup_lt_Some.
Qed.

(** X6. When [adapter.callback] has called [resolve] or [reject] and
    then throws, the throw is swallowed: the [reject(err)] of the [catch]
    block finds the promise resolved and does nothing, so [doRequest]
    leaves exactly what a normal return would have left.  Its promise
    stays pending, locked onto the chain the adapter settled with, and no
    [error] event is emitted for the throw.  (The callback is called:
    [convert], if there is one, has returned.) *)
Theorem throw_after_settle_is_swallowed production adapter req fuel v m q m' e :
  (forall x, convert_result adapter v <> Throws x) ->
  doRequest adapter (withPayload production req fuel) v m = Some (q, m') ->
  aret (callback adapter (adapterRuns (trace m)) (converted adapter v) (result (res m)))
    = RetThrow e ->
  (exists a,
     a ∈ acalls (callback adapter (adapterRuns (trace m)) (converted adapter v)
                   (result (res m)))
     /\ settling_call a = true) ->
  exists m1,
    adapterCalls (withPayload production req fuel) (length (promises m))
      (acalls (callback adapter (adapterRuns (trace m)) (converted adapter v)
                 (result (res m))))
      (record (AdapterCallback (converted adapter v) (result (res m))
                 (callback adapter (adapterRuns (trace m)) (converted adapter v)
                    (result (res m))))
         (snd (newCell KRequest m))) = Some m1
    /\ rejectWith (length (promises m)) e m1 = m1
    /\ m' = subscribe (length (promises m)) (RCatchError q) (snd (newCell KCaught m1))
    /\ bus m' = bus m1
    /\ exists c, promises m' !! length (promises m) = Some c
         /\ ckind c = KRequest /\ pst c = Pending [RCatchError q]
         /\ alreadyResolved c = true.
Proof.
  rewrite doRequest_unfold. cbv zeta. unfold converted. intros Hconv H Hret Hcall.
  destruct (convert_result adapter v) as [arg|x]; [|by destruct (Hconv x)].
  destruct (adapterCalls _ _ _ _) as [m1|] eqn:E; [|done].
  rewrite Hret in H.
  pose proof E as E'. apply adapterCalls_locked in E' as (L&P&K&A);
    [|simpl; rewrite length_app; simpl; lia].
  specialize (A (or_intror Hcall)).
  assert (rejectWith (length (promises m)) e m1 = m1) as Hrej
    by (unfold rejectWith; by rewrite A).
  simpl in H. rewrite Hrej in H. injection H as <- <-.
  exists m1. split; [done|]. split; [done|]. split; [done|].
  assert (cell_at (length (promises m))
            (record (AdapterCallback arg (result (res m))
                       (callback adapter (adapterRuns (trace m)) arg (result (res m))))
               (snd (newCell KRequest m)))
          = mkCell KRequest (Pending []) false false) as Hnew.
  { unfold cell_at. simpl. rewrite lookup_app_r by done. by rewrite Nat.sub_diag. }
  rewrite Hnew in P, K. simpl in P, K.
  assert (promises (snd (newCell KCaught m1)) !! length (promises m)
          = Some (cell_at (length (promises m)) m1)) as Hc.
  { simpl. rewrite lookup_app_l by done. unfold cell_at.
    destruct (promises m1 !! length (promises m)) eqn:El; [done|].
    apply lookup_ge_None in El. lia. }
  split.
  - match goal with
    | |- bus (subscribe ?a ?b ?x) = _ =>
        by destruct (plumbing_subscribe a b x) as (_&_&_&_&_&->&_)
    end.
  - eexists. split; [by eapply subscribe_pending|]. simpl. by rewrite K, A.
Qed.

Lemma throw_after_settle_is_swallowed_witness :
  exists m0 q m' c,
    apicase false (settles_then_throws true (VStr "ok") (VStr "boom"))
      (plain VNull a1) 1 = Some (0, m0)
    /\ doRequest (settles_then_throws true (VStr "ok") (VStr "boom"))
         (withPayload false (plain VNull a1) 1) a1 m0 = Some (q, m')
    /\ promises m' !! length (promises m0) = Some c
    /\ pst c = Pending [RCatchError q]
    /\ alreadyResolved c = true.
Proof.
  destruct (apicase false (settles_then_throws true (VStr "ok") (VStr "boom"))
              (plain VNull a1) 1) as [[p m0]|] eqn:E0;
    [|vm_compute in E0; discriminate E0].
  destruct (doRequest (settles_then_throws true (VStr "ok") (VStr "boom"))
              (withPayload false (plain VNull a1) 1) a1 m0) as [[q m']|] eqn:E1;
    [|vm_compute in E0; injection E0 as <- <-; vm_compute in E1; discriminate E1].
  destruct (throw_after_settle_is_swallowed false
              (settles_then_throws true (VStr "ok") (VStr "boom")) (plain VNull a1)
              1 a1 m0 q m' (VStr "boom"))
    as (m1&_&_&_&_&c&Hc&_&Hp&Ha).
  - clear. intros x. discriminate.
  - exact E1.
  - reflexivity.
  - exists (AResolve (VStr "ok")). split; [|reflexivity]. simpl. left.
  - assert (p = 0) as -> by (clear -E0; vm_compute in E0; by injection E0 as <- _).
    exists m0, q, m', c. split; [reflexivity|]. split; [exact E1|].
    split; [exact Hc|]. split; [exact Hp|exact Ha].
Defined.

(** ** The fatal path *)

(** X7. The fatal path leaves the handle pending.  With no hooks and an
    adapter whose callback throws [e] at once, or returns a thenable that
    rejects with [e], before calling [resolve] or [reject]: whatever the
    mode, the payload, the meta data, [convert] and [createState], the
    request comes to rest with the completion promise rejected with [e]
    and with exactly one [error] event after the [change:payload] of the
    before-chain; no [done], [fail] or [finish] is emitted and the state
    still reads [pending: true, success: false, cancelled: false]. *)
Theorem fatal_path_leaves_pending production conv cs meta0 payload0 e (thenable : bool) :
  exists m,
    session production
      (mkAdapter (fun _ _ _ =>
                    mkAdapterBody []
                      (if thenable then RetThenable (Some e) else RetThrow e))
         conv cs)
      (plain meta0 payload0) 1 (repeat ITick 10) = Some (0, m)
    /\ microtasks m = []
    /\ settled 0 m = Some (Rejected e)
    /\ bus m = [ChangePayload (VObj []) payload0; EvError e]
    /\ res m = mkState false true false payload0 (default VNull cs) meta0.
Proof.
  destruct thenable, production, conv as [f|], cs as [s|];
    (eexists; split; [vm_compute; reflexivity|]); by repeat split.
Qed.

(** ** Properties kept along the record of calls *)

Lemma settle_console p o m : console (settle p o m) = console m.
Proof. unfold settle. by destruct (pst _). Qed.

Lemma subscribe_console q r m : console (subscribe q r m) = console m.
Proof. unfold subscribe. by destruct (pst _). Qed.

Lemma resolveWith_console p q m : console (resolveWith p q m) = console m.
Proof. unfold resolveWith. by destruct (alreadyResolved _). Qed.

Lemma rejectWith_console p e m : console (rejectWith p e m) = console m.
Proof. unfold rejectWith. destruct (alreadyResolved _); [done|apply settle_console]. Qed.

Section Traced.

Variable production : bool.
Variable adapter : Adapter.
Variable req : Request.
Variable R : Machine -> Machine -> Prop.

Hypothesis R_refl : forall m, R m m.
Hypothesis R_trans : forall a b c, R a b -> R b c -> R a c.
Hypothesis R_quiet : forall m m',
  plumbing m m' -> trace m' = trace m -> console m' = console m -> R m m'.
Hypothesis R_tryResolve : forall c p q m, R m (tryResolve production c p q m).
Hypothesis R_next : forall c v m, R m (update c v (bump c m)).
Hypothesis R_terminal : forall c v m,
  hooks req c !! idx c m = None -> R m (snd (terminal c v m)).
Hypothesis R_hook : forall c v m h,
  hooks req c !! idx c m = Some h ->
  R m (record (HookCall c (idx c m) (createContext req c v m))
         (snd (newCell (KStep c) m))).
Hypothesis R_adapter : forall a r body m, R m (record (AdapterCallback a r body) m).
Hypothesis R_convert : forall v e m, R m (record (ConvertThrow v e) m).

Section Open.

Variable run : chain -> value -> Machine -> option (nat * Machine).
Hypothesis run_R : forall c v m q m', run c v m = Some (q, m') -> R m m'.

Lemma invoke_traced c p cv m r m' :
  invoke production run c p cv m = Some (r, m') -> R m m'.
Proof using R_refl R_trans R_tryResolve R_next run_R.
  destruct cv as [cap v]. unfold invoke.
  destruct (available c cap); [|intros [= _ <-]; apply R_refl].
  destruct (run _ _ _) as [[q m1]|] eqn:E; [|done].
  intros [= _ <-]. apply run_R in E.
  eapply R_trans; [|apply R_tryResolve].
  destruct cap; try exact E; eapply R_trans; [apply R_next|exact E].
Qed.

Lemma runCalls_traced c p cs m r m' :
  runCalls production run c p cs m = Some (r, m') -> R m m'.
Proof using R_refl R_trans R_tryResolve R_next run_R.
  revert m. induction cs as [|cv cs IH]; simpl; intros m.
  - intros [= _ <-]. apply R_refl.
  - destruct (invoke _ _ _ _ _ _) as [[[e|] m1]|] eqn:E; [| |done].
    + intros [= _ <-]. eapply invoke_traced, E.
    + intros H. eapply R_trans; [eapply invoke_traced, E|eapply IH, H].
Qed.

Hypothesis R_setCancelCallback : forall cb m, R m (set_cancelCallback cb m).
Hypothesis R_emit_custom : forall n a m, R m (emit (EvCustom n a) m).

Lemma adapterCall_traced inner a m m' :
  adapterCall run inner a m = Some m' -> R m m'.
Proof using R_refl R_trans R_quiet run_R R_setCancelCallback R_emit_custom.
  destruct a; unfold adapterCall.
  - destruct (run _ _ _) as [[q m1]|] eqn:E; [|done]. intros [= <-].
    eapply R_trans; [eapply run_R, E|].
    apply R_quiet;
      [apply plumbing_resolveWith|apply resolveWith_trace|apply resolveWith_console].
  - destruct (run _ _ _) as [[q m1]|] eqn:E; [|done]. intros [= <-].
    eapply R_trans; [eapply run_R, E|].
    apply R_quiet;
      [apply plumbing_resolveWith|apply resolveWith_trace|apply resolveWith_console].
  - intros [= <-].
    eapply R_trans; [|apply R_setCancelCallback].
    apply R_quiet; [apply plumbing_set_cancelOwner|done|done].
  - intros [= <-]. apply R_emit_custom.
Qed.

Lemma adapterCalls_traced inner cs m m' :
  adapterCalls run inner cs m = Some m' -> R m m'.
Proof using R_refl R_trans R_quiet run_R R_setCancelCallback R_emit_custom.
  revert m. induction cs as [|a cs IH]; simpl; intros m.
  - intros [= <-]. apply R_refl.
  - destruct (adapterCall _ _ _ _) as [m1|] eqn:E; [|done].
    intros H. eapply R_trans; [eapply adapterCall_traced, E|eapply IH, H].
Qed.

Lemma afterCallback_console inner r m :
  console (afterCallback inner r m) = console m.
Proof.
  destruct r as [|e|[e|]|]; simpl; try done; apply rejectWith_console.
Qed.

Lemma doRequest_traced v m q m' :
  doRequest adapter run v m = Some (q, m') -> R m m'.
Proof using R_refl R_trans R_quiet R_adapter R_convert run_R R_setCancelCallback
  R_emit_custom.
  rewrite doRequest_unfold. cbv zeta.
  assert (forall m1 x, plumbing m1 x -> trace x = trace m1 -> console x = console m1 ->
            R m1 (subscribe (length (promises m))
                    (RCatchError (length (promises x)))
                    (snd (newCell KCaught x)))) as Hx.
  { intros m1 x Hpl Ht Hc. apply R_quiet.
    - eapply plumbing_trans; [exact Hpl|].
      eapply plumbing_trans; [apply plumbing_newCell with (k := KCaught)|].
      apply plumbing_subscribe.
    - by rewrite subscribe_trace.
    - by rewrite subscribe_console. }
  pose proof (R_quiet m (snd (newCell KRequest m)) (plumbing_newCell _ _)
                eq_refl eq_refl) as H0.
  destruct (convert_result adapter v) as [arg|e0].
  - destruct (adapterCalls _ _ _ _) as [m1|] eqn:E; [|done].
    intros [= _ <-]. apply adapterCalls_traced in E.
    eapply R_trans; [exact H0|].
    eapply R_trans; [apply R_adapter|]. eapply R_trans; [exact E|].
    apply Hx; [apply plumbing_afterCallback|apply afterCallback_trace
              |apply afterCallback_console].
  - intros [= _ <-].
    eapply R_trans; [exact H0|].
    eapply R_trans; [apply R_convert|].
    apply Hx; [apply plumbing_rejectWith|apply rejectWith_trace|apply rejectWith_console].
Qed.

End Open.

Lemma withPayload_traced fuel c v m q m' :
  withPayload production req fuel c v m = Some (q, m') -> R m m'.
Proof using R_refl R_trans R_quiet R_tryResolve R_next R_terminal R_hook.
  revert c v m q m'. induction fuel as [|fuel IH]; [done|].
  intros c v m q m' H. rewrite withPayload_unfold in H.
  destruct (hooks req c !! idx c m) as [hook|] eqn:Hh.
  - cbv zeta in H.
    destruct (runCalls _ _ _ _ _ _) as [[thrown m1]|] eqn:E; [|done].
    apply (runCalls_traced _ IH) in E.
    assert (R m m1) as Hm1 by (eapply R_trans; [eapply R_hook, Hh|exact E]).
    destruct (from_option _ _ _); injection H as _ <-; [|done].
    eapply R_trans; [exact Hm1|].
    apply R_quiet;
      [apply plumbing_rejectWith|apply rejectWith_trace|apply rejectWith_console].
  - assert (terminal c v m = (q, m')) as Ht by congruence.
    pose proof (R_terminal c v m Hh) as Hr. by rewrite Ht in Hr.
Qed.

Hypothesis R_setCancelCallback : forall cb m, R m (set_cancelCallback cb m).
Hypothesis R_emit_custom : forall n a m, R m (emit (EvCustom n a) m).
Hypothesis R_pop : forall j q m, microtasks m = j :: q -> R m (set_microtasks q m).
Hypothesis R_final : forall c v d q m,
  c <> Before -> microtasks m = JFinal c v d :: q ->
  R m (snd (final c v (set_microtasks q m))).
Hypothesis R_throwError : forall e m, R m (throwError e m).
Hypothesis R_cancelled : forall d v q m,
  microtasks m = JCancelThen d (Fulfilled v) :: q ->
  R m (let m := setState cancelDiff (set_microtasks q m) in
       emit (EvCancel (fst (pickState m))) (snd (pickState m))).
Hypothesis R_cancel : forall m, R m (record (CancelCall (cancelCallback m)) m).

Lemma perform_traced fuel i m m' :
  perform production adapter req fuel i m = Some m' -> R m m'.
Proof using All.
  assert (forall a b, plumbing a b -> trace b = trace a -> console b = console a ->
                      forall c, R c a -> R c b)
    as Hq by (intros a b Hpl Ht Hc c Hca; eapply R_trans; [exact Hca|by apply R_quiet]).
  destruct i as [| |c p cap v|inner a|inner e]; simpl.
  - destruct (microtasks m) as [|j q] eqn:Q; [intros [= <-]; apply R_refl|].
    pose proof (R_pop _ _ _ Q) as Hpop.
    destruct j as [c v d|p q'|r o|d o|p e]; simpl.
    + destruct c.
      * destruct (doRequest _ _ _ _) as [[q' m1]|] eqn:E; [|done].
        intros [= <-].
        apply (Hq m1); [apply plumbing_resolveWith|apply resolveWith_trace|apply resolveWith_console|].
        eapply R_trans; [exact Hpop|].
        eapply doRequest_traced, E; eauto using withPayload_traced.
      * intros [= <-].
        eapply Hq; [apply plumbing_settle|apply settle_trace|apply settle_console|].
        by eapply (R_final Done).
      * intros [= <-].
        eapply Hq; [apply plumbing_settle|apply settle_trace|apply settle_console|].
        by eapply (R_final Fail).
    + intros [= <-]. eapply Hq; [apply plumbing_subscribe|apply subscribe_trace|apply subscribe_console|done].
    + destruct r as [p|d]; [|destruct o as [v|e]]; intros [= <-].
      * eapply Hq; [apply plumbing_settle|apply settle_trace|apply settle_console|done].
      * eapply Hq; [apply plumbing_settle|apply settle_trace|apply settle_console|done].
      * eapply Hq; [apply plumbing_settle|apply settle_trace|apply settle_console|].
        eapply R_trans; [exact Hpop|apply R_throwError].
    + destruct o as [v|e]; intros [= <-].
      * eapply Hq; [apply plumbing_settle|apply settle_trace|apply settle_console|].
        eapply R_cancelled, Q.
      * eapply Hq; [apply plumbing_settle|apply settle_trace|apply settle_console|done].
    + intros [= <-]. eapply Hq; [apply plumbing_rejectWith|apply rejectWith_trace|apply rejectWith_console|done].
  - unfold cancel. destruct (adapterCalls _ _ _ _) as [m1|] eqn:E; [|done].
    intros [= <-].
    eapply Hq; [apply plumbing_afterCancelCallback|apply afterCancelCallback_trace
               |by destruct (outcome_of _)|].
    eapply R_trans; [apply R_cancel|].
    eapply adapterCalls_traced, E; eauto using withPayload_traced.
  - destruct (ckind _); try done. destruct (promises m !! p); [|done].
    case_bool_decide; [|done].
    destruct (invoke _ _ _ _ _ _) as [[r m1]|] eqn:E; [|done].
    intros [= <-]. eapply invoke_traced, E. eauto using withPayload_traced.
  - destruct (ckind _); try done. destruct (promises m !! inner); [|done].
    intros E. eapply adapterCall_traced, E; eauto using withPayload_traced.
  - destruct (ckind _); try done. destruct (promises m !! inner); [|done].
    intros [= <-]. apply R_quiet; [by apply plumbing_enqueue|done|done].
Qed.

End Traced.

(** ** Hooks are called in order *)

Lemma positions_app c t1 t2 :
  positions c (t1 ++ t2) = positions c t1 ++ positions c t2.
Proof.
  induction t1 as [|[c' i ctx| | |] t1 IH]; simpl; auto.
  case_bool_decide; simpl; by rewrite IH.
Qed.

Lemma nondecreasing_snoc l x :
  nondecreasing l -> Forall (fun y => y <= x) l -> nondecreasing (l ++ [x]).
Proof.
  induction l as [|y l IH]; simpl; [by repeat constructor|].
  intros (Hy&Hl) [Hyx Hlx]%Forall_cons. split; [|by apply IH].
  apply Forall_app. split; [done|]. by constructor.
Qed.

Lemma nondecreasing_suffix l1 l2 : nondecreasing (l1 ++ l2) -> nondecreasing l2.
Proof. induction l1 as [|x l1 IH]; simpl; [done|]. intros (_&H). by apply IH. Qed.

Lemma in_order_frame req m m' :
  trace m' = trace m -> (forall c, idx c m <= idx c m') ->
  in_order req m -> in_order req m'.
Proof.
  intros Ht Hi H c. destruct (H c) as (Hn&Hb). rewrite Ht. split; [done|].
  eapply Forall_impl; [exact Hb|]. intros k (H1&H2). split; [|done].
  specialize (Hi c). lia.
Qed.

Lemma in_order_other req x m :
  match x with HookCall _ _ _ => False | _ => True end ->
  in_order req m -> in_order req (record x m).
Proof.
  intros Hx H c. simpl. rewrite positions_app.
  assert (positions c [x] = []) as -> by (by destruct x).
  rewrite app_nil_r. destruct (H c) as (Hn&Hb). split; [done|].
  eapply Forall_impl; [exact Hb|]. by destruct c.
Qed.

Lemma setState_idx diff m c : idx c (setState diff m) = idx c m.
Proof. by destruct c. Qed.

Lemma in_order_quiet req m m' :
  plumbing m m' -> trace m' = trace m -> in_order req m -> in_order req m'.
Proof.
  intros (_&H1&H2&H3&_) Ht. apply in_order_frame; [done|].
  intros []; simpl; lia.
Qed.

Lemma in_order_next req c v m : in_order req m -> in_order req (update c v (bump c m)).
Proof.
  apply in_order_frame; [by destruct c|].
  intros c'; destruct c, c'; simpl; lia.
Qed.

Lemma in_order_terminal req c v m :
  in_order req m -> in_order req (snd (terminal c v m)).
Proof.
  rewrite terminal_unfold. simpl.
  apply in_order_frame; [by destruct c|]. intros c'; by destruct c, c'.
Qed.

Lemma in_order_hook req c ctx m h :
  hooks req c !! idx c m = Some h -> in_order req m ->
  in_order req (record (HookCall c (idx c m) ctx) (snd (newCell (KStep c) m))).
Proof.
  intros Hh H c'. simpl. rewrite positions_app. simpl.
  destruct (H c') as (Hn&Hb). case_bool_decide as Hc; [subst c'|].
  - split.
    + apply nondecreasing_snoc; [done|].
      eapply Forall_impl; [exact Hb|]. by intros k (H1&_).
    + apply Forall_app. split.
      * eapply Forall_impl; [exact Hb|]. by destruct c.
      * constructor; [|done]. split; [by destruct c|].
        by eapply lookup_lt_Some.
  - rewrite app_nil_r. split; [done|].
    eapply Forall_impl; [exact Hb|]. by destruct c'.
Qed.

Lemma perform_in_order production adapter req fuel i m m' :
  perform production adapter req fuel i m = Some m' ->
  in_order req m -> in_order req m'.
Proof.
  apply (perform_traced production adapter req
           (fun a b => in_order req a -> in_order req b)).
  - auto.
  - auto.
  - intros m0 m1 Hpl Ht _. by apply in_order_quiet.
  - intros c p q m0. apply in_order_quiet; [apply plumbing_tryResolve|].
    by destruct (tryResolve_frame production c p q m0) as (_&_&Ht&_).
  - intros c v m0. apply in_order_next.
  - intros c v m0 _. apply in_order_terminal.
  - intros c v m0 h. apply in_order_hook.
  - intros a r body m0. by apply in_order_other.
  - intros v e m0. by apply in_order_other.
  - intros cb m0. by apply in_order_frame.
  - intros n a m0. by apply in_order_frame.
  - intros j q m0 _. by apply in_order_frame.
  - intros c v d q m0 _ _. rewrite final_effect. simpl.
    apply in_order_frame; [done|]. by intros [].
  - intros e m0. by apply in_order_frame.
  - intros d v q m0 _. cbv zeta.
    destruct (setState_heap cancelDiff (set_microtasks q m0)) as (_&Ht).
    apply in_order_frame; [exact Ht|].
    intros c. simpl. by destruct c.
  - intros m0. by apply in_order_other.
Qed.

Lemma reachable_in_order production adapter req m :
  reachable production adapter req m -> in_order req m.
Proof.
  induction 1 as [fuel p m H|fuel i m m' _ IH H].
  - cut (in_order req (init adapter req)).
    2:{ intros c. split; [done|constructor]. }
    revert H. unfold apicase.
    apply (withPayload_traced production req
             (fun a b => in_order req a -> in_order req b)).
    + auto.
    + auto.
    + intros m0 m1 Hpl Ht _. by apply in_order_quiet.
    + intros c s q m0. apply in_order_quiet; [apply plumbing_tryResolve|].
      by destruct (tryResolve_frame production c s q m0) as (_&_&Ht&_).
    + intros c v m0. apply in_order_next.
    + intros c v m0 _. apply in_order_terminal.
    + intros c v m0 h. apply in_order_hook.
  - by eapply perform_in_order.
Qed.

Lemma later_refl m : later m m.
Proof.
  split; [done|]. exists []. rewrite app_nil_r. split; [done|].
  intros c j ctx H. by apply elem_of_nil in H.
Qed.

Lemma later_trans a b c : later a b -> later b c -> later a c.
Proof.
  intros (I1&c1&T1&H1) (I2&c2&T2&H2). split.
  - intros x. specialize (I1 x). specialize (I2 x). lia.
  - exists (c1 ++ c2). rewrite T2, T1, app_assoc. split; [done|].
    intros x j ctx [Hin|Hin]%elem_of_app.
    + by eapply H1.
    + specialize (I1 x). specialize (H2 x j ctx Hin). lia.
Qed.

Lemma later_frame m m' :
  trace m' = trace m -> (forall c, idx c m <= idx c m') -> later m m'.
Proof.
  intros Ht Hi. split; [done|]. exists []. rewrite app_nil_r. split; [done|].
  intros c j ctx H. by apply elem_of_nil in H.
Qed.

Lemma later_other x m :
  match x with HookCall _ _ _ => False | _ => True end -> later m (record x m).
Proof.
  intros Hx. split; [done|]. exists [x]. split; [done|].
  intros c j ctx <-%list_elem_of_singleton. destruct Hx.
Qed.

Lemma later_quiet m m' : plumbing m m' -> trace m' = trace m -> later m m'.
Proof.
  intros (_&H1&H2&H3&_) Ht. apply later_frame; [done|].
  intros []; simpl; lia.
Qed.

Lemma perform_later production adapter req fuel i m m' :
  perform production adapter req fuel i m = Some m' -> later m m'.
Proof.
  apply (perform_traced production adapter req later).
  - apply later_refl.
  - apply later_trans.
  - intros m0 m1 Hpl Ht _. by apply later_quiet.
  - intros c p q m0. apply later_quiet; [apply plumbing_tryResolve|].
    by destruct (tryResolve_frame production c p q m0) as (_&_&Ht&_).
  - intros c v m0. apply later_frame; [by destruct c|].
    intros c'; destruct c, c'; simpl; lia.
  - intros c v m0 _. rewrite terminal_unfold. simpl.
    apply later_frame; [by destruct c|]. intros c'; by destruct c, c'.
  - intros c v m0 h _. split; [by intros []|]. eexists [_]. split; [done|].
    by intros c' j ctx [= -> -> _]%list_elem_of_singleton.
  - intros a r body m0. by apply later_other.
  - intros v e m0. by apply later_other.
  - intros cb m0. by apply later_frame.
  - intros n a m0. by apply later_frame.
  - intros j q m0 _. by apply later_frame.
  - intros c v d q m0 _ _. rewrite final_effect. simpl.
    apply later_frame; [done|]. by intros [].
  - intros e m0. by apply later_frame.
  - intros d v q m0 _. cbv zeta.
    destruct (setState_heap cancelDiff (set_microtasks q m0)) as (_&Ht).
    apply later_frame; [exact Ht|].
    intros c. simpl. by destruct c.
  - intros m0. by apply later_other.
Qed.

Lemma performAll_later production adapter req fuel inputs m m' :
  performAll production adapter req fuel inputs m = Some m' -> later m m'.
Proof.
  revert m. induction inputs as [|i inputs IH]; simpl; intros m H.
  - injection H as <-. apply later_refl.
  - destruct (perform _ _ _ _ _ _) as [m1|] eqn:E; [|done].
    eapply later_trans; [eapply perform_later, E|by apply IH].
Qed.

Lemma performAll_reachable production adapter req fuel inputs m m' :
  performAll production adapter req fuel inputs m = Some m' ->
  reachable production adapter req m -> reachable production adapter req m'.
Proof.
  revert m. induction inputs as [|i inputs IH]; simpl; intros m H R.
  - by injection H as <-.
  - destruct (perform _ _ _ _ _ _) as [m1|] eqn:E; [|done].
    eapply IH; [exact H|]. eapply reach_perform; eauto.
Qed.

(** X8. The hooks of a chain are called in the order of its list, at
    every point of every request, whatever the redirects, retries and
    late calls: of two calls of hooks of the same chain, the later one is
    at the same or at a later position, which the chain has and which the
    cursor has reached.  And a hook the cursor has passed is never called
    again: every hook called after a point [m0] of the request is at or
    beyond the position the cursor of its chain had at [m0]. *)
Theorem hooks_are_called_in_order production adapter req fuel inputs p m0 more m :
  session production adapter req fuel inputs = Some (p, m0) ->
  performAll production adapter req fuel more m0 = Some m ->
  (forall c i ctx1 j ctx2 t1 t2 t3,
     trace m = t1 ++ HookCall c i ctx1 :: t2 ++ HookCall c j ctx2 :: t3 ->
     i <= j /\ j < length (hooks req c) /\ j <= idx c m)
  /\ exists cs, trace m = trace m0 ++ cs
       /\ forall c j ctx, HookCall c j ctx ∈ cs -> idx c m0 <= j /\ j <= idx c m.
Proof.
  intros H0 H1. split.
  - intros c i ctx1 j ctx2 t1 t2 t3 Ht.
    apply session_reachable in H0.
    pose proof (performAll_reachable _ _ _ _ _ _ _ H1 H0) as R.
    apply reachable_in_order in R.
    destruct (R c) as (Hn&Hb). rewrite Ht in Hn, Hb.
    rewrite positions_app in Hn, Hb. simpl in Hn, Hb.
    rewrite bool_decide_eq_true_2 in Hn, Hb by done.
    rewrite positions_app in Hn, Hb. simpl in Hn, Hb.
    rewrite bool_decide_eq_true_2 in Hn, Hb by done.
    apply nondecreasing_suffix in Hn as (Hi&_).
    apply Forall_app in Hi as (_&Hi). apply Forall_cons in Hi as (Hij&_).
    apply Forall_app in Hb as (_&Hb). apply Forall_cons in Hb as (_&Hb).
    apply Forall_app in Hb as (_&Hb). apply Forall_cons in Hb as ((Hx&Hy)&_).
    done.
  - pose proof (performAll_later _ _ _ _ _ _ _ H1) as (_&cs&Ht&Hcs).
    exists cs. split; [done|]. intros c j ctx Hin. split; [by eapply Hcs|].
    apply session_reachable in H0.
    pose proof (performAll_reachable _ _ _ _ _ _ _ H1 H0) as R.
    apply reachable_in_order in R. destruct (R c) as (_&Hb).
    rewrite Ht, positions_app in Hb. apply Forall_app in Hb as (_&Hb).
    apply list_elem_of_split in Hin as (l1&l2&->).
    rewrite positions_app in Hb. simpl in Hb.
    rewrite bool_decide_eq_true_2 in Hb by done.
    apply Forall_app in Hb as (_&Hb). by apply Forall_cons in Hb as ((Hx&_)&_).
Qed.

(** The before-chain of two hooks has run when [apicase] returns; the
    adapter rejects, the fail-hook retries: no before-hook is called
    again. *)
Lemma hooks_are_called_in_order_witness :
  exists m0 m cs,
    session false flaky (mkRequest VNull a1 [passes; passes] [] [retries_once (VNum 2)] false)
      6 [] = Some (0, m0)
    /\ performAll false flaky
         (mkRequest VNull a1 [passes; passes] [] [retries_once (VNum 2)] false)
         6 (repeat ITick 30) m0 = Some m
    /\ idx Before m0 = 2
    /\ trace m = trace m0 ++ cs
    /\ HookCall Fail 0 (mkCtx VNull a1 (VStr "bad")) ∈ cs
    /\ forall c j ctx, HookCall c j ctx ∈ cs -> idx c m0 <= j.
Proof.
  destruct (session false flaky
              (mkRequest VNull a1 [passes; passes] [] [retries_once (VNum 2)] false)
              6 []) as [[p m0]|] eqn:E0;
    [|vm_compute in E0; discriminate E0].
  destruct (performAll false flaky
              (mkRequest VNull a1 [passes; passes] [] [retries_once (VNum 2)] false)
              6 (repeat ITick 30) m0) as [m|] eqn:E1;
    [|vm_compute in E0; injection E0 as <- <-; vm_compute in E1; discriminate E1].
  destruct (hooks_are_called_in_order _ _ _ _ _ _ _ _ _ E0 E1) as (_&cs&Ht&Hcs).
  assert (p = 0 /\ idx Before m0 = 2
          /\ forall cs', trace m = trace m0 ++ cs' ->
               HookCall Fail 0 (mkCtx VNull a1 (VStr "bad")) ∈ cs') as (->&Hi&Hin).
  { clear -E0 E1. vm_compute in E0. injection E0 as <- <-.
    vm_compute in E1. injection E1 as <-. split; [reflexivity|]. split; [reflexivity|].
    intros cs' H. simpl in H. injection H as <-.
    apply list_elem_of_In. simpl. repeat (first [left; reflexivity|right]). }
  exists m0, m, cs. split; [reflexivity|]. split; [exact E1|]. split; [exact Hi|].
  split; [exact Ht|]. split; [by apply Hin|].
  intros c j ctx Hc. by destruct (Hcs c j ctx Hc).
Defined.

(** ** Fulfilments of the completion promise *)

Lemma persists_refl m : persists m m.
Proof. split; [apply extends_refl|]. exists []. by rewrite app_nil_r. Qed.

Lemma persists_trans a b c : persists a b -> persists b c -> persists a c.
Proof.
  intros (E1&s1&H1) (E2&s2&H2). split; [by eapply extends_trans|].
  exists (s1 ++ s2). by rewrite H2, H1, app_assoc.
Qed.

Lemma persists_frame m m' :
  promises m' = promises m ->
  (exists es, bus m' = bus m ++ es) -> (exists cs, trace m' = trace m ++ cs) ->
  (exists snaps, heap m' = heap m ++ snaps) ->
  persists m m'.
Proof. intros Hp Hb Ht Hh. split; [by apply extends_frame|done]. Qed.

Lemma delivered_ext m m' v : persists m m' -> delivered m v -> delivered m' v.
Proof.
  intros (((es&Hb)&_)&snaps&Hh) (l&s&r&->&H0&H1&Hp&Hin).
  exists l, s, r. rewrite Hh, Hb. split; [done|].
  split; [by apply lookup_app_l_Some|]. split; [by apply lookup_app_l_Some|].
  split; [done|]. apply elem_of_app. by left.
Qed.

Lemma outcome_ok_ext m m' k o : persists m m' -> outcome_ok m k o -> outcome_ok m' k o.
Proof.
  intros E. destruct o as [v|e]; simpl; [|done].
  intros [?|?]; [by left|right]. by eapply delivered_ext.
Qed.

Lemma cell_sound_ext m m' c : persists m m' -> cell_sound m c -> cell_sound m' c.
Proof.
  intros E. unfold cell_sound. destruct (pst c) as [rs|o]; [done|].
  by apply outcome_ok_ext.
Qed.

Lemma job_sound_ext m m' j : persists m m' -> job_sound m j -> job_sound m' j.
Proof.
  intros E. pose proof E as ((_&_&K)&_).
  destruct j as [c v d|p q|r [v|e]|d o|p e]; simpl; try done.
  - apply chain_cell_ext, E.
  - by apply delivered_ext.
  - intros (c&H&Hk). destruct (K d c H) as (c'&H'&Hk').
    exists c'. split; [done|congruence].
Qed.

Section Sound.

Variable production : bool.
Variable adapter : Adapter.
Variable req : Request.

Lemma sound_frame m m' :
  promises m' = promises m -> microtasks m' = microtasks m ->
  (exists es, bus m' = bus m ++ es) -> (exists cs, trace m' = trace m ++ cs) ->
  (exists snaps, heap m' = heap m ++ snaps) ->
  sound m -> sound m' /\ persists m m'.
Proof.
  intros Hp Hq Hb Ht Hh (Hc&Hj).
  pose proof (persists_frame m m' Hp Hb Ht Hh) as E. split; [|done]. split.
  - rewrite Hp. eapply Forall_impl; [exact Hc|]. intros c. by apply cell_sound_ext.
  - rewrite Hq. eapply Forall_impl; [exact Hj|]. intros j. by apply job_sound_ext.
Qed.

Lemma cell_at_sound p m : sound m -> cell_sound m (cell_at p m).
Proof.
  intros (Hc&_). unfold cell_at. destruct (promises m !! p) as [c|] eqn:E; simpl.
  - by eapply Forall_lookup_1.
  - constructor.
Qed.

Lemma newCell_sound k m :
  sound m ->
  sound (snd (newCell k m)) /\ persists m (snd (newCell k m))
  /\ promises (snd (newCell k m)) !! length (promises m)
       = Some (mkCell k (Pending []) false false).
Proof.
  intros (Hc&Hj).
  assert (persists m (snd (newCell k m))) as E.
  { split; [|exists []; by rewrite app_nil_r].
    split; [exists []; by rewrite app_nil_r|].
    split; [exists []; by rewrite app_nil_r|].
    intros p c H. exists c. split; [|done]. simpl. by apply lookup_app_l_Some. }
  split; [|split; [done|]].
  - split; simpl.
    + apply Forall_app. split.
      * eapply Forall_impl; [exact Hc|]. intros c. by apply cell_sound_ext.
      * constructor; [|done]. constructor.
    + eapply Forall_impl; [exact Hj|]. intros j. by apply job_sound_ext.
  - simpl. rewrite lookup_app_r by done. by rewrite Nat.sub_diag.
Qed.

Lemma enqueue_sound j m :
  sound m -> job_sound m j -> sound (enqueue j m) /\ persists m (enqueue j m).
Proof.
  intros (Hc&Hj) H.
  assert (persists m (enqueue j m)) as E.
  { apply persists_frame; [done|exists []; by rewrite app_nil_r..]. }
  split; [|done]. split; simpl.
  - eapply Forall_impl; [exact Hc|]. intros c. by apply cell_sound_ext.
  - apply Forall_app. split.
    + eapply Forall_impl; [exact Hj|]. intros j'. by apply job_sound_ext.
    + constructor; [|done]. by eapply job_sound_ext.
Qed.

Lemma set_cell_sound p c m :
  sound m -> ckind c = ckind (cell_at p m) -> cell_sound m c ->
  sound (set_cell p c m) /\ persists m (set_cell p c m).
Proof.
  intros (Hc&Hj) Hk Hok.
  assert (persists m (set_cell p c m)) as E.
  { split; [|exists []; by rewrite app_nil_r].
    split; [exists []; by rewrite app_nil_r|].
    split; [exists []; by rewrite app_nil_r|].
    intros i c1 Hi. simpl. destruct (decide (p = i)) as [->|Hne].
    - exists c. rewrite list_lookup_insert_eq by (by eapply lookup_lt_Some).
      split; [done|]. by rewrite Hk, (cell_at_lookup i c1 m Hi).
    - exists c1. by rewrite list_lookup_insert_ne. }
  split; [|done]. split; simpl.
  - apply Forall_insert; [|by eapply cell_sound_ext].
    eapply Forall_impl; [exact Hc|]. intros c0. by apply cell_sound_ext.
  - eapply Forall_impl; [exact Hj|]. intros j. by apply job_sound_ext.
Qed.

(** The job a reaction becomes when its promise settles. *)
Lemma react_sound k r o m :
  reaction_ok k r -> outcome_ok m k o -> job_sound m (JReact r o).
Proof.
  destruct o as [v|e]; [|done]. simpl. intros Hr [->|H]; [|done].
  by destruct r.
Qed.

Lemma settle_sound p o m :
  sound m -> outcome_ok m (ckind (cell_at p m)) o ->
  sound (settle p o m) /\ persists m (settle p o m).
Proof.
  intros A H. pose proof (cell_at_sound p m A) as Hok. unfold settle.
  unfold cell_sound in Hok.
  destruct (pst (cell_at p m)) as [rs|o'] eqn:Ep; [|split; [done|apply persists_refl]].
  destruct (set_cell_sound p
              (mkCell (ckind (cell_at p m)) (Settled o) true (isResolved (cell_at p m)))
              m A) as ((Hc1&Hj1)&E1); [done|done|].
  remember (set_cell p (mkCell (ckind (cell_at p m)) (Settled o) true
                          (isResolved (cell_at p m))) m) as m1 eqn:Em1.
  assert (persists m1 (set_microtasks (microtasks m1 ++ map (fun r => JReact r o) rs) m1))
    as E2.
  { apply persists_frame; [done|exists []; by rewrite app_nil_r..]. }
  split; [|by eapply persists_trans].
  split; simpl.
  - eapply Forall_impl; [exact Hc1|]. intros c. by apply cell_sound_ext.
  - apply Forall_app. split.
    + eapply Forall_impl; [exact Hj1|]. intros j. by apply job_sound_ext.
    + apply Forall_map. eapply Forall_impl; [exact Hok|].
      intros r Hr.
      apply (job_sound_ext m _ (JReact r o));
        [eapply persists_trans; [exact E1|exact E2]|].
      by eapply react_sound.
Qed.

Lemma subscribe_sound q r m :
  sound m -> reaction_ok (ckind (cell_at q m)) r ->
  sound (subscribe q r m) /\ persists m (subscribe q r m).
Proof.
  intros A Hr. pose proof (cell_at_sound q m A) as Hok. unfold subscribe.
  unfold cell_sound in Hok. destruct (pst (cell_at q m)) as [rs|o] eqn:Ep.
  - apply set_cell_sound; [done|done|]. unfold cell_sound. simpl.
    apply Forall_app. split; [done|]. by constructor.
  - apply enqueue_sound; [done|]. by eapply react_sound.
Qed.

Lemma resolveWith_sound p q m :
  sound m -> chain_cell q m ->
  sound (resolveWith p q m) /\ persists m (resolveWith p q m).
Proof.
  intros A Hq. unfold resolveWith.
  destruct (alreadyResolved (cell_at p m)); [split; [done|apply persists_refl]|].
  destruct (set_cell_sound p
              (mkCell (ckind (cell_at p m)) (pst (cell_at p m)) true
                 (isResolved (cell_at p m))) m A) as (A1&E1); [done| |].
  { apply (cell_at_sound p m A). }
  match goal with
  | |- context [enqueue ?j ?x] =>
      destruct (enqueue_sound j x A1) as (A2&E2);
        [eapply chain_cell_ext; [apply E1|done]|]
  end.
  split; [done|by eapply persists_trans].
Qed.

Lemma rejectWith_sound p e m :
  sound m -> sound (rejectWith p e m) /\ persists m (rejectWith p e m).
Proof.
  intros A. unfold rejectWith.
  destruct (alreadyResolved (cell_at p m)); [split; [done|apply persists_refl]|].
  by apply settle_sound.
Qed.

Lemma tryResolve_sound c p q m :
  sound m -> chain_cell q m ->
  sound (tryResolve production c p q m) /\ persists m (tryResolve production c p q m).
Proof.
  intros A Hq. unfold tryResolve.
  destruct (negb production && isResolved (cell_at p m)).
  - apply sound_frame; [done|done|exists []; by rewrite app_nil_r..|done].
  - destruct (set_cell_sound p
                (mkCell (ckind (cell_at p m)) (pst (cell_at p m))
                   (alreadyResolved (cell_at p m)) true) m A) as (A1&E1); [done| |].
    { apply (cell_at_sound p m A). }
    match goal with
    | |- context [resolveWith p q ?x] =>
        destruct (resolveWith_sound p q x A1) as (A2&E2);
          [eapply chain_cell_ext; [apply E1|done]|]
    end.
    split; [done|by eapply persists_trans].
Qed.

Lemma update_sound c v m : sound m -> sound (update c v m) /\ persists m (update c v m).
Proof.
  apply sound_frame; [by destruct c|by destruct c| |exists []; destruct c; by rewrite app_nil_r..].
  destruct c; by eexists.
Qed.

Lemma bump_sound c m : sound m -> sound (bump c m) /\ persists m (bump c m).
Proof.
  apply sound_frame; [by destruct c|by destruct c|..];
    exists []; destruct c; by rewrite app_nil_r.
Qed.

Lemma record_sound c m : sound m -> sound (record c m) /\ persists m (record c m).
Proof.
  apply sound_frame;
    [done|done|exists []; by rewrite app_nil_r|by eexists|exists []; by rewrite app_nil_r].
Qed.

Lemma emit_sound e m : sound m -> sound (emit e m) /\ persists m (emit e m).
Proof.
  apply sound_frame;
    [done|done|by eexists|exists []; by rewrite app_nil_r|exists []; by rewrite app_nil_r].
Qed.

Lemma terminal_sound c v m :
  sound m ->
  sound (snd (terminal c v m)) /\ persists m (snd (terminal c v m))
  /\ chain_cell (fst (terminal c v m)) (snd (terminal c v m)).
Proof.
  intros A. rewrite terminal_unfold.
  destruct (update_sound c v m A) as (A1&E1).
  destruct (newCell_sound (KFinal c) (update c v m) A1) as (A2&E2&L2).
  match goal with
  | |- context [enqueue ?j ?x] =>
      destruct (enqueue_sound j x A2) as (A3&E3); [done|]
  end.
  simpl in *. split; [done|]. split; [eauto using persists_trans|].
  eapply chain_cell_ext; [apply E3|]. eexists. split; [exact L2|done].
Qed.

Section Open.

Variable run : chain -> value -> Machine -> option (nat * Machine).
Hypothesis run_sound : forall c v m q m',
  run c v m = Some (q, m') -> sound m ->
  sound m' /\ persists m m' /\ chain_cell q m'.

Lemma invoke_sound c s cap v m r m' :
  invoke production run c s (cap, v) m = Some (r, m') -> sound m ->
  sound m' /\ persists m m'.
Proof using run_sound.
  unfold invoke. intros H A.
  destruct (available c cap);
    [|injection H as _ <-; split; [done|apply persists_refl]].
  remember (match cap with cap_next => update c v (bump c m) | _ => m end) as m1 eqn:Em1.
  assert (sound m1 /\ persists m m1) as (A1&E1).
  { subst m1. destruct cap; try (split; [done|apply persists_refl]).
    destruct (bump_sound c m A) as (A0&E0).
    destruct (update_sound c v (bump c m) A0) as (A1&E1).
    split; [done|by eapply persists_trans]. }
  destruct (run _ _ _) as [[q m2]|] eqn:E; [|done]. injection H as _ <-.
  apply run_sound in E as (A2&E2&C2); [|done].
  destruct (tryResolve_sound c s q m2 A2 C2) as (A3&E3).
  split; [done|eauto using persists_trans].
Qed.

Lemma runCalls_sound c s cs m r m' :
  runCalls production run c s cs m = Some (r, m') -> sound m ->
  sound m' /\ persists m m'.
Proof using run_sound.
  revert m. induction cs as [|[cap v] cs IH]; simpl; intros m H A.
  - injection H as _ <-. split; [done|apply persists_refl].
  - destruct (invoke _ _ _ _ _ _) as [[[e|] m1]|] eqn:E; [| |done].
    + injection H as _ <-. by eapply invoke_sound.
    + apply invoke_sound in E as (A1&E1); [|done].
      apply IH in H as (A2&E2); [|done].
      split; [done|by eapply persists_trans].
Qed.

Lemma adapterCall_sound inner a m m' :
  adapterCall run inner a m = Some m' -> sound m -> sound m' /\ persists m m'.
Proof using run_sound.
  unfold adapterCall. intros H A. destruct a.
  - destruct (run _ _ _) as [[q m1]|] eqn:E; [|done]. injection H as <-.
    apply run_sound in E as (A1&E1&C1); [|done].
    destruct (resolveWith_sound inner q m1 A1 C1) as (A2&E2).
    split; [done|by eapply persists_trans].
  - destruct (run _ _ _) as [[q m1]|] eqn:E; [|done]. injection H as <-.
    apply run_sound in E as (A1&E1&C1); [|done].
    destruct (resolveWith_sound inner q m1 A1 C1) as (A2&E2).
    split; [done|by eapply persists_trans].
  - injection H as <-.
    apply sound_frame; [done|done|exists []; by rewrite app_nil_r..|done].
  - injection H as <-. by apply emit_sound.
Qed.

Lemma adapterCalls_sound inner cs m m' :
  adapterCalls run inner cs m = Some m' -> sound m -> sound m' /\ persists m m'.
Proof using run_sound.
  revert m. induction cs as [|a cs IH]; simpl; intros m H A.
  - injection H as <-. split; [done|apply persists_refl].
  - destruct (adapterCall _ _ _ _) as [m1|] eqn:E; [|done].
    apply adapterCall_sound in E as (A1&E1); [|done].
    apply IH in H as (A2&E2); [|done]. split; [done|by eapply persists_trans].
Qed.

Lemma afterCallback_sound inner r m :
  sound m -> sound (afterCallback inner r m) /\ persists m (afterCallback inner r m).
Proof.
  intros A. destruct r as [|e|[e|]|]; simpl; try (split; [done|apply persists_refl]).
  - by apply rejectWith_sound.
  - by apply enqueue_sound.
  - by apply rejectWith_sound.
Qed.

(** [.catch(throwError)] on the promise of [doRequest]. *)
Lemma caught_sound inner m :
  sound m ->
  (exists c, promises m !! inner = Some c /\ ckind c = KRequest) ->
  sound (subscribe inner (RCatchError (length (promises m))) (snd (newCell KCaught m)))
  /\ persists m (subscribe inner (RCatchError (length (promises m)))
                   (snd (newCell KCaught m)))
  /\ chain_cell (length (promises m))
       (subscribe inner (RCatchError (length (promises m))) (snd (newCell KCaught m))).
Proof.
  intros A (c1&Hc1&Hk1).
  destruct (newCell_sound KCaught m A) as (A4&E4&L4).
  assert (exists c, promises (snd (newCell KCaught m)) !! inner = Some c
                    /\ ckind c = KRequest) as (c4&Hc4&Hk4).
  { destruct E4 as ((_&_&K)&_). destruct (K _ _ Hc1) as (c'&Hc'&Hk').
    exists c'. split; [done|congruence]. }
  destruct (subscribe_sound inner (RCatchError (length (promises m)))
              (snd (newCell KCaught m)) A4) as (A5&E5).
  { rewrite (cell_at_lookup _ _ _ Hc4). exact Hk4. }
  split; [done|]. split; [by eapply persists_trans|].
  eapply chain_cell_ext; [apply E5|]. eexists. split; [exact L4|done].
Qed.

Lemma doRequest_sound v m q m' :
  doRequest adapter run v m = Some (q, m') -> sound m ->
  sound m' /\ persists m m' /\ chain_cell q m'.
Proof using run_sound.
  rewrite doRequest_unfold. cbv zeta. intros H A.
  destruct (newCell_sound KRequest m A) as (A0&E0&L0).
  destruct (convert_result adapter v) as [arg|e0].
  - remember (callback adapter (adapterRuns (trace m)) arg (result (res m)))
      as body eqn:Eb.
    destruct (record_sound (AdapterCallback arg (result (res m)) body)
                (snd (newCell KRequest m)) A0) as (A1&E1).
    remember (record (AdapterCallback arg (result (res m)) body)
                (snd (newCell KRequest m))) as m0 eqn:Em0.
    destruct (adapterCalls _ _ _ _) as [m1|] eqn:E; [|done].
    apply adapterCalls_sound in E as (A2&E2); [|done].
    assert (exists c, promises m1 !! length (promises m) = Some c /\ ckind c = KRequest)
      as (c1&Hc1&Hk1).
    { destruct (persists_trans _ _ _ E1 E2) as ((_&_&K)&_).
      destruct (K _ _ L0) as (c'&Hc'&Hk'). by exists c'. }
    destruct (afterCallback_sound (length (promises m)) (aret body) m1 A2) as (A3&E3).
    injection H as <- <-.
    destruct (caught_sound (length (promises m))
                (afterCallback (length (promises m)) (aret body) m1) A3)
      as (A5&E5&C5).
    { destruct E3 as ((_&_&K)&_). destruct (K _ _ Hc1) as (c'&Hc'&Hk').
      exists c'. split; [done|congruence]. }
    split; [done|]. split; [eauto 10 using persists_trans|done].
  - destruct (record_sound (ConvertThrow v e0) (snd (newCell KRequest m)) A0)
      as (A1&E1).
    remember (record (ConvertThrow v e0) (snd (newCell KRequest m))) as m0 eqn:Em0.
    assert (exists c, promises m0 !! length (promises m) = Some c /\ ckind c = KRequest)
      as (c0&Hc0&Hk0).
    { destruct E1 as ((_&_&K)&_). destruct (K _ _ L0) as (c'&Hc'&Hk'). by exists c'. }
    destruct (rejectWith_sound (length (promises m)) e0 m0 A1) as (A2&E2).
    injection H as <- <-.
    destruct (caught_sound (length (promises m))
                (rejectWith (length (promises m)) e0 m0) A2) as (A5&E5&C5).
    { destruct E2 as ((_&_&K)&_). destruct (K _ _ Hc0) as (c'&Hc'&Hk').
      exists c'. split; [done|congruence]. }
    split; [done|]. split; [eauto 10 using persists_trans|done].
Qed.

End Open.

Lemma withPayload_sound fuel c v m q m' :
  withPayload production req fuel c v m = Some (q, m') -> sound m ->
  sound m' /\ persists m m' /\ chain_cell q m'.
Proof.
  revert c v m q m'. induction fuel as [|fuel IH]; [done|].
  intros c v m q m' H A. rewrite withPayload_unfold in H.
  destruct (hooks req c !! idx c m) as [hook|] eqn:Hh.
  - cbv zeta in H.
    destruct (newCell_sound (KStep c) m A) as (A0&E0&L0).
    destruct (record_sound (HookCall c (idx c m) (createContext req c v m))
                (snd (newCell (KStep c) m)) A0) as (A1&E1).
    destruct (runCalls _ _ _ _ _ _) as [[thrown m1]|] eqn:E; [|done].
    apply (runCalls_sound _ IH) in E as (A2&E2); [|done].
    assert (chain_cell (length (promises m)) m1) as C1.
    { eapply chain_cell_ext; [apply (persists_trans _ _ _ E1 E2)|].
      eexists. split; [exact L0|done]. }
    destruct (from_option _ _ _) as [e|]; injection H as <- <-.
    + destruct (rejectWith_sound (length (promises m)) e m1 A2) as (A3&E3).
      split; [done|]. split; [eauto using persists_trans|].
      eapply chain_cell_ext; [apply E3|done].
    + split; [done|]. split; [eauto using persists_trans|done].
  - assert (terminal c v m = (q, m')) as Ht by congruence.
    destruct (terminal_sound c v m A) as (A1&E1&C1).
    rewrite Ht in A1, E1, C1. by simpl in *.
Qed.

Lemma final_sound c v m :
  pending (res m) = false ->
  sound m ->
  sound (snd (final c v m)) /\ persists m (snd (final c v m))
  /\ delivered (snd (final c v m)) (fst (final c v m)).
Proof.
  intros Hp A. rewrite final_effect. simpl.
  match goal with
  | |- sound ?x /\ _ /\ _ =>
      destruct (sound_frame m x) as (A1&E1); try done; try (by eexists)
  end.
  { exists []. by rewrite app_nil_r. }
  split; [done|]. split; [done|].
  exists (S (length (heap m))), (res m),
    v. simpl. split; [done|].
  split; [rewrite lookup_app_r by lia;
          by replace (S (length (heap m)) - length (heap m)) with 1 by lia|].
  split; [rewrite lookup_app_r by lia;
          by replace (S (S (length (heap m))) - length (heap m)) with 2 by lia|].
  split; [done|]. apply elem_of_app. right. right. left.
Qed.

Lemma pop_sound j q m :
  microtasks m = j :: q -> sound m ->
  sound (set_microtasks q m) /\ persists m (set_microtasks q m)
  /\ job_sound (set_microtasks q m) j.
Proof.
  intros Q (Hc&Hj). rewrite Q in Hj. apply Forall_cons in Hj as (Hj1&Hj2).
  assert (persists m (set_microtasks q m)) as E.
  { apply persists_frame; [done|exists []; by rewrite app_nil_r..]. }
  split; [|split; [done|by eapply job_sound_ext]]. split; simpl.
  - eapply Forall_impl; [exact Hc|]. intros c. by apply cell_sound_ext.
  - eapply Forall_impl; [exact Hj2|]. intros j'. by apply job_sound_ext.
Qed.

Lemma runJob_sound fuel j m m' :
  runJob production adapter req fuel j m = Some m' ->
  (forall c v d, j = JFinal c v d -> c <> Before -> pending (res m) = false) ->
  sound m -> job_sound m j ->
  sound m' /\ persists m m'.
Proof.
  intros H Hpend A J. destruct j as [c v d|p q|r o|d o|p e]; unfold runJob in H.
  - destruct c.
    + destruct (doRequest _ _ _ _) as [[q m1]|] eqn:E; [|done]. injection H as <-.
      apply (doRequest_sound _ (withPayload_sound fuel)) in E as (A1&E1&C1); [|done].
      destruct (resolveWith_sound d q m1 A1 C1) as (A2&E2).
      split; [done|by eapply persists_trans].
    + destruct (final_sound Done v m) as (A1&E1&D1); [by eapply Hpend|done|].
      destruct (final Done v m) as [s m1]. injection H as <-. simpl in *.
      destruct (settle_sound d (Fulfilled s) m1 A1) as (A2&E2); [by right|].
      split; [done|by eapply persists_trans].
    + destruct (final_sound Fail v m) as (A1&E1&D1); [by eapply Hpend|done|].
      destruct (final Fail v m) as [s m1]. injection H as <-. simpl in *.
      destruct (settle_sound d (Fulfilled s) m1 A1) as (A2&E2); [by right|].
      split; [done|by eapply persists_trans].
  - injection H as <-. apply subscribe_sound; [done|]. simpl in J.
    destruct J as (c&Hc&Hk). by rewrite (cell_at_lookup _ _ _ Hc).
  - destruct r as [p|d]; [|destruct o as [v|e]]; injection H as <-.
    + apply settle_sound; [done|]. destruct o as [v|e]; [by right|done].
    + apply settle_sound; [done|]. by right.
    + destruct (emit_sound (EvError e) m A) as (A1&E1).
      destruct (settle_sound d (Rejected e) (throwError e m) A1) as (A2&E2); [done|].
      split; [done|by eapply persists_trans].
  - simpl in J. destruct J as (c&Hc&Hk). destruct o as [v|e].
    + assert (sound (setState cancelDiff m) /\ persists m (setState cancelDiff m))
        as (A1&E1).
      { destruct (setState_event cancelDiff m) as (Hb&_&_).
        destruct (setState_heap cancelDiff m) as (Hh&Ht).
        apply sound_frame; [done|done|by eexists| |by eexists|done].
        exists []. by rewrite app_nil_r. }
      remember (setState cancelDiff m) as m1 eqn:Em1. unfold pickState in H.
      injection H as <-.
      match goal with
      | |- context [settle ?a ?b ?x] =>
          assert (sound x /\ persists m1 x) as (A2&E2)
      end.
      { apply sound_frame;
          [done|done|by eexists|exists []; by rewrite app_nil_r|by eexists|done]. }
      match goal with
      | |- context [settle ?a ?b ?x] =>
          destruct (settle_sound a b x A2) as (A3&E3)
      end.
      { left. destruct (persists_trans _ _ _ E1 E2) as ((_&_&K)&_).
        destruct (K _ _ Hc) as (c'&Hc'&Hk').
        rewrite (cell_at_lookup _ _ _ Hc'). congruence. }
      split; [done|eauto using persists_trans].
    + injection H as <-. by apply settle_sound.
  - injection H as <-. by apply rejectWith_sound.
Qed.

Lemma afterCancelCallback_sound o m :
  sound m -> sound (afterCancelCallback o m) /\ persists m (afterCancelCallback o m).
Proof.
  intros A. destruct (newCell_sound KCancel m A) as (A2&E2&L2).
  destruct o as [|e|e|]; simpl.
  - match goal with
    | |- context [enqueue ?j ?x] =>
        destruct (enqueue_sound j x A2) as (A3&E3)
    end.
    { simpl. eexists. split; [exact L2|done]. }
    split; [done|eauto using persists_trans].
  - split; [done|apply persists_refl].
  - match goal with
    | |- context [enqueue ?j ?x] =>
        destruct (enqueue_sound j x A2) as (A3&E3)
    end.
    { simpl. eexists. split; [exact L2|done]. }
    split; [done|eauto using persists_trans].
  - done.
Qed.

Lemma cancel_sound fuel m m' :
  cancel production req fuel m = Some m' -> sound m -> sound m' /\ persists m m'.
Proof.
  unfold cancel. intros H A.
  destruct (record_sound (CancelCall (cancelCallback m)) m A) as (A1&E1).
  destruct (adapterCalls _ _ _ _) as [m1|] eqn:E; [|done]. injection H as <-.
  apply (adapterCalls_sound _ (withPayload_sound fuel)) in E as (A2&E2); [|done].
  destruct (afterCancelCallback_sound (outcome_of (cancelCallback m)) m1 A2)
    as (A3&E3).
  split; [done|eauto using persists_trans].
Qed.

Lemma perform_sound fuel i m m' :
  perform production adapter req fuel i m = Some m' ->
  lifecycle m -> sound m -> sound m' /\ persists m m'.
Proof.
  intros H L A. destruct i as [| |c p cap v|inner a|inner e]; simpl in H.
  - destruct (microtasks m) as [|j q] eqn:Q.
    + injection H as <-. split; [done|apply persists_refl].
    + destruct (pop_sound j q m Q A) as (A1&E1&J1).
      apply runJob_sound in H as (A2&E2); [| |done|done].
      * split; [done|by eapply persists_trans].
      * intros c v d -> Hc. simpl.
        destruct (pending (res m)) eqn:Ep; [|done]. destruct L as (L1&_).
        destruct (L1 Ep) as (_&_&_&L4). destruct Hc. apply (L4 c v d).
        rewrite Q. by left.
  - by apply cancel_sound in H.
  - destruct (ckind (cell_at p m)); try done.
    destruct (promises m !! p); [|done]. case_bool_decide; [|done].
    destruct (invoke _ _ _ _ _ _) as [[r m1]|] eqn:E; [|done]. injection H as <-.
    by apply (invoke_sound _ (withPayload_sound fuel)) in E.
  - destruct (ckind (cell_at inner m)); try done.
    destruct (promises m !! inner); [|done].
    by apply (adapterCall_sound _ (withPayload_sound fuel)) in H.
  - destruct (ckind (cell_at inner m)) eqn:Ek; try done.
    destruct (promises m !! inner) as [c|] eqn:El; [|done]. injection H as <-.
    by apply enqueue_sound.
Qed.

Lemma reachable_sound m : reachable production adapter req m -> sound m.
Proof.
  induction 1 as [fuel p m H|fuel i m m' Hr IH H].
  - unfold apicase in H. apply withPayload_sound in H as (A&_); [done|].
    split; constructor.
  - eapply perform_sound; eauto.
    by apply (reachable_lifecycle production adapter req).
Qed.

End Sound.

Lemma performAll_sound production adapter req fuel inputs m m' :
  performAll production adapter req fuel inputs m = Some m' ->
  reachable production adapter req m -> sound m ->
  sound m' /\ persists m m'.
Proof.
  revert m. induction inputs as [|i inputs IH]; simpl; intros m H Hr A.
  - injection H as <-. split; [done|apply persists_refl].
  - destruct (perform _ _ _ _ _ _) as [m1|] eqn:E; [|done].
    pose proof (reach_perform _ _ _ _ _ _ _ Hr E) as Hr1.
    apply perform_sound in E as (A1&E1);
      [|by apply (reachable_lifecycle production adapter req)|done].
    apply IH in H as (A2&E2); [|done|done].
    split; [done|by eapply persists_trans].
Qed.

(** X9. The completion promise fulfils only with the snapshot a [final]
    returned.  At every point of every request, whatever the hooks and
    the adapter do: if [res.promise] is fulfilled with [v], then [v] is a
    snapshot object of its own, built right after the one a [finish]
    event on the bus carries and with the same fields, in which [pending]
    is false. *)
Theorem completion_fulfils_with_final_snapshot production adapter req fuel inputs p m v :
  session production adapter req fuel inputs = Some (p, m) ->
  settled p m = Some (Fulfilled v) ->
  exists l s r,
    v = VRef (S l) /\ heap m !! l = Some s /\ heap m !! S l = Some s
    /\ pending s = false /\ EvFinish r l ∈ bus m.
Proof.
  intros H S. unfold session in H.
  destruct (apicase _ _ _ _) as [[p0 m0]|] eqn:E0; [|done].
  destruct (performAll _ _ _ _ _ _) as [m1|] eqn:E1; [|done].
  injection H as -> ->.
  pose proof (reach_apicase _ _ _ _ _ _ E0) as Hr.
  apply (withPayload_sound production req) in E0 as (A0&_&C0); [|split; constructor].
  apply performAll_sound in E1 as ((Hcells&_)&X1); [|done|done].
  destruct (chain_cell_ext p m0 m (proj1 X1) C0) as (c&Hc&Hk).
  pose proof (Forall_lookup_1 _ _ _ _ Hcells Hc) as Hok.
  unfold settled in S. rewrite (cell_at_lookup _ _ _ Hc) in S.
  unfold cell_sound in Hok. destruct (pst c) as [rs|o]; [done|].
  injection S as ->. destruct Hok as [Hcancel|Hd]; [|exact Hd].
  rewrite Hcancel in Hk. discriminate Hk.
Qed.

Lemma completion_fulfils_with_final_snapshot_witness :
  exists m s,
    session false (resolves (VStr "ok")) (plain VNull a1) 1 (repeat ITick 8)
      = Some (0, m)
    /\ settled 0 m = Some (Fulfilled (VRef 2))
    /\ heap m !! 1 = Some s /\ heap m !! 2 = Some s /\ pending s = false.
Proof.
  destruct (session false (resolves (VStr "ok")) (plain VNull a1) 1 (repeat ITick 8))
    as [[p m]|] eqn:E0; [|vm_compute in E0; discriminate E0].
  assert (p = 0 /\ settled 0 m = Some (Fulfilled (VRef 2))) as (->&S).
  { clear -E0. vm_compute in E0. injection E0 as <- <-. by split. }
  destruct (completion_fulfils_with_final_snapshot _ _ _ _ _ _ _ _ E0 S)
    as (l&s&r&[= <-]&H0&H1&Hp&_).
  exists m, s. split; [reflexivity|]. split; [exact S|].
  split; [exact H0|]. split; [exact H1|exact Hp].
Defined.

(** ** An adapter that settles twice *)

(** X11. An adapter that settles twice runs two chains.  With no hooks
    and a callback that calls [resolve] or [reject] with [r1] and then
    again with [r2]: both terminal steps update the state at once, so it
    ends with the second result and the second call's [success]; later
    both finals run, each emitting its [done] or [fail] and its [finish]
    with snapshots of that last state; and the completion promise
    fulfils with the snapshot of the first final. *)
Theorem second_settlement_runs_its_chain production ok1 r1 ok2 r2 meta0 payload0 :
  exists m,
    session production (settles_twice ok1 r1 ok2 r2) (plain meta0 payload0) 1
      (repeat ITick 12) = Some (0, m)
    /\ microtasks m = []
    /\ res m = mkState ok2 false false payload0 r2 meta0
    /\ bus m = [ChangePayload (VObj []) payload0;
                ChangeResult VNull r1; ChangeResult r1 r2;
                if ok1 then EvDone r1 0 else EvFail r1 0; EvFinish r1 1;
                if ok2 then EvDone r2 3 else EvFail r2 3; EvFinish r2 4]
    /\ settled 0 m = Some (Fulfilled (VRef 2))
    /\ heap m !! 0 = Some (res m) /\ heap m !! 2 = Some (res m).
Proof.
  destruct production, ok1, ok2;
    (eexists; split; [vm_compute; reflexivity|]); by repeat split.
Qed.

(** ** Coming to rest *)

(** X12. Promise plumbing cannot loop.  When no rejection is under way
    and the queue holds only jobs that pass a fulfilment on and the finals
    of the done- and fail-chain, the request comes to rest within
    [potential m] microtasks: the queue empties, the state is as before,
    and the bus has gained exactly the events of the queued finals. *)
Theorem calm_request_comes_to_rest production adapter req fuel m :
  calm m ->
  exists n m',
    n <= potential m
    /\ performAll production adapter req fuel (repeat ITick n) m = Some m'
    /\ microtasks m' = [] /\ res m' = res m
    /\ bus m' = bus m ++ queue_events (length (heap m)) (microtasks m).
Proof.
  remember (potential m) as k eqn:Ek. revert m Ek.
  induction k as [k IH] using lt_wf_ind. intros m Ek Hc.
  destruct (microtasks m) as [|j q] eqn:Q.
  - exists 0, m. simpl. rewrite app_nil_r. repeat split; try done. lia.
  - destruct (calm_tick production adapter req fuel j q m Q Hc)
      as (m1&E&Hc1&Hp&Hr&Hb).
    destruct (IH (potential m1) ltac:(lia) m1 eq_refl Hc1)
      as (n&m'&Hn&Hrun&Hq&Hres&Hbus).
    exists (S n), m'. split; [lia|]. simpl. rewrite Q, E.
    split; [exact Hrun|]. split; [done|]. split; [congruence|].
    rewrite Hbus, Hb. by rewrite Q.
Qed.

Lemma calm_request_comes_to_rest_witness :
  exists m0 n m',
    session false (resolves (VStr "ok")) (plain VNull a1) 1 [ITick] = Some (0, m0)
    /\ n <= potential m0
    /\ performAll false (resolves (VStr "ok")) (plain VNull a1) 1 (repeat ITick n) m0
       = Some m'
    /\ microtasks m' = []
    /\ bus m' = bus m0 ++ [EvDone (VStr "ok") 0; EvFinish (VStr "ok") 1].
Proof.
  destruct (session false (resolves (VStr "ok")) (plain VNull a1) 1 [ITick])
    as [[p m0]|] eqn:E0; [|vm_compute in E0; discriminate E0].
  assert (p = 0 /\ calm m0
          /\ queue_events (length (heap m0)) (microtasks m0)
             = [EvDone (VStr "ok") 0; EvFinish (VStr "ok") 1]) as (->&Hc&Hq).
  { clear -E0. vm_compute in E0. injection E0 as <- <-. split; [reflexivity|].
    split; [|reflexivity]. split.
    - repeat constructor; simpl; done.
    - repeat constructor; intros e; simpl; discriminate. }
  destruct (calm_request_comes_to_rest false (resolves (VStr "ok")) (plain VNull a1)
              1 m0 Hc) as (n&m'&Hn&Hrun&Hmt&_&Hb).
  exists m0, n, m'. split; [reflexivity|]. split; [exact Hn|].
  split; [exact Hrun|]. split; [exact Hmt|]. by rewrite Hb, Hq.
Defined.

(** ** Chains that only continue *)

Section OnlyNext.

Variable production : bool.
Variable req : Request.
Variable c : chain.

Hypothesis next_only : only_next req c.

Lemma withPayload_returns fuel v m :
  length (hooks req c) - idx c m < fuel ->
  exists q m', withPayload production req fuel c v m = Some (q, m')
    /\ idx c m <= idx c m'.
Proof using next_only.
  revert v m. induction fuel as [|fuel IH]; [lia|]. intros v m Hf.
  rewrite withPayload_unfold.
  destruct (hooks req c !! idx c m) as [hook|] eqn:Hh.
  2:{ rewrite terminal_unfold. eexists _, _. split; [reflexivity|].
      simpl. by destruct c. }
  cbv zeta.
  assert (idx c m < length (hooks req c)) as Hlt by (by eapply lookup_lt_Some).
  assert (forall cs m0,
            (forall cap w, (cap, w) ∈ cs -> cap = cap_next) -> idx c m <= idx c m0 ->
            exists r m1,
              runCalls production (withPayload production req fuel) c
                (length (promises m)) cs m0 = Some (r, m1)
              /\ idx c m0 <= idx c m1) as Hcalls.
  { induction cs as [|[cap w] cs IHcs]; intros m0 Hcs Hm0; simpl.
    - eexists _, _. split; [reflexivity|lia].
    - rewrite (Hcs cap w) by (by left). unfold invoke.
      assert (available c cap_next = true) as -> by (by destruct c).
      change (target c cap_next) with c.
      destruct (IH w (update c w (bump c m0))) as (q&m1&E&Hi).
      { assert (idx c (update c w (bump c m0)) = S (idx c m0)) as ->
          by (by destruct c).
        lia. }
      rewrite E.
      destruct (tryResolve_frame production c (length (promises m)) q m1)
        as (_&_&_&Hidx&_).
      destruct (IHcs (tryResolve production c (length (promises m)) q m1))
        as (r&m2&E2&Hi2).
      + intros cap' w' Hin. apply (Hcs cap' w'). by right.
      + rewrite Hidx. assert (idx c (update c w (bump c m0)) = S (idx c m0)) as Hs
          by (by destruct c).
        lia.
      + exists r, m2. split; [exact E2|]. rewrite Hidx in Hi2.
        assert (idx c (update c w (bump c m0)) = S (idx c m0)) as Hs
          by (by destruct c).
        lia. }
  match goal with
  | |- context [runCalls _ _ _ _ ?cs ?m0] =>
      destruct (Hcalls cs m0) as (r&m1&E&Hi)
  end.
  - intros cap w Hin. eapply next_only; [|exact Hin].
    by eapply list_elem_of_lookup_2.
  - simpl. by destruct c.
  - rewrite E.
    assert (idx c (record (HookCall c (idx c m) (createContext req c v m))
                     (snd (newCell (KStep c) m))) = idx c m) as Hrec
      by (by destruct c).
    rewrite Hrec in Hi.
    destruct (from_option _ _ _) as [e|].
    + eexists _, _. split; [reflexivity|].
      destruct (plumbing_rejectWith (length (promises m)) e m1) as (_&H1&H2&H3&_).
      destruct c; simpl in *; lia.
    + eexists _, _. split; [reflexivity|done].
Qed.

End OnlyNext.

(** X13. A before-chain whose hooks use no capability but [next] always
    returns: whatever the hooks pass on, however often each calls [next],
    and whether or not they throw, [apicase] returns the handle with
    nesting no deeper than the number of before-hooks plus one. *)
Theorem next_only_request_returns production adapter req :
  only_next req Before ->
  exists p m,
    apicase production adapter req (S (length (hooks req Before))) = Some (p, m).
Proof.
  intros H. unfold apicase.
  destruct (withPayload_returns production req Before H
              (S (length (hooks req Before))) (req_payload req) (init adapter req))
    as (q&m'&E&_); [simpl; lia|].
  by exists q, m'.
Qed.

Lemma next_only_request_returns_witness :
  exists p m,
    apicase false (resolves (VStr "ok"))
      (mkRequest VNull a1 [calls_next_twice (VNum 1) (VNum 2); passes] [] [] false) 3
    = Some (p, m).
Proof.
  apply (next_only_request_returns false (resolves (VStr "ok"))
           (mkRequest VNull a1 [calls_next_twice (VNum 1) (VNum 2); passes] [] [] false)).
  intros h n ctx cap v Hin Hc. unfold hooks in Hin. simpl in Hin.
  apply elem_of_cons in Hin as [->|Hin].
  - simpl in Hc. apply elem_of_cons in Hc as [[= -> _]|Hc]; [done|].
    apply list_elem_of_singleton in Hc. by injection Hc as -> _.
  - apply list_elem_of_singleton in Hin as ->. simpl in Hc.
    apply list_elem_of_singleton in Hc. by injection Hc as -> _.
Defined.

(** ** Diagnostics *)

Section Console.

Variable production : bool.
Variable adapter : Adapter.
Variable req : Request.

Lemma reports_same m m' : console m' = console m -> reports production m m'.
Proof. intros H. exists []. by rewrite H, app_nil_r. Qed.

Lemma reports_trans a b c :
  reports production a b -> reports production b c -> reports production a c.
Proof.
  intros (d1&C1&P1&F1) (d2&C2&P2&F2). exists (d1 ++ d2).
  rewrite C2, C1, app_assoc. split; [done|]. split.
  - intros Hp. by rewrite P1, P2.
  - by apply Forall_app.
Qed.

Lemma tryResolve_reports c p q m : reports production m (tryResolve production c p q m).
Proof.
  unfold tryResolve.
  destruct (negb production && isResolved (cell_at p m)) eqn:E.
  - exists [ResolveTwice c (idx c m)]. split; [done|]. split.
    + intros Hp. rewrite Hp in E. discriminate E.
    + by repeat constructor.
  - apply reports_same. by rewrite resolveWith_console.
Qed.

Lemma withPayload_reports fuel c v m q m' :
  withPayload production req fuel c v m = Some (q, m') -> reports production m m'.
Proof.
  apply (withPayload_traced production req (reports production)).
  - intros m0. by apply reports_same.
  - apply reports_trans.
  - intros m0 m1 _ _ Hc. by apply reports_same.
  - apply tryResolve_reports.
  - intros c0 v0 m0. apply reports_same. by destruct c0.
  - intros c0 v0 m0 _. rewrite terminal_unfold. apply reports_same. by destruct c0.
  - intros c0 v0 m0 h _. by apply reports_same.
Qed.

Lemma perform_reports fuel i m m' :
  perform production adapter req fuel i m = Some m' -> reports production m m'.
Proof.
  apply (perform_traced production adapter req (reports production)).
  - intros m0. by apply reports_same.
  - apply reports_trans.
  - intros m0 m1 _ _ Hc. by apply reports_same.
  - apply tryResolve_reports.
  - intros c0 v0 m0. apply reports_same. by destruct c0.
  - intros c0 v0 m0 _. rewrite terminal_unfold. apply reports_same. by destruct c0.
  - intros c0 v0 m0 h _. by apply reports_same.
  - intros a r body m0. by apply reports_same.
  - intros v0 e m0. by apply reports_same.
  - intros cb m0. by apply reports_same.
  - intros n a m0. by apply reports_same.
  - intros j q m0 _. by apply reports_same.
  - intros c0 v0 d q m0 _ _. rewrite final_effect. by apply reports_same.
  - intros e m0. by apply reports_same.
  - intros d v0 q m0 _. by apply reports_same.
  - intros m0. by apply reports_same.
Qed.

End Console.

(** X14. The console.  The deprecation warning is printed exactly when
    the request has an [options] key, once, before anything else; every
    other diagnostic of a request is the report of an attempt to resolve
    a hook twice, and in production mode there is none. *)
Theorem diagnostics_of_a_request production adapter req fuel inputs p m :
  session production adapter req fuel inputs = Some (p, m) ->
  exists ds,
    console m = (if req_options req then [DeprecatedOptions] else []) ++ ds
    /\ (production = true -> ds = [])
    /\ Forall is_report ds.
Proof.
  unfold session. intros H.
  destruct (apicase _ _ _ _) as [[p0 m0]|] eqn:E0; [|done].
  destruct (performAll _ _ _ _ _ _) as [m1|] eqn:E1; [|done].
  injection H as _ <-.
  apply withPayload_reports in E0.
  assert (reports production m0 m1) as R1.
  { clear E0. revert m0 E1. induction inputs as [|i inputs IH]; simpl; intros m0 E1.
    - injection E1 as <-. by apply reports_same.
    - destruct (perform _ _ _ _ _ _) as [m2|] eqn:E; [|done].
      eapply reports_trans; [eapply perform_reports, E|by apply IH]. }
  exact (reports_trans production _ _ _ E0 R1).
Qed.

Lemma diagnostics_of_a_request_witness :
  exists m,
    session false (resolves (VStr "ok"))
      (mkRequest VNull a1 [calls_next_twice (VNum 1) (VNum 2)] [] [] true) 3
      (repeat ITick 12) = Some (0, m)
    /\ console m = [DeprecatedOptions; ResolveTwice Before 2].
Proof.
  destruct (session false (resolves (VStr "ok"))
              (mkRequest VNull a1 [calls_next_twice (VNum 1) (VNum 2)] [] [] true) 3
              (repeat ITick 12)) as [[p m]|] eqn:E0;
    [|vm_compute in E0; discriminate E0].
  destruct (diagnostics_of_a_request _ _ _ _ _ _ _ E0) as (ds&Hc&_&_).
  assert (p = 0 /\ console m = [DeprecatedOptions; ResolveTwice Before 2]) as (->&Hm).
  { clear -E0. vm_compute in E0. injection E0 as <- <-. by split. }
  exists m. split; [reflexivity|]. exact Hm.
Defined.

(** ** [convert] and [createState] *)

(** X15. [convert] and [createState] reach only the adapter.  With no
    hooks and an adapter that resolves (or rejects) with [r] at once, for
    every [convert] function [f] and initial adapter state [s0]: the
    callback is called once, with [f payload] as its payload and [s0] as
    its result; the state keeps the unconverted payload; [s0] is the
    [prev] of the one [change:result]; and the request ends with [done]
    (or [fail]) and [finish] carrying [r]. *)
Theorem convert_and_createState_reach_the_adapter production (ok : bool) r f s0 meta0 payload0 :
  exists m,
    session production
      (mkAdapter (fun _ _ _ => mkAdapterBody [if ok then AResolve r else AReject r]
                                 RetPlain)
         (Some f) (Some s0))
      (plain meta0 payload0) 1 (repeat ITick 8) = Some (0, m)
    /\ microtasks m = []
    /\ trace m = [AdapterCallback (f payload0) s0
                    (mkAdapterBody [if ok then AResolve r else AReject r] RetPlain)]
    /\ res m = mkState ok false false payload0 r meta0
    /\ bus m = [ChangePayload (VObj []) payload0; ChangeResult s0 r;
                if ok then EvDone r 0 else EvFail r 0; EvFinish r 1]
    /\ settled 0 m = Some (Fulfilled (VRef 2))
    /\ heap m !! 2 = Some (res m).
Proof.
  destruct production, ok;
    (eexists; split; [vm_compute; reflexivity|]); by repeat split.
Qed.

(** ** Redirects *)

(** X16. A redirect replaces the outcome.  The adapter resolves with
    [r] and the one done-hook calls [ctx.fail(x)]: the done-chain never
    updates the state, the fail-chain ends the request with
    [success: false] and result [x], and only [fail] and [finish] are
    emitted.  The other way round, the adapter rejects and the one
    fail-hook calls [ctx.done(x)]: the request ends with [success: true],
    result [x], [done] and [finish].  In both cases [r] appears nowhere
    in the state or on the bus. *)
Theorem redirect_replaces_the_outcome production (demote : bool) r x meta0 payload0 :
  exists m,
    session production (settles demote r)
      (if demote
       then mkRequest meta0 payload0 [] [redirects cap_fail x] [] false
       else mkRequest meta0 payload0 [] [] [redirects cap_done x] false)
      3 (repeat ITick 12) = Some (0, m)
    /\ microtasks m = []
    /\ res m = mkState (negb demote) false false payload0 x meta0
    /\ bus m = [ChangePayload (VObj []) payload0; ChangeResult VNull x;
                if demote then EvFail x 0 else EvDone x 0; EvFinish x 1]
    /\ settled 0 m = Some (Fulfilled (VRef 2))
    /\ heap m !! 2 = Some (res m).
Proof.
  destruct production, demote;
    (eexists; split; [vm_compute; reflexivity|]); by repeat split.
Qed.

(** ** Retry after the before-chain has run *)

Section WindsDown.

Variable production : bool.
Variable req : Request.

Hypothesis winds : winds_down req.

(** With the before-chain at its end, a run of the done- or the
    fail-chain returns: [next] moves the cursor on, and [retry] only
    queues the adapter call. *)
Lemma withPayload_winds fuel c v m :
  c <> Before -> length (hooks req Before) <= idx Before m ->
  length (hooks req c) - idx c m < fuel ->
  exists q m', withPayload production req fuel c v m = Some (q, m').
Proof using winds.
  intros Hc. revert v m. induction fuel as [|fuel IH]; [lia|]. intros v m Hb Hf.
  rewrite withPayload_unfold.
  destruct (hooks req c !! idx c m) as [hook|] eqn:Hh; [|by eexists _, _].
  cbv zeta.
  assert (idx c m < length (hooks req c)) as Hlt by (by eapply lookup_lt_Some).
  assert (forall cs m0,
            (forall cap w, (cap, w) ∈ cs -> cap = cap_next \/ cap = cap_retry) ->
            idx c m <= idx c m0 -> length (hooks req Before) <= idx Before m0 ->
            exists r m1,
              runCalls production (withPayload production req fuel) c
                (length (promises m)) cs m0 = Some (r, m1)) as Hcalls.
  { induction cs as [|[cap w] cs IHcs]; intros m0 Hcs Hm0 Hb0; simpl.
    - by eexists _, _.
    - assert (exists r m1,
                invoke production (withPayload production req fuel) c
                  (length (promises m)) (cap, w) m0 = Some (r, m1)
                /\ idx c m <= idx c m1
                /\ length (hooks req Before) <= idx Before m1) as (r&m1&E&Hi&Hb1).
      { unfold invoke. destruct (available c cap) eqn:Hav; [|by eexists _, _].
        destruct (Hcs cap w) as [-> | ->]; [by left| |].
        - change (target c cap_next) with c.
          assert (idx c (update c w (bump c m0)) = S (idx c m0)
                  /\ idx Before (update c w (bump c m0)) = idx Before m0) as (Hs&Hs')
            by (by destruct c).
          destruct (IH w (update c w (bump c m0))) as (q&m1&E); [lia|lia|].
          rewrite E. eexists _, _. split; [reflexivity|].
          destruct (tryResolve_frame production c (length (promises m)) q m1)
            as (_&_&_&Hidx&_).
          pose proof (withPayload_grows _ _ _ _ _ _ _ _ E) as (G&_).
          rewrite !Hidx. pose proof (G c). pose proof (G Before). lia.
        - change (target c cap_retry) with Before.
          assert (exists fuel', fuel = S fuel') as (fuel'&->)
            by (destruct fuel; [lia|by eexists]).
          rewrite withPayload_terminal by (by apply lookup_ge_None_2).
          eexists _, _. split; [reflexivity|].
          destruct (tryResolve_frame production c (length (promises m))
                      (fst (terminal Before w m0)) (snd (terminal Before w m0)))
            as (_&_&_&Hidx&_).
          rewrite !Hidx. rewrite terminal_unfold. simpl. by destruct c. }
      rewrite E. destruct r as [e|]; [by eexists _, _|].
      apply IHcs; [|done|done].
      intros cap' w' Hin. apply (Hcs cap' w'). by right. }
  match goal with
  | |- context [runCalls _ _ _ _ ?cs ?m0] =>
      destruct (Hcalls cs m0) as (r&m1&E)
  end.
  - intros cap w Hin. eapply (winds c); [done| |exact Hin].
    by eapply list_elem_of_lookup_2.
  - simpl. by destruct c.
  - simpl. by destruct c.
  - rewrite E. destruct (from_option _ _ _); by eexists _, _.
Qed.

(** So what an adapter does at once returns. *)
Lemma adapterCalls_winds fuel inner cs m :
  length (hooks req Before) <= idx Before m ->
  length (hooks req Done) < fuel -> length (hooks req Fail) < fuel ->
  exists m', adapterCalls (withPayload production req fuel) inner cs m = Some m'.
Proof using winds.
  intros Hb Hd Hf. revert m Hb. induction cs as [|a cs IH]; intros m Hb; simpl.
  - by eexists.
  - assert (exists m1, adapterCall (withPayload production req fuel) inner a m = Some m1)
      as (m1&E).
    { unfold adapterCall. destruct a as [r|r|cb|n x]; try by eexists.
      - destruct (withPayload_winds fuel Done r m) as (q&m1&E); [done|done|lia|].
        rewrite E. by eexists.
      - destruct (withPayload_winds fuel Fail r m) as (q&m1&E); [done|done|lia|].
        rewrite E. by eexists. }
    rewrite E. apply IH.
    assert (adapterCalls (withPayload production req fuel) inner [a] m = Some m1) as E'
      by (simpl; by rewrite E).
    apply (adapterCalls_kept grows) in E'.
    + destruct E' as (G&_). specialize (G Before). lia.
    + apply grows_refl.
    + apply grows_trans.
    + apply grows_plumbing.
    + intros. eapply withPayload_grows; eauto.
    + intros. repeat split; auto; exists []; by rewrite app_nil_r.
    + intros. apply grows_emit.
Qed.

End WindsDown.

(** The job of the adapter call, when what the adapter's callback does
    at once returns: [convert] is applied to the payload; if it returns,
    the adapter is called with what it returned and the current
    [res.result], and if it throws the adapter is not called. *)
Lemma adapter_job production adapter req fuel v d q m :
  microtasks m = JFinal Before v d :: q ->
  (forall w body m0,
     convert_result adapter v = Returns w ->
     body = callback adapter (adapterRuns (trace m)) w (result (res m)) ->
     m0 = record (AdapterCallback w (result (res m)) body)
            (snd (newCell KRequest (set_microtasks q m))) ->
     exists m1,
       adapterCalls (withPayload production req fuel) (length (promises m))
         (acalls body) m0 = Some m1) ->
  exists m' cs,
    perform production adapter req fuel ITick m = Some m'
    /\ trace m' = trace m
         ++ match convert_result adapter v with
            | Returns w =>
                AdapterCallback w (result (res m))
                  (callback adapter (adapterRuns (trace m)) w (result (res m)))
            | Throws e => ConvertThrow v e
            end :: cs.
Proof.
  intros Q Hret. unfold perform. rewrite Q. unfold runJob.
  assert (exists q' m1,
            doRequest adapter (withPayload production req fuel) v (set_microtasks q m)
            = Some (q', m1)) as (q'&m1&E).
  { rewrite doRequest_unfold. cbv zeta.
    destruct (convert_result adapter v) as [w|e] eqn:Ec; [|by eexists _, _].
    destruct (Hret w _ _ eq_refl eq_refl eq_refl) as (m1&E).
    simpl in E |- *. rewrite E. by eexists _, _. }
  rewrite E.
  assert (exists cs,
            trace m1 = trace m
              ++ match convert_result adapter v with
                 | Returns w =>
                     AdapterCallback w (result (res m))
                       (callback adapter (adapterRuns (trace m)) w (result (res m)))
                 | Throws e => ConvertThrow v e
                 end :: cs) as (cs&T).
  { destruct (convert_result adapter v) as [w|e] eqn:Ec.
    - destruct (doRequest_trace _ _ _ _ _ _ _ _ _ Ec E) as (body&cs&->&T).
      by exists cs.
    - rewrite doRequest_unfold, Ec in E. cbv zeta in E. injection E as _ <-.
      rewrite subscribe_trace. simpl. rewrite rejectWith_trace. simpl.
      by exists []. }
  exists (resolveWith d q' m1), cs. split; [reflexivity|].
  by rewrite resolveWith_trace.
Qed.

(** C10. The cursor of a chain is never reset: no input makes it smaller.
    So when the before-chain has run through all its hooks, a [retry] made
    by a fail-hook calls no hook: it emits the payload change, writes the
    retried payload into the state and queues the adapter call.  That job
    runs to its end whenever what the adapter's callback does at once
    returns, as it does for sure when the done- and fail-hooks use no
    capability but [next] and [retry]; and it calls the adapter with the
    retried payload (as [convert] returns it, if the adapter has one). *)
Theorem retry_skips_finished_before production adapter req m :
  length (hooks req Before) <= idx Before m ->
  (forall fuel p v,
     exists d m1,
       invoke production (withPayload production req (S fuel)) Fail p (cap_retry, v) m
         = Some (None, m1)
       /\ trace m1 = trace m
       /\ (forall c, idx c m1 = idx c m)
       /\ bus m1 = bus m ++ [ChangePayload (payload (res m)) v]
       /\ payload (res m1) = v
       /\ exists js, microtasks m1 = microtasks m ++ JFinal Before v d :: js)
  /\ (forall fuel v d q w,
        microtasks m = JFinal Before v d :: q ->
        convert_result adapter v = Returns w ->
        (exists m1,
           adapterCalls (withPayload production req fuel) (length (promises m))
             (acalls (callback adapter (adapterRuns (trace m)) w (result (res m))))
             (record (AdapterCallback w (result (res m))
                        (callback adapter (adapterRuns (trace m)) w (result (res m))))
                (snd (newCell KRequest (set_microtasks q m)))) = Some m1) ->
        exists m' cs,
          perform production adapter req fuel ITick m = Some m'
          /\ trace m' = trace m
               ++ AdapterCallback w (result (res m))
                    (callback adapter (adapterRuns (trace m)) w (result (res m)))
               :: cs)
  /\ (forall fuel v d q w,
        microtasks m = JFinal Before v d :: q ->
        convert_result adapter v = Returns w ->
        winds_down req ->
        length (hooks req Done) < fuel -> length (hooks req Fail) < fuel ->
        exists m' cs,
          perform production adapter req fuel ITick m = Some m'
          /\ trace m' = trace m
               ++ AdapterCallback w (result (res m))
                    (callback adapter (adapterRuns (trace m)) w (result (res m)))
               :: cs)
  /\ (forall fuel i m' c,
        perform production adapter req fuel i m = Some m' -> idx c m <= idx c m').
Proof.
  intros Hidx. split; [|split; [|split]].
  - intros fuel p v. unfold invoke.
    change (available Fail cap_retry) with true.
    change (target Fail cap_retry) with Before. cbv iota.
    rewrite withPayload_terminal by by apply lookup_ge_None_2.
    destruct (tryResolve_frame production Fail p (fst (terminal Before v m))
                (snd (terminal Before v m))) as (Hr&Hb&Ht&Hi&js&Hq).
    exists (fst (terminal Before v m)),
      (tryResolve production Fail p (fst (terminal Before v m))
         (snd (terminal Before v m))).
    split; [done|]. rewrite Hr, Hb, Ht, Hq.
    do 4 (split; [done|]). exists js. by reassoc.
  - intros fuel v d q w Q Hc Hret.
    destruct (adapter_job production adapter req fuel v d q m Q) as (m'&cs&E&T).
    + intros w' body m0 Hw -> ->. rewrite Hc in Hw. injection Hw as <-. exact Hret.
    + exists m', cs. split; [exact E|]. by rewrite Hc in T.
  - intros fuel v d q w Q Hc Hw Hd Hf.
    destruct (adapter_job production adapter req fuel v d q m Q) as (m'&cs&E&T).
    + intros w' body m0 _ _ ->.
      apply adapterCalls_winds; [done|exact Hidx|done|done].
    + exists m', cs. split; [exact E|]. by rewrite Hc in T.
  - intros fuel i m' c H. by apply perform_grows in H as (H&_).
Qed.

(** The before-chain of one hook has run and the adapter has rejected;
    the fail-hook has called [retry(2)]: the job at the head of the queue
    calls the adapter a second time, with the payload [2], and no
    before-hook is called again. *)
Lemma retry_skips_finished_before_witness :
  exists m m' cs,
    session false flaky
      (mkRequest VNull a1 [passes] [] [retries_once (VNum 2)] false) 3
      [ITick; ITick] = Some (0, m)
    /\ trace m = [HookCall Before 0 (mkCtx VNull a1 VUndefined);
                  AdapterCallback a1 VNull (mkAdapterBody [AReject (VStr "bad")] RetPlain);
                  HookCall Fail 0 (mkCtx VNull a1 (VStr "bad"))]
    /\ microtasks m = [JFinal Before (VNum 2) 4; JThenable 3 4; JThenable 2 3;
                       JThenable 1 5]
    /\ perform false flaky
         (mkRequest VNull a1 [passes] [] [retries_once (VNum 2)] false) 3 ITick m
       = Some m'
    /\ trace m' = trace m
         ++ AdapterCallback (VNum 2) VNull (mkAdapterBody [AResolve (VStr "ok")] RetPlain)
         :: cs.
Proof.
  destruct (session false flaky
              (mkRequest VNull a1 [passes] [] [retries_once (VNum 2)] false) 3
              [ITick; ITick]) as [[p m]|] eqn:E0;
    [|vm_compute in E0; discriminate E0].
  assert (p = 0
          /\ trace m = [HookCall Before 0 (mkCtx VNull a1 VUndefined);
                        AdapterCallback a1 VNull
                          (mkAdapterBody [AReject (VStr "bad")] RetPlain);
                        HookCall Fail 0 (mkCtx VNull a1 (VStr "bad"))]
          /\ microtasks m = [JFinal Before (VNum 2) 4; JThenable 3 4; JThenable 2 3;
                             JThenable 1 5]
          /\ idx Before m = 1 /\ result (res m) = VNull) as (->&Ht&Hq&Hi&Hr).
  { clear -E0. vm_compute in E0. injection E0 as <- <-. by repeat split. }
  destruct (retry_skips_finished_before false flaky
              (mkRequest VNull a1 [passes] [] [retries_once (VNum 2)] false) m)
    as (_&_&H&_); [rewrite Hi; simpl; lia|].
  destruct (H 3 (VNum 2) 4 _ (VNum 2) Hq eq_refl) as (m'&cs&E&T).
  - clear. intros c h n ctx cap v Hc Hh Hin. destruct c; [done| |].
    + by apply elem_of_nil in Hh.
    + apply list_elem_of_singleton in Hh as ->. destruct n; simpl in Hin;
        apply list_elem_of_singleton in Hin; injection Hin as -> _; auto.
  - simpl. lia.
  - simpl. lia.
  - exists m, m', cs. split; [reflexivity|]. split; [exact Ht|]. split; [exact Hq|].
    split; [exact E|]. rewrite T, Ht, Hr. reflexivity.
Defined.

(** ** The change events of the before-chain *)

Section AtOnce.

Variable production : bool.
Variable req : Request.

Hypothesis at_once : Forall continues_at_once (hooks req Before).

(** One step of the before-chain at a hook that calls [next] at once. *)
Lemma withPayload_at_once fuel v m h w :
  hooks req Before !! idx Before m = Some h ->
  calls (h (hookRuns Before (idx Before m) (trace m)) (createContext req Before v m))
    = [(cap_next, w)] ->
  withPayload production req (S fuel) Before v m =
    match withPayload production req fuel Before w
            (update Before w
               (bump Before
                  (record (HookCall Before (idx Before m) (createContext req Before v m))
                     (snd (newCell (KStep Before) m))))) with
    | None => None
    | Some (q, m2) =>
        Some (length (promises m),
              match throws (h (hookRuns Before (idx Before m) (trace m))
                              (createContext req Before v m)) with
              | Some e =>
                  rejectWith (length (promises m)) e
                    (tryResolve production Before (length (promises m)) q m2)
              | None => tryResolve production Before (length (promises m)) q m2
              end)
    end.
Proof.
  intros Hh Hc. rewrite withPayload_unfold, Hh. cbv zeta. rewrite Hc.
  simpl runCalls. unfold invoke.
  change (available Before cap_next) with true. cbv iota.
  change (target Before cap_next) with Before.
  destruct (withPayload _ _ _ _ _ _) as [[q m2]|]; [|done].
  simpl. by destruct (throws _).
Qed.

(** The before-chain from its cursor on, [k] hooks being left: one
    [change:payload] per hook and one more at the terminal step, no call
    of the adapter, and the adapter call queued at the end. *)
Lemma before_run k x v m :
  idx Before m + k = length (hooks req Before) ->
  exists q m',
    withPayload production req (S k + x) Before v m = Some (q, m')
    /\ (exists cps, bus m' = bus m ++ cps /\ length cps = S k
                    /\ Forall (fun e => is_change_payload e = true) cps)
    /\ adapterRuns (trace m') = adapterRuns (trace m)
    /\ idx Before m' = length (hooks req Before)
    /\ exists w d js, microtasks m' = microtasks m ++ JFinal Before w d :: js
                      /\ Forall deferred js.
Proof using at_once.
  revert v m. induction k as [|k IH]; intros v m Hk.
  - assert (hooks req Before !! idx Before m = None) as Hn
      by (apply lookup_ge_None; lia).
    change (1 + x) with (S x).
    rewrite (withPayload_terminal production req x Before v m Hn).
    exists (fst (terminal Before v m)), (snd (terminal Before v m)).
    split; [by rewrite <- surjective_pairing|]. rewrite terminal_unfold. simpl.
    split; [|split; [done|split; [simpl in *; lia|]]].
    + eexists. split; [reflexivity|]. split; [done|]. by repeat constructor.
    + eexists _, _, []. split; [reflexivity|]. constructor.
  - destruct (lookup_lt_is_Some_2 (hooks req Before) (idx Before m)) as [h Hh]; [lia|].
    change (S (S k) + x) with (S (S k + x)).
    pose proof at_once as Hat. rewrite Forall_forall in Hat.
    destruct (Hat h (list_elem_of_lookup_2 _ _ _ Hh)
                (hookRuns Before (idx Before m) (trace m))
                (createContext req Before v m)) as (w&Hw).
    rewrite (withPayload_at_once _ _ _ _ _ Hh Hw).
    set (m0 := record (HookCall Before (idx Before m) (createContext req Before v m))
                 (snd (newCell (KStep Before) m))).
    destruct (IH w (update Before w (bump Before m0)))
      as (q&m2&E&(cps&Hb&Hl&Hf)&Ha&Hi&(w'&d&js&Hq&Hjs)).
    { subst m0. unfold update. simpl in *. lia. }
    rewrite E.
    destruct (tryResolve_frame production Before (length (promises m)) q m2)
      as (_&B3&T3&I3&_).
    destruct (plumbing_tryResolve production Before (length (promises m)) q m2)
      as (_&_&_&_&_&_&_&(js3&Q3&F3)&_).
    set (m3 := tryResolve production Before (length (promises m)) q m2) in *.
    assert (exists m4,
              match throws (h (hookRuns Before (idx Before m) (trace m))
                              (createContext req Before v m)) with
              | Some e => rejectWith (length (promises m)) e m3
              | None => m3
              end = m4
              /\ plumbing m3 m4 /\ trace m4 = trace m3) as (m4&->&Hpl&Ht4).
    { destruct (throws _) as [e|].
      - eexists. split; [reflexivity|]. split; [apply plumbing_rejectWith|].
        apply rejectWith_trace.
      - eexists. split; [reflexivity|]. split; [apply plumbing_refl|done]. }
    destruct Hpl as (_&I4&_&_&_&B4&_&(js4&Q4&F4)&_).
    exists (length (promises m)), m4. split; [reflexivity|].
    split; [|split; [|split]].
    + exists (ChangePayload (payload (res m)) w :: cps).
      rewrite B4, B3, Hb. subst m0. rewrite update_event. simpl.
      split; [by reassoc|]. split; [simpl; lia|]. by constructor.
    + rewrite Ht4, T3, Ha. subst m0. unfold update. simpl.
      by rewrite adapterRuns_app, Nat.add_0_r.
    + specialize (I3 Before). simpl in *. by rewrite I4, I3.
    + exists w', d, (js ++ js3 ++ js4). rewrite Q4, Q3, Hq. subst m0.
      split; [unfold update; simpl; by reassoc|].
      repeat (apply Forall_app; split); done.
Qed.

End AtOnce.

Lemma payload_kept_refl m : payload_kept m m.
Proof. exists []. by rewrite app_nil_r. Qed.

Lemma payload_kept_trans a b c :
  payload_kept a b -> payload_kept b c -> payload_kept a c.
Proof.
  intros (e1&B1&F1) (e2&B2&F2). exists (e1 ++ e2).
  rewrite B2, B1, app_assoc. split; [done|]. by apply Forall_app.
Qed.

Lemma payload_kept_same m m' : bus m' = bus m -> payload_kept m m'.
Proof. intros H. exists []. by rewrite app_nil_r. Qed.

Lemma payload_kept_plumbing m m' : plumbing m m' -> payload_kept m m'.
Proof. intros (_&_&_&_&_&H&_). by apply payload_kept_same. Qed.

Lemma payload_kept_update c v m : c <> Before -> payload_kept m (update c v m).
Proof.
  intros Hc. eexists. split; [apply update_event|]. destruct c; by repeat constructor.
Qed.

Section Quiet.

Variable production : bool.
Variable adapter : Adapter.
Variable req : Request.

Hypothesis no_retry : never_retries req.

Section Open.

Variable run : chain -> value -> Machine -> option (nat * Machine).
Hypothesis run_kept : forall c v m q m',
  c <> Before -> run c v m = Some (q, m') -> payload_kept m m'.

Lemma invoke_payload_kept c p cap v m r m' :
  c <> Before -> (available c cap = true -> target c cap <> Before) ->
  invoke production run c p (cap, v) m = Some (r, m') -> payload_kept m m'.
Proof using run_kept.
  intros Hc Ht. unfold invoke.
  destruct (available c cap); [|intros [= _ <-]; apply payload_kept_refl].
  destruct (run _ _ _) as [[q m1]|] eqn:E; [|done]. intros [= _ <-].
  apply run_kept in E; [|by apply Ht].
  eapply payload_kept_trans;
    [|eapply payload_kept_trans;
       [exact E|apply payload_kept_plumbing, plumbing_tryResolve]].
  destruct cap; try apply payload_kept_refl.
  eapply payload_kept_trans; [|by apply payload_kept_update].
  apply payload_kept_same. by destruct c.
Qed.

Lemma runCalls_payload_kept c p cs m r m' :
  c <> Before ->
  (forall cap v, (cap, v) ∈ cs -> available c cap = true -> target c cap <> Before) ->
  runCalls production run c p cs m = Some (r, m') -> payload_kept m m'.
Proof using run_kept.
  intros Hc. revert m. induction cs as [|[cap v] cs IH]; simpl; intros m Hcs.
  - intros [= _ <-]. apply payload_kept_refl.
  - destruct (invoke _ _ _ _ _ _) as [[[e|] m1]|] eqn:E; [| |done].
    + intros [= _ <-]. eapply invoke_payload_kept; [done| |exact E].
      apply (Hcs cap v). by left.
    + intros H. eapply payload_kept_trans.
      * eapply invoke_payload_kept; [done| |exact E]. apply (Hcs cap v). by left.
      * eapply IH; [|exact H]. intros cap' v' Hin. apply (Hcs cap' v'). by right.
Qed.

End Open.

Lemma withPayload_payload_kept fuel c v m q m' :
  c <> Before -> withPayload production req fuel c v m = Some (q, m') ->
  payload_kept m m'.
Proof using no_retry.
  revert c v m q m'. induction fuel as [|fuel IH]; [done|].
  intros c v m q m' Hc H. rewrite withPayload_unfold in H.
  destruct (hooks req c !! idx c m) as [hook|] eqn:Hh.
  - cbv zeta in H.
    destruct (runCalls _ _ _ _ _ _) as [[thrown m1]|] eqn:E; [|done].
    apply (runCalls_payload_kept _ IH) in E; [|done|].
    + assert (payload_kept m m1) as K.
      { eapply payload_kept_trans; [|exact E]. by apply payload_kept_same. }
      destruct (from_option _ _ _); injection H as _ <-; [|done].
      eapply payload_kept_trans; [exact K|].
      apply payload_kept_plumbing, plumbing_rejectWith.
    + intros cap w Hin Hav. destruct c; [done|by destruct cap|].
      destruct cap; try done. intros _.
      eapply no_retry; [|exact Hin]. by eapply list_elem_of_lookup_2.
  - assert (terminal c v m = (q, m')) as Ht by congruence.
    rewrite terminal_unfold in Ht. injection Ht as _ <-.
    eapply payload_kept_trans; [by apply payload_kept_update|].
    by apply payload_kept_same.
Qed.

Lemma adapterCalls_payload_kept fuel inner cs m m' :
  adapterCalls (withPayload production req fuel) inner cs m = Some m' ->
  payload_kept m m'.
Proof using no_retry.
  revert m. induction cs as [|a cs IH]; simpl; intros m.
  - intros [= <-]. apply payload_kept_refl.
  - destruct (adapterCall _ _ _ _) as [m1|] eqn:E; [|done]. intros H.
    eapply payload_kept_trans; [|eapply IH, H].
    unfold adapterCall in E. destruct a as [r|r|cb|n x].
    + destruct (withPayload _ _ _ _ _ _) as [[q m2]|] eqn:W; [|done].
      injection E as <-. apply withPayload_payload_kept in W; [|done].
      eapply payload_kept_trans; [exact W|].
      apply payload_kept_plumbing, plumbing_resolveWith.
    + destruct (withPayload _ _ _ _ _ _) as [[q m2]|] eqn:W; [|done].
      injection E as <-. apply withPayload_payload_kept in W; [|done].
      eapply payload_kept_trans; [exact W|].
      apply payload_kept_plumbing, plumbing_resolveWith.
    + injection E as <-. by apply payload_kept_same.
    + injection E as <-. exists [EvCustom n x]. split; [done|]. by repeat constructor.
Qed.

Lemma doRequest_payload_kept fuel v m q m' :
  doRequest adapter (withPayload production req fuel) v m = Some (q, m') ->
  payload_kept m m'.
Proof using no_retry.
  rewrite doRequest_unfold. cbv zeta.
  destruct (convert_result adapter v) as [arg|e0].
  - destruct (adapterCalls _ _ _ _) as [m1|] eqn:E; [|done]. intros [= _ <-].
    apply adapterCalls_payload_kept in E.
    eapply payload_kept_trans; [|eapply payload_kept_trans; [exact E|]].
    + by apply payload_kept_same.
    + apply payload_kept_plumbing.
      eapply plumbing_trans; [apply plumbing_afterCallback|].
      eapply plumbing_trans;
        [apply plumbing_newCell with (k := KCaught)|apply plumbing_subscribe].
  - intros [= _ <-]. apply payload_kept_plumbing.
    eapply plumbing_trans; [apply plumbing_newCell with (k := KRequest)|].
    eapply plumbing_trans; [apply plumbing_record|].
    eapply plumbing_trans; [apply plumbing_rejectWith|].
    eapply plumbing_trans;
      [apply plumbing_newCell with (k := KCaught)|apply plumbing_subscribe].
Qed.

Lemma perform_payload_kept fuel i m m' :
  stays_out i ->
  perform production adapter req fuel i m = Some m' -> payload_kept m m'.
Proof using no_retry.
  intros Hi H. destruct i as [| |c p cap v|inner a|inner e]; simpl in H.
  - destruct (microtasks m) as [|j q] eqn:Q; [injection H as <-; apply payload_kept_refl|].
    assert (payload_kept m (set_microtasks q m)) as K0 by (by apply payload_kept_same).
    eapply payload_kept_trans; [exact K0|].
    destruct j as [c v d|p q'|r o|d o|p e]; unfold runJob in H.
    + destruct c.
      * destruct (doRequest _ _ _ _) as [[q' m1]|] eqn:E; [|done]. injection H as <-.
        eapply payload_kept_trans; [eapply doRequest_payload_kept, E|].
        apply payload_kept_plumbing, plumbing_resolveWith.
      * rewrite final_effect in H. injection H as <-.
        eapply payload_kept_trans; [|apply payload_kept_plumbing, plumbing_settle].
        eexists. split; [reflexivity|]. by repeat constructor.
      * rewrite final_effect in H. injection H as <-.
        eapply payload_kept_trans; [|apply payload_kept_plumbing, plumbing_settle].
        eexists. split; [reflexivity|]. by repeat constructor.
    + injection H as <-. apply payload_kept_plumbing, plumbing_subscribe.
    + destruct r as [p|d]; [|destruct o as [v|e]]; injection H as <-.
      * apply payload_kept_plumbing, plumbing_settle.
      * apply payload_kept_plumbing, plumbing_settle.
      * eapply payload_kept_trans; [|apply payload_kept_plumbing, plumbing_settle].
        exists [EvError e]. split; [done|]. by repeat constructor.
    + destruct o as [v|e]; [|injection H as <-;
                               apply payload_kept_plumbing, plumbing_settle].
      destruct (setState_event cancelDiff (set_microtasks q m)) as (Hb&_&_).
      remember (setState cancelDiff (set_microtasks q m)) as m1 eqn:Em1.
      unfold pickState in H. injection H as <-.
      eapply payload_kept_trans; [|apply payload_kept_plumbing, plumbing_settle].
      eexists. simpl. rewrite Hb. rewrite <- app_assoc. split; [reflexivity|].
      by repeat constructor.
    + injection H as <-. apply payload_kept_plumbing, plumbing_rejectWith.
  - unfold cancel in H. destruct (adapterCalls _ _ _ _) as [m1|] eqn:E; [|done].
    injection H as <-. apply adapterCalls_payload_kept in E.
    eapply payload_kept_trans; [|eapply payload_kept_trans; [exact E|]].
    + by apply payload_kept_same.
    + apply payload_kept_plumbing, plumbing_afterCancelCallback.
  - destruct (ckind _) as [c'| | | |] eqn:Ek; try done.
    destruct (promises m !! p); [|done].
    case_bool_decide as Hc; [subst c'|done].
    destruct (invoke _ _ _ _ _ _) as [[r m1]|] eqn:E; [|done]. injection H as <-.
    destruct (decide (c = Before)) as [->|Hne].
    + (* a before-hook: whatever it can call stays in the before-chain or
         leaves it for good *)
      simpl in Hi. unfold invoke in E. destruct cap; simpl in E, Hi.
      * by destruct (Hi eq_refl).
      * destruct (withPayload _ _ _ _ _ _) as [[q m2]|] eqn:W; [|done].
        injection E as _ <-. apply withPayload_payload_kept in W; [|done].
        eapply payload_kept_trans; [exact W|].
        apply payload_kept_plumbing, plumbing_tryResolve.
      * destruct (withPayload _ _ _ _ _ _) as [[q m2]|] eqn:W; [|done].
        injection E as _ <-. apply withPayload_payload_kept in W; [|done].
        eapply payload_kept_trans; [exact W|].
        apply payload_kept_plumbing, plumbing_tryResolve.
      * injection E as _ <-. apply payload_kept_refl.
    + eapply (invoke_payload_kept _ (withPayload_payload_kept fuel)); eauto.
  - destruct (ckind _); try done. destruct (promises m !! inner); [|done].
    apply (adapterCalls_payload_kept fuel inner [a]). simpl. by rewrite H.
  - destruct (ckind _); try done. destruct (promises m !! inner); [|done].
    injection H as <-. by apply payload_kept_plumbing, plumbing_enqueue.
Qed.

Lemma performAll_payload_kept fuel inputs m m' :
  Forall stays_out inputs ->
  performAll production adapter req fuel inputs m = Some m' -> payload_kept m m'.
Proof using no_retry.
  revert m. induction inputs as [|i inputs IH]; simpl; intros m Hi H.
  - injection H as <-. apply payload_kept_refl.
  - destruct (perform _ _ _ _ _ _) as [m1|] eqn:E; [|done].
    apply Forall_cons in Hi as (Hi&His).
    eapply payload_kept_trans; [eapply perform_payload_kept, E; done|by apply IH].
Qed.

End Quiet.

Lemma performAll_grows production adapter req fuel inputs m m' :
  performAll production adapter req fuel inputs m = Some m' -> grows m m'.
Proof.
  revert m. induction inputs as [|i inputs IH]; simpl; intros m H.
  - injection H as <-. apply grows_refl.
  - destruct (perform _ _ _ _ _ _) as [m1|] eqn:E; [|done].
    eapply grows_trans; [eapply perform_grows, E|by apply IH].
Qed.

(** C5 (as the code has it). For every [N], every adapter and every
    request whose before-chain holds [N] hooks that each call [next] at
    once, whatever its done- and fail-hooks: when [apicase] returns, the
    bus holds exactly [N + 1] events, all of them [change:payload], one per
    hook and one from the terminal step of the before-chain; the adapter
    has not been called yet, its call is queued.  So every [done] and
    [fail], whenever the adapter settles, comes after these [N + 1]
    events.  And they stay the only ones the engine emits as long as the
    before-chain is not entered again, by a [retry] of a fail-hook or by a
    capability used from a later task: every other event named
    [change:payload] is one the adapter sent itself. *)
Theorem before_hooks_emit_one_more production adapter req x :
  Forall continues_at_once (hooks req Before) ->
  exists p m0,
    apicase production adapter req (S (length (hooks req Before)) + x) = Some (p, m0)
    /\ length (bus m0) = S (length (hooks req Before))
    /\ Forall (fun e => is_change_payload e = true) (bus m0)
    /\ adapterRuns (trace m0) = 0
    /\ (exists w d js, microtasks m0 = JFinal Before w d :: js /\ Forall deferred js)
    /\ forall fuel inputs m,
         performAll production adapter req fuel inputs m0 = Some m ->
         exists es,
           bus m = bus m0 ++ es
           /\ (never_retries req -> Forall stays_out inputs ->
               forall e, e ∈ es -> event_name e = "change:payload"%string ->
                         by_adapter e).
Proof.
  intros Hat.
  destruct (before_run production req Hat (length (hooks req Before)) x
              (req_payload req) (init adapter req))
    as (p&m0&E&(cps&Hb&Hl&Hf)&Ha&Hi&(w&d&js&Hq&Hjs)); [done|].
  exists p, m0. split; [exact E|]. simpl in Hb, Ha, Hq. subst cps.
  split; [done|]. split; [done|]. split; [done|].
  split; [by exists w, d, js|].
  intros fuel inputs m H.
  pose proof (performAll_grows _ _ _ _ _ _ _ H) as (_&(es&Hes)&_).
  exists es. split; [done|]. intros Hn Hs e Hin Hname.
  destruct (performAll_payload_kept production adapter req Hn fuel inputs m0 m Hs H)
    as (es'&Hes'&Hk).
  assert (es' = es) as -> by (rewrite Hes in Hes'; by apply app_inv_head in Hes').
  rewrite Forall_forall in Hk. specialize (Hk e Hin).
  by destruct e.
Qed.

(** Two before-hooks and an adapter that settles from a later task: three
    [change:payload] events when [apicase] returns, [done] after them, and
    no further [change:payload]. *)
Lemma before_hooks_emit_one_more_witness :
  exists m0 m es,
    apicase false waits (mkRequest VNull a1 [passes; calls_next (VNum 1)] [] [] false) 3
      = Some (0, m0)
    /\ bus m0 = [ChangePayload (VObj []) a1; ChangePayload a1 (VNum 1);
                 ChangePayload (VNum 1) (VNum 1)]
    /\ performAll false waits
         (mkRequest VNull a1 [passes; calls_next (VNum 1)] [] [] false) 3
         ([ITick; ITick; ITick; ILateAdapter 3 (AResolve (VStr "late"))]
            ++ repeat ITick 8) m0 = Some m
    /\ bus m = bus m0 ++ es
    /\ EvDone (VStr "late") 0 ∈ es
    /\ forall e, e ∈ es -> event_name e = "change:payload"%string -> by_adapter e.
Proof.
  destruct (before_hooks_emit_one_more false waits
              (mkRequest VNull a1 [passes; calls_next (VNum 1)] [] [] false) 0)
    as (p&m0&E&_&_&_&_&H).
  { clear. constructor; [|constructor; [|constructor]]; intros n ctx; by eexists. }
  destruct (performAll false waits
              (mkRequest VNull a1 [passes; calls_next (VNum 1)] [] [] false) 3
              ([ITick; ITick; ITick; ILateAdapter 3 (AResolve (VStr "late"))]
                 ++ repeat ITick 8) m0) as [m|] eqn:E1;
    [|vm_compute in E; injection E as <- <-; vm_compute in E1; discriminate E1].
  destruct (H _ _ _ E1) as (es&Hb&Hes).
  assert (p = 0
          /\ bus m0 = [ChangePayload (VObj []) a1; ChangePayload a1 (VNum 1);
                       ChangePayload (VNum 1) (VNum 1)]
          /\ forall es', bus m = bus m0 ++ es' -> EvDone (VStr "late") 0 ∈ es')
    as (->&Hb0&Hin).
  { clear -E E1. vm_compute in E. injection E as <- <-.
    vm_compute in E1. injection E1 as <-. split; [reflexivity|]. split; [reflexivity|].
    intros es' Hes'. simpl in Hes'. injection Hes' as <-.
    apply list_elem_of_In. simpl. repeat (first [left; reflexivity|right]). }
  exists m0, m, es. split; [exact E|]. split; [exact Hb0|]. split; [exact E1|].
  split; [exact Hb|]. split; [by apply Hin|].
  apply Hes.
  - clear. intros h n ctx v Hin. by apply elem_of_nil in Hin.
  - clear. simpl. by repeat constructor.
Defined.

(** ** What [cancel] does *)



(** ** A fault of the adapter reaches the completion promise *)

Lemma cell_at_set_cell_ne x p c m :
  x <> p -> cell_at x (set_cell p c m) = cell_at x m.
Proof. intros H. unfold cell_at. simpl. by rewrite list_lookup_insert_ne. Qed.

Lemma settle_effect p o m :
  p < length (promises m) ->
  length (promises (settle p o m)) = length (promises m)
  /\ bus (settle p o m) = bus m
  /\ (forall x, x <> p -> cell_at x (settle p o m) = cell_at x m)
  /\ ((exists o', pst (cell_at p m) = Settled o' /\ settle p o m = m)
      \/ (exists rs, pst (cell_at p m) = Pending rs
            /\ pst (cell_at p (settle p o m)) = Settled o
            /\ alreadyResolved (cell_at p (settle p o m)) = true
            /\ microtasks (settle p o m) = microtasks m ++ map (fun r => JReact r o) rs)).
Proof.
  intros Hp. unfold settle. destruct (pst (cell_at p m)) as [rs|o'] eqn:E.
  - simpl. rewrite length_insert. do 2 (split; [done|]). split.
    + intros x Hx. by apply (cell_at_set_cell_ne x p).
    + right. exists rs. split; [done|].
      change (cell_at p (set_microtasks _ ?a)) with (cell_at p a).
      by rewrite cell_at_set_cell.
  - do 3 (split; [done|]). left. by exists o'.
Qed.

Lemma subscribe_effect q r m :
  q < length (promises m) ->
  length (promises (subscribe q r m)) = length (promises m)
  /\ bus (subscribe q r m) = bus m
  /\ (forall x, x <> q -> cell_at x (subscribe q r m) = cell_at x m)
  /\ ((exists o, pst (cell_at q m) = Settled o
         /\ subscribe q r m = enqueue (JReact r o) m)
      \/ (exists rs, pst (cell_at q m) = Pending rs
            /\ pst (cell_at q (subscribe q r m)) = Pending (rs ++ [r])
            /\ alreadyResolved (cell_at q (subscribe q r m)) = alreadyResolved (cell_at q m)
            /\ microtasks (subscribe q r m) = microtasks m)).
Proof.
  intros Hq. unfold subscribe. destruct (pst (cell_at q m)) as [rs|o] eqn:E.
  - simpl. rewrite length_insert. do 2 (split; [done|]). split.
    + intros x Hx. by apply (cell_at_set_cell_ne x q).
    + right. exists rs. split; [done|]. by rewrite cell_at_set_cell.
  - do 3 (split; [done|]). left. by exists o.
Qed.

Ltac member :=
  simpl; repeat (rewrite elem_of_app || rewrite elem_of_cons); intuition auto.

Lemma settle_kind p o m x : ckind (cell_at x (settle p o m)) = ckind (cell_at x m).
Proof.
  unfold settle. destruct (pst (cell_at p m)) as [rs|o'] eqn:E; [|done].
  change (cell_at x (set_microtasks _ ?a)) with (cell_at x a).
  destruct (decide (x = p)) as [->|Hne]; [|by rewrite cell_at_set_cell_ne].
  unfold cell_at at 1. simpl.
  destruct (decide (p < length (promises m))) as [Hlt|Hge].
  - by rewrite list_lookup_insert_eq.
  - by rewrite list_insert_ge by lia.
Qed.

Lemma subscribe_kind q r m x :
  ckind (cell_at x (subscribe q r m)) = ckind (cell_at x m).
Proof.
  unfold subscribe. destruct (pst (cell_at q m)) as [rs|o'] eqn:E; [|done].
  destruct (decide (x = q)) as [->|Hne]; [|by rewrite cell_at_set_cell_ne].
  unfold cell_at at 1. simpl.
  destruct (decide (q < length (promises m))) as [Hlt|Hge].
  - by rewrite list_lookup_insert_eq.
  - by rewrite list_insert_ge by lia.
Qed.

Lemma elem_of_tail {A} (x j : A) (q : list A) : x ∈ j :: q -> x <> j -> x ∈ q.
Proof. intros [->|H]%elem_of_cons Hne; done. Qed.

Section Rejection.

Variable N : nat.
Variable e : value.
Variable armed : bool.

Lemma next_of_chain_bound i : next_of_chain N i < S (S (S N)).
Proof. unfold next_of_chain. case_decide; lia. Qed.

Lemma next_of_chain_request i : next_of_chain N i <> S N.
Proof. unfold next_of_chain. case_decide; lia. Qed.

Lemma next_of_chain_inj i k :
  i <= N -> k <= N -> next_of_chain N i = next_of_chain N k -> i = k.
Proof. unfold next_of_chain. repeat case_decide; lia. Qed.

Lemma next_of_chain_caught i : i <= N -> next_of_chain N i = S (S N) -> i = N.
Proof. unfold next_of_chain. case_decide; lia. Qed.

(** The job that subscribes the promise [i] to the next one. *)
Lemma rejecting_subscribe i q m :
  microtasks m = JThenable i (next_of_chain N i) :: q -> i <= N ->
  rejecting N e armed m ->
  rejecting N e armed (subscribe (next_of_chain N i) (RSettle i) (set_microtasks q m)).
Proof.
  intros Q Hi (HL&HJ&HR&HS&HK&HKi&HSrc).
  rewrite Q in HJ. apply Forall_cons in HJ as (_&HJq).
  assert (forall x, cell_at x (set_microtasks q m) = cell_at x m) as C0 by done.
  destruct (subscribe_effect (next_of_chain N i) (RSettle i) (set_microtasks q m))
    as (L'&B'&Oth&[(o&Eo&E')|(rs&Ers&Ers'&Ear&Q')]).
  { simpl. rewrite HL. apply next_of_chain_bound. }
  - rewrite E'. rewrite C0 in Eo. pose proof (HS _ _ Eo) as ->.
    split; [exact HL|]. split.
    { simpl. apply Forall_app. split; [done|]. by repeat constructor. }
    split; [exact HR|]. split; [exact HS|]. split; [|split; [exact HKi|]].
    + intros k Hk. destruct (HK k Hk) as [H|[H|[H|H]]].
      * by left.
      * rewrite Q in H. apply elem_of_cons in H as [H|H].
        -- injection H as -> _. right; right; right. simpl. member.
        -- right; left. simpl. member.
      * right; right; left. exact H.
      * right; right; right. rewrite Q in H.
        apply elem_of_tail in H; [|done]. simpl. member.
    + destruct HSrc as [H|[H|(rs&H1&H2&H3&H4)]].
      * by left.
      * right; left. rewrite Q in H. apply elem_of_tail in H; [|done].
        simpl. member.
      * right; right. exists rs. do 3 (split; [done|]). intros Ha.
        specialize (H4 Ha). rewrite Q in H4.
        apply elem_of_tail in H4; [|done]. simpl. member.
  - rewrite C0 in Ers.
    assert (forall x, x <> next_of_chain N i ->
              cell_at x (subscribe (next_of_chain N i) (RSettle i) (set_microtasks q m))
              = cell_at x m) as Oth' by (intros x Hx; by rewrite Oth).
    split; [by rewrite L'|]. split; [by rewrite Q'|].
    split; [|split; [|split; [|split]]].
    + intros x rs' Hx. destruct (decide (x = next_of_chain N i)) as [->|Hne].
      * rewrite Ers' in Hx. injection Hx as <-. apply Forall_app. split.
        -- by apply HR.
        -- by repeat constructor.
      * rewrite Oth' in Hx by done. by apply HR.
    + intros x o Hx. destruct (decide (x = next_of_chain N i)) as [->|Hne].
      * by rewrite Ers' in Hx.
      * rewrite Oth' in Hx by done. by eapply HS.
    + intros k Hk. destruct (HK k Hk) as [H|[H|[(rs0&H1&H2)|H]]].
      * left. destruct (decide (k = next_of_chain N i)) as [->|Hne].
        -- by rewrite Ers in H.
        -- by rewrite Oth'.
      * rewrite Q in H. apply elem_of_cons in H as [H|H].
        -- injection H as -> _. right; right; left. exists (rs ++ [RSettle i]).
           split; [done|]. member.
        -- right; left. by rewrite Q'.
      * right; right; left.
        destruct (decide (next_of_chain N k = next_of_chain N i)) as [Eq|Hne].
        -- rewrite Eq in *. rewrite Ers in H1. injection H1 as <-.
           exists (rs ++ [RSettle i]). split; [done|]. member.
        -- exists rs0. by rewrite Oth'.
      * right; right; right. rewrite Q in H. apply elem_of_tail in H; [|done].
        by rewrite Q'.
    + by rewrite subscribe_kind.
    + destruct HSrc as [(H1&H2)|[H|(rs0&H1&H2&H3&H4)]].
      * left. split; [|by rewrite B'].
        destruct (decide (S (S N) = next_of_chain N i)) as [Eq|Hne].
        -- rewrite <- Eq in Ers. by rewrite Ers in H1.
        -- by rewrite Oth'.
      * right; left. rewrite Q in H. apply elem_of_tail in H; [|done].
        by rewrite Q'.
      * right; right. exists rs0. pose proof (next_of_chain_request i) as Hne.
        rewrite Oth' by done. do 3 (split; [done|]). intros Ha.
        specialize (H4 Ha).
        rewrite Q in H4. apply elem_of_tail in H4; [|done]. by rewrite Q'.
Qed.

(** A job that settles the promise [x] with the rejection. *)
Lemma rejecting_settle x j q m b :
  microtasks m = j :: q -> rejecting N e armed m ->
  promises b = promises m -> microtasks b = q ->
  (forall ev, ev ∈ bus m -> ev ∈ bus b) ->
  x < S (S (S N)) ->
  (forall k, j <> JThenable k (next_of_chain N k)) ->
  (forall k, j = JReact (RSettle k) (Rejected e) -> k = x) ->
  (j = JReact (RCatchError (S (S N))) (Rejected e) ->
   x = S (S N) /\ EvError e ∈ bus b) ->
  (j = JAdapterCatch (S N) e -> x = S N) ->
  rejecting N e armed (settle x (Rejected e) b).
Proof.
  intros Q (HL&HJ&HR&HS&HK&HKi&HSrc) Pb Qb Bb Hx Jt Js Jc Ja.
  rewrite Q in HJ. apply Forall_cons in HJ as (_&HJq).
  assert (forall y, cell_at y b = cell_at y m) as C0
    by (intros y; unfold cell_at; by rewrite Pb).
  assert (pst (cell_at x (settle x (Rejected e) b)) = Settled (Rejected e)) as Sx.
  { destruct (settle_effect x (Rejected e) b) as (_&_&_&[(o&Eo&->)|(rs&_&H&_)]);
      [by rewrite Pb, HL| |done].
    rewrite Eo. f_equal. rewrite C0 in Eo. by eapply HS. }
  destruct (settle_effect x (Rejected e) b)
    as (L'&B'&Oth&Hcase); [by rewrite Pb, HL|].
  assert (forall y, y <> x -> cell_at y (settle x (Rejected e) b) = cell_at y m) as Oth'
    by (intros y Hy; by rewrite Oth).
  assert (exists rs, microtasks (settle x (Rejected e) b)
                     = q ++ map (fun r => JReact r (Rejected e)) rs
                     /\ (forall y rs', pst (cell_at y m) = Pending rs' -> y = x ->
                         rs' = rs)
                     /\ Forall (rejecting_reaction N x) rs) as (rs&Q'&Hrs&Frs).
  { destruct Hcase as [(o&Eo&->)|(rs&Ers&_&_&Q')].
    - exists []. rewrite Qb. simpl. rewrite app_nil_r. split; [done|]. split; [|done].
      intros y rs' Hy ->. rewrite C0 in Eo. by rewrite Eo in Hy.
    - exists rs. rewrite Q', Qb. split; [done|]. rewrite C0 in Ers. split.
      + intros y rs' Hy ->. rewrite Ers in Hy. by injection Hy.
      + by apply HR. }
  assert (forall y, y ∈ q -> y ∈ microtasks (settle x (Rejected e) b)) as Keep
    by (intros y Hy; rewrite Q'; member).
  split; [by rewrite L', Pb|]. split; [|split; [|split; [|split; [|split]]]].
  - rewrite Q'. apply Forall_app. split; [done|]. apply Forall_map.
    eapply Forall_impl; [exact Frs|]. intros [k|d]; simpl; [tauto|tauto].
  - intros y rs' Hy. destruct (decide (y = x)) as [->|Hne].
    + by rewrite Sx in Hy.
    + rewrite Oth' in Hy by done. by apply HR.
  - intros y o Hy. destruct (decide (y = x)) as [->|Hne].
    + rewrite Sx in Hy. by injection Hy.
    + rewrite Oth' in Hy by done. by eapply HS.
  - intros k Hk. destruct (decide (k = x)) as [->|Hkx]; [by left|].
    destruct (HK k Hk) as [H|[H|[(rs0&H1&H2)|H]]].
    + left. by rewrite Oth'.
    + right; left. apply Keep. rewrite Q in H. apply elem_of_tail in H; [done|].
      intros <-. by eapply Jt.
    + destruct (decide (next_of_chain N k = x)) as [Eq|Hne].
      * right; right; right. rewrite Q'. apply elem_of_app. right.
        rewrite (Hrs _ _ H1 Eq) in H2.
        apply (list_elem_of_fmap_2 (fun r => JReact r (Rejected e))) in H2.
        exact H2.
      * right; right; left. exists rs0. by rewrite Oth'.
    + right; right; right. apply Keep. rewrite Q in H.
      apply elem_of_tail in H; [done|]. intros <-. apply Hkx. by apply Js.
  - by rewrite settle_kind, C0.
  - destruct HSrc as [(H1&H2)|[H|(rs0&H1&H2&H3&H4)]].
    + left. split; [|rewrite B'; by apply Bb].
      destruct (decide (S (S N) = x)) as [<-|Hne]; [done|by rewrite Oth'].
    + rewrite Q in H. apply elem_of_cons in H as [H|H].
      * symmetry in H. destruct (Jc H) as (->&Hb). left. split; [done|by rewrite B'].
      * right; left. by apply Keep.
    + destruct (decide (S N = x)) as [Eq|Hne].
      * right; left. rewrite Q'. apply elem_of_app. right.
        rewrite (Hrs _ _ H1 Eq) in H2.
        apply (list_elem_of_fmap_2 (fun r => JReact r (Rejected e))) in H2.
        exact H2.
      * right; right. exists rs0. rewrite !Oth' by done. do 3 (split; [done|]).
        intros Harm. specialize (H4 Harm).
        apply Keep. rewrite Q in H4. apply elem_of_tail in H4; [done|].
        intros <-. apply Hne. symmetry. by apply Ja.
Qed.

(** The catch of a thenable whose promise was settled meanwhile. *)
Lemma rejecting_idle q m :
  microtasks m = JAdapterCatch (S N) e :: q -> rejecting N e armed m ->
  (alreadyResolved (cell_at (S N) m) = true) ->
  rejecting N e armed (set_microtasks q m).
Proof.
  intros Q (HL&HJ&HR&HS&HK&HKi&HSrc) Ha.
  rewrite Q in HJ. apply Forall_cons in HJ as (_&HJq).
  split; [exact HL|]. split; [exact HJq|]. split; [exact HR|]. split; [exact HS|].
  split; [|split; [exact HKi|]].
  - intros k Hk. destruct (HK k Hk) as [H|[H|[H|H]]].
    + by left.
    + right; left. rewrite Q in H. by apply elem_of_tail in H.
    + right; right; left. exact H.
    + right; right; right. rewrite Q in H. by apply elem_of_tail in H.
  - destruct HSrc as [H|[H|(rs0&H1&H2&H3&H4)]].
    + by left.
    + right; left. rewrite Q in H. by apply elem_of_tail in H.
    + by rewrite Ha in H3.
Qed.

(** One microtask of a machine that carries the rejection. *)
Lemma rejecting_tick production adapter req fuel j q m :
  microtasks m = j :: q -> rejecting N e armed m ->
  exists m1,
    runJob production adapter req fuel j (set_microtasks q m) = Some m1
    /\ rejecting N e armed m1.
Proof.
  intros Q R. pose proof R as (HL&HJ&_).
  rewrite Q in HJ. apply Forall_cons in HJ as (Hj&_).
  destruct j as [c v d|i q'|[i|d] o|d o|p x]; simpl in Hj; try done.
  - destruct Hj as (Hi&->). eexists. split; [reflexivity|].
    by apply rejecting_subscribe.
  - destruct Hj as (Hi&->). eexists. split; [reflexivity|].
    apply (rejecting_settle i (JReact (RSettle i) (Rejected e)) q m); try done.
    + lia.
    + by intros k [= ->].
  - destruct Hj as (->&->). eexists. split; [reflexivity|].
    apply (rejecting_settle (S (S N)) (JReact (RCatchError (S (S N))) (Rejected e)) q m);
      try done.
    + intros ev Hev. unfold throwError. member.
    + lia.
    + intros _. split; [done|]. unfold throwError. member.
  - destruct Hj as (->&->). eexists. split; [reflexivity|].
    unfold rejectWith.
    destruct (alreadyResolved (cell_at (S N) (set_microtasks q m))) eqn:Ea.
    + by apply rejecting_idle.
    + apply (rejecting_settle (S N) (JAdapterCatch (S N) e) q m); try done. lia.
Qed.

(** Once the queue is empty the rejection has arrived: the caught promise
    and every promise of the chain hold it, and the [error] event is on
    the bus. *)
Lemma rejecting_done m :
  rejecting N e true m -> microtasks m = [] ->
  EvError e ∈ bus m
  /\ forall i, i <= N -> pst (cell_at i m) = Settled (Rejected e).
Proof.
  intros (HL&HJ&HR&HS&HK&HKi&HSrc) Q.
  assert (pst (cell_at (S (S N)) m) = Settled (Rejected e) /\ EvError e ∈ bus m)
    as (Ho&Hb).
  { destruct HSrc as [H|[H|(rs0&H1&H2&H3&H4)]]; [done| |].
    - rewrite Q in H. by apply elem_of_nil in H.
    - specialize (H4 eq_refl). rewrite Q in H4. by apply elem_of_nil in H4. }
  split; [exact Hb|].
  assert (forall d i, i + d = N -> pst (cell_at i m) = Settled (Rejected e)) as H.
  { induction d as [|d IH]; intros i Hi.
    - destruct (HK i) as [H|[H|[(rs&H1&H2)|H]]]; [lia|done| | |].
      + rewrite Q in H. by apply elem_of_nil in H.
      + unfold next_of_chain in H1. case_decide; [lia|]. by rewrite Ho in H1.
      + rewrite Q in H. by apply elem_of_nil in H.
    - destruct (HK i) as [H|[H|[(rs&H1&H2)|H]]]; [lia|done| | |].
      + rewrite Q in H. by apply elem_of_nil in H.
      + unfold next_of_chain in H1. case_decide; [|lia].
        rewrite (IH (S i)) in H1 by lia. done.
      + rewrite Q in H. by apply elem_of_nil in H. }
  intros i Hi. apply (H (N - i)). lia.
Qed.

End Rejection.
(** The rejection arrives: each of these jobs lowers the potential. *)

Lemma settle_weight p o m :
  exists js,
    microtasks (settle p o m) = microtasks m ++ js
    /\ total job_weight js + total cell_weight (promises (settle p o m))
       <= total cell_weight (promises m).
Proof.
  unfold settle, cell_at.
  destruct (promises m !! p) as [c|] eqn:E; simpl.
  - destruct (pst c) as [rs|o'] eqn:Ep.
    + eexists. split; [reflexivity|]. simpl. rewrite total_reactions.
      pose proof (total_insert cell_weight (promises m) p c
                    (mkCell (ckind c) (Settled o) true (isResolved c)) E) as T.
      assert (cell_weight c = 2 * length rs) as W
        by (unfold cell_weight; by rewrite Ep).
      rewrite W in T. change (cell_weight (mkCell _ _ _ _)) with 0 in T. lia.
    + exists []. rewrite app_nil_r. split; [done|]. simpl. lia.
  - exists []. simpl. rewrite app_nil_r.
    rewrite list_insert_ge by (by apply lookup_ge_None). split; [done|lia].
Qed.

Lemma subscribe_weight q r m :
  exists js,
    microtasks (subscribe q r m) = microtasks m ++ js
    /\ total job_weight js + total cell_weight (promises (subscribe q r m))
       <= total cell_weight (promises m) + 2.
Proof.
  unfold subscribe, cell_at.
  destruct (promises m !! q) as [c|] eqn:E; simpl.
  - destruct (pst c) as [rs|o] eqn:Ep.
    + exists []. simpl. rewrite app_nil_r. split; [done|].
      pose proof (total_insert cell_weight (promises m) q c
                    (mkCell (ckind c) (Pending (rs ++ [r])) (alreadyResolved c)
                       (isResolved c)) E) as T.
      assert (cell_weight c = 2 * length rs) as W
        by (unfold cell_weight; by rewrite Ep).
      rewrite W in T.
      change (cell_weight (mkCell _ _ _ _)) with (2 * length (rs ++ [r])) in T.
      rewrite length_app in T. simpl in T. lia.
    + exists [JReact r o]. split; [done|]. simpl. lia.
  - exists []. simpl. rewrite app_nil_r.
    rewrite list_insert_ge by (by apply lookup_ge_None). split; [done|lia].
Qed.

Lemma rejecting_weight N e production adapter req fuel j q m m1 :
  microtasks m = j :: q -> rejecting_job N e j ->
  runJob production adapter req fuel j (set_microtasks q m) = Some m1 ->
  potential m1 < potential m.
Proof.
  intros Q Hj E. unfold potential. rewrite Q.
  destruct j as [c v d|i q'|[i|d] o|d o|p x]; simpl in Hj; try done.
  - injection E as <-.
    destruct (subscribe_weight q' (RSettle i) (set_microtasks q m)) as (js&->&H).
    simpl in *. rewrite total_app. lia.
  - destruct Hj as (_&->). injection E as <-.
    destruct (settle_weight i (Rejected e) (set_microtasks q m)) as (js&->&H).
    simpl in *. rewrite total_app. lia.
  - destruct Hj as (_&->). injection E as <-.
    destruct (settle_weight d (Rejected e) (throwError e (set_microtasks q m)))
      as (js&->&H).
    simpl in *. rewrite total_app. lia.
  - injection E as <-. unfold rejectWith.
    destruct (alreadyResolved _); [simpl; lia|].
    destruct (settle_weight p (Rejected x) (set_microtasks q m)) as (js&->&H).
    simpl in *. rewrite total_app. lia.
Qed.

Lemma idle_ticks production adapter req fuel n m :
  microtasks m = [] ->
  performAll production adapter req fuel (repeat ITick n) m = Some m.
Proof. intros Q. induction n as [|n IH]; simpl; [done|]. by rewrite Q. Qed.

(** So the queue empties, within as many microtasks as the potential
    counts. *)
Lemma rejecting_drain N e armed production adapter req fuel n m :
  rejecting N e armed m -> potential m <= n ->
  exists m',
    performAll production adapter req fuel (repeat ITick n) m = Some m'
    /\ rejecting N e armed m' /\ microtasks m' = [].
Proof.
  revert m. induction n as [|n IH]; intros m R Hn.
  - destruct (microtasks m) as [|j q] eqn:Q; [by exists m|].
    unfold potential in Hn. rewrite Q in Hn. simpl in Hn. destruct j; simpl in Hn; lia.
  - destruct (microtasks m) as [|j q] eqn:Q.
    + exists m. split; [by apply idle_ticks|done].
    + destruct (rejecting_tick N e armed production adapter req fuel j q m Q R)
        as (m1&E&R1).
      pose proof R as (_&HJ&_). rewrite Q in HJ. apply Forall_cons in HJ as (Hj&_).
      pose proof (rejecting_weight N e _ _ _ _ _ _ _ _ Q Hj E) as Hw.
      destruct (IH m1 R1) as (m'&E'&R'&Q'); [lia|].
      exists m'. split; [|done]. simpl. rewrite Q, E. exact E'.
Qed.

(** Any number of microtasks keeps the machine on its way. *)
Lemma rejecting_ticks N e armed production adapter req fuel k m :
  rejecting N e armed m ->
  exists m',
    performAll production adapter req fuel (repeat ITick k) m = Some m'
    /\ rejecting N e armed m'.
Proof.
  revert m. induction k as [|k IH]; intros m R; [by exists m|].
  destruct (microtasks m) as [|j q] eqn:Q.
  - exists m. split; [by apply idle_ticks|done].
  - destruct (rejecting_tick N e armed production adapter req fuel j q m Q R)
      as (m1&E&R1).
    destruct (IH m1 R1) as (m'&E'&R'). exists m'. split; [|done].
    simpl. rewrite Q, E. exact E'.
Qed.

(** The thenable of the adapter rejects: its [catch] is queued. *)
Lemma rejecting_arm N e production adapter req fuel m :
  rejecting N e false m ->
  exists m',
    perform production adapter req fuel (ILateThenable (S N) e) m = Some m'
    /\ rejecting N e true m'.
Proof.
  intros (HL&HJ&HR&HS&HK&HKi&HSrc).
  destruct (lookup_lt_is_Some_2 (promises m) (S N)) as (c&Hc); [lia|].
  exists (enqueue (JAdapterCatch (S N) e) m). split.
  { simpl. by rewrite HKi, Hc. }
  split; [exact HL|]. split.
  { simpl. apply Forall_app. split; [done|]. by repeat constructor. }
  split; [exact HR|]. split; [exact HS|]. split; [|split; [exact HKi|]].
  - intros k Hk. destruct (HK k Hk) as [H|[H|[H|H]]].
    + by left.
    + right; left. member.
    + right; right; left. exact H.
    + right; right; right. member.
  - destruct HSrc as [H|[H|(rs&H1&H2&H3&H4)]].
    + by left.
    + right; left. member.
    + right; right. exists rs. do 3 (split; [done|]). intros _. member.
Qed.
(** The promises and the queue a before-chain leaves when each of its
    hooks calls [next] at once. *)

Lemma tryResolve_fresh production c p q m k :
  promises m !! p = Some (fresh_cell k) ->
  promises (tryResolve production c p q m)
    = <[p := mkCell k (Pending []) true true]> (promises m)
  /\ microtasks (tryResolve production c p q m) = microtasks m ++ [JThenable p q]
  /\ trace (tryResolve production c p q m) = trace m
  /\ res (tryResolve production c p q m) = res m.
Proof.
  intros Hc. pose proof (cell_at_lookup _ _ _ Hc) as Hcell.
  assert (p < length (promises m)) as Hp by (apply lookup_lt_is_Some; by eexists).
  unfold tryResolve. rewrite Hcell. simpl. rewrite andb_false_r.
  unfold resolveWith. rewrite cell_at_set_cell by done. simpl.
  by rewrite list_insert_insert_eq.
Qed.

Lemma before_links production req k x v m :
  Forall continues_at_once (hooks req Before) ->
  idx Before m + k = length (hooks req Before) ->
  length (promises m) = idx Before m ->
  exists m' w js,
    withPayload production req (S k + x) Before v m = Some (idx Before m, m')
    /\ length (promises m') = S (length (hooks req Before))
    /\ (forall i, i < idx Before m -> promises m' !! i = promises m !! i)
    /\ (forall i, idx Before m <= i -> i < length (hooks req Before) ->
          exists c, promises m' !! i = Some c /\ pst c = Pending []
                    /\ alreadyResolved c = true)
    /\ promises m' !! length (hooks req Before) = Some (fresh_cell (KFinal Before))
    /\ microtasks m' = microtasks m ++ JFinal Before w (length (hooks req Before)) :: js
    /\ (forall j, j ∈ js ->
          exists i, idx Before m <= i /\ i < length (hooks req Before)
                    /\ j = JThenable i (S i))
    /\ (forall i, idx Before m <= i -> i < length (hooks req Before) ->
          JThenable i (S i) ∈ js)
    /\ adapterRuns (trace m') = adapterRuns (trace m)
    /\ result (res m') = result (res m).
Proof.
  intros Hat. revert v m. induction k as [|k IH]; intros v m Hk HL.
  - assert (hooks req Before !! idx Before m = None) as Hn
      by (apply lookup_ge_None; lia).
    change (1 + x) with (S x).
    rewrite (withPayload_terminal production req x Before v m Hn).
    rewrite terminal_unfold.
    assert (length (promises (update Before v m)) = idx Before m) as -> by done.
    eexists _, v, []. split; [reflexivity|].
    assert (idx Before m = length (hooks req Before)) as EN by lia.
    simpl promises. rewrite length_app. simpl length.
    split; [simpl in *; lia|]. split.
    { intros i Hi. apply lookup_app_l. simpl in *. lia. }
    split; [intros i; lia|]. split.
    { rewrite lookup_app_r by (simpl in *; lia).
      replace (length (hooks req Before) - length (promises m)) with 0
        by (simpl in *; lia). done. }
    split; [by rewrite <- EN|]. split; [by intros j ?%elem_of_nil|].
    split; [intros i; lia|]. done.
  - destruct (lookup_lt_is_Some_2 (hooks req Before) (idx Before m)) as [h Hh]; [lia|].
    change (S (S k) + x) with (S (S k + x)).
    rewrite Forall_forall in Hat.
    destruct (Hat h (list_elem_of_lookup_2 _ _ _ Hh)
                (hookRuns Before (idx Before m) (trace m))
                (createContext req Before v m)) as (w&Hw).
    rewrite (withPayload_at_once _ _ _ _ _ _ _ Hh Hw).
    set (m0 := record (HookCall Before (idx Before m) (createContext req Before v m))
                 (snd (newCell (KStep Before) m))).
    destruct (IH w (update Before w (bump Before m0)))
      as (m2&w'&js&E&L2&Old&Mid&Fin&Q2&J1&J2&A2&R2).
    { subst m0. simpl in *. lia. }
    { subst m0. simpl. rewrite length_app. simpl in *. lia. }
    assert (idx Before (update Before w (bump Before m0)) = S (idx Before m)) as Ei
      by done.
    rewrite Ei in *. rewrite E.
    assert (promises m2 !! length (promises m) = Some (fresh_cell (KStep Before))) as Hc.
    { rewrite Old by lia. subst m0. simpl.
      rewrite lookup_app_r by lia. by rewrite Nat.sub_diag. }
    destruct (tryResolve_fresh production Before (length (promises m)) (S (idx Before m))
                m2 _ Hc) as (P3&Q3&T3&R3).
    set (m3 := tryResolve production Before (length (promises m)) (S (idx Before m)) m2)
      in *.
    assert (length (promises m) < length (promises m2)) as Hlt
      by (apply lookup_lt_is_Some; by eexists).
    assert (match throws (h (hookRuns Before (idx Before m) (trace m))
                            (createContext req Before v m)) with
            | Some e => rejectWith (length (promises m)) e m3
            | None => m3
            end = m3) as ->.
    { destruct (throws _) as [e|]; [|done]. unfold rejectWith.
      assert (cell_at (length (promises m)) m3 = mkCell (KStep Before) (Pending []) true true)
        as ->; [|done].
      apply cell_at_lookup. rewrite P3. by apply list_lookup_insert_eq. }
    rewrite HL. exists m3, w', (js ++ [JThenable (idx Before m) (S (idx Before m))]).
    split; [reflexivity|]. rewrite P3, Q3, Q2, T3, R3, A2, R2, HL.
    split; [by rewrite length_insert|]. split.
    { intros i Hi. rewrite list_lookup_insert_ne by lia. rewrite Old by lia.
      subst m0. simpl. apply lookup_app_l. lia. }
    split.
    { intros i Hi1 Hi2. destruct (decide (i = idx Before m)) as [->|Hne].
      - eexists. split; [apply list_lookup_insert_eq; lia|done].
      - rewrite list_lookup_insert_ne by lia. apply Mid; lia. }
    split; [rewrite list_lookup_insert_ne by lia; exact Fin|].
    split; [subst m0; simpl; by reassoc|]. split.
    { intros j [Hj|Hj]%elem_of_app.
      - destruct (J1 j Hj) as (i&?&?&?). exists i. repeat split; [lia|done..].
      - apply list_elem_of_singleton in Hj as ->. exists (idx Before m).
        repeat split; lia. }
    split.
    { intros i Hi1 Hi2. apply elem_of_app.
      destruct (decide (i = idx Before m)) as [->|Hne].
      - right. by apply list_elem_of_singleton.
      - left. apply J2; lia. }
    subst m0. simpl. rewrite adapterRuns_app. simpl. split; [lia|done].
Qed.
(** The first microtask after [apicase]: [doRequest] with an adapter that
    faults at once. *)

Lemma adapterCalls_quiet run inner cs m :
  Forall (fun a => settling_call a = false) cs ->
  exists m',
    adapterCalls run inner cs m = Some m'
    /\ promises m' = promises m /\ microtasks m' = microtasks m.
Proof.
  intros H. revert m. induction H as [|a cs Ha _ IH]; intros m; simpl.
  - by exists m.
  - destruct a as [r|r|cb|name arg]; try done; unfold adapterCall.
    + destruct (IH (set_cancelCallback cb (set_cancelOwner inner m))) as (m'&E&P&Q).
      by exists m'.
    + destruct (IH (emit (EvCustom name arg) m)) as (m'&E&P&Q). by exists m'.
Qed.

Section FirstTick.

Variable N : nat.

(** [.catch(throwError)] on the promise of [doRequest], then the
    resolution of the terminal step's promise with the result. *)
Lemma caught_links m2 P ci :
  promises m2 = P ++ [ci] -> length P = S N ->
  P !! N = Some (fresh_cell (KFinal Before)) ->
  let m1 := resolveWith N (length (promises m2))
              (subscribe (S N) (RCatchError (length (promises m2)))
                 (snd (newCell KCaught m2))) in
  match pst ci with
  | Settled o =>
      promises m1 = <[N := final_locked]> P ++ [ci; fresh_cell KCaught]
      /\ microtasks m1
         = microtasks m2 ++ [JReact (RCatchError (S (S N))) o; JThenable N (S (S N))]
  | Pending rs =>
      promises m1
        = <[N := final_locked]> P
          ++ [mkCell (ckind ci) (Pending (rs ++ [RCatchError (S (S N))]))
                (alreadyResolved ci) (isResolved ci);
              fresh_cell KCaught]
      /\ microtasks m1 = microtasks m2 ++ [JThenable N (S (S N))]
  end.
Proof.
  intros HP HLen HN. rewrite HP, length_app, HLen. simpl length.
  rewrite Nat.add_1_r.
  assert (exists m3, snd (newCell KCaught m2) = m3
                     /\ promises m3 = P ++ [ci; fresh_cell KCaught]
                     /\ microtasks m3 = microtasks m2) as (m3&->&P3&Q3).
  { eexists. split; [reflexivity|]. simpl. rewrite HP. split; [by reassoc|done]. }
  assert (cell_at (S N) m3 = ci) as C3.
  { apply cell_at_lookup. rewrite P3, lookup_app_r by lia.
    by replace (S N - length P) with 0 by lia. }
  unfold subscribe. rewrite C3. destruct (pst ci) as [rs|o] eqn:Ep.
  - set (ci' := mkCell _ _ _ _). cbv zeta.
    assert (cell_at N (set_cell (S N) ci' m3) = fresh_cell (KFinal Before)) as C4.
    { apply cell_at_lookup. simpl. rewrite list_lookup_insert_ne by lia.
      rewrite P3, lookup_app_l by lia. done. }
    unfold resolveWith. rewrite C4. simpl. rewrite P3, Q3. split; [|done].
    rewrite (insert_app_r_alt P) by lia.
    replace (S N - length P) with 0 by lia. simpl.
    by rewrite insert_app_l by lia.
  - cbv zeta.
    assert (cell_at N (enqueue (JReact (RCatchError (S (S N))) o) m3)
            = fresh_cell (KFinal Before)) as C4.
    { apply cell_at_lookup. simpl. rewrite P3, lookup_app_l by lia. done. }
    unfold resolveWith. rewrite C4. simpl. rewrite P3, Q3. split.
    + by rewrite insert_app_l by lia.
    + by reassoc.
Qed.

Variable e : value.

(** The machine after the first microtask carries the rejection, or
    waits for the thenable of the adapter. *)
Lemma rejecting_intro armed P js ci m :
  promises m = <[N := final_locked]> P ++ [ci; fresh_cell KCaught] ->
  length P = S N ->
  (forall i, i < N -> exists c, P !! i = Some c /\ pst c = Pending []) ->
  (forall j, j ∈ js -> exists i, i < N /\ j = JThenable i (S i)) ->
  (forall i, i < N -> JThenable i (S i) ∈ js) ->
  (ci = mkCell KRequest (Settled (Rejected e)) true false
   /\ microtasks m = js ++ [JReact (RCatchError (S (S N))) (Rejected e);
                            JThenable N (S (S N))])
  \/ (ci = mkCell KRequest (Pending [RCatchError (S (S N))]) false false
      /\ microtasks m = js ++ [JAdapterCatch (S N) e; JThenable N (S (S N))])
  \/ (ci = mkCell KRequest (Pending [RCatchError (S (S N))]) false false
      /\ microtasks m = js ++ [JThenable N (S (S N))]
      /\ armed = false) ->
  rejecting N e armed m.
Proof.
  intros HP HLen HPi J1 J2 Hcase.
  assert (cell_at (S N) m = ci) as Ci.
  { apply cell_at_lookup. rewrite HP, lookup_app_r by (rewrite length_insert; lia).
    rewrite length_insert. by replace (S N - length P) with 0 by lia. }
  assert (forall x, x <> S N -> pst (cell_at x m) = Pending []) as Cx.
  { intros x Hx. unfold cell_at. rewrite HP.
    destruct (decide (x < S N)) as [Hlt|Hge].
    - rewrite lookup_app_l by (rewrite length_insert; lia).
      destruct (decide (x = N)) as [->|Hne].
      + by rewrite list_lookup_insert_eq by lia.
      + rewrite list_lookup_insert_ne by lia.
        destruct (HPi x) as (c&->&Hc); [lia|done].
    - rewrite lookup_app_r by (rewrite length_insert; lia).
      rewrite length_insert, HLen.
      destruct (x - S N) as [|[|n]] eqn:En; [lia|done|done]. }
  assert (forall i, i < N -> next_of_chain N i = S i) as Nx
    by (intros i Hi; unfold next_of_chain; by case_decide).
  assert (next_of_chain N N = S (S N)) as NN
    by (unfold next_of_chain; case_decide; [lia|done]).
  assert (exists tl, microtasks m = js ++ tl ++ [JThenable N (S (S N))]
                     /\ Forall (rejecting_job N e) tl) as (tl&Q&Ftl).
  { destruct Hcase as [(_&->)|[(_&->)|(_&->&_)]];
      [eexists [_]|eexists [_]|exists []]; (split; [done|]);
      by repeat constructor. }
  split; [rewrite HP, length_app, length_insert, HLen; simpl; lia|].
  split; [|split; [|split; [|split; [|split]]]].
  - rewrite Q. apply Forall_app. split.
    + apply Forall_forall. intros j Hj. destruct (J1 j Hj) as (i&Hi&->). simpl.
      split; [lia|]. by rewrite Nx.
    + apply Forall_app. split; [done|]. repeat constructor. by rewrite NN.
  - intros x rs Hx. destruct (decide (x = S N)) as [->|Hne].
    + rewrite Ci in Hx. destruct Hcase as [(->&_)|[(->&_)|(->&_)]]; [done| |];
        injection Hx as <-; by repeat constructor.
    + rewrite Cx in Hx by done. injection Hx as <-. constructor.
  - intros x o Hx. destruct (decide (x = S N)) as [->|Hne].
    + rewrite Ci in Hx. destruct Hcase as [(->&_)|[(->&_)|(->&_)]]; [|done..].
      by injection Hx.
    + by rewrite Cx in Hx.
  - intros i Hi. right; left. rewrite Q.
    destruct (decide (i = N)) as [->|Hne].
    + rewrite NN. rewrite !elem_of_app. right; right. by apply list_elem_of_singleton.
    + rewrite Nx by lia. apply elem_of_app. left. apply J2. lia.
  - rewrite Ci. by destruct Hcase as [(->&_)|[(->&_)|(->&_)]].
  - unfold source. destruct Hcase as [(->&Hq)|[(->&Hq)|(->&Hq&->)]]; rewrite ?Hq.
    + right; left. rewrite elem_of_app. right. by left.
    + right; right. eexists. rewrite Ci. split; [done|]. split; [by left|].
      split; [done|]. intros _. rewrite elem_of_app. right. by left.
    + right; right. eexists. rewrite Ci. split; [done|]. split; [by left|].
      split; [done|]. done.
Qed.

End FirstTick.
Lemma faulting_links N e armed P js mX m2 :
  promises mX = P ++ [fresh_cell KRequest] -> microtasks mX = js ->
  length P = S N ->
  P !! N = Some (fresh_cell (KFinal Before)) ->
  (forall i, i < N -> exists c, P !! i = Some c /\ pst c = Pending []) ->
  (forall j, j ∈ js -> exists i, i < N /\ j = JThenable i (S i)) ->
  (forall i, i < N -> JThenable i (S i) ∈ js) ->
  m2 = rejectWith (S N) e mX \/ m2 = enqueue (JAdapterCatch (S N) e) mX
  \/ (m2 = mX /\ armed = false) ->
  rejecting N e armed
    (resolveWith N (length (promises m2))
       (subscribe (S N) (RCatchError (length (promises m2)))
          (snd (newCell KCaught m2)))).
Proof.
  intros HP HQ HLen HN HPi J1 J2 Hm2.
  assert (cell_at (S N) mX = fresh_cell KRequest) as CX.
  { apply cell_at_lookup. rewrite HP, lookup_app_r by lia.
    by replace (S N - length P) with 0 by lia. }
  assert (exists ci,
            promises m2 = P ++ [ci]
            /\ ((ci = mkCell KRequest (Settled (Rejected e)) true false
                 /\ microtasks m2 = js)
                \/ (ci = fresh_cell KRequest
                    /\ microtasks m2 = js ++ [JAdapterCatch (S N) e])
                \/ (ci = fresh_cell KRequest
                    /\ microtasks m2 = js /\ armed = false)))
    as (ci&P2&Hci).
  { destruct Hm2 as [->|[->|(->&Ha)]].
    - eexists. unfold rejectWith, settle. rewrite CX. simpl. rewrite HP, HQ.
      split; [|left; split; [reflexivity|by rewrite app_nil_r]].
      rewrite (insert_app_r_alt P) by lia.
      by replace (S N - length P) with 0 by lia.
    - exists (fresh_cell KRequest). simpl. rewrite HP, HQ. split; [done|].
      right. left. done.
    - exists (fresh_cell KRequest). split; [done|]. right. right. done. }
  pose proof (caught_links N m2 P ci P2 HLen HN) as H. cbv zeta in H.
  destruct Hci as [(->&Q2)|[(->&Q2)|(->&Q2&Ha)]]; unfold fresh_cell in H;
    simpl pst in H; cbv beta iota in H; destruct H as (P1&Q1).
  - apply (rejecting_intro N e armed P js _ _ P1); try done.
    left. split; [done|]. by rewrite Q1, Q2.
  - apply (rejecting_intro N e armed P js _ _ P1); try done.
    right. left. split; [done|]. rewrite Q1, Q2. by reassoc.
  - apply (rejecting_intro N e armed P js _ _ P1); try done.
    right. right. split; [done|]. by rewrite Q1, Q2.
Qed.

(** The first microtask of a request whose adapter faults at once, or
    returns a thenable that is still pending. *)
Lemma faulting_request production adapter req fuel N e armed w m0 :
  ready N w m0 -> adapterRuns (trace m0) = 0 ->
  faults_at_once e adapter \/ (returns_thenable adapter /\ armed = false) ->
  exists m1,
    perform production adapter req fuel ITick m0 = Some m1
    /\ rejecting N e armed m1.
Proof.
  intros (HL&Hs&HN&js&Q&J1&J2) Ha Hf.
  assert (promises m0 !! N = Some (fresh_cell (KFinal Before))) as HN'.
  { destruct (lookup_lt_is_Some_2 (promises m0) N) as (c&Hc); [lia|].
    by rewrite <- HN, (cell_at_lookup _ _ _ Hc). }
  assert (forall i, i < N -> exists c, promises m0 !! i = Some c /\ pst c = Pending [])
    as HPi.
  { intros i Hi. destruct (lookup_lt_is_Some_2 (promises m0) i) as (c&Hc); [lia|].
    exists c. split; [done|]. destruct (Hs i Hi) as (H&_).
    by rewrite (cell_at_lookup _ _ _ Hc) in H. }
  simpl. rewrite Q. simpl. rewrite doRequest_unfold. cbv zeta. simpl promises.
  rewrite HL.
  assert (convert_result adapter w = Throws e
          \/ exists arg,
               convert_result adapter w = Returns arg
               /\ Forall (fun a => settling_call a = false)
                    (acalls (callback adapter 0 arg (result (res m0))))
               /\ (faults_with e (aret (callback adapter 0 arg (result (res m0))))
                   \/ (aret (callback adapter 0 arg (result (res m0))) = RetThenable None
                       /\ armed = false))) as [Hc|(arg&Hc&Hq&Hw)].
  { destruct Hf as [Hf|(Hf&Harm)].
    - destruct (Hf w (result (res m0))) as [Hc|(arg&Hc&Hq&Hw)]; [by left|].
      right. exists arg. auto.
    - destruct (Hf w (result (res m0))) as (arg&Hc&Hq&Hw).
      right. exists arg. auto. }
  - simpl res. rewrite Hc. eexists. split; [reflexivity|].
    apply (faulting_links N e armed (promises m0) js
             (record (ConvertThrow w e)
                (snd (newCell KRequest (set_microtasks js m0))))); try done.
    by left.
  - simpl res. simpl trace. rewrite Hc, Ha.
    destruct (adapterCalls_quiet (withPayload production req fuel) (S N)
                (acalls (callback adapter 0 arg (result (res m0))))
                (record (AdapterCallback arg (result (res m0))
                           (callback adapter 0 arg (result (res m0))))
                   (snd (newCell KRequest (set_microtasks js m0)))) Hq)
      as (ma&E&Pa&Qa).
    rewrite E. eexists. split; [reflexivity|].
    apply (faulting_links N e armed (promises m0) js ma); try done.
    destruct Hw as [[->|[->|(->&->)]]|(->&Harm)]; simpl; auto.
Qed.

(** What [apicase] leaves of a before-chain whose hooks call [next] at
    once. *)
Lemma apicase_ready production adapter req fuel :
  Forall continues_at_once (hooks req Before) ->
  length (hooks req Before) < fuel ->
  exists w m0,
    apicase production adapter req fuel = Some (0, m0)
    /\ ready (length (hooks req Before)) w m0
    /\ adapterRuns (trace m0) = 0.
Proof.
  intros Hat Hfuel. set (N := length (hooks req Before)) in *.
  destruct (before_links production req N (fuel - S N) (req_payload req)
              (init adapter req) Hat)
    as (m0&w&js&E&L0&_&Mid&Fin&Q0&J1&J2&A0&_); [done|done|].
  replace (S N + (fuel - S N)) with fuel in E by lia.
  exists w, m0. split; [exact E|]. split; [|by rewrite A0].
  split; [exact L0|]. split.
  { intros i Hi. destruct (Mid i) as (c&Hc&H1&H2); [simpl; lia|done|].
    by rewrite (cell_at_lookup _ _ _ Hc). }
  split; [by apply cell_at_lookup|]. exists js. split; [exact Q0|]. split.
  - intros j Hj. destruct (J1 j Hj) as (i&_&Hi&->). by exists i.
  - intros i Hi. apply J2; [simpl; lia|done].
Qed.

Lemma performAll_app production adapter req fuel l1 l2 m m1 m2 :
  performAll production adapter req fuel l1 m = Some m1 ->
  performAll production adapter req fuel l2 m1 = Some m2 ->
  performAll production adapter req fuel (l1 ++ l2) m = Some m2.
Proof.
  revert m. induction l1 as [|i l1 IH]; simpl; intros m H1 H2.
  - by injection H1 as ->.
  - destruct (perform _ _ _ _ _ _) as [m'|]; [|done]. by apply IH.
Qed.

(** The 'if' half: behind a before-chain whose hooks call [next] at once,
    a fault of the adapter rejects the completion promise, the [error]
    event being on the bus, within finitely many microtasks. *)
Lemma fault_rejects production adapter req e fuel :
  Forall continues_at_once (hooks req Before) ->
  faults_at_once e adapter ->
  length (hooks req Before) < fuel ->
  exists n m,
    session production adapter req fuel (repeat ITick n) = Some (0, m)
    /\ settled 0 m = Some (Rejected e)
    /\ EvError e ∈ bus m
    /\ microtasks m = [].
Proof.
  intros Hat Hf Hfuel.
  destruct (apicase_ready production adapter req fuel Hat Hfuel) as (w&m0&E&Hr&A0).
  destruct (faulting_request production adapter req fuel _ e true w m0 Hr A0)
    as (m1&E1&R1); [by left|].
  destruct (rejecting_drain _ e true production adapter req fuel (potential m1) m1 R1)
    as (m'&E'&R'&Q'); [lia|].
  destruct (rejecting_done _ e m' R' Q') as (Hb&Hc).
  exists (S (potential m1)), m'. split.
  { unfold session. rewrite E.
    change (repeat ITick (S (potential m1))) with (ITick :: repeat ITick (potential m1)).
    cbn [performAll]. rewrite E1. by rewrite E'. }
  split; [unfold settled; rewrite Hc by lia; done|]. done.
Qed.

(** The same when the thenable the adapter returned rejects later, after
    any number of microtasks, the adapter not having settled. *)
Lemma late_fault_rejects production adapter req e fuel k :
  Forall continues_at_once (hooks req Before) ->
  returns_thenable adapter ->
  length (hooks req Before) < fuel ->
  exists n m,
    session production adapter req fuel
      (ITick :: repeat ITick k
         ++ ILateThenable (S (length (hooks req Before))) e :: repeat ITick n)
      = Some (0, m)
    /\ settled 0 m = Some (Rejected e)
    /\ EvError e ∈ bus m
    /\ microtasks m = [].
Proof.
  intros Hat Hf Hfuel.
  destruct (apicase_ready production adapter req fuel Hat Hfuel) as (w&m0&E&Hr&A0).
  destruct (faulting_request production adapter req fuel _ e false w m0 Hr A0)
    as (m1&E1&R1); [by right|].
  destruct (rejecting_ticks _ e false production adapter req fuel k m1 R1)
    as (m2&E2&R2).
  destruct (rejecting_arm _ e production adapter req fuel m2 R2) as (m3&E3&R3).
  destruct (rejecting_drain _ e true production adapter req fuel (potential m3) m3 R3)
    as (m'&E'&R'&Q'); [lia|].
  destruct (rejecting_done _ e m' R' Q') as (Hb&Hc).
  exists (potential m3), m'. split.
  { unfold session. rewrite E. cbn [performAll]. rewrite E1.
    erewrite performAll_app; [reflexivity|exact E2|].
    cbn [performAll]. rewrite E3. exact E'. }
  split; [unfold settled; rewrite Hc by lia; done|]. done.
Qed.

